(** * Receipt extraction pipeline: a shallow embedding and its properties

    The development follows the backend of the personal finance assistant:

    - [backend/src/services/ocrService.js]        ([Module OCRService])
    - [backend/src/services/geminiOCRService.js]  ([Module GeminiOCRService])
    - [backend/src/models/Receipt.js]             ([Module Receipt])
    - [backend/src/controllers/receiptController.js] ([Module ReceiptController])

    Conventions of the embedding.

    - A JavaScript string is a [list ascii]: one element per code unit, code
      units below 256 (the OCR engine is configured with an ASCII character
      whitelist).
    - A JavaScript number is an exact rational ([Q]).  Every constant the
      recognizers add or compare is a short decimal, and the sums that occur
      (0.3 + 0.4 + 0.3 + 0.2 and the like) print as the same decimals in
      double arithmetic.  [None] stands for NaN where NaN can arise.  The
      pagination helpers of [backend/src/utils/apiResponse.js] read numbers
      of any size from the query; their numbers are doubles, every result
      rounded to the nearest ([Module Double]).
    - A [Date] is its time value, milliseconds since the epoch, as a [Z];
      [None] is the invalid date.
    - Regular expressions are lists of quantified character classes run by a
      backtracking matcher with the priorities of the JavaScript one.
    - What the JavaScript runtime and the external services decide (the date
      parser, the JSON parser, the clock, the OCR engine, the vision model,
      the file system, the document store) is a parameter: the class
      [Platform] and the records [World] and [Db]. *)

From Stdlib Require Import List Ascii String ZArith QArith Qminmax Bool Lia Arith
  Sorting.Sorted.
Import ListNotations.

Close Scope Q_scope.

Set Implicit Arguments.

(** ** Strings *)

Definition text := list ascii.

(** A string literal of the source. *)
Definition L (s : string) : text := list_ascii_of_string s.

Module Chars.

Definition code (c : ascii) : N := N_of_ascii c.

Definition between (lo hi : N) (c : ascii) : bool :=
  ((lo <=? code c) && (code c <=? hi))%N.

(** [\d] *)
Definition isDigit : ascii -> bool := between 48 57.

Definition isLower : ascii -> bool := between 97 122.
Definition isUpper : ascii -> bool := between 65 90.

(** [\s] on code units below 256: tab, line feed, vertical tab, form feed,
    carriage return, space and no-break space. *)
Definition isSpace (c : ascii) : bool :=
  between 9 13 c || (code c =? 32)%N || (code c =? 160)%N.

(** The line terminators below 256: line feed and carriage return. *)
Definition isLineTerminator (c : ascii) : bool :=
  (code c =? 10)%N || (code c =? 13)%N.

(** [.] without the [s] flag. *)
Definition isDot (c : ascii) : bool := negb (isLineTerminator c).

(** Upper-case letters of Latin-1 other than A-Z (their lower case is 32
    above, as for A-Z). *)
Definition isUpperLatin1 (c : ascii) : bool :=
  between 192 214 c || between 216 222 c.

(** [String.prototype.toLowerCase] on one code unit. *)
Definition toLower (c : ascii) : ascii :=
  if isUpper c || isUpperLatin1 c then ascii_of_N (code c + 32) else c.

(** A pattern character under the [i] flag: a letter of the pattern
    matches itself and its other case, anything else only itself. *)
Definition chr_ci (p c : ascii) : bool :=
  if isLower p || isUpper p then Ascii.eqb (toLower c) (toLower p) && (isLower c || isUpper c)
  else Ascii.eqb c p.

Definition chr (p c : ascii) : bool := Ascii.eqb c p.

Definition any (ps : list (ascii -> bool)) (c : ascii) : bool :=
  existsb (fun p => p c) ps.

End Chars.

Module JsString.

Import Chars.

Fixpoint dropWhile (p : ascii -> bool) (s : text) : text :=
  match s with
  | c :: s' => if p c then dropWhile p s' else s
  | [] => []
  end.

(** [String.prototype.trim]: white space and line terminators go, at both
    ends. *)
Definition trim (s : text) : text :=
  rev (dropWhile isSpace (rev (dropWhile isSpace s))).

Definition toLowerCase (s : text) : text := map toLower s.

Fixpoint isPrefix (p s : text) : bool :=
  match p, s with
  | [], _ => true
  | a :: p', b :: s' => Ascii.eqb a b && isPrefix p' s'
  | _ :: _, [] => false
  end.

(** [String.prototype.includes]. *)
Fixpoint includes (s needle : text) : bool :=
  isPrefix needle s ||
  match s with
  | [] => false
  | _ :: s' => includes s' needle
  end.

(** [s.split('\n')]: the pieces between line feeds; never empty as a list. *)
Fixpoint splitLines (s : text) : list text :=
  match s with
  | [] => [[]]
  | c :: s' =>
      if Ascii.eqb c "010"%char then [] :: splitLines s'
      else match splitLines s' with
           | l :: ls => (c :: l) :: ls
           | [] => [[c]]
           end
  end.

Definition text_eqb (a b : text) : bool :=
  (List.length a =? List.length b) && isPrefix a b.

(** [s.replace(pat, rep)] with a string pattern: the first occurrence. *)
Fixpoint replaceFirst (s pat rep : text) : text :=
  if isPrefix pat s then rep ++ skipn (List.length pat) s
  else match s with
       | [] => []
       | c :: s' => c :: replaceFirst s' pat rep
       end.

(** [path.extname] of the POSIX [path] module.  It looks at the last
    component of the path, trailing slashes left aside, and returns that
    component from its last dot on; the result is empty when the
    component has no dot, when its last dot is its first character, and
    when the component is [..]. *)
Fixpoint takeWhile (p : ascii -> bool) (s : text) : text :=
  match s with
  | c :: s' => if p c then c :: takeWhile p s' else []
  | [] => []
  end.

Definition isSlash (c : ascii) : bool := Ascii.eqb c "/"%char.

Definition lastComponent (p : text) : text :=
  rev (takeWhile (fun c => negb (isSlash c)) (dropWhile isSlash (rev p))).

Fixpoint fromLastDot (s : text) (found : option text) : option text :=
  match s with
  | [] => found
  | c :: s' => if Ascii.eqb c "."%char then fromLastDot s' (Some s) else fromLastDot s' found
  end.

Definition extname (p : text) : text :=
  match lastComponent p with
  | [] => []
  | c :: rest =>
      match fromLastDot rest None with
      | Some e => if text_eqb (c :: rest) (L "..") then [] else e
      | None => []
      end
  end.

End JsString.

(** ** Regular expressions

    The patterns of the two services are sequences of character classes
    under a quantifier, capture-group brackets, one alternation of words
    and the anchors.  [exec] is the backtracking matcher on that fragment:
    a greedy quantifier tries the longest run first, a lazy one the
    shortest, and an alternation its words from left to right. *)

Module RegExp.

Import Chars.

Inductive item :=
| Cls (p : ascii -> bool) (lo : nat) (hi : option nat) (greedy : bool)
| Alt (words : list (list (ascii -> bool)))
| Open (g : nat)
| Close (g : nat)
| Bol
| Eol (multiline : bool).

Definition pattern := list item.

(** Spelling of the source's quantifiers. *)
Definition one p := Cls p 1 (Some 1) true.
Definition star p := Cls p 0 None true.
Definition plus p := Cls p 1 None true.
Definition opt p := Cls p 0 (Some 1) true.
Definition rep p lo hi := Cls p lo (Some hi) true.
Definition lazy_plus p := Cls p 1 None false.
Definition lit (s : string) : pattern := map (fun c => one (chr c)) (L s).
Definition lit_ci (s : string) : pattern := map (fun c => one (chr_ci c)) (L s).
Definition word_ci (s : string) : list (ascii -> bool) := map chr_ci (L s).

(** Capture state: the groups opened and not yet closed, and the closed
    ones, as offsets from the start of the match. *)
Record caps := { opened : list (nat * nat); closed : list (nat * (nat * nat)) }.

Definition no_caps : caps := {| opened := []; closed := [] |}.

Fixpoint lookup {A} (g : nat) (l : list (nat * A)) : option A :=
  match l with
  | [] => None
  | (k, v) :: l' => if k =? g then Some v else lookup g l'
  end.

Definition open_group (g n : nat) (st : caps) : caps :=
  {| opened := (g, n) :: opened st; closed := closed st |}.

Definition close_group (g n : nat) (st : caps) : caps :=
  match lookup g (opened st) with
  | Some b => {| opened := opened st; closed := (g, (b, n)) :: closed st |}
  | None => st
  end.

(** Length of the longest prefix of [s] in the class: without a bound,
    and with at most [h] characters. *)
Fixpoint runAll (p : ascii -> bool) (s : text) : nat :=
  match s with
  | c :: s' => if p c then S (runAll p s') else 0
  | [] => 0
  end.

Fixpoint runUpTo (p : ascii -> bool) (h : nat) (s : text) {struct h} : nat :=
  match h with
  | 0 => 0
  | S h' =>
      match s with
      | c :: s' => if p c then S (runUpTo p h' s') else 0
      | [] => 0
      end
  end.

Definition run (p : ascii -> bool) (hi : option nat) (s : text) : nat :=
  match hi with
  | Some h => runUpTo p h s
  | None => runAll p s
  end.

(** [lo + d], [lo + d - 1], ..., [lo]: the order of a greedy quantifier. *)
Fixpoint try_down {R} (f : nat -> option R) (lo d : nat) : option R :=
  match f (lo + d) with
  | Some r => Some r
  | None => match d with 0 => None | S d' => try_down f lo d' end
  end.

(** [k], [k + 1], ..., [k + d]: the order of a lazy quantifier. *)
Fixpoint try_up {R} (f : nat -> option R) (k d : nat) : option R :=
  match f k with
  | Some r => Some r
  | None => match d with 0 => None | S d' => try_up f (S k) d' end
  end.

Fixpoint wordPrefix (w : list (ascii -> bool)) (s : text) : bool :=
  match w, s with
  | [], _ => true
  | p :: w', c :: s' => p c && wordPrefix w' s'
  | _ :: _, [] => false
  end.

Fixpoint try_words {R} (f : nat -> option R) (s : text) (ws : list (list (ascii -> bool))) : option R :=
  match ws with
  | [] => None
  | w :: ws' =>
      match (if wordPrefix w s then f (List.length w) else None) with
      | Some r => Some r
      | None => try_words f s ws'
      end
  end.

(** One attempt at one position: [at0] says that the position is index 0
    of the input, [s] is the input from the current point and [n] the
    number of characters matched so far.  The result is the length of the
    match and its groups. *)
Fixpoint exec (its : pattern) (at0 : bool) (s : text) (n : nat) (st : caps)
  : option (nat * caps) :=
  match its with
  | [] => Some (n, st)
  | it :: rest =>
      match it with
      | Cls p lo hi greedy =>
          let m := run p hi s in
          let k := fun j => exec rest at0 (skipn j s) (n + j) st in
          if m <? lo then None
          else if greedy then try_down k lo (m - lo) else try_up k lo (m - lo)
      | Alt ws =>
          try_words (fun j => exec rest at0 (skipn j s) (n + j) st) s ws
      | Open g => exec rest at0 s n (open_group g n st)
      | Close g => exec rest at0 s n (close_group g n st)
      | Bol => if at0 && (n =? 0) then exec rest at0 s n st else None
      | Eol multiline =>
          match s with
          | [] => exec rest at0 s n st
          | c :: _ => if multiline && isLineTerminator c then exec rest at0 s n st else None
          end
      end
  end.

(** A match: [m_text] is element 0 of the JavaScript match array and
    [group g] element [g]. *)
Record rmatch := { m_index : nat; m_text : text; m_groups : list (nat * text) }.

Definition substring (s : text) (b e : nat) : text := firstn (e - b) (skipn b s).

Definition mk_match (i : nat) (s : text) (len : nat) (st : caps) : rmatch :=
  {| m_index := i;
     m_text := firstn len s;
     m_groups := map (fun '(g, (b, e)) => (g, substring s b e)) (closed st) |}.

Definition group (g : nat) (m : rmatch) : option text := lookup g (m_groups m).

(** The successive matches of a global pattern: after a match the search
    resumes at its end, one further when the match is empty. *)
Fixpoint scan (its : pattern) (s : text) (i skip : nat) {struct s} : list rmatch :=
  match skip with
  | S k =>
      match s with
      | [] => []
      | _ :: s' => scan its s' (S i) k
      end
  | 0 =>
      match exec its (i =? 0) s 0 no_caps with
      | Some (len, st) =>
          mk_match i s len st ::
          match s with
          | [] => []
          | _ :: s' => scan its s' (S i) (pred len)
          end
      | None =>
          match s with
          | [] => []
          | _ :: s' => scan its s' (S i) 0
          end
      end
  end.

(** [text.matchAll(re)] of a pattern with the [g] flag. *)
Definition matchAll (its : pattern) (s : text) : list rmatch := scan its s 0 0.

(** [text.match(re)] of a pattern with the [g] flag: the matched
    substrings and nothing of their groups, [null] when there is none. *)
Definition match_g (its : pattern) (s : text) : option (list text) :=
  match matchAll its s with
  | [] => None
  | ms => Some (map m_text ms)
  end.

(** [text.match(re)] and [re.exec(text)] of a pattern without the [g]
    flag: the first match, with its groups. *)
Definition match1 (its : pattern) (s : text) : option rmatch :=
  hd_error (matchAll its s).

Definition test (its : pattern) (s : text) : bool :=
  match match1 its s with Some _ => true | None => false end.

(** [text.replace(re, '')] of a pattern with the [g] flag. *)
Fixpoint remove_scan (its : pattern) (s : text) (i skip : nat) {struct s} : text :=
  match skip with
  | S k =>
      match s with
      | [] => []
      | _ :: s' => remove_scan its s' (S i) k
      end
  | 0 =>
      match exec its (i =? 0) s 0 no_caps with
      | Some (len, _) =>
          match s with
          | [] => []
          | c :: s' =>
              match len with
              | 0 => c :: remove_scan its s' (S i) 0
              | S l => remove_scan its s' (S i) l
              end
          end
      | None =>
          match s with
          | [] => []
          | c :: s' => c :: remove_scan its s' (S i) 0
          end
      end
  end.

Definition removeAll (its : pattern) (s : text) : text := remove_scan its s 0 0.

End RegExp.


(** ** Numbers *)

Module JsNumber.

Import Chars.

Definition digitVal (c : ascii) : Z := Z.of_N (code c) - 48.

(** The leading digits of [s], their value on top of [acc], their number
    and what follows them. *)
Fixpoint digits (s : text) (acc : Z) (n : nat) : Z * nat * text :=
  match s with
  | c :: s' => if isDigit c then digits s' (10 * acc + digitVal c)%Z (S n) else (acc, n, s)
  | [] => (acc, n, s)
  end.

Definition pow10 (n : nat) : positive := Pos.pow 10 (Pos.of_nat n).

Definition scale10 (q : Q) (e : Z) : Q :=
  match e with
  | Z0 => q
  | Zpos p => (q * inject_Z (Z.pow 10 (Zpos p)))%Q
  | Zneg p => (q / inject_Z (Z.pow 10 (Zpos p)))%Q
  end.

(** An exponent part at the head of [s], when there is a complete one. *)
Definition exponent (s : text) : Z :=
  match s with
  | c :: s' =>
      if Ascii.eqb c "e"%char || Ascii.eqb c "E"%char then
        match s' with
        | sg :: s'' =>
            if Ascii.eqb sg "-"%char then
              let '(v, n, _) := digits s'' 0%Z 0 in if n =? 0 then 0%Z else (- v)%Z
            else if Ascii.eqb sg "+"%char then
              let '(v, n, _) := digits s'' 0%Z 0 in if n =? 0 then 0%Z else v
            else
              let '(v, n, _) := digits s' 0%Z 0 in if n =? 0 then 0%Z else v
        | [] => 0%Z
        end
      else 0%Z
  | [] => 0%Z
  end.

(** The unsigned decimal literal at the head of [s]: integer digits, a
    dot with fraction digits, an exponent; at least one digit. *)
Definition unsignedDecimal (s : text) : option Q :=
  let '(ip, ni, r) := digits s 0%Z 0 in
  match r with
  | c :: r' =>
      if Ascii.eqb c "."%char then
        let '(fp, nf, r'') := digits r' 0%Z 0 in
        if (ni + nf =? 0) then None
        else
          Some (scale10 (if nf =? 0 then inject_Z ip
                         else Qmake (ip * Zpos (pow10 nf) + fp) (pow10 nf))
                        (exponent r''))
      else if ni =? 0 then None else Some (scale10 (inject_Z ip) (exponent r))
  | [] => if ni =? 0 then None else Some (inject_Z ip)
  end.

(** [parseFloat]: leading white space is skipped and the longest decimal
    literal at the head is the value.  [None] is a result that is not a
    finite number: NaN (no literal at the head) or an infinity (the
    literal [Infinity]); the program only tests the result against
    finite bounds, which both fail. *)
Definition parseFloat (s : text) : option Q :=
  match JsString.dropWhile isSpace s with
  | c :: s' =>
      if Ascii.eqb c "-"%char then option_map Qopp (unsignedDecimal s')
      else if Ascii.eqb c "+"%char then unsignedDecimal s'
      else unsignedDecimal (c :: s')
  | [] => None
  end.

(** [parseFloat(undefined)]: the argument is first turned into the string
    ["undefined"]. *)
Definition parseFloat_arg (a : option text) : option Q :=
  match a with
  | Some s => parseFloat s
  | None => parseFloat (L "undefined")
  end.

Definition Qleb (a b : Q) : bool := Qle_bool a b.
Definition Qltb (a b : Q) : bool := negb (Qle_bool b a).

(** [x > lo && x < hi] with [x] possibly NaN. *)
Definition inOpen (x : option Q) (lo hi : Q) : bool :=
  match x with
  | Some q => Qltb lo q && Qltb q hi
  | None => false
  end.

End JsNumber.

(** ** JSON values *)

Module Json.

#[local] Set Warnings "-register-all".

Inductive json :=
| JNull
| JBool (b : bool)
| JNum (q : Q)
| JStr (s : text)
| JArr (l : list json)
| JObj (fields : list (text * json)).

(** A JavaScript value that may be [undefined]. *)
Definition jsval := option json.

(** ToBoolean. *)
Definition truthy (v : jsval) : bool :=
  match v with
  | None => false
  | Some JNull => false
  | Some (JBool b) => b
  | Some (JNum q) => negb (Qeq_bool q 0)
  | Some (JStr s) => negb (JsString.text_eqb s [])
  | Some (JArr _) => true
  | Some (JObj _) => true
  end.

(** [a || b] *)
Definition or_else (a : jsval) (b : json) : json :=
  match a with
  | Some v => if truthy a then v else b
  | None => b
  end.

(** The last binding of a key wins, as [JSON.parse] builds the object. *)
Fixpoint lookupKey (k : text) (fs : list (text * json)) : option json :=
  match fs with
  | [] => None
  | (k', v) :: fs' =>
      match lookupKey k fs' with
      | Some v' => Some v'
      | None => if JsString.text_eqb k' k then Some v else None
      end
  end.

(** Deep equality of two values. *)
Fixpoint json_eqb (a b : json) {struct a} : bool :=
  match a, b with
  | JNull, JNull => true
  | JBool x, JBool y => Bool.eqb x y
  | JNum x, JNum y => Qeq_bool x y
  | JStr x, JStr y => JsString.text_eqb x y
  | JArr xs, JArr ys =>
      (fix all2 (xs ys : list json) {struct xs} : bool :=
         match xs, ys with
         | [], [] => true
         | x :: xs', y :: ys' => json_eqb x y && all2 xs' ys'
         | _, _ => false
         end) xs ys
  | JObj xs, JObj ys =>
      (fix all2 (xs ys : list (text * json)) {struct xs} : bool :=
         match xs, ys with
         | [], [] => true
         | (k, x) :: xs', (k', y) :: ys' => JsString.text_eqb k k' && json_eqb x y && all2 xs' ys'
         | _, _ => false
         end) xs ys
  | _, _ => false
  end.

End Json.

(** ** Dates

    The time arithmetic of the language standard: days since the epoch,
    the proleptic Gregorian calendar, and a local time zone at a constant
    offset from UTC. *)

Module JsDate.

Local Open Scope Z_scope.

Definition msPerDay : Z := 86400000.

Definition Day (t : Z) : Z := t / msPerDay.
Definition TimeWithinDay (t : Z) : Z := t mod msPerDay.

Definition isLeap (y : Z) : bool :=
  (y mod 4 =? 0) && (negb (y mod 100 =? 0) || (y mod 400 =? 0)).

Definition DaysInYear (y : Z) : Z := if isLeap y then 366 else 365.

Definition DayFromYear (y : Z) : Z :=
  365 * (y - 1970) + (y - 1969) / 4 - (y - 1901) / 100 + (y - 1601) / 400.

(** The year of a day: the largest [y] with [DayFromYear y <= d], found
    from the mean length of a year and corrected by one. *)
Definition YearFromDay (d : Z) : Z :=
  let y := 1970 + (d * 400) / 146097 in
  if DayFromYear (y + 1) <=? d then y + 1
  else if DayFromYear y <=? d then y
  else y - 1.

Definition YearFromTime (t : Z) : Z := YearFromDay (Day t).
Definition InLeapYear (t : Z) : bool := isLeap (YearFromTime t).
Definition DayWithinYear (t : Z) : Z := Day t - DayFromYear (YearFromTime t).

(** Day number within the year of the first day of month [m] (0-11). *)
Definition monthStart (m : Z) (leap : bool) : Z :=
  let l := if leap then 1 else 0 in
  match m with
  | 0 => 0
  | 1 => 31
  | 2 => 59 + l
  | 3 => 90 + l
  | 4 => 120 + l
  | 5 => 151 + l
  | 6 => 181 + l
  | 7 => 212 + l
  | 8 => 243 + l
  | 9 => 273 + l
  | 10 => 304 + l
  | _ => 334 + l
  end.

Definition MonthFromDay (d : Z) (leap : bool) : Z :=
  if d <? monthStart 1 leap then 0
  else if d <? monthStart 2 leap then 1
  else if d <? monthStart 3 leap then 2
  else if d <? monthStart 4 leap then 3
  else if d <? monthStart 5 leap then 4
  else if d <? monthStart 6 leap then 5
  else if d <? monthStart 7 leap then 6
  else if d <? monthStart 8 leap then 7
  else if d <? monthStart 9 leap then 8
  else if d <? monthStart 10 leap then 9
  else if d <? monthStart 11 leap then 10
  else 11.

Definition MonthFromTime (t : Z) : Z := MonthFromDay (DayWithinYear t) (InLeapYear t).

Definition DateFromTime (t : Z) : Z :=
  DayWithinYear t - monthStart (MonthFromTime t) (InLeapYear t) + 1.

(** [MakeDay]: months beyond 0-11 carry into the year, days beyond the
    month into the following months. *)
Definition MakeDay (year month date : Z) : Z :=
  let ym := year + month / 12 in
  let mn := month mod 12 in
  DayFromYear ym + monthStart mn (isLeap ym) + date - 1.

Definition MakeDate (day time : Z) : Z := day * msPerDay + time.

Section Zone.

(** Offset of local time from UTC, in milliseconds. *)
Variable LocalTZA : Z.

Definition LocalTime (t : Z) : Z := t + LocalTZA.
Definition UTC (t : Z) : Z := t - LocalTZA.

Definition getFullYear (t : Z) : Z := YearFromTime (LocalTime t).
Definition getMonth (t : Z) : Z := MonthFromTime (LocalTime t).
Definition getDate (t : Z) : Z := DateFromTime (LocalTime t).

(** [new Date(year, month, day)]: local midnight; a year from 0 to 99
    is taken in the twentieth century. *)
Definition newDate3 (year month day : Z) : Z :=
  let yr := if (0 <=? year) && (year <=? 99) then 1900 + year else year in
  UTC (MakeDate (MakeDay yr month day) 0).

End Zone.

(** [date.toISOString().split('T')[0]] for the years 0 to 9999. *)
Definition digitChar (d : Z) : ascii := ascii_of_N (Z.to_N (48 + d mod 10)).

Definition pad2 (n : Z) : text := [digitChar (n / 10); digitChar n].

Definition pad4 (n : Z) : text :=
  [digitChar (n / 1000); digitChar (n / 100); digitChar (n / 10); digitChar n].

Definition isoDate (t : Z) : text :=
  pad4 (YearFromTime t) ++ L "-" ++ pad2 (MonthFromTime t + 1) ++ L "-" ++ pad2 (DateFromTime t).

End JsDate.

(** ** The runtime

    What the program takes from the JavaScript runtime without defining
    it. *)

Class Platform := {
(** Offset of local time from UTC, in milliseconds. *)
LocalTZA : Z;
(** [new Date(s)] for a string: the time value, [None] for an invalid
    date.  The formats beyond the ISO one are the runtime's own. *)
Date_parse : text -> option Z;
(** [new Date(v)] for an array or an object. *)
Date_ofObject : Json.json -> option Z;
(** [JSON.parse]: [None] when it throws. *)
JSON_parse : text -> option Json.json;
(** The numeric value of a string, an array or an object in a
    comparison; [None] is NaN. *)
ToNumber_nonPrimitive : Json.json -> option Q
}.


(** ** The extraction result *)

Module Data.

Import Json.

Record Field (A : Type) := { value : A; confidence : Q }.
Record Category := { suggested : text; category_confidence : Q }.
Record Item := { name : text; price : Q; item_confidence : Q }.

Record ParsedData := {
  merchantName : Field text;
  totalAmount : Field Q;
  date : Field Z;
  items : list Item;
  taxAmount : Field Q;
  category : Category;
  paymentMethod : Field text
}.

(** A candidate of the amount and date recognizers. *)
Record Candidate (A : Type) := { c_value : A; c_confidence : Q; c_context : text }.

(** The output of [formatParsedData] of the vision tier: what the model
    answered, field by field, with the date made a [Date]. *)
Record VisionDate := { vd_value : Z; vd_confidence : json }.

Record VisionData := {
  v_merchantName : json;
  v_totalAmount : json;
  v_date : VisionDate;
  v_items : json;
  v_taxAmount : json;
  v_category : json;
  v_paymentMethod : json;
  v_subtotal : json
}.

Inductive Parsed :=
| NoData
| Heuristic (d : ParsedData)
| Vision (d : VisionData).

(** The object both tiers and the orchestrator return. *)
Record OcrResult := {
  success : bool;
  error : option text;
  extractedText : json;
  parsedData : Parsed;
  ocr_confidence : json;
  processingTime : Z;
  method : text
}.

End Data.

(** ** Effects

    The services read the clock, call the OCR engine, the vision model, the
    file system and the document store, and keep two lazily initialised
    singletons.  [World] holds what the outside answers during one run;
    [St] is what persists between calls; [M] threads [St] and an exception. *)

Module Eff.

Inductive Exn (A : Type) : Type :=
| Ok (a : A)
| Throw (message : text).

Arguments Throw {A} message.

Record World := {
(** [process.env.OCR_METHOD] and [process.env.GEMINI_API_KEY]. *)
env_OCR_METHOD : option text;
env_GEMINI_API_KEY : option text;
(** The reading of the clock, by the number of earlier readings. *)
clock : nat -> Z;
(** [pdf2pic]: all pages, and the first page. *)
pdf2pic_bulk : text -> Exn (list text);
pdf2pic_first : text -> Exn text;
(** The [sharp] pipeline writing the processed image. *)
sharp_toFile : text -> text -> Exn unit;
(** [Tesseract.createWorker] with [setParameters], and [recognize]:
    the text and the confidence in percent. *)
tesseract_createWorker : Exn unit;
tesseract_recognize : text -> Exn (text * Q);
fs_readFile : text -> Exn unit;
fs_unlink : text -> Exn unit;
(** The vision model on the image at a path: the text of its response. *)
gemini_generateContent : text -> Exn text
}.

Inductive Event :=
| VisionTier (filePath : text)
| HeuristicTier (filePath : text)
| Unlinked (path : text).

(** The state of the two service singletons, the clock and the log of
    tier invocations. *)
Record St := {
  clockReads : nat;
  trace : list Event;
  tesseractInitialized : bool;
  geminiInitialized : bool;
  geminiModel : bool
}.

Definition initial : St :=
  {| clockReads := 0; trace := []; tesseractInitialized := false;
     geminiInitialized := false; geminiModel := false |}.

(** A computation over a state [S] that returns or throws. *)
Definition M (S A : Type) : Type := S -> Exn A * S.

Definition ret {S A} (a : A) : M S A := fun st => (Ok a, st).

Definition bind {S A B} (c : M S A) (k : A -> M S B) : M S B :=
  fun st =>
    match c st with
    | (Ok a, st') => k a st'
    | (Throw e, st') => (Throw e, st')
    end.

Definition throw {S A} (message : text) : M S A := fun st => (Throw message, st).

(** [try { c } catch (error) { h(error.message) }] *)
Definition tryCatch {S A} (c : M S A) (h : text -> M S A) : M S A :=
  fun st =>
    match c st with
    | (Ok a, st') => (Ok a, st')
    | (Throw e, st') => h e st'
    end.

Definition lift {S A} (r : Exn A) : M S A := fun st => (r, st).

Definition gets {S A} (f : S -> A) : M S A := fun st => (Ok (f st), st).

Definition modify {S} (f : S -> S) : M S unit := fun st => (Ok tt, f st).

Definition log (e : Event) : M St unit :=
  modify (fun st =>
    {| clockReads := clockReads st; trace := trace st ++ [e];
       tesseractInitialized := tesseractInitialized st;
       geminiInitialized := geminiInitialized st;
       geminiModel := geminiModel st |}).

(** [Date.now()] and [new Date()]. *)
Definition readClock (w : World) : M St Z :=
  fun st =>
    (Ok (clock w (clockReads st)),
     {| clockReads := S (clockReads st); trace := trace st;
        tesseractInitialized := tesseractInitialized st;
        geminiInitialized := geminiInitialized st;
        geminiModel := geminiModel st |}).

Definition setTesseract (b : bool) : M St unit :=
  modify (fun st =>
    {| clockReads := clockReads st; trace := trace st;
       tesseractInitialized := b;
       geminiInitialized := geminiInitialized st;
       geminiModel := geminiModel st |}).

Definition setGemini (model : bool) : M St unit :=
  modify (fun st =>
    {| clockReads := clockReads st; trace := trace st;
       tesseractInitialized := tesseractInitialized st;
       geminiInitialized := true;
       geminiModel := model |}).

Declare Scope eff_scope.
Delimit Scope eff_scope with eff.
Notation "x <- c ;; k" := (bind c (fun x => k))
  (at level 61, c at next level, right associativity) : eff_scope.
Notation "c ;;; k" := (bind c (fun _ => k))
  (at level 61, right associativity) : eff_scope.

End Eff.

(** ** The vision tier: [geminiOCRService.js] *)

Module GeminiOCRService.

Import Chars JsString RegExp Json Data Eff.

Local Open Scope eff_scope.

Definition field (v : json) (c : Q) : json :=
  JObj [(L "value", v); (L "confidence", JNum c)].

Definition emptyCategory : json :=
  JObj [(L "suggested", JStr (L "other")); (L "confidence", JNum 0)].

(** [v.key] for a value that is not [undefined]: reading a property of
    [null] throws, a value that is not an object has none of the keys read
    here. *)
Definition prop {S} (v : json) (key : string) : M S jsval :=
  match v with
  | JNull => throw (L "Cannot read properties of null")
  | JObj fields => ret (lookupKey (L key) fields)
  | _ => ret None
  end.

(** The same where the value is known not to be [null]. *)
Definition prop_of (v : json) (key : string) : jsval :=
  match v with
  | JObj fields => lookupKey (L key) fields
  | _ => None
  end.

(** [/```json\n?/g], [/```\n?/g] and [/\{[\s\S]*\}/]. *)
Definition jsonFence : pattern := lit "```json" ++ [opt (chr "010")].
Definition fence : pattern := lit "```" ++ [opt (chr "010")].
Definition braces : pattern := [one (chr "{"); star (fun _ => true); one (chr "}")].

(** [getEmptyParsedData] *)
Definition getEmptyParsedData (now : Z) : ParsedData :=
  {| merchantName := {| value := []; confidence := 0 |};
     totalAmount := {| value := 0%Q; confidence := 0 |};
     date := {| value := now; confidence := 0 |};
     items := [];
     taxAmount := {| value := 0%Q; confidence := 0 |};
     category := {| suggested := L "other"; category_confidence := 0 |};
     paymentMethod := {| value := L "other"; confidence := 0 |} |}.

(** The structure [parseGeminiResponse] returns when parsing fails. *)
Definition fallbackStructure (now : Z) (responseText : text) : json :=
  JObj [ (L "merchantName", field (JStr []) 0);
         (L "totalAmount", field (JNum 0) 0);
         (L "date", field (JStr (JsDate.isoDate now)) 0);
         (L "items", JArr []);
         (L "taxAmount", field (JNum 0) 0);
         (L "category", emptyCategory);
         (L "paymentMethod", field (JStr (L "other")) 0);
         (L "subtotal", field (JNum 0) 0);
         (L "rawText", JStr responseText);
         (L "confidence", JNum 0.1) ].

Section Service.

Context {platform : Platform}.
Variable w : World.

(** [initialize]: the key is read at the first call only. *)
Definition initialize : M St unit :=
  initialized <- gets geminiInitialized ;;
  if initialized then ret tt
  else
    match env_GEMINI_API_KEY w with
    | Some (_ :: _) => setGemini true
    | _ => setGemini false
    end.

Definition isAvailable : M St bool :=
  initialize ;;; gets geminiModel.

(** The text between the first opening and the last closing brace, when
    there is one, after the fences are removed. *)
Definition jsonTextOf (responseText : text) : text :=
  let jsonText := trim responseText in
  let jsonText := removeAll fence (removeAll jsonFence jsonText) in
  match match1 braces jsonText with
  | Some jsonMatch => m_text jsonMatch
  | None => jsonText
  end.

Definition parseGeminiResponse (responseText : text) : M St json :=
  match JSON_parse (jsonTextOf responseText) with
  | Some parsed => ret parsed
  | None => now <- readClock w ;; ret (fallbackStructure now responseText)
  end.

(** [new Date(v)] for a truthy value: a number is the time value, cut to
    an integer, and an invalid date beyond 8.64e15 milliseconds on
    either side of the epoch. *)
Definition newDate1 (v : json) : option Z :=
  match v with
  | JStr s => Date_parse s
  | JNum q =>
      if JsNumber.Qleb (-8640000000000000) q && JsNumber.Qleb q 8640000000000000
      then Some (Z.quot (Qnum q) (Zpos (Qden q)))
      else None
  | JBool b => Some (if b then 1 else 0)%Z
  | JNull => Some 0%Z
  | _ => Date_ofObject v
  end.

Definition formatDateValue (dateObj : jsval) : M St VisionDate :=
  match dateObj with
  | Some d =>
      if truthy dateObj && truthy (prop_of d "value") then
        match prop_of d "value" with
        | Some v =>
            match newDate1 v with
            | Some date =>
                ret {| vd_value := date; vd_confidence := or_else (prop_of d "confidence") (JNum 0) |}
            | None =>
                now <- readClock w ;;
                ret {| vd_value := now; vd_confidence := or_else (prop_of d "confidence") (JNum 0) |}
            end
        | None => now <- readClock w ;; ret {| vd_value := now; vd_confidence := JNum 0 |}
        end
      else now <- readClock w ;; ret {| vd_value := now; vd_confidence := JNum 0 |}
  | None => now <- readClock w ;; ret {| vd_value := now; vd_confidence := JNum 0 |}
  end.

Definition formatParsedData (geminiData : json) : M St VisionData :=
  d <- formatDateValue (prop_of geminiData "date") ;;
  ret {| v_merchantName := or_else (prop_of geminiData "merchantName") (field (JStr []) 0);
         v_totalAmount := or_else (prop_of geminiData "totalAmount") (field (JNum 0) 0);
         v_date := d;
         v_items := or_else (prop_of geminiData "items") (JArr []);
         v_taxAmount := or_else (prop_of geminiData "taxAmount") (field (JNum 0) 0);
         v_category := or_else (prop_of geminiData "category") emptyCategory;
         v_paymentMethod := or_else (prop_of geminiData "paymentMethod") (field (JStr (L "other")) 0);
         v_subtotal := or_else (prop_of geminiData "subtotal") (field (JNum 0) 0) |}.

Definition convertToImageIfNeeded (filePath : text) : M St text :=
  let ext := toLowerCase (extname filePath) in
  if text_eqb ext (L ".pdf") then
    tryCatch (lift (pdf2pic_first w filePath))
             (fun _ => throw (L "Failed to convert PDF to image"))
  else ret filePath.

(** [fs.unlink(imagePath).catch(() => {})] *)
Definition unlinkQuietly (path : text) : M St unit :=
  log (Unlinked path) ;;;
  tryCatch (lift (fs_unlink w path)) (fun _ => ret tt).

Definition processReceipt (filePath : text) : M St OcrResult :=
  log (VisionTier filePath) ;;;
  startTime <- readClock w ;;
  tryCatch
    (available <- isAvailable ;;
     if negb available then throw (L "Gemini API not configured")
     else
       imagePath <- convertToImageIfNeeded filePath ;;
       lift (fs_readFile w imagePath) ;;;
       responseText <- lift (gemini_generateContent w imagePath) ;;
       parsedData <- parseGeminiResponse responseText ;;
       (if text_eqb imagePath filePath then ret tt else unlinkQuietly imagePath) ;;;
       endTime <- readClock w ;;
       rawText <- prop parsedData "rawText" ;;
       formatted <- formatParsedData parsedData ;;
       ret {| success := true;
              error := None;
              extractedText := or_else rawText (JStr []);
              parsedData := Vision formatted;
              ocr_confidence := or_else (prop_of parsedData "confidence") (JNum 0.8);
              processingTime := (endTime - startTime)%Z;
              method := L "gemini" |})
    (fun message =>
       now <- readClock w ;;
       endTime <- readClock w ;;
       ret {| success := false;
              error := Some message;
              extractedText := JStr [];
              parsedData := Heuristic (getEmptyParsedData now);
              ocr_confidence := JNum 0;
              processingTime := (endTime - startTime)%Z;
              method := L "gemini" |}).

End Service.

End GeminiOCRService.

(** ** The heuristic tier: the field recognizers of [ocrService.js] *)

Module OCRService.

Import Chars RegExp JsString JsNumber Data.

Local Open Scope Q_scope.

Definition indexed {A} (l : list A) : list (nat * A) := combine (seq 0 (List.length l)) l.

(** [l.sort((a, b) => b.confidence - a.confidence)]: a stable sort,
    highest confidence first. *)
Fixpoint insertByConfidence {A} (x : Candidate A) (l : list (Candidate A)) : list (Candidate A) :=
  match l with
  | [] => [x]
  | y :: l' => if Qltb (c_confidence x) (c_confidence y) then y :: insertByConfidence x l' else x :: l
  end.

Definition sortByConfidence {A} (l : list (Candidate A)) : list (Candidate A) :=
  fold_right insertByConfidence [] l.

Definition letter (c : ascii) : bool := isLower c || isUpper c.
Definition slashOrDash : ascii -> bool := any [chr "/"; chr "-"].

(** *** Confidence scores *)

Definition calculateMerchantConfidence (name : text) (position : nat) : Q :=
  let confidence := 0.5 in
  let confidence := if (position <? 3)%nat then confidence + 0.3 else confidence in
  let confidence :=
    if ((5 <=? List.length name) && (List.length name <=? 30))%nat then confidence + 0.2 else confidence in
  Qmin confidence 1.

Definition calculateAmountConfidence (context : text) (patternIndex : nat) (amount : Q) : Q :=
  let confidence := 0.3 in
  let confidence := if (patternIndex =? 0)%nat then confidence + 0.4 else confidence in
  let confidence := if includes (toLowerCase context) (L "total") then confidence + 0.3 else confidence in
  let confidence := if Qleb 1 amount && Qleb amount 500 then confidence + 0.2 else confidence in
  Qmin confidence 1.

Definition calculateDateConfidence (dateString : text) (patternIndex : nat) : Q :=
  let confidence := 0.4 in
  let confidence := if (patternIndex =? 0)%nat then confidence + 0.3 else confidence in
  Qmin confidence 1.

Definition calculateItemConfidence (name : text) (price : Q) : Q :=
  let confidence := 0.3 in
  let confidence :=
    if ((3 <=? List.length name) && (List.length name <=? 30))%nat then confidence + 0.2 else confidence in
  let confidence := if Qleb 0.5 price && Qleb price 100 then confidence + 0.2 else confidence in
  Qmin confidence 1.

(** *** Helper predicates *)

(** [/^\d+$/], [/^\d+\s+[a-z\s]+/i] and
    [/\d{1,4}[\/\-]\d{1,4}[\/\-]\d{1,4}/]. *)
Definition onlyDigits : pattern := [Bol; plus isDigit; Eol false].
Definition addressLike : pattern := [Bol; plus isDigit; plus isSpace; plus (any [letter; isSpace])].
Definition dateLike : pattern :=
  [rep isDigit 1 4; one slashOrDash; rep isDigit 1 4; one slashOrDash; rep isDigit 1 4].

Definition isLikelyMerchantName (line : text) : bool :=
  if test onlyDigits (removeAll [one isSpace] line) then false
  else if test addressLike line then false
  else if test dateLike line then false
  else ((3 <=? List.length line) && (List.length line <=? 50))%nat.

Definition totalWords : list text :=
  [L "total"; L "amount"; L "subtotal"; L "tax"; L "balance"].

Definition isLikelyTotalLine (t : text) : bool :=
  existsb (fun word => includes (toLowerCase t) word) totalWords.

(** *** Merchant name *)

Definition no_merchant : Field text := {| value := []; confidence := 0 |}.

(** The loop [for (i = 0; i < Math.min(5, lines.length); i++)]. *)
Fixpoint firstMerchant (lines : list text) (i : nat) : Field text :=
  match lines with
  | [] => no_merchant
  | line :: rest =>
      if (5 <=? i)%nat then no_merchant
      else if isLikelyMerchantName line
           then {| value := line; confidence := calculateMerchantConfidence line i |}
           else firstMerchant rest (S i)
  end.

Definition extractMerchantName (t : text) : Field text :=
  let lines := filter (fun line => (0 <? List.length line)%nat) (map trim (splitLines t)) in
  firstMerchant lines 0.

(** *** Total amount *)

Definition amountTail : pattern :=
  [Open 1; plus isDigit; opt (chr "."); rep isDigit 0 2; Close 1].

Definition keywordAmount (keyword : string) : pattern :=
  lit_ci keyword ++ [star (any [chr ":"; isSpace]); opt (chr "$"); star isSpace] ++ amountTail.

(** [/total[:\s]*\$?\s*(\d+\.?\d{0,2})/gi], the same for [amount] and
    [balance], [/\$\s*(\d+\.\d{2})\s*$/gm] and [/(\d+\.\d{2})\s*$/gm]. *)
Definition amountPatterns : list pattern :=
  [ keywordAmount "total";
    keywordAmount "amount";
    keywordAmount "balance";
    [one (chr "$"); star isSpace; Open 1; plus isDigit; one (chr "."); rep isDigit 2 2; Close 1;
     star isSpace; Eol true];
    [Open 1; plus isDigit; one (chr "."); rep isDigit 2 2; Close 1; star isSpace; Eol true] ].

Definition amountCandidate (index : nat) (m : rmatch) : list (Candidate Q) :=
  match parseFloat_arg (group 1 m) with
  | Some amount =>
      if Qltb 0 amount && Qltb amount 10000
      then [{| c_value := amount;
               c_confidence := calculateAmountConfidence (m_text m) index amount;
               c_context := m_text m |}]
      else []
  | None => []
  end.

Definition amountCandidates (t : text) : list (Candidate Q) :=
  flat_map (fun '(index, pattern) => flat_map (amountCandidate index) (matchAll pattern t))
           (indexed amountPatterns).

Definition extractTotalAmount (t : text) : Field Q :=
  match sortByConfidence (amountCandidates t) with
  | [] => {| value := 0; confidence := 0 |}
  | best :: _ => {| value := c_value best; confidence := c_confidence best |}
  end.

(** *** Date *)

Definition monthWords : list (list (ascii -> bool)) :=
  map word_ci ["jan"; "feb"; "mar"; "apr"; "may"; "jun"; "jul"; "aug"; "sep"; "oct"; "nov"; "dec"]%string.

(** [/(\d{1,2})[\/\-](\d{1,2})[\/\-](\d{2,4})/g],
    [/(\d{4})[\/\-](\d{1,2})[\/\-](\d{1,2})/g] and
    [/(jan|...|dec)[a-z]*\s+(\d{1,2}),?\s+(\d{4})/gi]. *)
Definition datePatterns : list pattern :=
  [ [Open 1; rep isDigit 1 2; Close 1; one slashOrDash; Open 2; rep isDigit 1 2; Close 2;
     one slashOrDash; Open 3; rep isDigit 2 4; Close 3];
    [Open 1; rep isDigit 4 4; Close 1; one slashOrDash; Open 2; rep isDigit 1 2; Close 2;
     one slashOrDash; Open 3; rep isDigit 1 2; Close 3];
    [Open 1; Alt monthWords; Close 1; star letter; plus isSpace; Open 2; rep isDigit 1 2; Close 2;
     opt (chr ","); plus isSpace; Open 3; rep isDigit 4 4; Close 3] ].

Section WithPlatform.

Context {platform : Platform}.

(** [new Date(dateString)], [null] for an invalid date. *)
Definition parseDate (dateString : text) : option Z := Date_parse dateString.

(** The window from local midnight one year back to local midnight one
    month ahead of [now]. *)
Definition isReasonableDate (now d : Z) : bool :=
  let oneYearAgo :=
    JsDate.newDate3 LocalTZA (JsDate.getFullYear LocalTZA now - 1)
                    (JsDate.getMonth LocalTZA now) (JsDate.getDate LocalTZA now) in
  let oneMonthFuture :=
    JsDate.newDate3 LocalTZA (JsDate.getFullYear LocalTZA now)
                    (JsDate.getMonth LocalTZA now + 1) (JsDate.getDate LocalTZA now) in
  ((oneYearAgo <=? d) && (d <=? oneMonthFuture))%Z.

Definition dateCandidate (now : Z) (index : nat) (m : rmatch) : list (Candidate Z) :=
  match parseDate (m_text m) with
  | Some dateObj =>
      if isReasonableDate now dateObj
      then [{| c_value := dateObj;
               c_confidence := calculateDateConfidence (m_text m) index;
               c_context := m_text m |}]
      else []
  | None => []
  end.

Definition dateCandidates (now : Z) (t : text) : list (Candidate Z) :=
  flat_map (fun '(index, pattern) => flat_map (dateCandidate now index) (matchAll pattern t))
           (indexed datePatterns).

(** [now] is the reading of the clock by [new Date()]; the readings of
    one call are taken to be one instant. *)
Definition extractDate (now : Z) (t : text) : Field Z :=
  match sortByConfidence (dateCandidates now t) with
  | [] => {| value := now; confidence := 0 |}
  | best :: _ => {| value := c_value best; confidence := c_confidence best |}
  end.

End WithPlatform.

(** *** Line items *)

(** [/^(.+?)\s+\$?(\d+\.?\d{0,2})$/] *)
Definition itemPattern : pattern :=
  [Bol; Open 1; lazy_plus isDot; Close 1; plus isSpace; opt (chr "$");
Open 2; plus isDigit; opt (chr "."); rep isDigit 0 2; Close 2; Eol false].

Definition lineItem (line : text) : list Item :=
  let trimmedLine := trim line in
  match match1 itemPattern trimmedLine with
  | Some m =>
      match group 1 m with
      | Some g1 =>
          if ((2 <? List.length g1) && (List.length g1 <? 50))%nat then
            let itemName := trim g1 in
            match parseFloat_arg (group 2 m) with
            | Some price =>
                if negb (isLikelyTotalLine itemName) && Qltb 0 price && Qltb price 1000
                then [{| name := itemName; price := price;
                         item_confidence := calculateItemConfidence itemName price |}]
                else []
            | None => []
            end
          else []
      | None => []
      end
  | None => []
  end.

Definition extractLineItems (t : text) : list Item :=
  firstn 20 (flat_map lineItem (splitLines t)).

(** *** Tax amount *)

(** [/tax[:\s]*\$?\s*(\d+\.?\d{0,2})/gi] and the same for [hst] and
    [gst]. *)
Definition taxPatterns : list pattern :=
  [keywordAmount "tax"; keywordAmount "hst"; keywordAmount "gst"].

(** The loop over the patterns.  [text.match(pattern)] of a global
    pattern is the array of the matched substrings, so [match[1]] is the
    second of them, [undefined] when there is only one. *)
Fixpoint firstTax (patterns : list pattern) (t : text) : Field Q :=
  match patterns with
  | [] => {| value := 0; confidence := 0 |}
  | pattern :: rest =>
      match match_g pattern t with
      | Some matched =>
          match parseFloat_arg (nth_error matched 1) with
          | Some amount =>
              if Qltb 0 amount && Qltb amount 1000
              then {| value := amount; confidence := 0.8 |}
              else firstTax rest t
          | None => firstTax rest t
          end
      | None => firstTax rest t
      end
  end.

Definition extractTaxAmount (t : text) : Field Q := firstTax taxPatterns t.

(** *** Category and payment method *)

Definition categoryMappings : list (text * list text) :=
  [ (L "groceries", map L ["walmart"; "target"; "kroger"; "safeway"; "whole foods"; "costco"; "grocery"]%string);
    (L "food & dining", map L ["mcdonalds"; "burger king"; "starbucks"; "restaurant"; "cafe"; "pizza"]%string);
    (L "transportation", map L ["shell"; "exxon"; "bp"; "chevron"; "gas"; "fuel"; "uber"; "lyft"]%string);
    (L "shopping", map L ["amazon"; "mall"; "store"; "retail"]%string);
    (L "healthcare", map L ["pharmacy"; "cvs"; "walgreens"; "hospital"; "clinic"]%string) ].

Definition paymentMethods : list (text * list text) :=
  [ (L "credit_card", map L ["credit"; "visa"; "mastercard"; "amex"]%string);
    (L "debit_card", map L ["debit"]%string);
    (L "cash", map L ["cash"; "change"]%string);
    (L "digital_wallet", map L ["apple pay"; "google pay"; "paypal"]%string) ].

(** The two nested loops: the first entry with a keyword in the text. *)
Fixpoint firstKeyword (table : list (text * list text)) (textLower : text) : option text :=
  match table with
  | [] => None
  | (label, keywords) :: rest =>
      if existsb (fun keyword => includes textLower keyword) keywords then Some label
      else firstKeyword rest textLower
  end.

Definition suggestCategory (t : text) : Category :=
  match firstKeyword categoryMappings (toLowerCase t) with
  | Some c => {| suggested := c; category_confidence := 0.7 |}
  | None => {| suggested := L "other"; category_confidence := 0.3 |}
  end.

Definition extractPaymentMethod (t : text) : Field text :=
  match firstKeyword paymentMethods (toLowerCase t) with
  | Some method => {| value := method; confidence := 0.6 |}
  | None => {| value := L "other"; confidence := 0.1 |}
  end.

(** *** The parser *)

Definition getEmptyParsedData (now : Z) : ParsedData :=
  {| merchantName := {| value := []; confidence := 0 |};
     totalAmount := {| value := 0; confidence := 0 |};
     date := {| value := now; confidence := 0 |};
     items := [];
     taxAmount := {| value := 0; confidence := 0 |};
     category := {| suggested := L "other"; category_confidence := 0 |};
     paymentMethod := {| value := L "other"; confidence := 0 |} |}.

Definition parseReceiptData {platform : Platform} (now : Z) (t : text) : ParsedData :=
  if (List.length (trim t) =? 0)%nat then getEmptyParsedData now
  else
    {| merchantName := extractMerchantName t;
       totalAmount := extractTotalAmount t;
       date := extractDate now t;
       items := extractLineItems t;
       taxAmount := extractTaxAmount t;
       category := suggestCategory t;
       paymentMethod := extractPaymentMethod t |}.

(** *** The tier and the orchestrator *)

Section Service.

Import Json Eff.

Local Open Scope eff_scope.

Context {platform : Platform}.
Variable w : World.

Definition initializeTesseract : M St unit :=
  initialized <- gets tesseractInitialized ;;
  if initialized then ret tt
  else
    tryCatch (lift (tesseract_createWorker w) ;;; setTesseract true)
             (fun message => throw message).

Definition convertPdfToImages (pdfPath : text) : M St (list text) :=
  tryCatch (lift (pdf2pic_bulk w pdfPath))
           (fun message => throw (L "Failed to convert PDF: " ++ message)).

Definition preprocessImage (filePath : text) : M St text :=
  tryCatch
    (let ext := extname filePath in
     let processedPath := replaceFirst filePath ext (L "_processed" ++ ext) in
     lift (sharp_toFile w filePath processedPath) ;;;
     ret processedPath)
    (fun _ => ret filePath).

Definition imageExtensions : list text :=
  map L [".jpg"; ".jpeg"; ".png"; ".bmp"; ".tiff"]%string.

Definition prepareImageFiles (filePath : text) : M St (list text) :=
  let ext := toLowerCase (extname filePath) in
  if text_eqb ext (L ".pdf") then convertPdfToImages filePath
  else if existsb (text_eqb ext) imageExtensions then
    processedPath <- preprocessImage filePath ;;
    ret [processedPath]
  else throw (L "Unsupported file type: " ++ ext).

Definition extractTextFromImage (imagePath : text) : M St (text * Q) :=
  tryCatch
    (r <- lift (tesseract_recognize w imagePath) ;;
     ret (trim (fst r), snd r))
    (fun message => throw (L "OCR failed: " ++ message)).

(** The loop over the images: the texts joined by line feeds and the
    confidences in order. *)
Fixpoint recognizeAll (imagePaths : list text) (combinedText : text) (confidenceScores : list Q)
  : M St (text * list Q) :=
  match imagePaths with
  | [] => ret (combinedText, confidenceScores)
  | imagePath :: rest =>
      r <- extractTextFromImage imagePath ;;
      recognizeAll rest (combinedText ++ fst r ++ L "
") (confidenceScores ++ [snd r])
  end.

Fixpoint cleanupTempFiles (imagePaths : list text) (originalPath : text) : M St unit :=
  match imagePaths with
  | [] => ret tt
  | imagePath :: rest =>
      (if negb (text_eqb imagePath originalPath) && includes imagePath (L "_processed")
       then log (Unlinked imagePath) ;;; tryCatch (lift (fs_unlink w imagePath)) (fun _ => ret tt)
       else ret tt) ;;;
      cleanupTempFiles rest originalPath
  end.

Definition average (confidenceScores : list Q) : Q :=
  match confidenceScores with
  | [] => 0
  | _ => fold_left Qplus confidenceScores 0 / inject_Z (Z.of_nat (List.length confidenceScores))
  end.

(** The clock is read once for the parse: its readings during one call
    of [parseReceiptData] are taken to be one instant. *)
Definition processWithTesseract (filePath : text) : M St OcrResult :=
  log (HeuristicTier filePath) ;;;
  startTime <- readClock w ;;
  tryCatch
    (imagePaths <- prepareImageFiles filePath ;;
     initializeTesseract ;;;
     r <- recognizeAll imagePaths [] [] ;;
     now <- readClock w ;;
     let parsed := parseReceiptData now (fst r) in
     let avgConfidence := average (snd r) in
     cleanupTempFiles imagePaths filePath ;;;
     endTime <- readClock w ;;
     ret {| success := true;
            error := None;
            extractedText := JStr (trim (fst r));
            parsedData := Heuristic parsed;
            ocr_confidence := JNum (avgConfidence / 100);
            processingTime := (endTime - startTime)%Z;
            method := L "tesseract" |})
    (fun message =>
       now <- readClock w ;;
       endTime <- readClock w ;;
       ret {| success := false;
              error := Some message;
              extractedText := JStr [];
              parsedData := Heuristic (getEmptyParsedData now);
              ocr_confidence := JNum 0;
              processingTime := (endTime - startTime)%Z;
              method := L "tesseract" |}).

(** [v > q] for a value of the result's [confidence]. *)
Definition js_gt (v : json) (q : Q) : bool :=
  match v with
  | JNum x => Qltb q x
  | JBool b => Qltb q (if b then 1 else 0)
  | JNull => Qltb q 0
  | _ => match ToNumber_nonPrimitive v with
         | Some x => Qltb q x
         | None => false
         end
  end.

(** [process.env.OCR_METHOD || 'gemini'] *)
Definition ocrMethod : text :=
  match env_OCR_METHOD w with
  | Some (c :: m) => c :: m
  | _ => L "gemini"
  end.

Definition processReceipt (filePath : text) : M St OcrResult :=
  startTime <- readClock w ;;
  tryCatch
    (if text_eqb ocrMethod (L "gemini") then
       available <- GeminiOCRService.isAvailable w ;;
       if available then
         geminiResult <- GeminiOCRService.processReceipt w filePath ;;
         if success geminiResult && js_gt (ocr_confidence geminiResult) 0.5
         then ret geminiResult
         else processWithTesseract filePath
       else processWithTesseract filePath
     else processWithTesseract filePath)
    (fun message =>
       now <- readClock w ;;
       endTime <- readClock w ;;
       ret {| success := false;
              error := Some message;
              extractedText := JStr [];
              parsedData := Heuristic (getEmptyParsedData now);
              ocr_confidence := JNum 0;
              processingTime := (endTime - startTime)%Z;
              method := L "error" |}).

End Service.

End OCRService.



(** ** The receipt document: [Receipt.js] *)

Module Receipt.

Import Json Eff.

Inductive Status := uploaded | processing | processed | failed.

Record OcrResults := {
  extractedText : json;
  confidence : json;
  processedAt : option Z;
  processingTime : Z
}.

Record ProcessingError := { message : text; timestamp : Z }.

Record Receipt := {
  userId : nat;
  filePath : text;
  status : Status;
  ocrResults : OcrResults;
  parsedData : Data.Parsed;
  processingAttempts : Z;
  lastProcessingError : option ProcessingError;
  isActive : bool
}.

(** The defaults of the schema. *)
Definition defaultOcrResults : OcrResults :=
  {| extractedText := JStr []; confidence := JNum 0; processedAt := None; processingTime := 0 |}.

Definition create (user : nat) (path : text) : Receipt :=
  {| userId := user; filePath := path; status := uploaded;
     ocrResults := defaultOcrResults; parsedData := Data.NoData;
     processingAttempts := 0; lastProcessingError := None; isActive := true |}.

(** What the store answers during one run: the operations that fail, by
    their number, and the documents its casting and validation refuse
    beyond the two bounds spelled out in [validate]. *)
Record Db := {
  fault : nat -> bool;
  rejects : Receipt -> bool
}.

(** The services, the collection of receipts and the number of store
    operations so far. *)
Record Sys := {
  services : St;
  documents : nat -> option Receipt;
  dbOps : nat
}.

Definition emptySys : Sys :=
  {| services := initial; documents := fun _ => None; dbOps := 0 |}.

(** A computation of the services, run inside the system. *)
Definition svc {A} (c : M St A) : M Sys A :=
  fun sys =>
    let '(r, st) := c (services sys) in
    (r, {| services := st; documents := documents sys; dbOps := dbOps sys |}).

(** One operation of the store: counted, and failing when the store says. *)
Definition dbOp (db : Db) : M Sys unit :=
  fun sys =>
    let sys' := {| services := services sys; documents := documents sys; dbOps := S (dbOps sys) |} in
    if fault db (dbOps sys) then (Throw (L "store operation failed"), sys') else (Ok tt, sys').

Definition put (id : nat) (r : Receipt) : M Sys unit :=
  modify (fun sys =>
    {| services := services sys;
       documents := fun k => if (k =? id)%nat then Some r else documents sys k;
       dbOps := dbOps sys |}).

Definition withStatus (s : Status) (r : Receipt) : Receipt :=
  {| userId := userId r; filePath := filePath r; status := s;
     ocrResults := ocrResults r; parsedData := parsedData r;
     processingAttempts := processingAttempts r;
     lastProcessingError := lastProcessingError r; isActive := isActive r |}.

Definition withProcessedAt (t : Z) (r : Receipt) : Receipt :=
  {| userId := userId r; filePath := filePath r; status := status r;
     ocrResults := {| extractedText := extractedText (ocrResults r);
                      confidence := confidence (ocrResults r);
                      processedAt := Some t;
                      processingTime := processingTime (ocrResults r) |};
     parsedData := parsedData r;
     processingAttempts := processingAttempts r;
     lastProcessingError := lastProcessingError r; isActive := isActive r |}.

(** [processingAttempts: { max: 3 }] and
    [ocrResults.confidence: { min: 0, max: 1 }] for a number. *)
Definition validate (db : Db) (r : Receipt) : bool :=
  (processingAttempts r <=? 3)%Z
  && match confidence (ocrResults r) with
     | JNum q => JsNumber.Qleb 0 q && JsNumber.Qleb q 1
     | _ => true
     end
  && negb (rejects db r).

(** The update document the controller gives to [findByIdAndUpdate]: a
    value for each of the three paths it names.  The value for
    [processingAttempts] is a number or an object. *)
Inductive UpdateValue :=
| Number (n : Z)
| Object (fields : list (text * json)).

Record UpdateDoc := {
  set_status : Status;
  set_lastProcessingError : ProcessingError;
  set_processingAttempts : UpdateValue
}.

(** The cast of a value to the schema type Number: an object given as
    the value of a path is no number (the operators of an update, as
    [$inc], belong at the top of the update document, not under a
    path). *)
Definition castNumber (v : UpdateValue) : option Z :=
  match v with
  | Number n => Some n
  | Object _ => None
  end.

Definition applyUpdate (update : UpdateDoc) (attempts : Z) (r : Receipt) : Receipt :=
  {| userId := userId r; filePath := filePath r;
     status := set_status update;
     ocrResults := ocrResults r;
     parsedData := parsedData r;
     processingAttempts := attempts;
     lastProcessingError := Some (set_lastProcessingError update);
     isActive := isActive r |}.

(** [isModified('ocrResults.extractedText')]: the value differs from the
    stored one. *)
Definition isModified_extractedText (stored : option Receipt) (r : Receipt) : bool :=
  match stored with
  | Some old => negb (json_eqb (extractedText (ocrResults old)) (extractedText (ocrResults r)))
  | None => true
  end.

Section Store.

Variable w : World.
Variable db : Db.

Local Open Scope eff_scope.

(** The [pre('save')] hook. *)
Definition preSave (id : nat) (r : Receipt) : M Sys Receipt :=
  stored <- gets (fun sys => documents sys id) ;;
  if isModified_extractedText stored r && truthy (Some (extractedText (ocrResults r))) then
    now <- svc (readClock w) ;;
    ret (withProcessedAt now (withStatus processed r))
  else ret r.

(** [receipt.save()]: the document as saved, which is also the document
    the caller goes on with. *)
Definition save (id : nat) (r : Receipt) : M Sys Receipt :=
  dbOp db ;;;
  if validate db r then
    r' <- preSave id r ;;
    put id r' ;;;
    ret r'
  else throw (L "Receipt validation failed").

Definition findById (id : nat) : M Sys (option Receipt) :=
  dbOp db ;;;
  gets (fun sys => documents sys id).

(** [Receipt.findOne({ _id, userId, isActive: true })] *)
Definition findOne (id user : nat) : M Sys (option Receipt) :=
  dbOp db ;;;
  gets (fun sys =>
    match documents sys id with
    | Some r => if (userId r =? user)%nat && isActive r then Some r else None
    | None => None
    end).

(** [Receipt.findByIdAndUpdate(id, update)].  The update is first cast
    to the schema, and a value that cannot be cast makes the call fail
    before anything reaches the store; an update that is cast is applied
    to the stored document without running the validators. *)
Definition findByIdAndUpdate (id : nat) (update : UpdateDoc) : M Sys unit :=
  match castNumber (set_processingAttempts update) with
  | None => throw (L "Cast to Number failed at path processingAttempts")
  | Some attempts =>
      dbOp db ;;;
      stored <- gets (fun sys => documents sys id) ;;
      match stored with
      | Some r => put id (applyUpdate update attempts r)
      | None => ret tt
      end
  end.

End Store.

End Receipt.

(** ** The controller: [receiptController.js] *)

Module ReceiptController.

Import Json Eff Receipt.

Local Open Scope eff_scope.

Section Controller.

Context {platform : Platform}.
Variable w : World.
Variable db : Db.

Definition withOcrSuccess (ocrResult : Data.OcrResult) (now : Z) (r : Receipt) : Receipt :=
  {| userId := userId r; filePath := filePath r;
     status := processed;
     ocrResults := {| extractedText := Data.extractedText ocrResult;
                      confidence := Data.ocr_confidence ocrResult;
                      processedAt := Some now;
                      processingTime := Data.processingTime ocrResult |};
     parsedData := Data.parsedData ocrResult;
     processingAttempts := processingAttempts r;
     lastProcessingError := lastProcessingError r; isActive := isActive r |}.

(** [ocrResult.error || 'OCR processing failed'] *)
Definition errorMessage (ocrResult : Data.OcrResult) : text :=
  match Data.error ocrResult with
  | Some (c :: m) => c :: m
  | _ => L "OCR processing failed"
  end.

Definition withOcrFailure (ocrResult : Data.OcrResult) (now : Z) (r : Receipt) : Receipt :=
  {| userId := userId r; filePath := filePath r;
     status := failed;
     ocrResults := ocrResults r;
     parsedData := parsedData r;
     processingAttempts := processingAttempts r + 1;
     lastProcessingError := Some {| message := errorMessage ocrResult; timestamp := now |};
     isActive := isActive r |}.

(** The update document of the [catch] branch: the status, the error,
    and for [processingAttempts] the object [{ $inc: 1 }]. *)
Definition markFailed (errorText : text) (now : Z) : UpdateDoc :=
  {| set_status := failed;
     set_lastProcessingError := {| message := errorText; timestamp := now |};
     set_processingAttempts := Object [(L "$inc", JNum 1)] |}.

(** Background OCR processing. *)
Definition processReceiptOCR (receiptId : nat) : M Sys unit :=
  tryCatch
    (found <- findById db receiptId ;;
     match found with
     | None => ret tt
     | Some receipt =>
         receipt <- save w db receiptId (withStatus processing receipt) ;;
         ocrResult <- svc (OCRService.processReceipt w (filePath receipt)) ;;
         now <- svc (readClock w) ;;
         (if Data.success ocrResult
          then save w db receiptId (withOcrSuccess ocrResult now receipt)
          else save w db receiptId (withOcrFailure ocrResult now receipt)) ;;;
         ret tt
     end)
    (fun errorText =>
       tryCatch
         (now <- svc (readClock w) ;;
          findByIdAndUpdate db receiptId (markFailed errorText now))
         (fun _ => ret tt)).

(** The reset of [reprocessReceipt]. *)
Definition resetForReprocess (now : Z) (r : Receipt) : Receipt :=
  {| userId := userId r; filePath := filePath r;
     status := uploaded;
     ocrResults := {| extractedText := JStr []; confidence := JNum 0;
                      processedAt := None; processingTime := 0 |};
     parsedData := Data.Heuristic (OCRService.getEmptyParsedData now);
     processingAttempts := 0;
     lastProcessingError := None;
     isActive := isActive r |}.

(** The status code of the response; an exception goes to the error
    handler.  The OCR run is started before the response is sent and is
    not awaited; here it runs to its end first. *)
Definition reprocessReceipt (id user : nat) : M Sys nat :=
  found <- findOne db id user ;;
  match found with
  | None => ret 404
  | Some receipt =>
      now <- svc (readClock w) ;;
      save w db id (resetForReprocess now receipt) ;;;
      processReceiptOCR id ;;;
      ret 200
  end.

(** [uploadReceipt] for a file already received: the record is created
    and the OCR run started. *)
Definition uploadReceipt (id user : nat) (path : text) : M Sys nat :=
  dbOp db ;;;
  put id (create user path) ;;;
  processReceiptOCR id ;;;
  ret 201.

End Controller.

(** What reaches the controller. *)
Inductive Request :=
| Upload (id user : nat) (path : text)
| Process (id : nat)
| Reprocess (id user : nat).

Definition handle {platform : Platform} (w : World) (db : Db) (q : Request) : M Sys unit :=
  match q with
  | Upload id user path => uploadReceipt w db id user path ;;; ret tt
  | Process id => processReceiptOCR w db id
  | Reprocess id user => reprocessReceipt w db id user ;;; ret tt
  end.

(** A sequence of requests, each with what the outside answers during
    it; a request that throws leaves the state it reached. *)
Fixpoint serve {platform : Platform} (qs : list (World * Db * Request)) (sys : Sys) : Sys :=
  match qs with
  | [] => sys
  | (w, db, q) :: rest => serve rest (snd (handle w db q sys))
  end.

End ReceiptController.


(** ** Sample inputs

    A runtime that knows a few dates and a few JSON texts, three worlds and
    a store without faults. *)

Module Samples.

Import Json Eff Receipt.

(** Local midnight of 15 January 2024 in a zone at UTC. *)
Definition jan15 : Z := 1705276800000.

Definition sampleDates : list (text * Z) :=
  [ (L "01/15/2024", jan15);
    (L "2024-01-15", jan15) ].

(** The response [{ "confidence": 5 }] of a model that scores from 1 to
    10. *)
Definition confidence5 : text :=
  L "{" ++ ["034"%char] ++ L "confidence" ++ ["034"%char] ++ L ": 5}".

Definition sampleJson : list (text * json) :=
  [ (L "{}", JObj []);
    (L "null", JNull);
    (L "[]", JArr []);
    (confidence5, JObj [(L "confidence", JNum 5)]) ].

Fixpoint assoc {A} (k : text) (l : list (text * A)) : option A :=
  match l with
  | [] => None
  | (k', v) :: l' => if JsString.text_eqb k' k then Some v else assoc k l'
  end.

Definition samplePlatform : Platform :=
  {| LocalTZA := 0;
     Date_parse := fun s => assoc s sampleDates;
     Date_ofObject := fun _ => None;
     JSON_parse := fun s => assoc s sampleJson;
     ToNumber_nonPrimitive := fun _ => None |}.

(** Early February 2024. *)
Definition sampleClock (k : nat) : Z := 1707000000000 + Z.of_nat k.

(** No key for the vision tier; the OCR engine reads one line at 90%. *)
Definition offline : World :=
  {| env_OCR_METHOD := None;
     env_GEMINI_API_KEY := None;
     clock := sampleClock;
     pdf2pic_bulk := fun _ => Throw (L "no converter");
     pdf2pic_first := fun _ => Throw (L "no converter");
     sharp_toFile := fun _ _ => Ok tt;
     tesseract_createWorker := Ok tt;
     tesseract_recognize := fun _ => Ok (L "Total: $45.67", 90%Q);
     fs_readFile := fun _ => Ok tt;
     fs_unlink := fun _ => Ok tt;
     gemini_generateContent := fun _ => Throw (L "no model") |}.

(** A key for the vision tier and a model that answers [response]. *)
Definition online (response : text) : World :=
  {| env_OCR_METHOD := env_OCR_METHOD offline;
     env_GEMINI_API_KEY := Some (L "key");
     clock := clock offline;
     pdf2pic_bulk := pdf2pic_bulk offline;
     pdf2pic_first := pdf2pic_first offline;
     sharp_toFile := sharp_toFile offline;
     tesseract_createWorker := tesseract_createWorker offline;
     tesseract_recognize := tesseract_recognize offline;
     fs_readFile := fs_readFile offline;
     fs_unlink := fs_unlink offline;
     gemini_generateContent := fun _ => Ok response |}.

(** The same with an OCR engine that cannot read the image. *)
Definition unreadable (w : World) : World :=
  {| env_OCR_METHOD := env_OCR_METHOD w;
     env_GEMINI_API_KEY := env_GEMINI_API_KEY w;
     clock := clock w;
     pdf2pic_bulk := pdf2pic_bulk w;
     pdf2pic_first := pdf2pic_first w;
     sharp_toFile := sharp_toFile w;
     tesseract_createWorker := tesseract_createWorker w;
     tesseract_recognize := fun _ => Throw (L "image cannot be decoded");
     fs_readFile := fs_readFile w;
     fs_unlink := fs_unlink w;
     gemini_generateContent := gemini_generateContent w |}.

Definition reliable : Db := {| fault := fun _ => false; rejects := fun _ => false |}.

(** A system holding one uploaded receipt, number 1 of user 7. *)
Definition oneReceipt (path : text) : Sys :=
  {| services := initial;
     documents := fun k => if (k =? 1)%nat then Some (create 7 path) else None;
     dbOps := 0 |}.

End Samples.

(** ** Methods and virtuals of the receipt: [Receipt.js] *)

Module ReceiptMethods.

Import Json Eff Data Receipt.

Local Open Scope eff_scope.

(** The filter of [getNeedingProcessing]: status [uploaded] or
    [processing], fewer than 3 attempts, active. *)
Definition needsProcessing (r : Receipt) : bool :=
  match status r with
  | uploaded | processing => true
  | _ => false
  end
  && (processingAttempts r <? 3)%Z
  && isActive r.

Section Methods.

Variable w : World.
Variable db : Db.

(** [error.message || 'Unknown error'] *)
Definition messageOf (error_message : option text) : text :=
  match error_message with
  | Some (c :: m) => c :: m
  | _ => L "Unknown error"
  end.

(** [receipt.markAsFailed(error)] for the document stored under [id]. *)
Definition markAsFailed (id : nat) (this : Receipt) (error_message : option text) : M Sys Receipt :=
  now <- svc (readClock w) ;;
  save w db id
    {| userId := userId this; filePath := filePath this;
       status := failed;
       ocrResults := ocrResults this;
       parsedData := parsedData this;
       processingAttempts := processingAttempts this + 1;
       lastProcessingError := Some {| message := messageOf error_message; timestamp := now |};
       isActive := isActive this |}.

End Methods.

End ReceiptMethods.

(** ** The upload helpers that follow the vision tier in
    [geminiOCRService.js] *)

Module Upload.

Import Chars RegExp JsString Eff.

Local Open Scope eff_scope.

(** [/\.[^/.]+$/] *)
Definition extension : pattern :=
  [one (chr "."); plus (fun c => negb (any [chr "/"; chr "."] c)); Eol false].

(** [s.replace(re, rep)] for a pattern without the [g] flag and a
    replacement that holds no [$]: the first match is replaced. *)
Definition replaceMatch (its : pattern) (s rep : text) : text :=
  match match1 its s with
  | Some m => firstn (m_index m) s ++ rep ++ skipn (m_index m + List.length (m_text m)) s
  | None => s
  end.

Section Images.

(** The [sharp] pipeline of [processImage], from a file to a file. *)
Variable sharp_jpeg_toFile : text -> text -> Exn unit.

(** [processImage(filePath, { format })]; the format is [jpeg] unless
    given. *)
Definition processImage {S} (filePath format : text) : M S text :=
  tryCatch
    (let processedPath := replaceMatch extension filePath (L "_processed." ++ format) in
     lift (sharp_jpeg_toFile filePath processedPath) ;;;
     ret processedPath)
    (fun _ => throw (L "Failed to process image")).

End Images.

End Upload.

(** ** The numbers of the pagination helpers *)

Module Double.

Local Open Scope Z_scope.

(** A number of the runtime is an IEEE double: a finite one is given by
    its value, a rational in lowest terms; the sign of a zero is not
    kept. *)
Inductive Num :=
| Finite (q : Q)
| PosInfinity
| NegInfinity
| NaN.

(** [n / d / 2 ^ e] as a fraction. *)
Definition scaled (n d e : Z) : Z * Z :=
  if 0 <=? e then (n, d * 2 ^ e) else (n * 2 ^ (- e), d).

(** The exponent of the last of the 53 bits that the significand of
    [n / d] has, for positive [n] and [d]; it is not below the exponent
    of the subnormal numbers. *)
Definition exponent (n d : Z) : Z :=
  let k := Z.log2 n - Z.log2 d in
  let '(a, b) := scaled n d k in
  Z.max (-1074) ((if a <? b then k - 1 else k) - 52).

(** [a / b] rounded to the nearest integer, and to the even one from
    half way. *)
Definition roundHalfEven (a b : Z) : Z :=
  let m := a / b in
  let r := a mod b in
  if (b <? 2 * r) || ((b =? 2 * r) && Z.odd m) then m + 1 else m.

(** [m * 2 ^ e] *)
Definition timesPow2 (m e : Z) : Q :=
  if 0 <=? e then inject_Z (m * 2 ^ e) else Qred (m # Z.to_pos (2 ^ (- e))).

(** The double nearest to [n / d] for positive [n] and [d], [None] when
    [n / d] rounds beyond the largest double. *)
Definition nearest (n d : Z) : option Q :=
  let e := exponent n d in
  let '(a, b) := scaled n d e in
  let m := roundHalfEven a b in
  if (0 <=? e) && (2 ^ 1024 <=? m * 2 ^ e) then None else Some (timesPow2 m e).

(** The double that an exact result is rounded to. *)
Definition fl (q : Q) : Num :=
  match Qnum q with
  | Z0 => Finite 0
  | Zpos n =>
      match nearest (Zpos n) (Zpos (Qden q)) with
      | Some v => Finite v
      | None => PosInfinity
      end
  | Zneg n =>
      match nearest (Zpos n) (Zpos (Qden q)) with
      | Some v => Finite (- v)
      | None => NegInfinity
      end
  end.

Definition neg (a : Num) : Num :=
  match a with
  | Finite x => Finite (- x)
  | PosInfinity => NegInfinity
  | NegInfinity => PosInfinity
  | NaN => NaN
  end.

(** [a + b] *)
Definition add (a b : Num) : Num :=
  match a, b with
  | NaN, _ | _, NaN => NaN
  | Finite x, Finite y => fl (x + y)
  | PosInfinity, NegInfinity | NegInfinity, PosInfinity => NaN
  | PosInfinity, _ | _, PosInfinity => PosInfinity
  | NegInfinity, _ | _, NegInfinity => NegInfinity
  end.

(** [a - b] *)
Definition sub (a b : Num) : Num := add a (neg b).

(** An infinity times or over a finite [x], taken as [+0] when zero. *)
Definition signed (inf : Num) (x : Q) (zero : Num) : Num :=
  match (0 ?= x)%Q with
  | Lt => inf
  | Gt => neg inf
  | Eq => zero
  end.

(** [a * b] *)
Definition mul (a b : Num) : Num :=
  match a, b with
  | NaN, _ | _, NaN => NaN
  | Finite x, Finite y => fl (x * y)
  | Finite x, PosInfinity | PosInfinity, Finite x => signed PosInfinity x NaN
  | Finite x, NegInfinity | NegInfinity, Finite x => signed NegInfinity x NaN
  | PosInfinity, PosInfinity | NegInfinity, NegInfinity => PosInfinity
  | PosInfinity, NegInfinity | NegInfinity, PosInfinity => NegInfinity
  end.

(** [a / b] *)
Definition div (a b : Num) : Num :=
  match a, b with
  | NaN, _ | _, NaN => NaN
  | Finite x, Finite y =>
      if Qeq_bool y 0 then signed PosInfinity x NaN else fl (x / y)
  | Finite _, _ => Finite 0
  | PosInfinity, Finite y => signed PosInfinity y PosInfinity
  | NegInfinity, Finite y => signed NegInfinity y NegInfinity
  | _, _ => NaN
  end.

(** [a < b] *)
Definition lt (a b : Num) : bool :=
  match a, b with
  | NaN, _ | _, NaN => false
  | Finite x, Finite y => JsNumber.Qltb x y
  | _, NegInfinity => false
  | PosInfinity, _ => false
  | _, _ => true
  end.

(** [Math.max(a, b)] and [Math.min(a, b)] *)
Definition Math_max (a b : Num) : Num :=
  match a, b with
  | NaN, _ | _, NaN => NaN
  | _, _ => if lt a b then b else a
  end.

Definition Math_min (a b : Num) : Num :=
  match a, b with
  | NaN, _ | _, NaN => NaN
  | _, _ => if lt b a then b else a
  end.

(** The least integer that is not below [q]. *)
Definition ceiling (q : Q) : Z := - ((- Qnum q) / Zpos (Qden q)).

(** [Math.ceil(a)] *)
Definition Math_ceil (a : Num) : Num :=
  match a with
  | Finite q => Finite (inject_Z (ceiling q))
  | _ => a
  end.

(** The double of an integer literal. *)
Definition integer (z : Z) : Num := Finite (inject_Z z).

End Double.

(** ** Pagination: [utils/apiResponse.js] *)

Module ApiResponse.

Import Chars JsString Double.

Local Open Scope Z_scope.

(** The value of a digit in a radix, [None] when it is none. *)
Definition digitIn (radix : Z) (c : ascii) : option Z :=
  let v :=
    if isDigit c then Z.of_N (code c) - 48
    else if isLower c then Z.of_N (code c) - 87
    else if isUpper c then Z.of_N (code c) - 55
    else 36 in
  if v <? radix then Some v else None.

(** The digits at the head of [s]: their value on top of [acc] and their
    number. *)
Fixpoint digitsIn (radix : Z) (s : text) (acc : Z) (n : nat) : Z * nat :=
  match s with
  | c :: s' =>
      match digitIn radix c with
      | Some v => digitsIn radix s' (radix * acc + v) (S n)
      | None => (acc, n)
      end
  | [] => (acc, n)
  end.

(** [parseInt(s)] without a radix: white space, a sign, [0x] for radix
    16, then the digits; without a digit the result is NaN, and
    otherwise the double nearest to the integer written. *)
Definition parseInt (s : text) : Num :=
  let s := dropWhile isSpace s in
  let '(sign, s) :=
    match s with
    | c :: s' =>
        if Ascii.eqb c "-" then (-1, s')
        else if Ascii.eqb c "+" then (1, s')
        else (1, s)
    | [] => (1, s)
    end in
  let '(radix, s) :=
    match s with
    | c :: x :: s' =>
        if Ascii.eqb c "0" && (Ascii.eqb x "x" || Ascii.eqb x "X") then (16, s') else (10, s)
    | _ => (10, s)
    end in
  let '(v, n) := digitsIn radix s 0 0 in
  if (n =? 0)%nat then NaN else fl (inject_Z (sign * v)).

Record Pagination := { page : Num; limit : Num; skip : Num }.

(** [calculatePagination(page, limit)]: an argument is [None] when it is
    [undefined], and otherwise the string it is converted to. *)
Definition calculatePagination (page limit : option text) : Pagination :=
  let page := match page with Some s => s | None => L "1" end in
  let limit := match limit with Some s => s | None => L "20" end in
  let pageNum := Math_max (integer 1) (parseInt page) in
  let limitNum := Math_min (integer 100) (Math_max (integer 1) (parseInt limit)) in
  let skip := mul (sub pageNum (integer 1)) limitNum in
  {| page := pageNum; limit := limitNum; skip := skip |}.

Record PaginationMeta := {
  currentPage : Num;
  totalPages : Num;
  totalItems : Num;
  itemsPerPage : Num;
  hasNext : bool;
  hasPrev : bool;
  nextPage : option Num;
  prevPage : option Num
}.

(** The [meta.pagination] object of [sendPaginated]. *)
Definition sendPaginated (page limit total : Num) : PaginationMeta :=
  let totalPages := Math_ceil (div total limit) in
  let hasNext := lt page totalPages in
  let hasPrev := lt (integer 1) page in
  {| currentPage := page;
     totalPages := totalPages;
     totalItems := total;
     itemsPerPage := limit;
     hasNext := hasNext;
     hasPrev := hasPrev;
     nextPage := if hasNext then Some (add page (integer 1)) else None;
     prevPage := if hasPrev then Some (sub page (integer 1)) else None |}.

End ApiResponse.


(** * Properties *)

Unset Implicit Arguments.

Module EffFacts.
Import Eff.

Definition total {S A} (c : M S A) : Prop :=
  forall st, exists a st', c st = (Ok a, st').

Lemma total_ret {S A} (a : A) : total (@ret S A a).
Proof. intros st. exists a, st. reflexivity. Qed.

Lemma total_bind {S A B} (c : M S A) (k : A -> M S B) :
  total c -> (forall a, total (k a)) -> total (bind c k).
Proof.
  intros Hc Hk st. destruct (Hc st) as (a & st1 & E).
  destruct (Hk a st1) as (b & st2 & E2).
  exists b, st2. unfold bind. rewrite E. exact E2.
Qed.

Lemma total_tryCatch {S A} (c : M S A) (h : text -> M S A) :
  (forall e, total (h e)) -> total (tryCatch c h).
Proof.
  intros Hh st. unfold tryCatch.
  destruct (c st) as [[a|e] st1].
  - exists a, st1. reflexivity.
  - apply Hh.
Qed.

Lemma total_readClock w : total (readClock w).
Proof. intros st. eexists _, _. reflexivity. Qed.

Lemma total_gets {S A} (f : S -> A) : total (gets f).
Proof. intros st. eexists _, _. reflexivity. Qed.

Lemma total_modify {S} (f : S -> S) : total (modify f).
Proof. intros st. eexists _, _. reflexivity. Qed.

Lemma total_log e : total (log e).
Proof. apply total_modify. Qed.

End EffFacts.

Module TierFacts.
Import Eff EffFacts Json Data JsString.

Definition isUnlink (e : Event) : Prop := exists p, e = Unlinked p.

(** A computation that adds nothing to the trace but unlink events. *)
Definition quiet {A} (c : M St A) : Prop :=
  forall st r st', c st = (r, st') ->
    exists us, trace st' = trace st ++ us /\ Forall isUnlink us.

Lemma quiet_same {A} (c : M St A) :
  (forall st r st', c st = (r, st') -> trace st' = trace st) -> quiet c.
Proof.
  intros H st r st' E. exists []. rewrite app_nil_r. split; [eauto | constructor].
Qed.

Lemma quiet_ret {A} (a : A) : quiet (ret a).
Proof. apply quiet_same. intros st r st' E. inversion E. reflexivity. Qed.

Lemma quiet_throw {A} m : quiet (@throw St A m).
Proof. apply quiet_same. intros st r st' E. inversion E. reflexivity. Qed.

Lemma quiet_lift {A} (x : Exn A) : quiet (lift x).
Proof. apply quiet_same. intros st r st' E. inversion E. reflexivity. Qed.

Lemma quiet_gets {A} (f : St -> A) : quiet (gets f).
Proof. apply quiet_same. intros st r st' E. inversion E. reflexivity. Qed.

Lemma quiet_readClock w : quiet (readClock w).
Proof. apply quiet_same. intros st r st' E. inversion E. reflexivity. Qed.

Lemma quiet_setGemini b : quiet (setGemini b).
Proof. apply quiet_same. intros st r st' E. inversion E. reflexivity. Qed.

Lemma quiet_setTesseract b : quiet (setTesseract b).
Proof. apply quiet_same. intros st r st' E. inversion E. reflexivity. Qed.

Lemma quiet_unlinked p : quiet (log (Unlinked p)).
Proof.
  intros st r st' E. inversion E. exists [Unlinked p]. split; [reflexivity|].
  constructor; [exists p; reflexivity | constructor].
Qed.

Lemma quiet_bind {A B} (c : M St A) (k : A -> M St B) :
  quiet c -> (forall a, quiet (k a)) -> quiet (bind c k).
Proof.
  intros Hc Hk st r st' E. unfold bind in E.
  destruct (c st) as [[a|e] st1] eqn:Ec.
  - destruct (Hc _ _ _ Ec) as (u1 & T1 & F1).
    destruct (Hk a _ _ _ E) as (u2 & T2 & F2).
    exists (u1 ++ u2). rewrite T2, T1, app_assoc. split; [reflexivity|].
    apply Forall_app. split; assumption.
  - inversion E; subst. eapply Hc; eauto.
Qed.

Lemma quiet_tryCatch {A} (c : M St A) (h : text -> M St A) :
  quiet c -> (forall e, quiet (h e)) -> quiet (tryCatch c h).
Proof.
  intros Hc Hh st r st' E. unfold tryCatch in E.
  destruct (c st) as [[a|e] st1] eqn:Ec.
  - inversion E; subst. eapply Hc; eauto.
  - destruct (Hc _ _ _ Ec) as (u1 & T1 & F1).
    destruct (Hh e _ _ _ E) as (u2 & T2 & F2).
    exists (u1 ++ u2). rewrite T2, T1, app_assoc. split; [reflexivity|].
    apply Forall_app. split; assumption.
Qed.

Ltac quiet_step :=
  first
    [ apply quiet_ret | apply quiet_throw | apply quiet_lift | apply quiet_gets
    | apply quiet_readClock | apply quiet_setGemini | apply quiet_setTesseract
    | apply quiet_unlinked
    | apply quiet_bind; [| intros ?]
    | apply quiet_tryCatch; [| intros ?]
    | match goal with
      | |- quiet (if ?b then _ else _) => destruct b
      | |- quiet (match ?x with _ => _ end) => destruct x
      | |- quiet (let (_, _) := ?x in _) => destruct x
      end ].

Ltac quiet_all := repeat quiet_step.

Ltac total_step :=
  first
    [ apply total_ret | apply total_gets | apply total_readClock | apply total_log
    | apply total_modify
    | apply total_tryCatch; intros ?
    | apply total_bind; [| intros ?]
    | match goal with
      | |- total (if ?b then _ else _) => destruct b
      | |- total (match ?x with _ => _ end) => destruct x
      end ].

Section Tiers.

Context {platform : Platform}.
Variable w : World.

Lemma quiet_isAvailable : quiet (GeminiOCRService.isAvailable w).
Proof. unfold GeminiOCRService.isAvailable, GeminiOCRService.initialize. quiet_all. Qed.

Lemma quiet_vision_body path :
  exists body, GeminiOCRService.processReceipt w path = bind (log (VisionTier path)) (fun _ => body)
               /\ quiet body.
Proof.
  eexists. split; [reflexivity|].
  unfold GeminiOCRService.parseGeminiResponse, GeminiOCRService.formatParsedData,
    GeminiOCRService.formatDateValue, GeminiOCRService.convertToImageIfNeeded,
    GeminiOCRService.unlinkQuietly, GeminiOCRService.prop.
  quiet_all; try apply quiet_isAvailable.
Qed.

Lemma total_vision path : total (GeminiOCRService.processReceipt w path).
Proof.
  unfold GeminiOCRService.processReceipt.
  apply total_bind; [apply total_log | intros _].
  apply total_bind; [apply total_readClock | intros startTime].
  apply total_tryCatch. intros e. repeat total_step.
Qed.

Lemma quiet_recognizeAll paths : forall acc scores, quiet (OCRService.recognizeAll w paths acc scores).
Proof.
  induction paths as [|p paths IH]; intros acc scores; simpl.
  - apply quiet_ret.
  - unfold OCRService.extractTextFromImage. quiet_all. apply IH.
Qed.

Lemma quiet_cleanupTempFiles paths orig : quiet (OCRService.cleanupTempFiles w paths orig).
Proof.
  induction paths as [|p paths IH]; simpl.
  - apply quiet_ret.
  - quiet_all. apply IH.
Qed.

Lemma quiet_heuristic_body path :
  exists body, OCRService.processWithTesseract w path = bind (log (HeuristicTier path)) (fun _ => body)
               /\ quiet body.
Proof.
  eexists. split; [reflexivity|].
  unfold OCRService.prepareImageFiles, OCRService.convertPdfToImages, OCRService.preprocessImage,
    OCRService.initializeTesseract.
  quiet_all; first [apply quiet_recognizeAll | apply quiet_cleanupTempFiles].
Qed.

Lemma total_heuristic path : total (OCRService.processWithTesseract w path).
Proof.
  unfold OCRService.processWithTesseract.
  apply total_bind; [apply total_log | intros _].
  apply total_bind; [apply total_readClock | intros startTime].
  apply total_tryCatch. intros e. repeat total_step.
Qed.

End Tiers.
End TierFacts.

Module OrchestratorFacts.
Import Eff EffFacts TierFacts Json Data JsString.

Definition configured (w : World) (st : St) : bool :=
  if geminiInitialized st then geminiModel st
  else match env_GEMINI_API_KEY w with
       | Some (_ :: _) => true
       | _ => false
       end.

Definition started (w : World) (st : St) : St := snd (readClock w st).

Section Facts.
Context {platform : Platform}.
Variable w : World.

Definition checked (st : St) : St := snd (GeminiOCRService.isAvailable w (started w st)).

Lemma isAvailable_spec st :
  GeminiOCRService.isAvailable w st = (Ok (configured w st), snd (GeminiOCRService.isAvailable w st)).
Proof.
  unfold GeminiOCRService.isAvailable, GeminiOCRService.initialize, configured, bind, gets.
  destruct (geminiInitialized st) eqn:E; simpl.
  - reflexivity.
  - destruct (env_GEMINI_API_KEY w) as [[|c k]|]; reflexivity.
Qed.

Lemma trace_isAvailable st : trace (snd (GeminiOCRService.isAvailable w st)) = trace st.
Proof.
  unfold GeminiOCRService.isAvailable, GeminiOCRService.initialize, configured, bind, gets.
  destruct (geminiInitialized st) eqn:E; simpl.
  - reflexivity.
  - destruct (env_GEMINI_API_KEY w) as [[|c k]|]; reflexivity.
Qed.

Lemma isAvailable_started st :
  GeminiOCRService.isAvailable w (started w st) = (Ok (configured w st), checked st).
Proof. rewrite isAvailable_spec. reflexivity. Qed.

Lemma readClock_started st : readClock w st = (Ok (clock w (clockReads st)), started w st).
Proof. reflexivity. Qed.

Lemma trace_checked st : trace (checked st) = trace st.
Proof. unfold checked. rewrite trace_isAvailable. reflexivity. Qed.

Lemma vision_runs path st :
  exists g st2 us,
    GeminiOCRService.processReceipt w path st = (Ok g, st2)
    /\ trace st2 = trace st ++ VisionTier path :: us /\ Forall isUnlink us.
Proof.
  destruct (total_vision w path st) as (g & st2 & E).
  destruct (quiet_vision_body w path) as (body & Eb & Q).
  exists g, st2.
  rewrite Eb in E. unfold bind at 1 in E. simpl in E.
  destruct (Q _ _ _ E) as (us & T & F). exists us. simpl in T.
  rewrite <- app_assoc in T. simpl in T.
  rewrite Eb. unfold bind at 1. simpl. auto.
Qed.

Lemma heuristic_runs path st :
  exists r st3 us,
    OCRService.processWithTesseract w path st = (Ok r, st3)
    /\ trace st3 = trace st ++ HeuristicTier path :: us /\ Forall isUnlink us.
Proof.
  destruct (total_heuristic w path st) as (g & st2 & E).
  destruct (quiet_heuristic_body w path) as (body & Eb & Q).
  exists g, st2.
  rewrite Eb in E. unfold bind at 1 in E. simpl in E.
  destruct (Q _ _ _ E) as (us & T & F). exists us. simpl in T.
  rewrite <- app_assoc in T. simpl in T.
  rewrite Eb. unfold bind at 1. simpl. auto.
Qed.

(** The orchestrator, case by case. *)
Lemma orchestrator_unselected path st :
  text_eqb (OCRService.ocrMethod w) (L "gemini") = false ->
  OCRService.processReceipt w path st = OCRService.processWithTesseract w path (started w st).
Proof.
  intros H. unfold OCRService.processReceipt. rewrite H.
  unfold bind at 1. rewrite readClock_started. unfold tryCatch.
  destruct (heuristic_runs path (started w st)) as (r & st3 & us & E & _).
  rewrite E. reflexivity.
Qed.

Lemma orchestrator_unconfigured path st :
  text_eqb (OCRService.ocrMethod w) (L "gemini") = true ->
  configured w st = false ->
  OCRService.processReceipt w path st = OCRService.processWithTesseract w path (checked st).
Proof.
  intros H C. unfold OCRService.processReceipt. rewrite H.
  unfold bind at 1. rewrite readClock_started. unfold tryCatch.
  unfold bind at 1. rewrite isAvailable_started, C.
  destruct (heuristic_runs path (checked st)) as (r & st3 & us & E & _).
  rewrite E. reflexivity.
Qed.

Lemma orchestrator_accepts path st g st2 :
  text_eqb (OCRService.ocrMethod w) (L "gemini") = true ->
  configured w st = true ->
  GeminiOCRService.processReceipt w path (checked st) = (Ok g, st2) ->
  success g && OCRService.js_gt (ocr_confidence g) 0.5%Q = true ->
  OCRService.processReceipt w path st = (Ok g, st2).
Proof.
  intros H C E A. unfold OCRService.processReceipt. rewrite H.
  unfold bind at 1. rewrite readClock_started. unfold tryCatch.
  unfold bind at 1. rewrite isAvailable_started, C.
  unfold bind at 1. rewrite E, A. reflexivity.
Qed.

Lemma orchestrator_falls_back path st g st2 :
  text_eqb (OCRService.ocrMethod w) (L "gemini") = true ->
  configured w st = true ->
  GeminiOCRService.processReceipt w path (checked st) = (Ok g, st2) ->
  success g && OCRService.js_gt (ocr_confidence g) 0.5%Q = false ->
  OCRService.processReceipt w path st = OCRService.processWithTesseract w path st2.
Proof.
  intros H C E A. unfold OCRService.processReceipt. rewrite H.
  unfold bind at 1. rewrite readClock_started. unfold tryCatch.
  unfold bind at 1. rewrite isAvailable_started, C.
  unfold bind at 1. rewrite E, A.
  destruct (heuristic_runs path st2) as (r & st3 & us & E3 & _).
  rewrite E3. reflexivity.
Qed.

End Facts.
End OrchestratorFacts.

Module VisionFacts.
Import Eff EffFacts TierFacts OrchestratorFacts Json Data JsString.

(** The image the vision tier reads for a file: the file itself, or the
    first page of a PDF. *)
Definition imageFor (w : World) (filePath : text) : Exn text :=
  if text_eqb (toLowerCase (extname filePath)) (L ".pdf") then
    match pdf2pic_first w filePath with
    | Ok p => Ok p
    | Throw _ => Throw (L "Failed to convert PDF to image")
    end
  else Ok filePath.

(** The model's answer for a file, when every step up to it succeeds. *)
Definition answers (w : World) (filePath responseText : text) : Prop :=
  exists imagePath,
    imageFor w filePath = Ok imagePath
    /\ fs_readFile w imagePath = Ok tt
    /\ gemini_generateContent w imagePath = Ok responseText.

Section Facts.
Context {platform : Platform}.
Variable w : World.

Lemma convertToImageIfNeeded_spec path st :
  GeminiOCRService.convertToImageIfNeeded w path st = (imageFor w path, st).
Proof.
  unfold GeminiOCRService.convertToImageIfNeeded, imageFor.
  destruct (text_eqb _ _); [|reflexivity].
  unfold tryCatch, lift. destruct (pdf2pic_first w path); reflexivity.
Qed.

Lemma configured_after_log e st : configured w (snd (log e st)) = configured w st.
Proof. reflexivity. Qed.

(** The vision tier up to the parsed response. *)
Lemma vision_parsed path st resp :
  configured w st = true ->
  answers w path resp ->
  exists st1 startTime,
    trace st1 = trace st ++ [VisionTier path] /\
    GeminiOCRService.processReceipt w path st =
    tryCatch
      (bind (GeminiOCRService.parseGeminiResponse w resp) (fun parsedData =>
       bind (match imageFor w path with
             | Ok imagePath => if text_eqb imagePath path then ret tt
                               else GeminiOCRService.unlinkQuietly w imagePath
             | Throw _ => ret tt
             end) (fun _ =>
       bind (readClock w) (fun endTime =>
       bind (GeminiOCRService.prop parsedData "rawText") (fun rawText =>
       bind (GeminiOCRService.formatParsedData w parsedData) (fun formatted =>
       ret {| success := true;
              error := None;
              extractedText := or_else rawText (JStr []);
              parsedData := Vision formatted;
              ocr_confidence := or_else (GeminiOCRService.prop_of parsedData "confidence") (JNum 0.8%Q);
              processingTime := (endTime - startTime)%Z;
              method := L "gemini" |}))))))
      (fun message =>
         bind (readClock w) (fun now =>
         bind (readClock w) (fun endTime =>
         ret {| success := false;
                error := Some message;
                extractedText := JStr [];
                parsedData := Heuristic (GeminiOCRService.getEmptyParsedData now);
                ocr_confidence := JNum 0;
                processingTime := (endTime - startTime)%Z;
                method := L "gemini" |})))
      st1.
Proof.
  intros C (img & Ei & Er & Eg).
  unfold GeminiOCRService.processReceipt.
  unfold bind at 1. cbn [log modify fst snd].
  unfold bind at 1. rewrite readClock_started.
  exists (snd (GeminiOCRService.isAvailable w (started w (snd (log (VisionTier path) st))))),
         (clock w (clockReads st)). split.
  { rewrite trace_isAvailable. reflexivity. }
  unfold tryCatch. unfold bind at 1.
  rewrite isAvailable_spec.
  change (configured w (started w _)) with (configured w st). rewrite C.
  cbn [negb]. unfold bind at 1. rewrite convertToImageIfNeeded_spec, Ei.
  unfold bind at 1. unfold lift at 1. rewrite Er.
  unfold bind at 1. unfold lift at 1. rewrite Eg.
  reflexivity.
Qed.

Lemma isoDate_nonempty t : text_eqb (JsDate.isoDate t) [] = false.
Proof. reflexivity. Qed.

Lemma formatDateValue_fallback now st :
  exists d st',
    GeminiOCRService.formatDateValue w
      (Some (GeminiOCRService.field (JStr (JsDate.isoDate now)) 0%Q)) st
    = (Ok {| vd_value := d; vd_confidence := JNum 0 |}, st')
    /\ trace st' = trace st.
Proof.
  unfold GeminiOCRService.formatDateValue, GeminiOCRService.field.
  cbn [truthy GeminiOCRService.prop_of lookupKey L list_ascii_of_string text_eqb
       List.length Nat.eqb isPrefix Ascii.eqb Bool.eqb andb negb].
  rewrite isoDate_nonempty. cbn [negb andb GeminiOCRService.newDate1].
  destruct (Date_parse (JsDate.isoDate now)) as [d|].
  - eexists _, _. split; reflexivity.
  - eexists _, _. split; reflexivity.
Qed.

(** The vision tier on a response that does not parse. *)
Lemma vision_unparsable path st resp :
  configured w st = true ->
  answers w path resp ->
  JSON_parse (GeminiOCRService.jsonTextOf resp) = None ->
  exists r st' d us,
    GeminiOCRService.processReceipt w path st = (Ok r, st')
    /\ trace st' = trace st ++ VisionTier path :: us /\ Forall isUnlink us
    /\ success r = true
    /\ method r = L "gemini"
    /\ ocr_confidence r = JNum 0.1%Q
    /\ parsedData r =
       Vision {| v_merchantName := GeminiOCRService.field (JStr []) 0%Q;
                 v_totalAmount := GeminiOCRService.field (JNum 0) 0%Q;
                 v_date := {| vd_value := d; vd_confidence := JNum 0 |};
                 v_items := JArr [];
                 v_taxAmount := GeminiOCRService.field (JNum 0) 0%Q;
                 v_category := GeminiOCRService.emptyCategory;
                 v_paymentMethod := GeminiOCRService.field (JStr (L "other")) 0%Q;
                 v_subtotal := GeminiOCRService.field (JNum 0) 0%Q |}.
Proof.
  intros C A P.
  destruct (vision_runs w path st) as (r & st' & us & E & T & F).
  exists r, st'.
  destruct (@vision_parsed path st resp C A) as (st1 & startTime & T1 & E1).
  pose proof E as E0.
  rewrite E1 in E. clear E1.
  unfold tryCatch, GeminiOCRService.parseGeminiResponse in E. rewrite P in E.
  unfold bind at 1 in E. unfold bind at 1 in E. rewrite readClock_started in E.
  cbn [ret] in E.
  unfold bind at 1 in E.
  destruct ((match imageFor w path with
             | Ok imagePath => if text_eqb imagePath path then ret tt
                               else GeminiOCRService.unlinkQuietly w imagePath
             | Throw _ => ret tt end) (started w st1)) as [[[]|e] st2] eqn:E2.
  2:{ exfalso. destruct (imageFor w path) as [img|]; [|discriminate].
      destruct (text_eqb img path); [discriminate|].
      unfold GeminiOCRService.unlinkQuietly, bind, tryCatch, lift, log, modify in E2.
      destruct (fs_unlink w img); discriminate. }
  unfold bind at 1 in E. rewrite readClock_started in E.
  unfold bind at 1 in E.
  unfold GeminiOCRService.prop, GeminiOCRService.fallbackStructure in E.
  cbn [ret] in E.
  unfold bind at 1 in E. unfold GeminiOCRService.formatParsedData in E.
  unfold bind at 1 in E.
  change (GeminiOCRService.prop_of (JObj ?l) "date") with
    (Some (GeminiOCRService.field (JStr (JsDate.isoDate (clock w (clockReads st1)))) 0%Q)) in E.
  destruct (formatDateValue_fallback (clock w (clockReads st1)) (started w st2)) as (d & st3 & Ed & Td).
  rewrite Ed in E. cbn [ret] in E.
  exists d, us. inversion E; subst. clear E.
  repeat split; auto.
Qed.

Lemma or_else_falsy a b : truthy a = false -> or_else a b = b.
Proof. unfold or_else. destruct a as [v|]; [|reflexivity]. intros ->. reflexivity. Qed.

Lemma prop_not_null {S} parsed key :
  parsed <> JNull ->
  forall st : S,
    GeminiOCRService.prop parsed key st = (Ok (GeminiOCRService.prop_of parsed key), st).
Proof. intros N st. destruct parsed; try reflexivity. congruence. Qed.

Lemma total_formatParsedData parsed : total (GeminiOCRService.formatParsedData w parsed).
Proof.
  unfold GeminiOCRService.formatParsedData, GeminiOCRService.formatDateValue.
  repeat total_step.
Qed.

Lemma total_cleanup path :
  total (match imageFor w path with
         | Ok imagePath => if text_eqb imagePath path then ret tt
                           else GeminiOCRService.unlinkQuietly w imagePath
         | Throw _ => ret tt
         end).
Proof.
  unfold GeminiOCRService.unlinkQuietly. repeat total_step.
Qed.

(** The vision tier on a response that parses and reports no confidence. *)
Lemma vision_default_confidence path st resp parsed :
  configured w st = true ->
  answers w path resp ->
  JSON_parse (GeminiOCRService.jsonTextOf resp) = Some parsed ->
  parsed <> JNull ->
  truthy (GeminiOCRService.prop_of parsed "confidence") = false ->
  exists r st' us,
    GeminiOCRService.processReceipt w path st = (Ok r, st')
    /\ trace st' = trace st ++ VisionTier path :: us /\ Forall isUnlink us
    /\ success r = true
    /\ method r = L "gemini"
    /\ ocr_confidence r = JNum 0.8%Q.
Proof.
  intros C A P N F0.
  destruct (vision_runs w path st) as (r & st' & us & E & T & F).
  exists r, st', us.
  destruct (@vision_parsed path st resp C A) as (st1 & startTime & T1 & E1).
  pose proof E as E0.
  rewrite E1 in E. clear E1.
  unfold tryCatch, GeminiOCRService.parseGeminiResponse in E. rewrite P in E.
  unfold bind at 1 in E. cbn [ret] in E.
  unfold bind at 1 in E.
  destruct (total_cleanup path st1) as ([] & st2 & E2). rewrite E2 in E.
  unfold bind at 1 in E. rewrite readClock_started in E.
  unfold bind at 1 in E. rewrite (@prop_not_null St parsed "rawText"%string N) in E.
  unfold bind at 1 in E.
  destruct (total_formatParsedData parsed (started w st2)) as (f & st3 & E3).
  rewrite E3 in E. cbn [ret] in E.
  rewrite (or_else_falsy _ _ F0) in E.
  inversion E; subst. repeat split; auto.
Qed.

End Facts.
End VisionFacts.

Module HeuristicFacts.
Import Eff EffFacts TierFacts OrchestratorFacts VisionFacts Json Data JsString.

Lemma bind_Ok_inv {S A B} (c : M S A) (k : A -> M S B) st b st' :
  bind c k st = (Ok b, st') ->
  exists a st1, c st = (Ok a, st1) /\ k a st1 = (Ok b, st').
Proof.
  unfold bind. destruct (c st) as [[a|e] st1]; intros E.
  - exists a, st1. auto.
  - discriminate.
Qed.

(** The shape of a failure record of a tier. *)
Definition failureOf (tier : text) (r : OcrResult) : Prop :=
  success r = false
  /\ method r = tier
  /\ ocr_confidence r = JNum 0
  /\ extractedText r = JStr []
  /\ (exists message, error r = Some message)
  /\ (exists now, parsedData r = Heuristic (OCRService.getEmptyParsedData now)).

Section Facts.
Context {platform : Platform}.
Variable w : World.

Lemma heuristic_result path st r st' :
  OCRService.processWithTesseract w path st = (Ok r, st') ->
  method r = L "tesseract"
  /\ (success r = true \/ failureOf (L "tesseract") r).
Proof.
  unfold OCRService.processWithTesseract. intros E.
  apply bind_Ok_inv in E. destruct E as ([] & st1 & _ & E).
  apply bind_Ok_inv in E. destruct E as (startTime & st2 & _ & E).
  unfold tryCatch in E.
  match type of E with (match ?body ?s with _ => _ end) = _ =>
    destruct (body s) as [[r0|e] st3] eqn:Eb end.
  - inversion E; subst. clear E.
    repeat (apply bind_Ok_inv in Eb; destruct Eb as (? & ? & _ & Eb)).
    inversion Eb; subst. simpl. auto.
  - repeat (apply bind_Ok_inv in E; destruct E as (? & ? & _ & E)).
    inversion E; subst. simpl. split; [reflexivity|]. right.
    repeat split; simpl; eauto.
Qed.

(** The heuristic tier with its failure spelled out. *)
Lemma heuristic_fails path st message :
  (forall st0, exists st1,
     (bind (OCRService.prepareImageFiles w path) (fun imagePaths =>
      bind (OCRService.initializeTesseract w) (fun _ =>
      OCRService.recognizeAll w imagePaths [] []))) st0 = (Throw message, st1)) ->
  exists r st',
    OCRService.processWithTesseract w path st = (Ok r, st')
    /\ failureOf (L "tesseract") r /\ error r = Some message.
Proof.
  intros H.
  unfold OCRService.processWithTesseract.
  unfold bind at 1. cbn [log modify].
  unfold bind at 1. rewrite readClock_started.
  unfold tryCatch.
  match goal with |- context [started w ?s] => destruct (H (started w s)) as (st1 & E1) end.
  unfold bind at 1.
  unfold bind at 1 in E1.
  destruct (OCRService.prepareImageFiles w path _) as [[paths|e] st2] eqn:Ep.
  - unfold bind at 1. unfold bind at 1 in E1.
    destruct (OCRService.initializeTesseract w st2) as [[[]|e] st3] eqn:Ei.
    + unfold bind at 1. rewrite E1.
      eexists _, _. split; [reflexivity|].
      unfold failureOf. simpl. repeat split; eauto.
    + inversion E1; subst.
      eexists _, _. split; [reflexivity|].
      unfold failureOf. simpl. repeat split; eauto.
  - inversion E1; subst.
    eexists _, _. split; [reflexivity|].
    unfold failureOf. simpl. repeat split; eauto.
Qed.

Definition supported (path : text) : bool :=
  let ext := toLowerCase (extname path) in
  text_eqb ext (L ".pdf") || existsb (text_eqb ext) OCRService.imageExtensions.

Lemma heuristic_unsupported path st :
  supported path = false ->
  exists r st',
    OCRService.processWithTesseract w path st = (Ok r, st')
    /\ failureOf (L "tesseract") r
    /\ error r = Some (L "Unsupported file type: " ++ toLowerCase (extname path)).
Proof.
  intros U. apply heuristic_fails. intros st0.
  unfold supported in U. apply orb_false_elim in U. destruct U as (U1 & U2).
  unfold OCRService.prepareImageFiles. rewrite U1, U2.
  eexists. reflexivity.
Qed.

(** An image the OCR engine cannot read. *)
Lemma heuristic_undecodable path st message :
  existsb (text_eqb (toLowerCase (extname path))) OCRService.imageExtensions = true ->
  text_eqb (toLowerCase (extname path)) (L ".pdf") = false ->
  tesseract_createWorker w = Ok tt ->
  (forall p, tesseract_recognize w p = Throw message) ->
  exists r st',
    OCRService.processWithTesseract w path st = (Ok r, st')
    /\ failureOf (L "tesseract") r
    /\ error r = Some (L "OCR failed: " ++ message).
Proof.
  intros I P W R. apply heuristic_fails. intros st0.
  unfold OCRService.prepareImageFiles. rewrite P, I.
  unfold bind at 1. unfold bind at 1.
  assert (Hp : exists p st1, OCRService.preprocessImage w path st0 = (Ok p, st1)).
  { unfold OCRService.preprocessImage, tryCatch, bind, lift, ret.
    destruct (sharp_toFile w path _); eexists _, _; reflexivity. }
  destruct Hp as (p & st1 & Ep). rewrite Ep. cbn [ret].
  unfold bind at 1.
  assert (Hi : exists st2, OCRService.initializeTesseract w st1 = (Ok tt, st2)).
  { unfold OCRService.initializeTesseract, bind, gets, tryCatch, lift.
    destruct (tesseractInitialized st1); [eexists; reflexivity|].
    rewrite W. eexists; reflexivity. }
  destruct Hi as (st2 & Ei). rewrite Ei.
  cbn [OCRService.recognizeAll]. unfold bind at 1.
  unfold OCRService.extractTextFromImage, tryCatch. unfold bind at 1, lift.
  rewrite R. eexists. reflexivity.
Qed.

End Facts.
End HeuristicFacts.

Module PipelineTheorems.
Import Eff EffFacts TierFacts OrchestratorFacts VisionFacts HeuristicFacts Json Data JsString.

Definition selected (w : World) : bool := text_eqb (OCRService.ocrMethod w) (L "gemini").

(** The acceptance test of the orchestrator. *)
Definition accepted {platform : Platform} (g : OcrResult) : bool :=
  success g && OCRService.js_gt (ocr_confidence g) 0.5%Q.

Section Theorems.
Context {platform : Platform}.

Lemma vision_result w path st g st' :
  GeminiOCRService.processReceipt w path st = (Ok g, st') ->
  method g = L "gemini" /\ (success g = true \/ failureOf (L "gemini") g).
Proof.
  unfold GeminiOCRService.processReceipt. intros E.
  apply bind_Ok_inv in E. destruct E as ([] & st1 & _ & E).
  apply bind_Ok_inv in E. destruct E as (startTime & st2 & _ & E).
  unfold tryCatch in E.
  match type of E with (match ?body ?s with _ => _ end) = _ =>
    destruct (body s) as [[r0|e] st3] eqn:Eb end.
  - inversion E; subst. clear E.
    apply bind_Ok_inv in Eb. destruct Eb as (av & ? & _ & Eb).
    destruct (negb av); [discriminate|].
    repeat (apply bind_Ok_inv in Eb; destruct Eb as (? & ? & _ & Eb)).
    inversion Eb; subst. simpl. auto.
  - repeat (apply bind_Ok_inv in E; destruct E as (? & ? & _ & E)).
    inversion E; subst. simpl. split; [reflexivity|]. right.
    repeat split; simpl; eauto.
Qed.

Lemma js_gt_number (x q : Q) : OCRService.js_gt (JNum x) q = true <-> (q < x)%Q.
Proof.
  unfold OCRService.js_gt, JsNumber.Qltb. rewrite negb_true_iff.
  split; intros H.
  - apply Qnot_le_lt. intros Hle. apply Qle_bool_iff in Hle. congruence.
  - destruct (Qle_bool x q) eqn:E; [|reflexivity].
    apply Qle_bool_iff in E. exfalso. eapply Qlt_not_le; eauto.
Qed.

(** ** C1: tier selection *)


(** The orchestrator returns, and what it returns is the accepted result
    of the vision tier or the result of the heuristic tier. *)
Lemma orchestrator_result (w : World) (path : text) (st : St) :
  exists r st',
    OCRService.processReceipt w path st = (Ok r, st')
    /\ ((selected w && configured w st = true
         /\ GeminiOCRService.processReceipt w path (checked w st) = (Ok r, st')
         /\ accepted r = true)
        \/ (exists st1, OCRService.processWithTesseract w path st1 = (Ok r, st')
                       /\ (selected w && configured w st = false ->
                           st1 = started w st \/ st1 = checked w st))).
Proof.
  destruct (selected w && configured w st) eqn:H.
  - apply andb_prop in H. destruct H as (S & C).
    destruct (vision_runs w path (checked w st)) as (g & st2 & us & E & T & F).
    destruct (accepted g) eqn:A.
    + exists g, st2. split; [apply orchestrator_accepts; auto|]. left. auto.
    + destruct (heuristic_runs w path st2) as (r & st3 & us' & E3 & T3 & F3).
      exists r, st3. split.
      * rewrite <- E3. apply orchestrator_falls_back with (g := g); auto.
      * right. exists st2. split; [auto | discriminate].
  - apply andb_false_elim in H. destruct H as [S | C].
    + destruct (heuristic_runs w path (started w st)) as (r & st3 & us' & E3 & T3 & F3).
      exists r, st3. split.
      * rewrite <- E3. apply orchestrator_unselected; auto.
      * right. exists (started w st). auto.
    + destruct (selected w) eqn:S.
      * destruct (heuristic_runs w path (checked w st)) as (r & st3 & us' & E3 & T3 & F3).
        exists r, st3. split.
        { rewrite <- E3. apply orchestrator_unconfigured; auto. }
        right. exists (checked w st). auto.
      * destruct (heuristic_runs w path (started w st)) as (r & st3 & us' & E3 & T3 & F3).
        exists r, st3. split.
        { rewrite <- E3. apply orchestrator_unselected; auto. }
        right. exists (started w st). auto.
Qed.

(** ** C7: failure of the pipeline *)


(** ** C8: a response that does not parse *)

(** C8, as amended.  When the text of the model's response does not parse
    as JSON, the vision tier does not raise: it reports success with
    method ["gemini"], every field at confidence 0, and an overall
    confidence of 0.1 (not 0), which the orchestrator does not accept. *)
Theorem C8_unparsable_response (w : World) (path : text) (st : St) (resp : text) :
  configured w st = true ->
  answers w path resp ->
  JSON_parse (GeminiOCRService.jsonTextOf resp) = None ->
  exists r st' d,
    GeminiOCRService.processReceipt w path st = (Ok r, st')
    /\ success r = true
    /\ method r = L "gemini"
    /\ parsedData r =
       Vision {| v_merchantName := GeminiOCRService.field (JStr []) 0%Q;
                 v_totalAmount := GeminiOCRService.field (JNum 0) 0%Q;
                 v_date := {| vd_value := d; vd_confidence := JNum 0 |};
                 v_items := JArr [];
                 v_taxAmount := GeminiOCRService.field (JNum 0) 0%Q;
                 v_category := GeminiOCRService.emptyCategory;
                 v_paymentMethod := GeminiOCRService.field (JStr (L "other")) 0%Q;
                 v_subtotal := GeminiOCRService.field (JNum 0) 0%Q |}
    /\ ocr_confidence r = JNum 0.1%Q
    /\ accepted r = false.
Proof.
  intros C A P.
  destruct (vision_unparsable w path st resp C A P) as (r & st' & d & us & E & _ & _ & S & M & Cf & Pd).
  exists r, st', d. repeat split; auto.
  unfold accepted. rewrite S, Cf. reflexivity.
Qed.

(** ** C10: the default confidence *)

(** The top-level confidence is absent, null or 0. *)
Definition reportsNoConfidence (parsed : json) : Prop :=
  GeminiOCRService.prop_of parsed "confidence" = None
  \/ GeminiOCRService.prop_of parsed "confidence" = Some JNull
  \/ exists q, GeminiOCRService.prop_of parsed "confidence" = Some (JNum q) /\ (q == 0)%Q.

Lemma reportsNoConfidence_falsy parsed :
  reportsNoConfidence parsed -> truthy (GeminiOCRService.prop_of parsed "confidence") = false.
Proof.
  intros [H | [H | (q & H & Hq)]]; rewrite H; simpl; try reflexivity.
  apply Qeq_bool_iff in Hq. rewrite Hq. reflexivity.
Qed.

(** C10, as amended. When the response parses to a value other than
    [null] whose top-level confidence is absent, null or 0, the vision
    tier reports success with confidence 0.8; the orchestrator, with the
    tier selected and configured, accepts that result as final, and the
    heuristic tier does not run: the trace gains the vision tier's entry
    and unlink events only.  On the response [null], which parses as
    well, the tier fails instead: reading a field of [null] raises. *)
Theorem C10_default_confidence (w : World) (path : text) (st : St) (resp : text) (parsed : json) :
  selected w = true ->
  configured w st = true ->
  answers w path resp ->
  JSON_parse (GeminiOCRService.jsonTextOf resp) = Some parsed ->
  parsed <> JNull ->
  reportsNoConfidence parsed ->
  exists r st' us,
    OCRService.processReceipt w path st = (Ok r, st')
    /\ success r = true
    /\ method r = L "gemini"
    /\ ocr_confidence r = JNum 0.8%Q
    /\ accepted r = true
    /\ trace st' = trace st ++ VisionTier path :: us
    /\ Forall isUnlink us.
Proof.
  intros S C A P N R.
  assert (C' : configured w (checked w st) = true).
  { rewrite <- C. unfold checked, started, configured.
    unfold GeminiOCRService.isAvailable, GeminiOCRService.initialize, bind, gets.
    simpl. destruct (geminiInitialized st) eqn:G; simpl.
    - reflexivity.
    - destruct (env_GEMINI_API_KEY w) as [[|c k]|]; reflexivity. }
  destruct (vision_default_confidence w path (checked w st) resp parsed C' A P N (reportsNoConfidence_falsy _ R))
    as (r & st' & us & E & T & F & Sr & M & Cf).
  assert (Acc : accepted r = true).
  { unfold accepted. rewrite Sr, Cf. reflexivity. }
  exists r, st', us. rewrite trace_checked in T.
  repeat split; auto.
  apply orchestrator_accepts; auto.
Qed.

End Theorems.

(** ** Instances *)

Import Samples.

Definition png : text := L "uploads/receipt-1.png".

Lemma answers_online resp path :
  text_eqb (toLowerCase (extname path)) (L ".pdf") = false ->
  answers (online resp) path resp.
Proof.
  intros H. exists path. unfold imageFor. rewrite H. repeat split.
Qed.




Lemma C8_counterexample :
  exists r st',
    GeminiOCRService.processReceipt (platform := samplePlatform) (online (L "not json")) png initial
    = (Ok r, st')
    /\ ocr_confidence r = JNum 0.1%Q
    /\ ocr_confidence r <> JNum 0.
Proof.
  eexists _, _. split; [vm_compute; reflexivity|].
  split; [reflexivity | discriminate].
Qed.

Lemma C8_unparsable_response_witness :
  exists r st',
    GeminiOCRService.processReceipt (platform := samplePlatform) (online (L "not json")) png initial
    = (Ok r, st')
    /\ ocr_confidence r = JNum 0.1%Q
    /\ accepted (platform := samplePlatform) r = false.
Proof.
  destruct (C8_unparsable_response (platform := samplePlatform) (online (L "not json")) png initial
              (L "not json") eq_refl (answers_online _ png eq_refl) eq_refl)
    as (r & st' & d & E & _ & _ & _ & C & A).
  exists r, st'. auto.
Defined.

(** The response [null]: it parses as JSON and reports no confidence,
    yet the vision tier fails on it, and the orchestrator turns to the
    heuristic tier. *)
Lemma C10_counterexample :
  exists g st1 r st',
    JSON_parse (Platform := samplePlatform) (GeminiOCRService.jsonTextOf (L "null")) = Some JNull
    /\ reportsNoConfidence JNull
    /\ GeminiOCRService.processReceipt (platform := samplePlatform) (online (L "null")) png
         (checked (online (L "null")) initial) = (Ok g, st1)
    /\ success g = false
    /\ ocr_confidence g = JNum 0
    /\ OCRService.processReceipt (platform := samplePlatform) (online (L "null")) png initial
       = (Ok r, st')
    /\ method r = L "tesseract".
Proof.
  eexists _, _, _, _.
  split; [reflexivity|].
  split; [left; reflexivity|].
  split; [vm_compute; reflexivity|].
  split; [reflexivity|].
  split; [reflexivity|].
  split; [vm_compute; reflexivity|].
  reflexivity.
Qed.

Lemma C10_default_confidence_witness :
  exists r st',
    OCRService.processReceipt (platform := samplePlatform) (online (L "{}")) png initial = (Ok r, st')
    /\ ocr_confidence r = JNum 0.8%Q
    /\ method r = L "gemini".
Proof.
  assert (N : JObj [] <> JNull) by discriminate.
  destruct (C10_default_confidence (platform := samplePlatform) (online (L "{}")) png initial
              (L "{}") (JObj [])
              eq_refl eq_refl (answers_online _ png eq_refl) eq_refl N (or_introl eq_refl))
    as (r & st' & us & E & _ & M & C & _).
  exists r, st'. auto.
Defined.

End PipelineTheorems.

Module StoreFacts.
Import Eff EffFacts Json Data JsString Receipt.

Lemma isPrefix_refl (s : text) : isPrefix s s = true.
Proof. induction s as [|c s IH]; simpl; [reflexivity|]. rewrite Ascii.eqb_refl. exact IH. Qed.

Lemma text_eqb_refl (s : text) : text_eqb s s = true.
Proof. unfold text_eqb. rewrite Nat.eqb_refl, isPrefix_refl. reflexivity. Qed.

Lemma json_eqb_refl : forall j, json_eqb j j = true.
Proof.
  fix IH 1. intros [ | b | q | s | l | l ]; simpl.
  - reflexivity.
  - apply Bool.eqb_reflx.
  - apply Qeq_bool_iff. reflexivity.
  - apply text_eqb_refl.
  - induction l as [|x l IHl]; [reflexivity|]. rewrite IH. exact IHl.
  - induction l as [|[k x] l IHl]; [reflexivity|].
    rewrite text_eqb_refl, IH. exact IHl.
Qed.

(** The bound of the schema holds of every stored receipt. *)
Definition bounded (sys : Sys) : Prop :=
  forall id r, documents sys id = Some r -> (processingAttempts r <= 3)%Z.

(** A computation that keeps the bound. *)
Definition keeps {A} (c : M Sys A) : Prop :=
  forall sys r sys', bounded sys -> c sys = (r, sys') -> bounded sys'.

Lemma keeps_same {A} (c : M Sys A) :
  (forall sys r sys', c sys = (r, sys') -> documents sys' = documents sys) -> keeps c.
Proof.
  intros H sys r sys' B E id d. rewrite (H _ _ _ E). apply B.
Qed.

Lemma keeps_ret {A} (a : A) : keeps (ret a).
Proof. apply keeps_same. intros sys r sys' E. inversion E. reflexivity. Qed.

Lemma keeps_throw {A} m : keeps (@throw Sys A m).
Proof. apply keeps_same. intros sys r sys' E. inversion E. reflexivity. Qed.

Lemma keeps_gets {A} (f : Sys -> A) : keeps (gets f).
Proof. apply keeps_same. intros sys r sys' E. inversion E. reflexivity. Qed.

Lemma keeps_svc {A} (c : M St A) : keeps (svc c).
Proof.
  apply keeps_same. intros sys r sys' E. unfold svc in E.
  destruct (c (services sys)). inversion E. reflexivity.
Qed.

Lemma keeps_dbOp db : keeps (dbOp db).
Proof.
  apply keeps_same. intros sys r sys' E. unfold dbOp in E.
  destruct (fault db (dbOps sys)); inversion E; reflexivity.
Qed.

Lemma keeps_bind {A B} (c : M Sys A) (k : A -> M Sys B) :
  keeps c -> (forall a, keeps (k a)) -> keeps (bind c k).
Proof.
  intros Hc Hk sys r sys' B0 E. unfold bind in E.
  destruct (c sys) as [[a|e] sys1] eqn:Ec.
  - eapply Hk; [|exact E]. eapply Hc; eauto.
  - inversion E; subst. eapply Hc; eauto.
Qed.

Lemma keeps_tryCatch {A} (c : M Sys A) (h : text -> M Sys A) :
  keeps c -> (forall e, keeps (h e)) -> keeps (tryCatch c h).
Proof.
  intros Hc Hh sys r sys' B0 E. unfold tryCatch in E.
  destruct (c sys) as [[a|e] sys1] eqn:Ec.
  - inversion E; subst. eapply Hc; eauto.
  - eapply Hh; [|exact E]. eapply Hc; eauto.
Qed.

Lemma keeps_put id r : (processingAttempts r <= 3)%Z -> keeps (put id r).
Proof.
  intros H sys x sys' B E. inversion E; subst. intros k d. simpl.
  destruct (k =? id)%nat; [intros D; inversion D; subst; exact H | apply B].
Qed.

Lemma validate_bound db r : validate db r = true -> (processingAttempts r <= 3)%Z.
Proof.
  unfold validate. intros H. apply andb_prop in H. destruct H as (H & _).
  apply andb_prop in H. destruct H as (H & _). apply Z.leb_le. exact H.
Qed.

Lemma keeps_preSave w id r :
  (processingAttempts r <= 3)%Z ->
  forall sys x sys', preSave w id r sys = (x, sys') ->
    documents sys' = documents sys
    /\ (forall r', x = Ok r' -> (processingAttempts r' <= 3)%Z).
Proof.
  intros H sys x sys' E. unfold preSave, bind, gets in E.
  destruct (isModified_extractedText (documents sys id) r && truthy _).
  - unfold svc in E. simpl in E. inversion E; subst. simpl.
    split; [reflexivity|]. intros r' R. inversion R; subst. exact H.
  - inversion E; subst. split; [reflexivity|]. intros r' R. inversion R; subst. exact H.
Qed.

Lemma keeps_save w db id r : keeps (save w db id r).
Proof.
  unfold save. apply keeps_bind; [apply keeps_dbOp | intros _].
  destruct (validate db r) eqn:V; [|apply keeps_throw].
  apply validate_bound in V.
  intros sys x sys' B E. unfold bind at 1 in E.
  destruct (preSave w id r sys) as [[r'|e] sys1] eqn:Ep.
  - destruct (keeps_preSave w id r V _ _ _ Ep) as (D & A).
    assert (B1 : bounded sys1) by (intros k d; rewrite D; apply B).
    assert (K : keeps (bind (put id r') (fun _ => ret r'))).
    { apply keeps_bind; [apply keeps_put; apply A; reflexivity | intros _; apply keeps_ret]. }
    eapply K; eauto.
  - inversion E; subst. destruct (keeps_preSave w id r V _ _ _ Ep) as (D & _).
    intros k d. rewrite D. apply B.
Qed.

Lemma keeps_findById db id : keeps (findById db id).
Proof. unfold findById. apply keeps_bind; [apply keeps_dbOp | intros _; apply keeps_gets]. Qed.

Lemma keeps_findOne db id user : keeps (findOne db id user).
Proof. unfold findOne. apply keeps_bind; [apply keeps_dbOp | intros _; apply keeps_gets]. Qed.

Lemma keeps_findByIdAndUpdate db id u :
  (forall n, castNumber (set_processingAttempts u) = Some n -> (n <= 3)%Z) ->
  keeps (findByIdAndUpdate db id u).
Proof.
  intros H. unfold findByIdAndUpdate.
  destruct (castNumber (set_processingAttempts u)) as [n|]; [|apply keeps_throw].
  apply keeps_bind; [apply keeps_dbOp | intros _].
  intros sys x sys' B E. unfold bind, gets in E.
  destruct (documents sys id) as [r|] eqn:D.
  - revert E. apply keeps_put; [|exact B]. cbn. apply H. reflexivity.
  - inversion E; subst. exact B.
Qed.

End StoreFacts.

Module ControllerFacts.
Import Eff EffFacts Json Data JsString Receipt ReceiptController StoreFacts.

Section Facts.
Context {platform : Platform}.
Variable w : World.
Variable db : Db.

Lemma keeps_processReceiptOCR id : keeps (processReceiptOCR w db id).
Proof.
  unfold processReceiptOCR.
  apply keeps_tryCatch.
  - apply keeps_bind; [apply keeps_findById | intros [receipt|]]; [|apply keeps_ret].
    apply keeps_bind; [apply keeps_save | intros r1].
    apply keeps_bind; [apply keeps_svc | intros o].
    apply keeps_bind; [apply keeps_svc | intros now].
    apply keeps_bind; [| intros _; apply keeps_ret].
    destruct (success o); apply keeps_save.
  - intros e. apply keeps_tryCatch; [| intros _; apply keeps_ret].
    apply keeps_bind; [apply keeps_svc | intros now].
    apply keeps_findByIdAndUpdate. intros n C. discriminate C.
Qed.

Lemma keeps_reprocessReceipt id user : keeps (reprocessReceipt w db id user).
Proof.
  unfold reprocessReceipt.
  apply keeps_bind; [apply keeps_findOne | intros [receipt|]]; [|apply keeps_ret].
  apply keeps_bind; [apply keeps_svc | intros now].
  apply keeps_bind; [apply keeps_save | intros _].
  apply keeps_bind; [apply keeps_processReceiptOCR | intros _; apply keeps_ret].
Qed.

Lemma keeps_uploadReceipt id user path : keeps (uploadReceipt w db id user path).
Proof.
  unfold uploadReceipt.
  apply keeps_bind; [apply keeps_dbOp | intros _].
  apply keeps_bind; [apply keeps_put; simpl; lia | intros _].
  apply keeps_bind; [apply keeps_processReceiptOCR | intros _; apply keeps_ret].
Qed.

Lemma keeps_handle q : keeps (handle w db q).
Proof.
  destruct q; simpl.
  - apply keeps_bind; [apply keeps_uploadReceipt | intros _; apply keeps_ret].
  - apply keeps_processReceiptOCR.
  - apply keeps_bind; [apply keeps_reprocessReceipt | intros _; apply keeps_ret].
Qed.

End Facts.

Lemma bounded_serve {platform : Platform} qs : forall sys, bounded sys -> bounded (serve qs sys).
Proof.
  induction qs as [|[[w db] q] qs IH]; intros sys B; simpl; [exact B|].
  apply IH. destruct (handle w db q sys) as [x sys'] eqn:E. simpl.
  eapply keeps_handle; eauto.
Qed.

End ControllerFacts.

Module RunFacts.
Import Eff EffFacts OrchestratorFacts Json Data JsString Receipt ReceiptController StoreFacts
  PipelineTheorems.

(** The store after one more operation and with one document replaced. *)
Definition bump (sys : Sys) : Sys :=
  {| services := services sys; documents := documents sys; dbOps := S (dbOps sys) |}.

Definition stored (id : nat) (r : Receipt) (sys : Sys) : Sys :=
  {| services := services sys;
     documents := fun k => if (k =? id)%nat then Some r else documents sys k;
     dbOps := dbOps sys |}.

(** The confidence of a result is one the schema accepts. *)
Definition storable (o : OcrResult) : bool :=
  match ocr_confidence o with
  | JNum q => JsNumber.Qleb 0 q && JsNumber.Qleb q 1
  | _ => true
  end.

Section Facts.
Context {platform : Platform}.
Variable w : World.
Variable db : Db.
Hypothesis no_fault : forall k, fault db k = false.

Lemma dbOp_ok sys : dbOp db sys = (Ok tt, bump sys).
Proof. unfold dbOp. rewrite no_fault. reflexivity. Qed.

Lemma findById_ok id sys : findById db id sys = (Ok (documents sys id), bump sys).
Proof. unfold findById, bind. rewrite dbOp_ok. reflexivity. Qed.

Lemma save_refused id r sys :
  validate db r = false ->
  save w db id r sys = (Throw (L "Receipt validation failed"), bump sys).
Proof. intros V. unfold save, bind. rewrite dbOp_ok, V. reflexivity. Qed.

Lemma save_plain id r sys old :
  validate db r = true ->
  documents sys id = Some old ->
  extractedText (ocrResults old) = extractedText (ocrResults r) ->
  save w db id r sys = (Ok r, stored id r (bump sys)).
Proof.
  intros V D T. unfold save. unfold bind at 1. rewrite dbOp_ok, V.
  unfold bind at 1. unfold preSave. unfold bind at 1. unfold gets.
  cbn [bump documents]. rewrite D. unfold isModified_extractedText.
  rewrite T, json_eqb_refl. cbn [negb andb ret]. reflexivity.
Qed.

Lemma save_quiet id r sys :
  validate db r = true ->
  truthy (Some (extractedText (ocrResults r))) = false ->
  save w db id r sys = (Ok r, stored id r (bump sys)).
Proof.
  intros V T. unfold save. unfold bind at 1. rewrite dbOp_ok, V.
  unfold bind at 1. unfold preSave. unfold bind at 1. unfold gets.
  rewrite T, andb_false_r. reflexivity.
Qed.

Lemma save_accepts id r sys :
  validate db r = true ->
  exists r' sys',
    save w db id r sys = (Ok r', sys')
    /\ documents sys' id = Some r'
    /\ processingAttempts r' = processingAttempts r
    /\ (status r' = status r \/ status r' = processed).
Proof.
  intros V. unfold save. unfold bind at 1. rewrite dbOp_ok, V.
  unfold bind at 1. unfold preSave. unfold bind at 1. unfold gets.
  destruct (isModified_extractedText _ r && truthy _).
  - unfold bind at 1, svc. cbn [readClock ret]. unfold bind, put, modify, ret.
    eexists _, _. split; [reflexivity|]. cbn. rewrite Nat.eqb_refl. auto.
  - cbn [ret]. unfold bind, put, modify, ret.
    eexists _, _. split; [reflexivity|]. cbn. rewrite Nat.eqb_refl. auto.
Qed.

(** The [catch] branch of the run: the update is refused by the cast
    and the refusal caught, so the documents stay as they are. *)
Lemma recover_changes_nothing id e sys :
  exists sys',
    tryCatch
      (bind (svc (readClock w)) (fun now =>
       findByIdAndUpdate db id (markFailed e now)))
      (fun _ => ret tt) sys = (Ok tt, sys')
    /\ documents sys' = documents sys.
Proof.
  unfold tryCatch, bind, svc. cbn [readClock].
  unfold findByIdAndUpdate. cbn [markFailed set_processingAttempts castNumber throw ret].
  eexists. split; reflexivity.
Qed.

Lemma validate_processing receipt :
  validate db receipt = true ->
  (forall d, rejects db d = false) ->
  validate db (withStatus processing receipt) = true.
Proof.
  unfold validate. intros V R. rewrite R. rewrite R in V. exact V.
Qed.

Lemma run_outcome id sys receipt o st' :
  documents sys id = Some receipt ->
  (forall d, rejects db d = false) ->
  validate db receipt = true ->
  OCRService.processReceipt w (filePath receipt) (services sys) = (Ok o, st') ->
  exists sys' final,
    processReceiptOCR w db id sys = (Ok tt, sys')
    /\ documents sys' id = Some final
    /\ status final =
       (if success o then if storable o then processed else processing
        else if (processingAttempts receipt <? 3)%Z then failed else processing)
    /\ processingAttempts final =
       (if success o then processingAttempts receipt
        else Z.min (processingAttempts receipt + 1) 3)
    /\ (success o = false -> (processingAttempts receipt < 3)%Z ->
        lastProcessingError final
        = Some {| message := errorMessage o; timestamp := clock w (clockReads st') |})
    /\ (status final = processing -> final = withStatus processing receipt).
Proof.
  intros D R V Eo.
  pose proof (validate_bound _ _ V) as Hb.
  unfold processReceiptOCR.
  unfold tryCatch at 1. unfold bind at 1. rewrite findById_ok by assumption.
  cbn [bump documents]. rewrite D.
  unfold bind at 1.
  rewrite (save_plain id (withStatus processing receipt) (bump sys) receipt)
    by (auto using validate_processing).
  set (r1 := withStatus processing receipt).
  set (sys1 := stored id r1 (bump (bump sys))).
  unfold bind at 1. unfold svc at 1.
  change (filePath r1) with (filePath receipt).
  change (services sys1) with (services sys).
  rewrite Eo.
  set (sys2 := {| services := st'; documents := documents sys1; dbOps := dbOps sys1 |}).
  assert (D2 : documents sys2 id = Some r1).
  { cbn. rewrite Nat.eqb_refl. reflexivity. }
  unfold bind at 1. unfold svc at 1. cbn [readClock services sys2].
  set (now := clock w (clockReads st')).
  match goal with |- context [bind _ _ ?s] => set (sys3 := s) end.
  assert (D3 : documents sys3 id = Some r1) by exact D2.
  destruct (success o) eqn:So.
  - (* the result reports success *)
    destruct (storable o) eqn:Sto.
    + assert (V2 : validate db (withOcrSuccess o now r1) = true).
      { unfold validate. cbn. rewrite R.
        unfold storable in Sto. rewrite Sto.
        apply Z.leb_le in Hb. rewrite Hb. reflexivity. }
      destruct (save_accepts id (withOcrSuccess o now r1) sys3 V2)
        as (r' & sys' & Es & Ds & As & Ss).
      unfold bind at 1. rewrite Es. cbn [ret].
      assert (Sp : status r' = processed) by (destruct Ss as [Ss|Ss]; exact Ss).
      exists sys', r'. split; [reflexivity|]. split; [exact Ds|].
      split; [exact Sp|]. split; [exact As|].
      split; [intros C; discriminate C|].
      intros C. rewrite Sp in C. discriminate C.
    + assert (V2 : validate db (withOcrSuccess o now r1) = false).
      { unfold validate. cbn. unfold storable in Sto.
        destruct (ocr_confidence o); try discriminate.
        rewrite Sto. rewrite andb_false_r. reflexivity. }
      unfold bind at 1. rewrite (save_refused id _ sys3 V2).
      destruct (recover_changes_nothing id (L "Receipt validation failed") (bump sys3))
        as (sys' & Er & Dr).
      cbv beta iota. rewrite Er.
      exists sys', r1. split; [reflexivity|].
      split; [rewrite Dr; exact D3|].
      split; [reflexivity|]. split; [reflexivity|].
      split; [intros C; discriminate C | reflexivity].
  - (* the result reports failure *)
    destruct (processingAttempts receipt <? 3)%Z eqn:Hlt.
    + apply Z.ltb_lt in Hlt.
      assert (V2 : validate db (withOcrFailure o now r1) = true).
      { unfold validate. cbn. rewrite R.
        replace (processingAttempts receipt + 1 <=? 3)%Z with true
          by (symmetry; apply Z.leb_le; lia).
        unfold validate in V. rewrite R in V.
        apply andb_prop in V. destruct V as (V & _).
        apply andb_prop in V. destruct V as (_ & V). rewrite V. reflexivity. }
      unfold bind at 1.
      rewrite (save_plain id (withOcrFailure o now r1) sys3 r1 V2 D3 eq_refl).
      cbn [ret].
      exists (stored id (withOcrFailure o now r1) (bump sys3)), (withOcrFailure o now r1).
      split; [reflexivity|].
      split; [cbn; rewrite Nat.eqb_refl; reflexivity|].
      split; [reflexivity|].
      split; [cbn; lia|].
      split; [intros _ _; reflexivity|].
      intros C. discriminate C.
    + apply Z.ltb_ge in Hlt.
      assert (V2 : validate db (withOcrFailure o now r1) = false).
      { unfold validate. cbn.
        replace (processingAttempts receipt + 1 <=? 3)%Z with false
          by (symmetry; apply Z.leb_gt; lia).
        reflexivity. }
      unfold bind at 1. rewrite (save_refused id _ sys3 V2).
      destruct (recover_changes_nothing id (L "Receipt validation failed") (bump sys3))
        as (sys' & Er & Dr).
      cbv beta iota. rewrite Er.
      exists sys', r1. split; [reflexivity|].
      split; [rewrite Dr; exact D3|].
      split; [reflexivity|].
      split; [cbn; lia|].
      split; [intros _ C; lia | reflexivity].
Qed.

End Facts.
End RunFacts.

Module ControllerTheorems.
Import Eff EffFacts OrchestratorFacts Json Data JsString Receipt ReceiptController StoreFacts
  ControllerFacts PipelineTheorems RunFacts Samples.

Section Theorems.
Context {platform : Platform}.

Lemma reprocess_resets (w : World) (db : Db) (id user : nat) (sys : Sys) (receipt : Receipt) :
  documents sys id = Some receipt ->
  userId receipt = user ->
  isActive receipt = true ->
  (forall k, fault db k = false) ->
  (forall d, rejects db d = false) ->
  exists mid,
    documents mid id = Some (resetForReprocess (clock w (clockReads (services sys))) receipt)
    /\ reprocessReceipt w db id user sys
       = bind (processReceiptOCR w db id) (fun _ => ret 200) mid.
Proof.
  intros D U A F R.
  unfold reprocessReceipt. unfold bind at 1. unfold findOne. unfold bind at 1.
  rewrite dbOp_ok by assumption. unfold gets. cbn [bump documents].
  rewrite D, U, Nat.eqb_refl, A. cbn [andb].
  unfold bind at 1. unfold svc at 1. cbn [readClock bump services].
  unfold bind at 1.
  rewrite save_quiet; [| assumption | unfold validate; rewrite R; reflexivity | reflexivity].
  eexists. split; [|reflexivity]. cbn. rewrite Nat.eqb_refl. reflexivity.
Qed.

(** ** C2: the status after a run *)


(** ** C3: the attempts counter *)

(** C3. Whatever the requests (uploads, runs, reprocess requests) and
    whatever the outside answers, no stored receipt has more than 3
    recorded attempts; and an accepted reprocess request stores the
    receipt with the counter at 0, the status [uploaded] and the
    extraction data cleared, and only then starts the run. *)
Theorem C3_attempts_bounded :
  (forall qs sys, bounded sys -> bounded (serve qs sys))
  /\ bounded emptySys
  /\ (forall w db id user sys receipt,
        documents sys id = Some receipt ->
        userId receipt = user ->
        isActive receipt = true ->
        (forall k, fault db k = false) ->
        (forall d, rejects db d = false) ->
        exists now mid cleared,
          documents mid id = Some cleared
          /\ processingAttempts cleared = 0%Z
          /\ status cleared = uploaded
          /\ ocrResults cleared = defaultOcrResults
          /\ parsedData cleared = Heuristic (OCRService.getEmptyParsedData now)
          /\ lastProcessingError cleared = None
          /\ reprocessReceipt w db id user sys
             = bind (processReceiptOCR w db id) (fun _ => ret 200) mid).
Proof.
  split; [|split].
  - intros qs sys. apply bounded_serve.
  - intros id r D. discriminate.
  - intros w db id user sys receipt D U A F R.
    destruct (reprocess_resets w db id user sys receipt D U A F R) as (mid & Dm & E).
    exists (clock w (clockReads (services sys))), mid,
      (resetForReprocess (clock w (clockReads (services sys))) receipt).
    repeat split; auto.
Qed.

End Theorems.



Lemma C3_attempts_bounded_witness :
  bounded (serve (platform := samplePlatform)
             [ (offline, reliable, Upload 1 7 (L "uploads/receipt-1.txt"));
               (offline, reliable, Process 1);
               (offline, reliable, Process 1);
               (offline, reliable, Process 1);
               (offline, reliable, Process 1) ] emptySys).
Proof.
  apply (proj1 (C3_attempts_bounded (platform := samplePlatform))).
  apply (proj1 (proj2 (C3_attempts_bounded (platform := samplePlatform)))).
Defined.

End ControllerTheorems.

Module RegExpFacts.
Import Chars RegExp JsString.

Lemma try_down_Some {R} (f : nat -> option R) lo d r :
  try_down f lo d = Some r -> exists j, lo <= j <= lo + d /\ f j = Some r.
Proof.
  induction d as [|d IH]; simpl; intros H.
  - destruct (f (lo + 0)) eqn:E; [|discriminate].
    exists (lo + 0). split; [lia | congruence].
  - destruct (f (lo + S d)) eqn:E.
    + exists (lo + S d). split; [lia | congruence].
    + destruct (IH H) as (j & Hj & Ej). exists j. split; [lia | exact Ej].
Qed.

Lemma try_up_Some {R} (f : nat -> option R) d : forall k r,
  try_up f k d = Some r -> exists j, k <= j <= k + d /\ f j = Some r.
Proof.
  induction d as [|d IH]; simpl; intros k r H.
  - destruct (f k) eqn:E; [|discriminate].
    exists k. split; [lia | congruence].
  - destruct (f k) eqn:E.
    + exists k. split; [lia | congruence].
    + destruct (IH _ _ H) as (j & Hj & Ej). exists j. split; [lia | exact Ej].
Qed.

Lemma try_words_Some {R} (f : nat -> option R) s ws r :
  try_words f s ws = Some r ->
  exists w, In w ws /\ wordPrefix w s = true /\ f (List.length w) = Some r.
Proof.
  induction ws as [|w ws IH]; simpl; intros H; [discriminate|].
  destruct (wordPrefix w s) eqn:E.
  - destruct (f (List.length w)) eqn:Ef.
    + exists w. inversion H; subst. auto.
    + destruct (IH H) as (w' & I & P & F). exists w'. auto.
  - destruct (IH H) as (w' & I & P & F). exists w'. auto.
Qed.

(** The run of a class is a prefix in the class, within the bound. *)
Lemma runAll_spec p s : forall j,
  j <= runAll p s ->
  exists a s', s = a ++ s' /\ List.length a = j /\ forallb p a = true.
Proof.
  induction s as [|c s IH]; intros j H.
  - simpl in H. assert (j = 0) by lia. subst. exists [], []. auto.
  - destruct j as [|j]; [exists [], (c :: s); auto|].
    simpl in H. destruct (p c) eqn:Pc; [|lia].
    destruct (IH j ltac:(lia)) as (a & s' & E & La & Fa).
    exists (c :: a), s'. subst. simpl. rewrite Pc, Fa. auto.
Qed.

Lemma runUpTo_spec p h : forall s j,
  j <= runUpTo p h s ->
  exists a s', s = a ++ s' /\ List.length a = j /\ forallb p a = true /\ j <= h.
Proof.
  induction h as [|h IH]; intros s j H.
  - simpl in H. assert (j = 0) by lia. subst. exists [], s. auto.
  - destruct j as [|j]; [exists [], s; repeat split; lia|].
    destruct s as [|c s]; simpl in H; [lia|].
    destruct (p c) eqn:Pc; [|lia].
    destruct (IH s j ltac:(lia)) as (a & s' & E & La & Fa & Hh).
    exists (c :: a), s'. subst. simpl. rewrite Pc, Fa. repeat split; lia.
Qed.

Lemma run_spec p s hi j :
  j <= run p hi s ->
  exists a s', s = a ++ s' /\ List.length a = j /\ forallb p a = true
               /\ match hi with Some h => j <= h | None => True end.
Proof.
  destruct hi as [h|]; simpl; intros H.
  - apply runUpTo_spec in H. exact H.
  - apply runAll_spec in H. destruct H as (a & s' & H). exists a, s'. tauto.
Qed.

Lemma skipn_app_length {A} (a s : list A) : skipn (List.length a) (a ++ s) = s.
Proof. induction a; simpl; auto. Qed.

(** A quantified class that matches splits the input. *)
Lemma exec_cls_split p lo hi g rest at0 s n st r :
  exec (Cls p lo hi g :: rest) at0 s n st = Some r ->
  exists a s',
    s = a ++ s' /\ forallb p a = true /\ lo <= List.length a
    /\ match hi with Some h => List.length a <= h | None => True end
    /\ exec rest at0 s' (n + List.length a) st = Some r.
Proof.
  simpl. destruct (run p hi s <? lo) eqn:L; [discriminate|].
  apply Nat.ltb_ge in L. intros H.
  assert (exists j, lo <= j <= run p hi s /\ exec rest at0 (skipn j s) (n + j) st = Some r)
    as (j & Hj & Ej).
  { destruct g.
    - apply try_down_Some in H. destruct H as (j & Hj & Ej). exists j. split; [lia|exact Ej].
    - apply try_up_Some in H. destruct H as (j & Hj & Ej). exists j. split; [lia|exact Ej]. }
  destruct (run_spec p s hi j ltac:(lia)) as (a & s' & E & La & Fa & Hh).
  exists a, s'. subst s. rewrite <- La in Ej. rewrite skipn_app_length in Ej.
  subst j. repeat split; auto; lia.
Qed.

Lemma exec_one_split p rest at0 s n st r :
  exec (one p :: rest) at0 s n st = Some r ->
  exists c s', s = c :: s' /\ p c = true /\ exec rest at0 s' (n + 1) st = Some r.
Proof.
  intros H. apply exec_cls_split in H.
  destruct H as (a & s' & E & F & L1 & L2 & X).
  destruct a as [|c [|c2 a]]; simpl in *; try lia.
  exists c, s'. rewrite andb_true_r in F. auto.
Qed.

Lemma wordPrefix_split w : forall s,
  wordPrefix w s = true ->
  exists a s', s = a ++ s' /\ List.length a = List.length w
               /\ skipn (List.length w) s = s'
               /\ Forall2 (fun p c => p c = true) w a.
Proof.
  induction w as [|p w IH]; intros s H.
  - exists [], s. repeat split. constructor.
  - destruct s as [|c s]; simpl in H; [discriminate|].
    apply andb_prop in H. destruct H as (Pc & H).
    destruct (IH s H) as (a & s' & E & La & Sk & F).
    exists (c :: a), s'. subst s. simpl. rewrite La. repeat split; auto.
Qed.

Lemma exec_alt_split ws rest at0 s n st r :
  exec (Alt ws :: rest) at0 s n st = Some r ->
  exists w a s',
    In w ws /\ s = a ++ s' /\ Forall2 (fun p c => p c = true) w a
    /\ exec rest at0 s' (n + List.length a) st = Some r.
Proof.
  simpl. intros H. apply try_words_Some in H.
  destruct H as (w & I & P & E).
  destruct (wordPrefix_split w s P) as (a & s' & Es & La & Sk & F).
  exists w, a, s'. rewrite Sk in E. rewrite La. auto.
Qed.

(** A match is at least as long as what was matched before it. *)
Lemma exec_mono its : forall at0 s n st len st',
  exec its at0 s n st = Some (len, st') -> n <= len.
Proof.
  induction its as [|it its IH]; intros at0 s n st len st' H.
  - inversion H. lia.
  - destruct it as [p lo hi g | ws | g | g | | m].
    + apply exec_cls_split in H. destruct H as (a & s' & _ & _ & _ & _ & H).
      apply IH in H. lia.
    + apply exec_alt_split in H. destruct H as (w & a & s' & _ & _ & _ & H).
      apply IH in H. lia.
    + simpl in H. eapply IH; eauto.
    + simpl in H. eapply IH; eauto.
    + simpl in H. destruct (at0 && (n =? 0)); [eapply IH; eauto | discriminate].
    + simpl in H. destruct s as [|c s].
      * eapply IH; eauto.
      * destruct (m && isLineTerminator c); [eapply IH; eauto | discriminate].
Qed.

(** ** The scan *)

Lemma scan_skip its c s i k : scan its (c :: s) i (S k) = scan its s (S i) k.
Proof. reflexivity. Qed.

Lemma scan_miss its c s i :
  exec its (i =? 0) (c :: s) 0 no_caps = None ->
  scan its (c :: s) i 0 = scan its s (S i) 0.
Proof. intros H. simpl. rewrite H. reflexivity. Qed.

Lemma scan_hit its c s i len st :
  exec its (i =? 0) (c :: s) 0 no_caps = Some (len, st) ->
  scan its (c :: s) i 0 = mk_match i (c :: s) len st :: scan its s (S i) (pred len).
Proof. intros H. simpl. rewrite H. reflexivity. Qed.

(** Every match of a scan is a match of [exec] on a suffix. *)
Lemma scan_In its s : forall i k m,
  In m (scan its s i k) ->
  exists j suffix len st,
    exec its (j =? 0) suffix 0 no_caps = Some (len, st)
    /\ m = mk_match j suffix len st.
Proof.
  induction s as [|c s IH]; intros i k m H.
  - destruct k; simpl in H; [|contradiction].
    destruct (exec its (i =? 0) [] 0 no_caps) as [[len st]|] eqn:E; [|contradiction].
    destruct H as [H|[]]. exists i, [], len, st. auto.
  - destruct k as [|k].
    + simpl in H.
      destruct (exec its (i =? 0) (c :: s) 0 no_caps) as [[len st]|] eqn:E.
      * destruct H as [H|H]; [exists i, (c :: s), len, st; auto | eapply IH; eauto].
      * eapply IH; eauto.
    + rewrite scan_skip in H. eapply IH; eauto.
Qed.

(** A pattern that begins with one character of a class matches only
    texts that begin with it. *)
Lemma match_starts_in_class p rest s m :
  In m (matchAll (one p :: rest) s) ->
  exists c tl, m_text m = c :: tl /\ p c = true.
Proof.
  intros H. apply scan_In in H. destruct H as (j & suffix & len & st & E & ->).
  pose proof E as E'.
  apply exec_one_split in E. destruct E as (c & s' & -> & Pc & E).
  apply exec_mono in E. simpl in E.
  destruct len as [|len]; [lia|].
  exists c, (firstn len s'). auto.
Qed.

End RegExpFacts.

Module RecognizerTheorems.
Import Chars RegExp JsString JsNumber Data OCRService RegExpFacts.

(** ** C6: the tax amount *)

Lemma parseFloat_letter c s : letter c = true -> parseFloat (c :: s) = None.
Proof.
  destruct c as [[] [] [] [] [] [] [] []]; intros H; try discriminate H; reflexivity.
Qed.

Lemma chr_ci_letter p c : letter p = true -> chr_ci p c = true -> letter c = true.
Proof.
  unfold chr_ci, letter. intros -> H. apply andb_prop in H. tauto.
Qed.

(** The pattern begins with a letter, under the [i] flag. *)
Definition letterFirst (pattern : RegExp.pattern) : Prop :=
  exists p rest, pattern = one (chr_ci p) :: rest /\ letter p = true.

Lemma match_g_second pattern t matched :
  letterFirst pattern ->
  match_g pattern t = Some matched ->
  parseFloat_arg (nth_error matched 1) = None.
Proof.
  intros (p & rest & -> & Lp) H. unfold match_g in H.
  destruct (matchAll (one (chr_ci p) :: rest) t) as [|m0 ms] eqn:E; [discriminate|].
  inversion H; subst. clear H.
  destruct ms as [|m1 ms]; [reflexivity|].
  simpl.
  assert (I : In m1 (matchAll (one (chr_ci p) :: rest) t)) by (rewrite E; simpl; auto).
  apply match_starts_in_class in I. destruct I as (c & tl & -> & Pc).
  apply parseFloat_letter. eapply chr_ci_letter; eauto.
Qed.

Lemma firstTax_zero patterns t :
  Forall letterFirst patterns ->
  firstTax patterns t = {| value := 0%Q; confidence := 0%Q |}.
Proof.
  induction 1 as [|pattern patterns Hp _ IH]; [reflexivity|].
  cbn [firstTax].
  destruct (match_g pattern t) as [matched|] eqn:E; [|exact IH].
  rewrite (match_g_second _ _ _ Hp E). exact IH.
Qed.

Lemma taxPatterns_letterFirst : Forall letterFirst taxPatterns.
Proof.
  repeat constructor; eexists _, _; split; reflexivity.
Qed.

(** C6.  [text.match] of a global
    pattern returns the matched substrings and not the capture group, so
    [match[1]] is never the amount: it is [undefined] or a substring that
    begins with the keyword, and [parseFloat] of either is NaN.  The tax
    recognizer returns value 0 with confidence 0 on every text, also on
    ["Tax: $5.00"]. *)
Theorem C6_tax_never_found :
  (forall t, extractTaxAmount t = {| value := 0%Q; confidence := 0%Q |})
  /\ extractTaxAmount (L "Tax: $5.00") = {| value := 0%Q; confidence := 0%Q |}
  /\ match_g (keywordAmount "tax") (L "Tax: $5.00") = Some [L "Tax: $5.00"]
  /\ option_map (group 1) (match1 (keywordAmount "tax") (L "Tax: $5.00")) = Some (Some (L "5.00")).
Proof.
  assert (H : forall t, extractTaxAmount t = {| value := 0%Q; confidence := 0%Q |}).
  { intros t. apply firstTax_zero. apply taxPatterns_letterFirst. }
  split; [exact H|]. split; [apply H|]. split; reflexivity.
Qed.

(** On ["Tax: $5.00"] the tax recognizer returns neither the value 5 nor
    the confidence 0.8. *)
Lemma C6_counterexample :
  ~ (value (extractTaxAmount (L "Tax: $5.00")) == 5)%Q
  /\ ~ (confidence (extractTaxAmount (L "Tax: $5.00")) == 0.8)%Q.
Proof. split; vm_compute; discriminate. Qed.

(** ** C9: what the parser depends on *)

Section Clock.
Context {platform : Platform}.

Lemma dateCandidates_agree now1 now2 t :
  (forall d, isReasonableDate now1 d = isReasonableDate now2 d) ->
  dateCandidates now1 t = dateCandidates now2 t.
Proof.
  intros H. unfold dateCandidates.
  induction (indexed datePatterns) as [|[index pattern] l IH]; [reflexivity|].
  simpl. rewrite IH. f_equal.
  induction (matchAll pattern t) as [|m ms IHm]; [reflexivity|].
  simpl. rewrite IHm. f_equal.
  unfold dateCandidate. destruct (parseDate (m_text m)); [|reflexivity].
  rewrite H. reflexivity.
Qed.

End Clock.

(** Two readings of the clock, in February 2024 and in February 2026:
    the same text gives another date value, and a date that is plausible
    at the first reading is not at the second. *)
Definition feb2024 : Z := 1707000000000.
Definition feb2026 : Z := 1770000000000.


End RecognizerTheorems.

Module AmountFacts.
Import Chars RegExp JsString JsNumber Data OCRService RegExpFacts RecognizerTheorems.

(** ** Order facts *)

Lemma Qltb_false a b : Qltb a b = false <-> (b <= a)%Q.
Proof.
  unfold Qltb. rewrite negb_false_iff. apply Qle_bool_iff.
Qed.

Lemma Qltb_true a b : Qltb a b = true <-> (a < b)%Q.
Proof.
  unfold Qltb. rewrite negb_true_iff. split; intros H.
  - apply Qnot_le_lt. intros Hle. apply Qle_bool_iff in Hle. congruence.
  - destruct (Qle_bool b a) eqn:E; [|reflexivity].
    apply Qle_bool_iff in E. exfalso. eapply Qlt_not_le; eauto.
Qed.

Section Sorting.
Variable A : Type.

Definition atMost (x y : Candidate A) : Prop := (c_confidence y <= c_confidence x)%Q.

Lemma insert_In (x : Candidate A) l y :
  In y (insertByConfidence x l) <-> y = x \/ In y l.
Proof.
  induction l as [|z l IH]; simpl.
  - intuition.
  - destruct (Qltb (c_confidence x) (c_confidence z)); simpl; rewrite ?IH; intuition.
Qed.

Lemma sort_In (l : list (Candidate A)) y : In y (sortByConfidence l) <-> In y l.
Proof.
  induction l as [|x l IH]; simpl; [tauto|].
  rewrite insert_In, IH. intuition.
Qed.

Lemma insert_sorted (x : Candidate A) l :
  StronglySorted atMost l -> StronglySorted atMost (insertByConfidence x l).
Proof.
  induction 1 as [|z l S IH F]; simpl.
  - repeat constructor.
  - destruct (Qltb (c_confidence x) (c_confidence z)) eqn:E.
    + constructor; [exact IH|].
      apply Forall_forall. intros y Hy. apply insert_In in Hy. destruct Hy as [->|Hy].
      * apply Qltb_true in E. unfold atMost. apply Qlt_le_weak. exact E.
      * rewrite Forall_forall in F. auto.
    + apply Qltb_false in E.
      constructor; [constructor; assumption|].
      constructor; [exact E|].
      apply Forall_forall. intros y Hy. rewrite Forall_forall in F.
      unfold atMost in *. eapply Qle_trans; [apply F; exact Hy | exact E].
Qed.

Lemma sort_sorted (l : list (Candidate A)) : StronglySorted atMost (sortByConfidence l).
Proof.
  induction l as [|x l IH]; simpl; [constructor | apply insert_sorted; exact IH].
Qed.

(** The head of the sorted list is a candidate of the highest confidence. *)
Lemma sort_head (l : list (Candidate A)) best rest :
  sortByConfidence l = best :: rest ->
  In best l /\ forall x, In x l -> (c_confidence x <= c_confidence best)%Q.
Proof.
  intros E. split.
  - apply sort_In. rewrite E. simpl. auto.
  - intros x Hx. apply sort_In in Hx. rewrite E in Hx.
    pose proof (sort_sorted l) as S. rewrite E in S. inversion S; subst.
    destruct Hx as [->|Hx]; [apply Qle_refl|].
    rewrite Forall_forall in H2. apply H2. exact Hx.
Qed.

Lemma sort_nil (l : list (Candidate A)) : sortByConfidence l = [] -> l = [].
Proof.
  destruct l as [|x l]; [reflexivity|]. simpl. intros E.
  assert (In x (insertByConfidence x (sortByConfidence l))) by (apply insert_In; auto).
  rewrite E in H. contradiction.
Qed.

(** The sort is stable: a first candidate that no other exceeds stays first. *)
Lemma sort_first (x : Candidate A) l :
  (forall y, In y l -> (c_confidence y <= c_confidence x)%Q) ->
  exists rest, sortByConfidence (x :: l) = x :: rest.
Proof.
  intros H. simpl.
  destruct (sortByConfidence l) as [|z l'] eqn:E; simpl; [eauto|].
  assert (Hz : In z l) by (apply sort_In; rewrite E; simpl; auto).
  apply H in Hz. apply Qltb_false in Hz. rewrite Hz. eauto.
Qed.

End Sorting.

(** ** Candidates *)

Lemma calculateAmountConfidence_le_1 context index amount :
  (calculateAmountConfidence context index amount <= 1)%Q.
Proof. unfold calculateAmountConfidence. apply Q.le_min_r. Qed.

Lemma amountCandidate_spec index m x :
  In x (amountCandidate index m) ->
  (0 < c_value x)%Q /\ (c_value x < 10000)%Q /\ (c_confidence x <= 1)%Q
  /\ parseFloat_arg (group 1 m) = Some (c_value x).
Proof.
  unfold amountCandidate. destruct (parseFloat_arg (group 1 m)) as [amount|]; [|contradiction].
  destruct (Qltb 0 amount && Qltb amount 10000) eqn:E; [|contradiction].
  intros [<-|[]]. simpl. apply andb_prop in E. destruct E as (E1 & E2).
  apply Qltb_true in E1. apply Qltb_true in E2.
  repeat split; auto. apply calculateAmountConfidence_le_1.
Qed.

Lemma amountCandidates_spec t x :
  In x (amountCandidates t) ->
  (0 < c_value x)%Q /\ (c_value x < 10000)%Q /\ (c_confidence x <= 1)%Q.
Proof.
  unfold amountCandidates. intros H. apply in_flat_map in H.
  destruct H as ([index pattern] & _ & H). apply in_flat_map in H.
  destruct H as (m & _ & H). apply amountCandidate_spec in H. tauto.
Qed.

End AmountFacts.

Module TextFacts.
Import Chars RegExp JsString JsNumber Data OCRService RegExpFacts RecognizerTheorems AmountFacts.

(** A text without a digit. *)
Definition noDigits (s : text) : bool := forallb (fun c => negb (isDigit c)) s.

Lemma noDigits_app a b : noDigits (a ++ b) = noDigits a && noDigits b.
Proof. apply forallb_app. Qed.

Lemma noDigits_of p a :
  (forall c, p c = true -> isDigit c = false) -> forallb p a = true -> noDigits a = true.
Proof.
  intros H F. unfold noDigits. apply forallb_forall. intros c Hc.
  rewrite forallb_forall in F. rewrite (H c (F c Hc)). reflexivity.
Qed.

(** The text up to the first digit is determined. *)
Lemma first_digit_unique : forall A A' d d' B B',
  noDigits A = true -> noDigits A' = true ->
  isDigit d = true -> isDigit d' = true ->
  A ++ d :: B = A' ++ d' :: B' -> A = A'.
Proof.
  induction A as [|a A IH]; intros A' d d' B B' NA NA' Dd Dd' E.
  - destruct A' as [|a' A']; [reflexivity|].
    simpl in E. inversion E; subst. simpl in NA'. rewrite Dd in NA'. discriminate.
  - destruct A' as [|a' A'].
    + simpl in E. inversion E; subst. simpl in NA. rewrite Dd' in NA. discriminate.
    + simpl in E. inversion E as [[Ha Ht]]. f_equal.
      simpl in NA, NA'. apply andb_prop in NA. apply andb_prop in NA'.
      destruct NA as (_ & NA). destruct NA' as (_ & NA').
      apply (IH A' d d' B B'); auto.
Qed.

Lemma In_skipn_less {A} (x : A) n : forall X, In x (skipn (S n) X) -> In x (skipn n X).
Proof.
  induction n as [|n IH]; intros [|y X] H; simpl in *; auto.
Qed.

Lemma In_skipn_app {A} (x : A) n P X : In x (skipn n X) -> In x (skipn n (P ++ X)).
Proof.
  revert n. induction P as [|p P IH]; intros n H; simpl; [exact H|].
  destruct n as [|n]; simpl.
  - right. apply in_or_app. right. exact H.
  - apply IH. apply In_skipn_less. exact H.
Qed.

(** ** Classes *)

Lemma letter_not_digit c : letter c = true -> isDigit c = false.
Proof. destruct c as [[] [] [] [] [] [] [] []]; intros H; try discriminate H; reflexivity. Qed.

Lemma chr_ci_not_digit p c : letter p = true -> chr_ci p c = true -> isDigit c = false.
Proof. intros Lp H. apply letter_not_digit. eapply chr_ci_letter; eauto. Qed.

(** The characters between a keyword and its amount. *)
Definition separator (c : ascii) : bool := any [chr ":"; isSpace] c || chr "$" c || isSpace c.

Lemma separator_not_digit c : separator c = true -> isDigit c = false.
Proof. destruct c as [[] [] [] [] [] [] [] []]; intros H; try discriminate H; reflexivity. Qed.

Lemma separator_not_letter c : separator c = true -> letter c = false.
Proof. destruct c as [[] [] [] [] [] [] [] []]; intros H; try discriminate H; reflexivity. Qed.

Lemma forallb_weaken {A} (p q : A -> bool) l :
  (forall x, p x = true -> q x = true) -> forallb p l = true -> forallb q l = true.
Proof.
  intros H F. apply forallb_forall. intros x Hx. rewrite forallb_forall in F. auto.
Qed.

(** ** The shape of a keyword match *)

(** A text matched by a keyword-amount pattern: the keyword, separators,
    a digit. *)
Lemma keywordAmount_shape (kw : list (ascii -> bool)) tail at0 s n st r :
  exec (map one kw ++ [star (any [chr ":"; isSpace]); opt (chr "$"); star isSpace] ++ tail)
       at0 s n st = Some r ->
  exists k seps s',
    s = k ++ seps ++ s'
    /\ Forall2 (fun p c => p c = true) kw k
    /\ forallb separator seps = true
    /\ exec tail at0 s' (n + List.length k + List.length seps) st = Some r.
Proof.
  revert s n. induction kw as [|p kw IH]; intros s n H.
  - cbn [map app] in H.
    apply exec_cls_split in H. destruct H as (a & s1 & -> & Fa & _ & _ & H).
    apply exec_cls_split in H. destruct H as (b & s2 & -> & Fb & _ & _ & H).
    apply exec_cls_split in H. destruct H as (c & s3 & -> & Fc & _ & _ & H).
    exists [], (a ++ b ++ c), s3. repeat split.
    + simpl. rewrite <- !app_assoc. reflexivity.
    + constructor.
    + rewrite !forallb_app.
      assert (Sa : forallb separator a = true).
      { eapply forallb_weaken; [|exact Fa]. intros x Hx. unfold separator. rewrite Hx. reflexivity. }
      assert (Sb : forallb separator b = true).
      { eapply forallb_weaken; [|exact Fb]. intros x Hx. unfold separator.
        rewrite Hx, orb_true_r. reflexivity. }
      assert (Sc : forallb separator c = true).
      { eapply forallb_weaken; [|exact Fc]. intros x Hx. unfold separator.
        rewrite Hx, orb_true_r. reflexivity. }
      rewrite Sa, Sb, Sc. reflexivity.
    + simpl. rewrite !length_app. rewrite <- H. f_equal. lia.
  - cbn [map app] in H. apply exec_one_split in H.
    destruct H as (c & s1 & -> & Pc & H).
    destruct (IH _ _ H) as (k & seps & s' & -> & F & Fs & E).
    exists (c :: k), seps, s'. repeat split; auto.
    simpl. rewrite <- E. f_equal. lia.
Qed.

Lemma amountTail_digit at0 s n st r :
  exec amountTail at0 s n st = Some r ->
  exists d s', s = d :: s' /\ isDigit d = true.
Proof.
  unfold amountTail. intros H.
  change (exec (Open 1 :: ?rest) at0 s n st) with (exec rest at0 s n (open_group 1 n st)) in H.
  apply exec_cls_split in H. destruct H as (a & s1 & -> & Fa & La & _ & H).
  destruct a as [|d a]; [simpl in La; lia|].
  simpl in Fa. apply andb_prop in Fa. exists d, (a ++ s1). tauto.
Qed.

End TextFacts.

Module AmountTheorems.
Import Chars RegExp JsString JsNumber Data OCRService RegExpFacts RecognizerTheorems AmountFacts
  TextFacts.

Definition totalLine : text := L "Total: $45.67".

Lemma keywordAmount_total :
  keywordAmount "total"
  = map one (word_ci "total")
    ++ [star (any [chr ":"; isSpace]); opt (chr "$"); star isSpace] ++ amountTail.
Proof. reflexivity. Qed.

(** The keyword pattern for [total] does not match before the line. *)
Lemma total_not_before c P post at0 n st :
  noDigits (c :: P) = true ->
  exec (keywordAmount "total") at0 ((c :: P) ++ totalLine ++ post) n st = None.
Proof.
  intros N.
  destruct (exec _ _ _ _ _) as [r|] eqn:E; [exfalso | reflexivity].
  rewrite keywordAmount_total in E.
  apply keywordAmount_shape in E.
  destruct E as (k & seps & s' & Es & F & Fs & E).
  apply amountTail_digit in E. destruct E as (d & s'' & -> & Dd).
  (* the keyword is five letters *)
  unfold word_ci in F. cbn [map L list_ascii_of_string] in F.
  inversion F as [|p0 k0 ? ? H0 F0]; subst.
  inversion F0 as [|p1 k1 ? ? H1 F1]; subst.
  inversion F1 as [|p2 k2 ? ? H2 F2]; subst.
  inversion F2 as [|p3 k3 ? ? H3 F3]; subst.
  inversion F3 as [|p4 k4 ? ? H4 F4]; subst.
  inversion F4; subst.
  assert (Nk : noDigits ([k0; k1; k2; k3; k4] ++ seps) = true).
  { rewrite noDigits_app. simpl.
    rewrite (chr_ci_not_digit "t" k0), (chr_ci_not_digit "o" k1), (chr_ci_not_digit "t" k2),
      (chr_ci_not_digit "a" k3), (chr_ci_not_digit "l" k4); auto.
    simpl. apply (noDigits_of separator); auto using separator_not_digit. }
  assert (Np : noDigits ((c :: P) ++ L "Total: $") = true).
  { rewrite noDigits_app, N. reflexivity. }
  assert (Eq : [k0; k1; k2; k3; k4] ++ seps = (c :: P) ++ L "Total: $").
  { apply (first_digit_unique _ _ d "4" s'' (L "5.67" ++ post)); auto.
    rewrite <- app_assoc. rewrite <- Es. unfold totalLine.
    rewrite <- !app_assoc. reflexivity. }
  assert (Il : In "l"%char seps).
  { change seps with (skipn 5 ([k0; k1; k2; k3; k4] ++ seps)). rewrite Eq.
    change (skipn 5 ((c :: P) ++ L "Total: $")) with (skipn 4 (P ++ L "Total: $")).
    apply In_skipn_app. simpl. auto. }
  rewrite forallb_forall in Fs. apply Fs in Il. discriminate Il.
Qed.

Lemma scan_total_before P : forall post i,
  noDigits P = true ->
  scan (keywordAmount "total") (P ++ totalLine ++ post) i 0
  = scan (keywordAmount "total") (totalLine ++ post) (List.length P + i) 0.
Proof.
  induction P as [|c P IH]; intros post i N; [reflexivity|].
  change ((c :: P) ++ totalLine ++ post) with (c :: (P ++ totalLine ++ post)).
  rewrite scan_miss.
  - rewrite IH.
    + f_equal. simpl. lia.
    + simpl in N. apply andb_prop in N. tauto.
  - apply (total_not_before c P post). exact N.
Qed.

(** The match of the line itself. *)
Lemma total_at post at0 :
  exec (keywordAmount "total") at0 (totalLine ++ post) 0 no_caps
  = Some (13, {| opened := [(1, 8)]; closed := [(1, (8, 13))] |}).
Proof. reflexivity. Qed.

Definition totalMatch (i : nat) (post : text) : rmatch :=
  mk_match i (totalLine ++ post) 13 {| opened := [(1, 8)]; closed := [(1, (8, 13))] |}.

Lemma matchAll_total pre post :
  noDigits pre = true ->
  exists rest,
    matchAll (keywordAmount "total") (pre ++ totalLine ++ post)
    = totalMatch (List.length pre + 0) post :: rest.
Proof.
  intros N. unfold matchAll. rewrite scan_total_before by exact N.
  eexists. unfold totalLine at 1. cbn [L list_ascii_of_string app].
  rewrite (scan_hit _ _ _ _ _ _ (total_at post _)). reflexivity.
Qed.

(** The candidate of the line: 45.67 at confidence 1. *)
Definition totalCandidate : Candidate Q :=
  {| c_value := 45.67%Q;
     c_confidence := calculateAmountConfidence totalLine 0 45.67%Q;
     c_context := totalLine |}.

Lemma totalCandidate_confidence : (c_confidence totalCandidate == 1)%Q.
Proof. vm_compute. reflexivity. Qed.

Lemma amountCandidate_total i post : amountCandidate 0 (totalMatch i post) = [totalCandidate].
Proof. reflexivity. Qed.

Lemma amountCandidates_total pre post :
  noDigits pre = true ->
  exists rest, amountCandidates (pre ++ totalLine ++ post) = totalCandidate :: rest.
Proof.
  intros N. destruct (matchAll_total pre post N) as (ms & E).
  unfold amountCandidates.
  change (indexed amountPatterns) with
    ((0, keywordAmount "total") :: combine (seq 1 4) (tl amountPatterns)).
  cbn [flat_map]. rewrite E. cbn [flat_map]. rewrite amountCandidate_total.
  eexists. reflexivity.
Qed.

(** ** C4: the total amount *)

(** C4. On a text with the line ["Total: $45.67"] and no digit before it
    the total-amount recognizer returns 45.67 with confidence 1, above
    0.7.  On every text: with no candidate the result is value 0 at
    confidence 0; otherwise it is a candidate, its value lies strictly
    between 0 and 10000, and no candidate has a higher confidence. *)
Theorem C4_total_amount :
  (forall pre post,
     noDigits pre = true ->
     (value (extractTotalAmount (pre ++ L "Total: $45.67" ++ post)) == 45.67)%Q
     /\ (confidence (extractTotalAmount (pre ++ L "Total: $45.67" ++ post)) == 1)%Q
     /\ (0.7 < confidence (extractTotalAmount (pre ++ L "Total: $45.67" ++ post)))%Q)
  /\ (forall t,
        amountCandidates t = [] ->
        extractTotalAmount t = {| value := 0%Q; confidence := 0%Q |})
  /\ (forall t,
        amountCandidates t <> [] ->
        exists best,
          In best (amountCandidates t)
          /\ extractTotalAmount t = {| value := c_value best; confidence := c_confidence best |}
          /\ (0 < c_value best)%Q /\ (c_value best < 10000)%Q
          /\ forall x, In x (amountCandidates t) -> (c_confidence x <= c_confidence best)%Q).
Proof.
  split; [|split].
  - intros pre post N.
    destruct (amountCandidates_total pre post N) as (rest & E).
    fold totalLine. unfold extractTotalAmount. rewrite E.
    destruct (@sort_first _ totalCandidate rest) as (sorted & Es).
    { intros y Hy.
      assert (In y (amountCandidates (pre ++ totalLine ++ post))) as Iy
        by (rewrite E; simpl; auto).
      apply amountCandidates_spec in Iy. destruct Iy as (_ & _ & Iy).
      rewrite totalCandidate_confidence. exact Iy. }
    rewrite Es. cbn [value confidence].
    split; [reflexivity|]. split; [apply totalCandidate_confidence|].
    rewrite totalCandidate_confidence. reflexivity.
  - intros t E. unfold extractTotalAmount. rewrite E. reflexivity.
  - intros t NE. unfold extractTotalAmount.
    destruct (sortByConfidence (amountCandidates t)) as [|best rest] eqn:E.
    + apply sort_nil in E. contradiction.
    + destruct (@sort_head _ _ _ _ E) as (Ib & Hmax).
      exists best. split; [exact Ib|]. split; [reflexivity|].
      destruct (amountCandidates_spec _ _ Ib) as (H1 & H2 & _). auto.
Qed.

Lemma C4_total_amount_witness :
  (value (extractTotalAmount (L "CAFE LUNA" ++ L "Total: $45.67" ++ L " VISA")) == 45.67)%Q
  /\ (0.7 < confidence (extractTotalAmount (L "CAFE LUNA" ++ L "Total: $45.67" ++ L " VISA")))%Q.
Proof.
  destruct (proj1 C4_total_amount (L "CAFE LUNA") (L " VISA") eq_refl) as (V & _ & C).
  split; assumption.
Defined.

End AmountTheorems.

Module DateFacts.
Import Chars RegExp JsString JsNumber Data OCRService RegExpFacts RecognizerTheorems AmountFacts
  TextFacts.

Definition dateText : text := L "01/15/2024".

Definition datePattern0 : pattern := nth 0 datePatterns [].
Definition datePattern1 : pattern := nth 1 datePatterns [].
Definition datePattern2 : pattern := nth 2 datePatterns [].

(** ** Scanning a text without digits *)

Lemma noDigits_tail c s : noDigits (c :: s) = true -> noDigits s = true.
Proof. simpl. intros H. apply andb_prop in H. tauto. Qed.

Lemma noDigits_head c s : noDigits (c :: s) = true -> isDigit c = false.
Proof. simpl. intros H. apply andb_prop in H. destruct H as (H & _). apply negb_true_iff. exact H. Qed.

Lemma scan_none its s :
  (forall s' at0, noDigits s' = true -> exec its at0 s' 0 no_caps = None) ->
  noDigits s = true ->
  forall i k, scan its s i k = [].
Proof.
  intros H. induction s as [|c s IH]; intros N i k.
  - destruct k; simpl; [|reflexivity]. rewrite H by reflexivity. reflexivity.
  - destruct k as [|k].
    + rewrite scan_miss by (apply H; exact N). apply IH. eapply noDigits_tail; eauto.
    + rewrite scan_skip. apply IH. eapply noDigits_tail; eauto.
Qed.

Lemma scan_through its rest pre :
  (forall c p' at0, noDigits (c :: p') = true ->
     exec its at0 ((c :: p') ++ rest) 0 no_caps = None) ->
  noDigits pre = true ->
  forall i, scan its (pre ++ rest) i 0 = scan its rest (List.length pre + i) 0.
Proof.
  intros H. induction pre as [|c pre IH]; intros N i; [reflexivity|].
  change ((c :: pre) ++ rest) with (c :: (pre ++ rest)).
  rewrite scan_miss by (apply (H c pre); exact N).
  rewrite IH by (eapply noDigits_tail; eauto).
  f_equal. simpl. lia.
Qed.

(** A pattern that begins with a digit, inside a group. *)
Lemma digit_first g lo hi gr rest at0 s n st :
  match s with [] => True | c :: _ => isDigit c = false end ->
  exec (Open g :: Cls isDigit (S lo) hi gr :: rest) at0 s n st = None.
Proof.
  intros H.
  change (exec (Open g :: ?r) at0 s n st) with (exec r at0 s n (open_group g n st)).
  destruct (exec _ _ _ _ _) as [r|] eqn:E; [exfalso | reflexivity].
  apply exec_cls_split in E. destruct E as (a & s' & -> & Fa & La & _ & _).
  destruct a as [|d a]; [simpl in La; lia|].
  simpl in Fa, H. rewrite H in Fa. discriminate.
Qed.

Lemma digit_first_nodigits g lo hi gr rest at0 s n st :
  noDigits s = true ->
  exec (Open g :: Cls isDigit (S lo) hi gr :: rest) at0 s n st = None.
Proof.
  intros N. apply digit_first. destruct s as [|c s]; [exact I|].
  eapply noDigits_head; eauto.
Qed.

Lemma wordPrefix_digit w s : noDigits s = true -> wordPrefix (isDigit :: w) s = false.
Proof.
  destruct s as [|c s]; [reflexivity|]. intros N. simpl.
  rewrite (noDigits_head _ _ N). reflexivity.
Qed.

Lemma wordPrefix_then_digit p w s : noDigits s = true -> wordPrefix (p :: isDigit :: w) s = false.
Proof.
  destruct s as [|c s]; [reflexivity|]. intros N.
  change (wordPrefix (p :: isDigit :: w) (c :: s)) with (p c && wordPrefix (isDigit :: w) s).
  rewrite wordPrefix_digit by (eapply noDigits_tail; eauto). apply andb_false_r.
Qed.

(** ** The first pattern: day, month and year in digits *)

Lemma date0_at post at0 :
  exec datePattern0 at0 (dateText ++ post) 0 no_caps
  = Some (10, {| opened := [(3, 6); (2, 3); (1, 0)];
                 closed := [(3, (6, 10)); (2, (3, 5)); (1, (0, 2))] |}).
Proof. reflexivity. Qed.

Definition dateMatch (i : nat) (post : text) : rmatch :=
  mk_match i (dateText ++ post) 10
    {| opened := [(3, 6); (2, 3); (1, 0)];
       closed := [(3, (6, 10)); (2, (3, 5)); (1, (0, 2))] |}.

Lemma dateMatch_text i post : m_text (dateMatch i post) = dateText.
Proof. reflexivity. Qed.

Lemma matchAll_date0 pre post :
  noDigits pre = true -> noDigits post = true ->
  matchAll datePattern0 (pre ++ dateText ++ post) = [dateMatch (List.length pre + 0) post].
Proof.
  intros Npre Npost. unfold matchAll.
  rewrite scan_through; [| | exact Npre].
  2:{ intros c p' at0 N. apply digit_first. simpl. eapply noDigits_head; eauto. }
  unfold dateText at 1. cbn [L list_ascii_of_string app].
  rewrite (scan_hit _ _ _ _ _ _ (date0_at post _)).
  fold (dateMatch (List.length pre + 0) post). f_equal.
  cbn [pred]. rewrite !scan_skip.
  apply scan_none; [|exact Npost].
  intros s' at0 N. apply digit_first_nodigits. exact N.
Qed.

(** ** The second pattern: year first *)

Definition yearFirst : list (ascii -> bool) :=
  [isDigit; isDigit; isDigit; isDigit; slashOrDash; isDigit].

Lemma date1_shape at0 s n st r :
  exec datePattern1 at0 s n st = Some r -> wordPrefix yearFirst s = true.
Proof.
  unfold datePattern1, datePatterns. cbn [nth]. intros H.
  change (exec (Open 1 :: ?rest) at0 s n st) with (exec rest at0 s n (open_group 1 n st)) in H.
  apply exec_cls_split in H. destruct H as (a & s1 & -> & Fa & La & Ha & H).
  change (exec (Close 1 :: ?rest) at0 s1 ?m ?t) with (exec rest at0 s1 m (close_group 1 m t)) in H.
  apply exec_one_split in H. destruct H as (c & s2 & -> & Pc & H).
  change (exec (Open 2 :: ?rest) at0 s2 ?m ?t) with (exec rest at0 s2 m (open_group 2 m t)) in H.
  apply exec_cls_split in H. destruct H as (b & s3 & -> & Fb & Lb & _ & _).
  destruct a as [|a1 [|a2 [|a3 [|a4 [|a5 a]]]]]; simpl in La, Ha; try lia.
  destruct b as [|b1 b]; [simpl in Lb; lia|].
  simpl in Fa, Fb.
  repeat match goal with H : _ && _ = true |- _ => apply andb_prop in H; destruct H end.
  simpl. repeat match goal with H : _ = true |- _ => rewrite H; clear H end. reflexivity.
Qed.

Lemma date1_none at0 s : wordPrefix yearFirst s = false -> exec datePattern1 at0 s 0 no_caps = None.
Proof.
  intros W. destruct (exec _ _ _ _ _) as [r|] eqn:E; [|reflexivity].
  apply date1_shape in E. congruence.
Qed.

Lemma matchAll_date1 pre post :
  noDigits pre = true -> noDigits post = true ->
  matchAll datePattern1 (pre ++ dateText ++ post) = [].
Proof.
  intros Npre Npost. unfold matchAll.
  rewrite scan_through; [| | exact Npre].
  2:{ intros c p' at0 N. apply digit_first. simpl. eapply noDigits_head; eauto. }
  unfold dateText. cbn [L list_ascii_of_string app].
  do 6 (rewrite scan_miss by (apply date1_none; reflexivity)).
  rewrite scan_miss by (apply date1_none; apply (wordPrefix_then_digit slashOrDash [] post Npost)).
  do 3 (rewrite scan_miss
          by (apply date1_none;
              first [ apply (wordPrefix_digit [slashOrDash; isDigit] post Npost)
                    | apply (wordPrefix_digit [isDigit; slashOrDash; isDigit] post Npost)
                    | apply (wordPrefix_digit [isDigit; isDigit; slashOrDash; isDigit] post Npost) ])).
  apply scan_none; [|exact Npost].
  intros s' at0 N. apply digit_first_nodigits. exact N.
Qed.

(** ** The third pattern: a month by name *)

Definition letterClass (p : ascii -> bool) : Prop := forall c, p c = true -> letter c = true.

Lemma monthWords_letters : Forall (Forall letterClass) monthWords.
Proof.
  unfold monthWords, word_ci. cbn [map L list_ascii_of_string].
  repeat (apply Forall_cons || apply Forall_nil);
    intros c H; (eapply chr_ci_letter; [|exact H]; reflexivity).
Qed.

Lemma word_noDigits w a :
  Forall letterClass w -> Forall2 (fun p c => p c = true) w a -> noDigits a = true.
Proof.
  intros F H. induction H as [|p c w a Pc _ IH]; [reflexivity|].
  inversion F as [|? ? Lp Fw]; subst. simpl.
  rewrite (letter_not_digit _ (Lp _ Pc)). simpl. auto.
Qed.

Lemma space_not_digit c : isSpace c = true -> isDigit c = false.
Proof. destruct c as [[] [] [] [] [] [] [] []]; intros H; try discriminate H; reflexivity. Qed.

Definition dayAndYear : pattern :=
  [Open 2; rep isDigit 1 2; Close 2; opt (chr ","); plus isSpace; Open 3; rep isDigit 4 4; Close 3].

Lemma date2_shape at0 s n st r :
  exec datePattern2 at0 s n st = Some r ->
  exists name s' n' st',
    s = name ++ s' /\ noDigits name = true /\ exec dayAndYear at0 s' n' st' = Some r.
Proof.
  unfold datePattern2, datePatterns. cbn [nth]. intros H.
  change (exec (Open 1 :: ?rest) at0 s n st) with (exec rest at0 s n (open_group 1 n st)) in H.
  apply exec_alt_split in H. destruct H as (w & a & s1 & Iw & -> & Fw & H).
  change (exec (Close 1 :: ?rest) at0 s1 ?m ?t) with (exec rest at0 s1 m (close_group 1 m t)) in H.
  apply exec_cls_split in H. destruct H as (b & s2 & -> & Fb & _ & _ & H).
  apply exec_cls_split in H. destruct H as (c & s3 & -> & Fc & _ & _ & H).
  exists (a ++ b ++ c), s3. do 2 eexists. split; [|split; [|exact H]].
  - rewrite <- !app_assoc. reflexivity.
  - rewrite !noDigits_app.
    assert (Na : noDigits a = true).
    { eapply word_noDigits; [|exact Fw].
      pose proof monthWords_letters as M. rewrite Forall_forall in M. apply M. exact Iw. }
    assert (Nb : noDigits b = true) by (eapply noDigits_of; [|exact Fb]; apply letter_not_digit).
    assert (Nc : noDigits c = true) by (eapply noDigits_of; [|exact Fc]; apply space_not_digit).
    rewrite Na, Nb, Nc. reflexivity.
Qed.

Lemma dayAndYear_digit at0 s n st r :
  exec dayAndYear at0 s n st = Some r -> exists d s', s = d :: s' /\ isDigit d = true.
Proof.
  unfold dayAndYear, rep. intros H. destruct s as [|d s'].
  - rewrite digit_first in H by exact I. discriminate.
  - exists d, s'. split; [reflexivity|].
    destruct (isDigit d) eqn:E; [reflexivity|].
    rewrite digit_first in H by exact E. discriminate.
Qed.

Lemma dayAndYear_date post at0 n st : exec dayAndYear at0 (dateText ++ post) n st = None.
Proof. reflexivity. Qed.

Lemma date2_nodigits at0 s n st : noDigits s = true -> exec datePattern2 at0 s n st = None.
Proof.
  intros N. destruct (exec _ _ _ _ _) as [r|] eqn:E; [exfalso | reflexivity].
  apply date2_shape in E. destruct E as (name & s' & n' & st' & -> & _ & E).
  apply dayAndYear_digit in E. destruct E as (d & s2 & -> & Dd).
  rewrite noDigits_app in N. apply andb_prop in N. destruct N as (_ & N).
  apply noDigits_head in N. congruence.
Qed.

Lemma date2_before pre post at0 :
  noDigits pre = true -> exec datePattern2 at0 (pre ++ dateText ++ post) 0 no_caps = None.
Proof.
  intros N. destruct (exec _ _ _ _ _) as [r|] eqn:E; [exfalso | reflexivity].
  apply date2_shape in E. destruct E as (name & s' & n' & st' & Es & Nn & E).
  destruct (dayAndYear_digit _ _ _ _ _ E) as (d & s2 & -> & Dd).
  assert (name = pre).
  { symmetry in Es. unfold dateText in Es. cbn [L list_ascii_of_string app] in Es.
    symmetry. eapply first_digit_unique; [exact N | exact Nn | | exact Dd | symmetry; exact Es].
    reflexivity. }
  subst name. apply app_inv_head in Es. rewrite <- Es in E.
  rewrite dayAndYear_date in E. discriminate.
Qed.

Lemma matchAll_date2 pre post :
  noDigits pre = true -> noDigits post = true ->
  matchAll datePattern2 (pre ++ dateText ++ post) = [].
Proof.
  intros Npre Npost. unfold matchAll.
  rewrite scan_through; [| | exact Npre].
  2:{ intros c p' at0 N. apply date2_before. exact N. }
  unfold dateText. cbn [L list_ascii_of_string app].
  do 10 (rewrite scan_miss by reflexivity).
  apply scan_none; [|exact Npost].
  intros s' at0 N. apply date2_nodigits. exact N.
Qed.

(** ** Scanning a text with no other date *)

(** The pattern matches at index [i] of the text. *)
Definition matchesAt (its : pattern) (t : text) (i : nat) : bool :=
  match exec its (i =? 0) (skipn i t) 0 no_caps with
  | Some _ => true
  | None => false
  end.

(** No other date-like substring around [01/15/2024]: the first date
    pattern matches nowhere outside the ten characters of the date, and
    the two other patterns match nowhere in the text. *)
Definition noOtherDate (pre post : text) : bool :=
  let t := pre ++ dateText ++ post in
  forallb (fun i =>
             ((List.length pre <=? i) && (i <? List.length pre + 10))
             || negb (matchesAt datePattern0 t i))
          (seq 0 (S (List.length t)))
  && forallb (fun i => negb (matchesAt datePattern1 t i) && negb (matchesAt datePattern2 t i))
             (seq 0 (S (List.length t))).

Lemma skipn_cons_tail {A} (t : list A) i c s : skipn i t = c :: s -> skipn (S i) t = s.
Proof.
  revert i. induction t as [|x t IH]; intros i H.
  - destruct i; discriminate H.
  - destruct i as [|i]; [inversion H; reflexivity|]. cbn [skipn] in H |- *.
    exact (IH i H).
Qed.

Lemma skipn_suffix_length {A} (t : list A) i s :
  skipn i t = s -> i <= List.length t -> i + List.length s = List.length t.
Proof. intros <- H. rewrite length_skipn. lia. Qed.

(** A scan over positions where the pattern does not match. *)
Lemma scan_misses its t s : forall i,
  skipn i t = s -> i <= List.length t ->
  (forall j, i <= j <= List.length t -> matchesAt its t j = false) ->
  scan its s i 0 = [].
Proof.
  induction s as [|c s IH]; intros i E L H.
  - cbn [scan]. specialize (H i ltac:(lia)). unfold matchesAt in H. rewrite E in H.
    destruct (exec its (i =? 0) [] 0 no_caps); [discriminate H | reflexivity].
  - pose proof (skipn_suffix_length t i (c :: s) E L) as Ln. cbn [List.length] in Ln.
    rewrite scan_miss.
    + apply IH; [exact (skipn_cons_tail t i c s E) | lia | intros j Hj; apply H; lia].
    + specialize (H i ltac:(lia)). unfold matchesAt in H. rewrite E in H.
      destruct (exec its (i =? 0) (c :: s) 0 no_caps); [discriminate H | reflexivity].
Qed.

Lemma scan_over its t rest pre : forall i,
  skipn i t = pre ++ rest -> i <= List.length t ->
  (forall j, i <= j < i + List.length pre -> matchesAt its t j = false) ->
  scan its (pre ++ rest) i 0 = scan its rest (i + List.length pre) 0.
Proof.
  induction pre as [|c pre IH]; intros i E L H.
  - cbn [app List.length]. rewrite Nat.add_0_r. reflexivity.
  - pose proof (skipn_suffix_length t i _ E L) as Ln. cbn [List.length app] in Ln.
    cbn [app]. rewrite scan_miss.
    + rewrite (IH (S i)); [f_equal; cbn [List.length]; lia | | lia |].
      * exact (skipn_cons_tail t i c (pre ++ rest) E).
      * intros j Hj. apply H. cbn [List.length]. lia.
    + specialize (H i ltac:(cbn [List.length]; lia)). unfold matchesAt in H. rewrite E in H.
      cbn [app] in H.
      destruct (exec its (i =? 0) (c :: pre ++ rest) 0 no_caps); [discriminate H | reflexivity].
Qed.

Lemma skipn_app_exact {A} (a b : list A) : skipn (List.length a) (a ++ b) = b.
Proof. induction a; simpl; auto. Qed.

Lemma noOtherDate_spec pre post :
  noOtherDate pre post = true ->
  (forall j, j <= List.length (pre ++ dateText ++ post) ->
     j < List.length pre \/ List.length pre + 10 <= j ->
     matchesAt datePattern0 (pre ++ dateText ++ post) j = false)
  /\ (forall j, j <= List.length (pre ++ dateText ++ post) ->
        matchesAt datePattern1 (pre ++ dateText ++ post) j = false
        /\ matchesAt datePattern2 (pre ++ dateText ++ post) j = false).
Proof.
  unfold noOtherDate. cbv zeta. intros H. apply andb_prop in H. destruct H as (H0 & H12).
  rewrite forallb_forall in H0, H12. split.
  - intros j Lj O. specialize (H0 j ltac:(apply in_seq; lia)).
    apply orb_prop in H0. destruct H0 as [H0|H0].
    + apply andb_prop in H0. destruct H0 as (A & B).
      apply Nat.leb_le in A. apply Nat.ltb_lt in B. lia.
    + apply negb_true_iff in H0. exact H0.
  - intros j Lj. specialize (H12 j ltac:(apply in_seq; lia)).
    apply andb_prop in H12. destruct H12 as (A & B).
    split; apply negb_true_iff; assumption.
Qed.

Lemma matchAll_only_date0 pre post :
  noOtherDate pre post = true ->
  matchAll datePattern0 (pre ++ dateText ++ post) = [dateMatch (0 + List.length pre) post].
Proof.
  intros H. destruct (noOtherDate_spec pre post H) as (H0 & _).
  set (t := pre ++ dateText ++ post) in *.
  assert (Lt : List.length t = List.length pre + 10 + List.length post).
  { unfold t. rewrite !length_app. change (List.length dateText) with 10. lia. }
  unfold matchAll. unfold t at 1.
  rewrite (scan_over datePattern0 t (dateText ++ post) pre 0);
    [| reflexivity | lia | intros j Hj; apply H0; lia].
  unfold dateText at 1. cbn [L list_ascii_of_string app].
  rewrite (scan_hit _ _ _ _ _ _ (date0_at post _)).
  fold (dateMatch (0 + List.length pre) post). f_equal.
  cbn [pred]. rewrite !scan_skip.
  apply (scan_misses datePattern0 t).
  - unfold t. replace (S (S (S (S (S (S (S (S (S (S (0 + List.length pre)))))))))))
      with (List.length (pre ++ dateText)) by (rewrite length_app; simpl; lia).
    rewrite app_assoc. apply skipn_app_exact.
  - lia.
  - intros j Hj. apply H0; lia.
Qed.

Lemma matchAll_only_date12 pre post :
  noOtherDate pre post = true ->
  matchAll datePattern1 (pre ++ dateText ++ post) = []
  /\ matchAll datePattern2 (pre ++ dateText ++ post) = [].
Proof.
  intros H. destruct (noOtherDate_spec pre post H) as (_ & H12).
  unfold matchAll. split.
  - apply (scan_misses datePattern1 (pre ++ dateText ++ post)); [reflexivity | lia|].
    intros j Hj. apply H12. lia.
  - apply (scan_misses datePattern2 (pre ++ dateText ++ post)); [reflexivity | lia|].
    intros j Hj. apply H12. lia.
Qed.

End DateFacts.

Module CalendarFacts.
Import JsDate.

Local Open Scope Z_scope.

Lemma MonthFromDay_range d leap : 0 <= MonthFromDay d leap <= 11.
Proof.
  unfold MonthFromDay.
  repeat match goal with |- context [if ?b then _ else _] => destruct b end; lia.
Qed.

Lemma month_cases m :
  0 <= m <= 11 ->
  m = 0 \/ m = 1 \/ m = 2 \/ m = 3 \/ m = 4 \/ m = 5 \/ m = 6 \/ m = 7 \/ m = 8 \/ m = 9
  \/ m = 10 \/ m = 11.
Proof. lia. Qed.

Lemma monthStart_leap m leap leap' :
  0 <= m <= 11 -> monthStart m leap - monthStart m leap' <= (if leap then 1 else 0).
Proof.
  intros H. apply month_cases in H.
  repeat (destruct H as [H|H]); subst m; destruct leap, leap'; simpl; lia.
Qed.

Lemma monthStart_common m leap :
  0 <= m <= 11 -> monthStart m false <= monthStart m leap.
Proof.
  intros H. apply month_cases in H.
  repeat (destruct H as [H|H]); subst m; destruct leap; simpl; lia.
Qed.

Lemma isLeap_spec y :
  isLeap y = true <-> y mod 4 = 0 /\ (y mod 100 <> 0 \/ y mod 400 = 0).
Proof.
  unfold isLeap.
  destruct (Z.eqb_spec (y mod 4) 0), (Z.eqb_spec (y mod 100) 0), (Z.eqb_spec (y mod 400) 0);
    simpl; split; intros; try discriminate; try reflexivity; lia.
Qed.

(** A year is as long as [DaysInYear] says. *)
Lemma DayFromYear_step y : DayFromYear y - DayFromYear (y - 1) = DaysInYear (y - 1).
Proof.
  unfold DaysInYear. destruct (isLeap (y - 1)) eqn:E.
  - apply isLeap_spec in E. unfold DayFromYear. Z.div_mod_to_equations. lia.
  - assert (N : ~ ((y - 1) mod 4 = 0 /\ ((y - 1) mod 100 <> 0 \/ (y - 1) mod 400 = 0))).
    { rewrite <- isLeap_spec. congruence. }
    unfold DayFromYear. Z.div_mod_to_equations. lia.
Qed.

Lemma leap_then_common y : isLeap (y - 1) = true -> isLeap y = false.
Proof.
  intros E. apply isLeap_spec in E.
  destruct (isLeap y) eqn:F; [|reflexivity].
  apply isLeap_spec in F. exfalso. Z.div_mod_to_equations. lia.
Qed.

(** The same day of the same month one year earlier lies at most 366
    days back. *)
Lemma yearBefore m y :
  0 <= m <= 11 ->
  DayFromYear y + monthStart m (isLeap y) - 366
  <= DayFromYear (y - 1) + monthStart m (isLeap (y - 1)).
Proof.
  intros Hm. pose proof (DayFromYear_step y) as S. unfold DaysInYear in S.
  destruct (isLeap (y - 1)) eqn:E.
  - rewrite (leap_then_common _ E).
    pose proof (monthStart_common m true Hm). lia.
  - pose proof (monthStart_leap m (isLeap y) false Hm). destruct (isLeap y); lia.
Qed.

Lemma DayFromYear_mono a b : a <= b -> DayFromYear a <= DayFromYear b.
Proof. intros H. unfold DayFromYear. Z.div_mod_to_equations. lia. Qed.

(** A year from 0 to 99 given to [new Date(y, m, d)] lands in the
    twentieth century, later than the year it came from. *)
Lemma legacyYear m y :
  0 <= m <= 11 -> 0 <= y - 1 <= 99 ->
  DayFromYear y + monthStart m (isLeap y) - 366
  <= DayFromYear (1900 + (y - 1)) + monthStart m (isLeap (1900 + (y - 1))).
Proof.
  intros Hm Hy.
  pose proof (monthStart_leap m (isLeap y) (isLeap (1900 + (y - 1))) Hm).
  assert (DayFromYear y <= DayFromYear (1900 + (y - 1))) by (apply DayFromYear_mono; lia).
  destruct (isLeap y); lia.
Qed.

Lemma MakeDay_month year m date :
  0 <= m <= 11 -> MakeDay year m date = DayFromYear year + monthStart m (isLeap year) + date - 1.
Proof.
  intros H. unfold MakeDay. rewrite Z.div_small, Z.mod_small, Z.add_0_r by lia. reflexivity.
Qed.

Lemma Day_split t :
  Day t = DayFromYear (YearFromTime t) + monthStart (MonthFromTime t) (InLeapYear t)
          + DateFromTime t - 1.
Proof. unfold DateFromTime, DayWithinYear. lia. Qed.

Lemma Day_bound t : t < (Day t + 1) * msPerDay.
Proof. unfold Day, msPerDay. Z.div_mod_to_equations. lia. Qed.

(** Local midnight one year before [t] is less than 367 days before [t]. *)
Lemma yearAgo_near tz now :
  now - 367 * msPerDay
  < newDate3 tz (getFullYear tz now - 1) (getMonth tz now) (getDate tz now).
Proof.
  unfold newDate3, getFullYear, getMonth, getDate, UTC, MakeDate, LocalTime.
  set (t := now + tz).
  pose proof (MonthFromDay_range (DayWithinYear t) (InLeapYear t)) as Hm.
  fold (MonthFromTime t) in Hm.
  rewrite MakeDay_month by exact Hm.
  pose proof (Day_split t) as D. pose proof (Day_bound t) as B.
  unfold InLeapYear in D.
  assert (K : DayFromYear (YearFromTime t) + monthStart (MonthFromTime t) (isLeap (YearFromTime t)) - 366
              <= DayFromYear (if (0 <=? YearFromTime t - 1) && (YearFromTime t - 1 <=? 99)
                              then 1900 + (YearFromTime t - 1) else YearFromTime t - 1)
                 + monthStart (MonthFromTime t)
                     (isLeap (if (0 <=? YearFromTime t - 1) && (YearFromTime t - 1 <=? 99)
                              then 1900 + (YearFromTime t - 1) else YearFromTime t - 1))).
  { destruct (Z.leb_spec 0 (YearFromTime t - 1)), (Z.leb_spec (YearFromTime t - 1) 99); simpl;
      first [ apply legacyYear; lia | apply yearBefore; exact Hm ]. }
  unfold msPerDay in *. subst t. nia.
Qed.

Lemma Day_floor t : Day t * msPerDay <= t.
Proof. unfold Day, msPerDay. Z.div_mod_to_equations. lia. Qed.

(** From the epoch on the year is 1970 or later. *)
Lemma YearFromDay_epoch d : 0 <= d -> 1970 <= YearFromDay d.
Proof.
  intros H. unfold YearFromDay. cbv zeta.
  assert (Y : 0 <= d * 400 / 146097) by (apply Z.div_pos; lia).
  destruct (DayFromYear (1970 + d * 400 / 146097 + 1) <=? d); [lia|].
  destruct (Z.leb_spec (DayFromYear (1970 + d * 400 / 146097)) d) as [L|L]; [lia|].
  assert (N : d * 400 / 146097 <> 0).
  { intros E. rewrite E in L. change (DayFromYear (1970 + 0)) with 0 in L. lia. }
  lia.
Qed.

Lemma YearFromTime_epoch t : 0 <= t -> 1970 <= YearFromTime t.
Proof.
  intros H. apply YearFromDay_epoch. unfold Day, msPerDay. apply Z.div_pos; lia.
Qed.

(** The same day of the year before is at least 365 days back. *)
Lemma yearBefore_far m y :
  0 <= m <= 11 ->
  DayFromYear (y - 1) + monthStart m (isLeap (y - 1))
  <= DayFromYear y + monthStart m (isLeap y) - 365.
Proof.
  intros Hm. pose proof (DayFromYear_step y) as S. unfold DaysInYear in S.
  destruct (isLeap (y - 1)) eqn:E.
  - rewrite (leap_then_common _ E).
    pose proof (monthStart_leap m true false Hm). simpl in H. lia.
  - pose proof (monthStart_common m (isLeap y) Hm). lia.
Qed.

(** The same day of the next month is 28 to 31 days ahead. *)
Lemma monthAhead y m date :
  0 <= m <= 11 ->
  28 <= MakeDay y (m + 1) date - (DayFromYear y + monthStart m (isLeap y) + date - 1) <= 31.
Proof.
  intros Hm. unfold MakeDay. cbv zeta. apply month_cases in Hm.
  repeat (destruct Hm as [Hm|Hm]); subst m;
    try (change ((_ + 1) / 12) with 0; change ((_ + 1) mod 12) with 1;
         rewrite Z.add_0_r; destruct (isLeap y); simpl; lia).
  all: try (match goal with |- context [(?a + 1) / 12] =>
              let q := eval compute in ((a + 1) / 12) in
              let r := eval compute in ((a + 1) mod 12) in
              change ((a + 1) / 12) with q; change ((a + 1) mod 12) with r end;
            try rewrite Z.add_0_r; destruct (isLeap y); simpl; lia).
  (* December *)
  change ((11 + 1) / 12) with 1. change ((11 + 1) mod 12) with 0.
  pose proof (DayFromYear_step (y + 1)) as S. replace (y + 1 - 1) with y in S by lia.
  unfold DaysInYear in S. destruct (isLeap y); simpl; lia.
Qed.

(** Local midnight one year before [now] is at least 365 days before
    [now], for a clock that is not before 1970. *)
Lemma yearAgo_far tz now :
  0 <= now + tz ->
  newDate3 tz (getFullYear tz now - 1) (getMonth tz now) (getDate tz now)
  <= now - 365 * msPerDay.
Proof.
  intros H0.
  unfold newDate3, getFullYear, getMonth, getDate, UTC, MakeDate, LocalTime.
  set (t := now + tz) in *.
  pose proof (MonthFromDay_range (DayWithinYear t) (InLeapYear t)) as Hm.
  fold (MonthFromTime t) in Hm.
  pose proof (YearFromTime_epoch t H0) as Hy.
  replace ((0 <=? YearFromTime t - 1) && (YearFromTime t - 1 <=? 99)) with false
    by (symmetry; apply andb_false_intro2; apply Z.leb_gt; lia).
  rewrite MakeDay_month by exact Hm.
  pose proof (Day_split t) as D. pose proof (Day_floor t) as B.
  unfold InLeapYear in D.
  pose proof (yearBefore_far (MonthFromTime t) (YearFromTime t) Hm) as K.
  unfold msPerDay in *. subst t. nia.
Qed.

(** Local midnight one month after [now] is more than 27 and at most 31
    days after [now], for a clock that is not before 1970. *)
Lemma monthAhead_near tz now :
  0 <= now + tz ->
  now + 27 * msPerDay
  < newDate3 tz (getFullYear tz now) (getMonth tz now + 1) (getDate tz now)
  <= now + 31 * msPerDay.
Proof.
  intros H0.
  unfold newDate3, getFullYear, getMonth, getDate, UTC, MakeDate, LocalTime.
  set (t := now + tz) in *.
  pose proof (MonthFromDay_range (DayWithinYear t) (InLeapYear t)) as Hm.
  fold (MonthFromTime t) in Hm.
  pose proof (YearFromTime_epoch t H0) as Hy.
  replace ((0 <=? YearFromTime t) && (YearFromTime t <=? 99)) with false
    by (symmetry; apply andb_false_intro2; apply Z.leb_gt; lia).
  pose proof (Day_split t) as D. pose proof (Day_floor t) as B1. pose proof (Day_bound t) as B2.
  unfold InLeapYear in D.
  pose proof (monthAhead (YearFromTime t) (MonthFromTime t) (DateFromTime t) Hm) as K.
  unfold msPerDay in *. subst t. nia.
Qed.

End CalendarFacts.

Module DateTheorems.
Import Chars RegExp JsString JsNumber Data OCRService RegExpFacts AmountFacts TextFacts DateFacts
  CalendarFacts.

Section Recognizer.

Context {platform : Platform}.

Lemma dateCandidates_patterns now t :
  dateCandidates now t
  = flat_map (dateCandidate now 0) (matchAll datePattern0 t)
    ++ flat_map (dateCandidate now 1) (matchAll datePattern1 t)
    ++ flat_map (dateCandidate now 2) (matchAll datePattern2 t) ++ [].
Proof. reflexivity. Qed.

Lemma dateCandidates_single now pre post d :
  noDigits pre = true -> noDigits post = true ->
  Date_parse dateText = Some d ->
  dateCandidates now (pre ++ dateText ++ post)
  = if isReasonableDate now d
    then [{| c_value := d; c_confidence := calculateDateConfidence dateText 0;
             c_context := dateText |}]
    else [].
Proof.
  intros Npre Npost Hd. rewrite dateCandidates_patterns.
  rewrite matchAll_date0, matchAll_date1, matchAll_date2 by assumption.
  cbn [flat_map app]. unfold dateCandidate. rewrite dateMatch_text.
  unfold parseDate. rewrite Hd. destruct (isReasonableDate now d); reflexivity.
Qed.

Lemma dateCandidate_reasonable now index m c :
  In c (dateCandidate now index m) -> isReasonableDate now (c_value c) = true.
Proof.
  unfold dateCandidate. destruct (parseDate (m_text m)) as [d|]; [|intros []].
  destruct (isReasonableDate now d) eqn:E; [|intros []].
  intros [<-|[]]. exact E.
Qed.

Lemma dateCandidates_reasonable now t c :
  In c (dateCandidates now t) -> isReasonableDate now (c_value c) = true.
Proof.
  unfold dateCandidates. intros H. apply in_flat_map in H.
  destruct H as ((index & pattern) & _ & H). apply in_flat_map in H.
  destruct H as (m & _ & H). eapply dateCandidate_reasonable; eauto.
Qed.

Lemma dateCandidate_unreasonable now index m d :
  parseDate (m_text m) = Some d -> isReasonableDate now d = false ->
  dateCandidate now index m = [].
Proof. unfold dateCandidate. intros -> ->. reflexivity. Qed.

Lemma window_400_days now d :
  (d + 400 * JsDate.msPerDay <= now)%Z -> isReasonableDate now d = false.
Proof.
  intros H. unfold isReasonableDate. cbv zeta.
  apply andb_false_intro1. apply Z.leb_gt.
  pose proof (yearAgo_near LocalTZA now). unfold JsDate.msPerDay in *. lia.
Qed.

Lemma dateCandidates_only now pre post d :
  noOtherDate pre post = true ->
  Date_parse dateText = Some d ->
  dateCandidates now (pre ++ dateText ++ post)
  = if isReasonableDate now d
    then [{| c_value := d; c_confidence := calculateDateConfidence dateText 0;
             c_context := dateText |}]
    else [].
Proof.
  intros N Hd. rewrite dateCandidates_patterns.
  rewrite (matchAll_only_date0 pre post N).
  destruct (matchAll_only_date12 pre post N) as (-> & ->).
  cbn [flat_map app]. unfold dateCandidate. rewrite dateMatch_text.
  unfold parseDate. rewrite Hd. destruct (isReasonableDate now d); reflexivity.
Qed.

Lemma extractDate_only now pre post d :
  noOtherDate pre post = true ->
  Date_parse dateText = Some d ->
  (isReasonableDate now d = true ->
     value (extractDate now (pre ++ dateText ++ post)) = d
     /\ (confidence (extractDate now (pre ++ dateText ++ post)) == 0.7)%Q
     /\ (0 < confidence (extractDate now (pre ++ dateText ++ post)))%Q)
  /\ (isReasonableDate now d = false ->
        extractDate now (pre ++ dateText ++ post) = {| value := now; confidence := 0%Q |}).
Proof.
  intros N Hd. pose proof (dateCandidates_only now pre post d N Hd) as E.
  unfold extractDate. rewrite E. split.
  - intros R. rewrite R. cbn. repeat split; reflexivity.
  - intros R. rewrite R. reflexivity.
Qed.

(** The window in days: a date up to 365 days back and up to 27 days
    ahead of the clock is inside, a date 367 days back or more than 31
    days ahead is outside. *)
Lemma window_inside now d :
  (0 <= now + LocalTZA)%Z ->
  (now - 365 * JsDate.msPerDay <= d <= now + 27 * JsDate.msPerDay)%Z ->
  isReasonableDate now d = true.
Proof.
  intros H0 H. unfold isReasonableDate. cbv zeta.
  pose proof (yearAgo_far LocalTZA now H0). pose proof (monthAhead_near LocalTZA now H0).
  apply andb_true_intro. split; apply Z.leb_le; unfold JsDate.msPerDay in *; lia.
Qed.

Lemma window_367_days now d :
  (d <= now - 367 * JsDate.msPerDay)%Z -> isReasonableDate now d = false.
Proof.
  intros H. unfold isReasonableDate. cbv zeta.
  apply andb_false_intro1. apply Z.leb_gt.
  pose proof (yearAgo_near LocalTZA now). unfold JsDate.msPerDay in *. lia.
Qed.

Lemma window_31_days now d :
  (0 <= now + LocalTZA)%Z ->
  (now + 31 * JsDate.msPerDay < d)%Z -> isReasonableDate now d = false.
Proof.
  intros H0 H. unfold isReasonableDate. cbv zeta.
  apply andb_false_intro2. apply Z.leb_gt.
  pose proof (monthAhead_near LocalTZA now H0). unfold JsDate.msPerDay in *. lia.
Qed.

End Recognizer.

(** C5.  A text that holds [01/15/2024] and no other date-like
    substring: no substring outside the date matches the first date
    pattern and none matches the two others; the text may hold amounts
    and other digits.  With a clock not before 1970: when the date the
    runtime reads from it is at most 365 days before and at most 27 days
    after the processing time, the date recognizer returns it with
    confidence 0.7, above 0; when it is 367 days or more before, or more
    than 31 days after, the recognizer returns the processing time with
    confidence 0.  In between the window decides, which runs from local
    midnight one year back to local midnight one month ahead.  For any
    text, every candidate lies in the window, a match with a date 367
    (so also 400) days back or more than 31 days ahead gives no
    candidate, and without candidates the recognizer returns the
    processing time with confidence 0. *)
Theorem C5_date_window :
  forall platform : Platform,
  (forall now pre post d,
     noDigits pre = true -> noDigits post = true ->
     Date_parse (L "01/15/2024") = Some d ->
     (isReasonableDate now d = true ->
        value (extractDate now (pre ++ L "01/15/2024" ++ post)) = d
        /\ (confidence (extractDate now (pre ++ L "01/15/2024" ++ post)) == 0.7)%Q
        /\ (0 < confidence (extractDate now (pre ++ L "01/15/2024" ++ post)))%Q)
     /\ (isReasonableDate now d = false ->
           extractDate now (pre ++ L "01/15/2024" ++ post)
           = {| value := now; confidence := 0%Q |}))
  /\ (forall now t c, In c (dateCandidates now t) -> isReasonableDate now (c_value c) = true)
  /\ (forall now d, (d + 400 * JsDate.msPerDay <= now)%Z -> isReasonableDate now d = false)
  /\ (forall now index m d,
        parseDate (m_text m) = Some d -> (d + 400 * JsDate.msPerDay <= now)%Z ->
        dateCandidate now index m = [])
  /\ (forall now t, dateCandidates now t = [] ->
        extractDate now t = {| value := now; confidence := 0%Q |})
  /\ (forall now pre post d,
        noOtherDate pre post = true ->
        Date_parse (L "01/15/2024") = Some d ->
        (isReasonableDate now d = true ->
           value (extractDate now (pre ++ L "01/15/2024" ++ post)) = d
           /\ (confidence (extractDate now (pre ++ L "01/15/2024" ++ post)) == 0.7)%Q
           /\ (0 < confidence (extractDate now (pre ++ L "01/15/2024" ++ post)))%Q)
        /\ (isReasonableDate now d = false ->
              extractDate now (pre ++ L "01/15/2024" ++ post)
              = {| value := now; confidence := 0%Q |}))
  /\ (forall now pre post d,
        noOtherDate pre post = true ->
        Date_parse (L "01/15/2024") = Some d ->
        (0 <= now + LocalTZA)%Z ->
        ((now - 365 * JsDate.msPerDay <= d <= now + 27 * JsDate.msPerDay)%Z ->
           value (extractDate now (pre ++ L "01/15/2024" ++ post)) = d
           /\ (confidence (extractDate now (pre ++ L "01/15/2024" ++ post)) == 0.7)%Q
           /\ (0 < confidence (extractDate now (pre ++ L "01/15/2024" ++ post)))%Q)
        /\ ((d <= now - 367 * JsDate.msPerDay \/ now + 31 * JsDate.msPerDay < d)%Z ->
              extractDate now (pre ++ L "01/15/2024" ++ post)
              = {| value := now; confidence := 0%Q |}))
  /\ (forall now d,
        (0 <= now + LocalTZA)%Z ->
        (now - 365 * JsDate.msPerDay <= d <= now + 27 * JsDate.msPerDay)%Z ->
        isReasonableDate now d = true)
  /\ (forall now d, (d <= now - 367 * JsDate.msPerDay)%Z -> isReasonableDate now d = false)
  /\ (forall now d,
        (0 <= now + LocalTZA)%Z -> (now + 31 * JsDate.msPerDay < d)%Z ->
        isReasonableDate now d = false)
  /\ (forall now index m d,
        parseDate (m_text m) = Some d ->
        (d <= now - 367 * JsDate.msPerDay
         \/ (0 <= now + LocalTZA /\ now + 31 * JsDate.msPerDay < d))%Z ->
        dateCandidate now index m = []).
Proof.
  intros platform.
  split; [|split; [|split; [|split; [|split; [|split; [|split; [|split; [|split; [|split]]]]]]]]].
  - intros now pre post d Npre Npost Hd.
    pose proof (dateCandidates_single now pre post d Npre Npost Hd) as E.
    change (L "01/15/2024") with dateText. unfold extractDate. rewrite E. split.
    + intros R. rewrite R. cbn. repeat split; reflexivity.
    + intros R. rewrite R. reflexivity.
  - intros now t c. apply dateCandidates_reasonable.
  - intros now d. apply window_400_days.
  - intros now index m d P H. eapply dateCandidate_unreasonable; [exact P|].
    apply window_400_days. exact H.
  - intros now t E. unfold extractDate. rewrite E. reflexivity.
  - intros now pre post d N Hd. exact (extractDate_only now pre post d N Hd).
  - intros now pre post d N Hd H0.
    destruct (extractDate_only now pre post d N Hd) as (In & Out). split.
    + intros W. apply In. apply window_inside; assumption.
    + intros [W|W]; apply Out; [apply window_367_days | apply window_31_days]; assumption.
  - intros now d. apply window_inside.
  - intros now d. apply window_367_days.
  - intros now d. apply window_31_days.
  - intros now index m d P [W|(H0 & W)]; (eapply dateCandidate_unreasonable; [exact P|]);
      [apply window_367_days | apply window_31_days]; assumption.
Qed.

(** A receipt with a total and a time of day, dated 15 January 2024,
    read in early February 2024 and again in February 2025. *)
Definition receiptHead : text := L "Total: $45.67 Date: ".
Definition receiptTail : text := L " paid 12:30".

Lemma C5_date_window_witness :
  value (@extractDate Samples.samplePlatform 1707000000000
           (receiptHead ++ L "01/15/2024" ++ receiptTail)) = Samples.jan15
  /\ JsDate.isoDate Samples.jan15 = L "2024-01-15"
  /\ @extractDate Samples.samplePlatform 1740000000000
       (receiptHead ++ L "01/15/2024" ++ receiptTail)
     = {| value := 1740000000000%Z; confidence := 0%Q |}.
Proof.
  destruct (C5_date_window Samples.samplePlatform) as (_ & _ & _ & _ & _ & _ & A & _).
  assert (N : noOtherDate receiptHead receiptTail = true) by (vm_compute; reflexivity).
  destruct (A 1707000000000%Z receiptHead receiptTail Samples.jan15 N eq_refl
              ltac:(cbn; lia)) as (P & _).
  destruct (A 1740000000000%Z receiptHead receiptTail Samples.jan15 N eq_refl
              ltac:(cbn; lia)) as (_ & Q).
  split; [apply P; unfold Samples.jan15, JsDate.msPerDay; lia|].
  split; [reflexivity|].
  apply Q. left. unfold Samples.jan15, JsDate.msPerDay. lia.
Defined.

End DateTheorems.

(** * Further properties of the services, the store and the helpers *)

From Stdlib Require Import Lqa.
Close Scope Q_scope.

Module TraceFacts.
Import Eff EffFacts TierFacts Json Data JsString StoreFacts.

(** A computation that adds to the trace only events in [P]. *)
Definition adds (P : Event -> Prop) {A} (c : M St A) : Prop :=
  forall st r st', c st = (r, st') ->
    exists es, trace st' = trace st ++ es /\ Forall P es.

Section Adds.

Variable P : Event -> Prop.

Lemma adds_same {A} (c : M St A) :
  (forall st r st', c st = (r, st') -> trace st' = trace st) -> adds P c.
Proof.
  intros H st r st' E. exists []. rewrite app_nil_r. split; [eauto | constructor].
Qed.

Lemma adds_ret {A} (a : A) : adds P (ret a).
Proof. apply adds_same. intros st r st' E. inversion E. reflexivity. Qed.

Lemma adds_throw {A} m : adds P (@throw St A m).
Proof. apply adds_same. intros st r st' E. inversion E. reflexivity. Qed.

Lemma adds_lift {A} (x : Exn A) : adds P (lift x).
Proof. apply adds_same. intros st r st' E. inversion E. reflexivity. Qed.

Lemma adds_gets {A} (f : St -> A) : adds P (gets f).
Proof. apply adds_same. intros st r st' E. inversion E. reflexivity. Qed.

Lemma adds_readClock w : adds P (readClock w).
Proof. apply adds_same. intros st r st' E. inversion E. reflexivity. Qed.

Lemma adds_setGemini b : adds P (setGemini b).
Proof. apply adds_same. intros st r st' E. inversion E. reflexivity. Qed.

Lemma adds_setTesseract b : adds P (setTesseract b).
Proof. apply adds_same. intros st r st' E. inversion E. reflexivity. Qed.

Lemma adds_log e : P e -> adds P (log e).
Proof.
  intros Pe st r st' E. inversion E. exists [e]. split; [reflexivity|].
  constructor; [exact Pe | constructor].
Qed.

Lemma adds_bind {A B} (c : M St A) (k : A -> M St B) :
  adds P c -> (forall a, adds P (k a)) -> adds P (bind c k).
Proof.
  intros Hc Hk st r st' E. unfold bind in E.
  destruct (c st) as [[a|e] st1] eqn:Ec.
  - destruct (Hc _ _ _ Ec) as (u1 & T1 & F1).
    destruct (Hk a _ _ _ E) as (u2 & T2 & F2).
    exists (u1 ++ u2). rewrite T2, T1, app_assoc. split; [reflexivity|].
    apply Forall_app. split; assumption.
  - inversion E; subst. eapply Hc; eauto.
Qed.

Lemma adds_tryCatch {A} (c : M St A) (h : text -> M St A) :
  adds P c -> (forall e, adds P (h e)) -> adds P (tryCatch c h).
Proof.
  intros Hc Hh st r st' E. unfold tryCatch in E.
  destruct (c st) as [[a|e] st1] eqn:Ec.
  - inversion E; subst. eapply Hc; eauto.
  - destruct (Hc _ _ _ Ec) as (u1 & T1 & F1).
    destruct (Hh e _ _ _ E) as (u2 & T2 & F2).
    exists (u1 ++ u2). rewrite T2, T1, app_assoc. split; [reflexivity|].
    apply Forall_app. split; assumption.
Qed.

End Adds.

Ltac adds_step :=
  first
    [ apply adds_ret | apply adds_throw | apply adds_lift | apply adds_gets
    | apply adds_readClock | apply adds_setGemini | apply adds_setTesseract
    | apply adds_bind; [| intros ?]
    | apply adds_tryCatch; [| intros ?]
    | match goal with
      | |- adds _ (if ?b then _ else _) => destruct b eqn:?
      | |- adds _ (match ?x with _ => _ end) => destruct x eqn:?
      end ].

(** Every event but the unlinking of [path]. *)
Definition spares (path : text) (e : Event) : Prop := e <> Unlinked path.

Section Tiers.

Context {platform : Platform}.
Variable w : World.

Lemma spares_recognizeAll path paths :
  forall acc scores, adds (spares path) (OCRService.recognizeAll w paths acc scores).
Proof.
  induction paths as [|p paths IH]; intros acc scores; simpl.
  - apply adds_ret.
  - unfold OCRService.extractTextFromImage. repeat adds_step. apply IH.
Qed.

Lemma spares_cleanupTempFiles path paths :
  adds (spares path) (OCRService.cleanupTempFiles w paths path).
Proof.
  induction paths as [|p paths IH]; simpl.
  - apply adds_ret.
  - apply adds_bind; [|intros _; exact IH].
    match goal with |- adds _ (if ?b then _ else _) => destruct b eqn:E end.
    + apply adds_bind; [|intros _; repeat adds_step].
      apply adds_log. intros H. inversion H; subst.
      rewrite text_eqb_refl in E. discriminate.
    + apply adds_ret.
Qed.

Lemma spares_heuristic path : adds (spares path) (OCRService.processWithTesseract w path).
Proof.
  unfold OCRService.processWithTesseract.
  apply adds_bind; [apply adds_log; discriminate | intros _].
  unfold OCRService.prepareImageFiles, OCRService.convertPdfToImages, OCRService.preprocessImage,
    OCRService.initializeTesseract.
  repeat adds_step; first [apply spares_recognizeAll | apply spares_cleanupTempFiles].
Qed.

Lemma spares_vision path : adds (spares path) (GeminiOCRService.processReceipt w path).
Proof.
  unfold GeminiOCRService.processReceipt.
  apply adds_bind; [apply adds_log; discriminate | intros _].
  unfold GeminiOCRService.isAvailable, GeminiOCRService.initialize,
    GeminiOCRService.parseGeminiResponse, GeminiOCRService.formatParsedData,
    GeminiOCRService.formatDateValue, GeminiOCRService.convertToImageIfNeeded,
    GeminiOCRService.prop.
  repeat adds_step.
  all: apply adds_log; intros H; inversion H; subst.
  all: match goal with E : text_eqb ?p ?p = false |- _ => rewrite text_eqb_refl in E; discriminate end.
Qed.

Lemma spares_orchestrator path : adds (spares path) (OCRService.processReceipt w path).
Proof.
  unfold OCRService.processReceipt.
  apply adds_bind; [apply adds_readClock | intros startTime].
  apply adds_tryCatch; [|intros e; repeat adds_step].
  destruct (text_eqb _ _); [|apply spares_heuristic].
  apply adds_bind.
  { unfold GeminiOCRService.isAvailable, GeminiOCRService.initialize. repeat adds_step. }
  intros [|]; [|apply spares_heuristic].
  apply adds_bind; [apply spares_vision | intros g].
  destruct (_ && _); [apply adds_ret | apply spares_heuristic].
Qed.

End Tiers.

(** The paths [cleanupTempFiles] removes: those that differ from the
    original and contain [_processed]. *)
Definition temporary (originalPath imagePath : text) : bool :=
  negb (text_eqb imagePath originalPath) && includes imagePath (L "_processed").

Lemma cleanupTempFiles_run (w : World) (imagePaths : list text)
    (originalPath : text) (st : St) :
  OCRService.cleanupTempFiles w imagePaths originalPath st
  = (Ok tt,
     {| clockReads := clockReads st;
        trace := trace st ++ map Unlinked (filter (temporary originalPath) imagePaths);
        tesseractInitialized := tesseractInitialized st;
        geminiInitialized := geminiInitialized st;
        geminiModel := geminiModel st |}).
Proof.
  revert st. induction imagePaths as [|p paths IH]; intros st.
  - cbn [OCRService.cleanupTempFiles filter map]. rewrite app_nil_r. destruct st. reflexivity.
  - cbn [OCRService.cleanupTempFiles filter]. fold (temporary originalPath p).
    destruct (temporary originalPath p).
    + unfold bind, log, modify, tryCatch, lift, ret.
      destruct (fs_unlink w p); cbv beta iota; rewrite IH;
        cbn [clockReads trace tesseractInitialized geminiInitialized geminiModel map];
        rewrite <- app_assoc; reflexivity.
    + unfold bind, ret. cbv beta iota. rewrite IH. reflexivity.
Qed.

End TraceFacts.

Module CleanupTheorems.
Import Eff EffFacts TierFacts Json Data JsString StoreFacts TraceFacts.

(** [cleanupTempFiles] never raises, whatever the file system answers to
    the unlink calls: it requests the unlinking of every path of the list
    that differs from the original path and contains [_processed], in the
    order of the list, also after a call that failed, and of no other
    path; the rest of the state of the service is unchanged. *)
Theorem cleanupTempFiles_unlinks_temporaries (w : World) (imagePaths : list text)
    (originalPath : text) (st : St) :
  OCRService.cleanupTempFiles w imagePaths originalPath st
  = (Ok tt,
     {| clockReads := clockReads st;
        trace := trace st ++ map Unlinked (filter (temporary originalPath) imagePaths);
        tesseractInitialized := tesseractInitialized st;
        geminiInitialized := geminiInitialized st;
        geminiModel := geminiModel st |}).
Proof. apply cleanupTempFiles_run. Qed.

(** Whatever the outside answers, a run of the pipeline on a file never
    requests the unlinking of that file: the events it adds to the trace
    do not contain the unlinking of the path it was given. *)
Theorem processReceipt_spares_upload {platform : Platform} (w : World) (filePath : text) (st : St) :
  exists es,
    trace (snd (OCRService.processReceipt w filePath st)) = trace st ++ es
    /\ ~ In (Unlinked filePath) es.
Proof.
  destruct (OCRService.processReceipt w filePath st) as [r st'] eqn:E.
  destruct (spares_orchestrator w filePath _ _ _ E) as (es & T & F).
  exists es. split; [exact T|].
  intros I. rewrite Forall_forall in F. exact (F _ I eq_refl).
Qed.

End CleanupTheorems.

Module StringFacts.
Import Chars JsString StoreFacts.

Lemma isPrefix_app p s : isPrefix p (p ++ s) = true.
Proof. induction p as [|c p IH]; simpl; [reflexivity|]. rewrite Ascii.eqb_refl. exact IH. Qed.

Lemma isPrefix_split p : forall s, isPrefix p s = true -> exists s', s = p ++ s'.
Proof.
  induction p as [|c p IH]; intros s H.
  - exists s. reflexivity.
  - destruct s as [|d s]; [discriminate|]. simpl in H.
    apply andb_prop in H. destruct H as (E & H).
    apply Ascii.eqb_eq in E. subst d.
    destruct (IH _ H) as (s' & ->). exists s'. reflexivity.
Qed.

Lemma text_eqb_eq a b : text_eqb a b = true <-> a = b.
Proof.
  split; [|intros ->; apply text_eqb_refl].
  unfold text_eqb. intros H. apply andb_prop in H. destruct H as (Hl & Hp).
  apply Nat.eqb_eq in Hl. apply isPrefix_split in Hp. destruct Hp as (s' & ->).
  rewrite length_app in Hl. destruct s' as [|c s']; [symmetry; apply app_nil_r|].
  simpl in Hl. lia.
Qed.

Lemma text_eqb_neq a b : text_eqb a b = false <-> a <> b.
Proof.
  split.
  - intros H E. apply text_eqb_eq in E. congruence.
  - intros H. destruct (text_eqb a b) eqn:E; [|reflexivity].
    apply text_eqb_eq in E. contradiction.
Qed.

(** [includes] finds the needle wherever it lies. *)
Lemma includes_app a n b : includes (a ++ n ++ b) n = true.
Proof.
  induction a as [|c a IH].
  - simpl. destruct (n ++ b) eqn:E; simpl; rewrite <- E, isPrefix_app; reflexivity.
  - cbn [app includes]. rewrite IH. apply orb_true_r.
Qed.

Lemma includes_split n : forall s, includes s n = true -> exists a b, s = a ++ n ++ b.
Proof.
  induction s as [|c s IH]; intros H.
  - simpl in H. rewrite orb_false_r in H. apply isPrefix_split in H.
    destruct H as (s' & E). exists [], s'. exact E.
  - cbn [includes] in H. apply orb_prop in H. destruct H as [H|H].
    + apply isPrefix_split in H. destruct H as (s' & E). exists [], s'. exact E.
    + destruct (IH H) as (a & b & ->). exists (c :: a), b. reflexivity.
Qed.

Lemma includes_iff s n : includes s n = true <-> exists a b, s = a ++ n ++ b.
Proof.
  split; [apply includes_split|]. intros (a & b & ->). apply includes_app.
Qed.

(** ** [trim] *)

Lemma dropWhile_head p s c s' : dropWhile p s = c :: s' -> p c = false.
Proof.
  induction s as [|d s IH]; simpl; [discriminate|].
  destruct (p d) eqn:E; [exact IH|]. intros H. inversion H; subst. exact E.
Qed.

Lemma dropWhile_split p s : exists a, s = a ++ dropWhile p s /\ forallb p a = true.
Proof.
  induction s as [|d s IH]; simpl.
  - exists []. auto.
  - destruct (p d) eqn:E.
    + destruct IH as (a & Ea & Fa). exists (d :: a). simpl. rewrite E, Fa, <- Ea. auto.
    + exists []. auto.
Qed.

Lemma dropWhile_id p c s : p c = false -> dropWhile p (c :: s) = c :: s.
Proof. intros H. simpl. rewrite H. reflexivity. Qed.

Lemma dropWhile_all p s : forallb p s = true -> dropWhile p s = [].
Proof.
  induction s as [|c s IH]; simpl; [reflexivity|].
  intros H. apply andb_prop in H. destruct H as (-> & H). auto.
Qed.

(** The ends of a trimmed string are not white space. *)
Definition trimmed (s : text) : Prop :=
  match s with
  | [] => True
  | c :: _ => isSpace c = false
  end
  /\ match rev s with
     | [] => True
     | c :: _ => isSpace c = false
     end.

Lemma trim_trimmed s : trimmed (trim s).
Proof.
  unfold trim, trimmed. rewrite rev_involutive.
  set (a := dropWhile isSpace s).
  destruct (dropWhile_split isSpace (rev a)) as (x & Ex & Fx).
  set (b := dropWhile isSpace (rev a)) in *.
  split.
  - assert (Ea : a = rev b ++ rev x).
    { rewrite <- (rev_involutive a), Ex, rev_app_distr. reflexivity. }
    destruct (rev b) as [|c r] eqn:Er; [exact I|].
    subst a. simpl in Ea.
    eapply dropWhile_head. exact Ea.
  - destruct b as [|c b'] eqn:Eb; [exact I|].
    eapply dropWhile_head. exact Eb.
Qed.

Lemma trim_of_trimmed s : trimmed s -> trim s = s.
Proof.
  intros (H1 & H2). unfold trim.
  destruct s as [|c s]; [reflexivity|].
  rewrite (dropWhile_id _ _ _ H1).
  destruct (rev (c :: s)) as [|d r] eqn:Er.
  - apply (f_equal (@List.length _)) in Er. rewrite length_rev in Er. discriminate.
  - rewrite (dropWhile_id _ _ _ H2), <- Er. apply rev_involutive.
Qed.

Lemma trim_idempotent s : trim (trim s) = trim s.
Proof. apply trim_of_trimmed, trim_trimmed. Qed.

Lemma trim_spaces s : forallb isSpace s = true -> trim s = [].
Proof. intros H. unfold trim. rewrite (dropWhile_all _ _ H). reflexivity. Qed.

Lemma trim_nil_spaces s : trim s = [] -> forallb isSpace s = true.
Proof.
  unfold trim. intros H.
  destruct (dropWhile_split isSpace s) as (a & Ea & Fa).
  destruct (dropWhile_split isSpace (rev (dropWhile isSpace s))) as (b & Eb & Fb).
  apply (f_equal (@rev _)) in H. rewrite rev_involutive in H. simpl in H.
  rewrite H, app_nil_r in Eb.
  rewrite Ea, forallb_app, Fa. simpl.
  rewrite <- (rev_involutive (dropWhile isSpace s)), Eb.
  rewrite forallb_forall in *. intros c Hc. apply Fb. apply in_rev. exact Hc.
Qed.

(** A trimmed string followed by white space trims to itself. *)
Lemma trim_app_spaces s x : trimmed s -> forallb isSpace x = true -> trim (s ++ x) = s.
Proof.
  intros (H1 & H2) Fx. destruct s as [|c s].
  - simpl. apply trim_spaces. exact Fx.
  - unfold trim. cbn [app]. rewrite (dropWhile_id _ _ _ H1).
    change (c :: s ++ x) with ((c :: s) ++ x). rewrite rev_app_distr.
    assert (D : forall r, dropWhile isSpace (rev x ++ r) = dropWhile isSpace r).
    { intros r. assert (Fr : forallb isSpace (rev x) = true).
      { rewrite forallb_forall in *. intros d Hd. apply Fx. apply in_rev. exact Hd. }
      induction (rev x) as [|d y IH]; [reflexivity|].
      simpl in Fr. apply andb_prop in Fr. destruct Fr as (Hd & Fy).
      simpl. rewrite Hd. auto. }
    rewrite D.
    destruct (rev (c :: s)) as [|d r] eqn:Er.
    + apply (f_equal (@List.length _)) in Er. rewrite length_rev in Er. discriminate.
    + rewrite (dropWhile_id _ _ _ H2), <- Er. apply rev_involutive.
Qed.

End StringFacts.

Module MerchantTheorems.
Import Chars JsString RegExp JsNumber Data OCRService StoreFacts StringFacts.

Lemma isLikelyMerchantName_length line :
  isLikelyMerchantName line = true -> 3 <= List.length line <= 50.
Proof.
  unfold isLikelyMerchantName.
  destruct (test onlyDigits _); [discriminate|].
  destruct (test addressLike _); [discriminate|].
  destruct (test dateLike _); [discriminate|].
  intros H. apply andb_prop in H. destruct H as (H1 & H2).
  apply Nat.leb_le in H1, H2. lia.
Qed.

Lemma calculateMerchantConfidence_range name position :
  (0.5 <= calculateMerchantConfidence name position)%Q
  /\ (calculateMerchantConfidence name position <= 1)%Q.
Proof.
  unfold calculateMerchantConfidence.
  destruct (position <? 3); destruct (_ && _); split; vm_compute; discriminate.
Qed.

Lemma firstMerchant_spec lines : forall i,
  (exists k line,
      i + k < 5
      /\ nth_error lines k = Some line
      /\ isLikelyMerchantName line = true
      /\ (forall j l, j < k -> nth_error lines j = Some l -> isLikelyMerchantName l = false)
      /\ firstMerchant lines i
         = {| value := line; confidence := calculateMerchantConfidence line (i + k) |})
  \/ ((forall j l, i + j < 5 -> nth_error lines j = Some l -> isLikelyMerchantName l = false)
      /\ firstMerchant lines i = no_merchant).
Proof.
  induction lines as [|line lines IH]; intros i.
  - right. split; [|reflexivity]. intros [|j] l _ H; discriminate.
  - cbn [firstMerchant]. destruct (Nat.leb_spec 5 i) as [Hi|Hi].
    + right. split; [|reflexivity]. intros j l Hj. lia.
    + destruct (isLikelyMerchantName line) eqn:El.
      * left. exists 0, line. rewrite Nat.add_0_r. repeat split; auto; try lia.
      * destruct (IH (S i)) as [(k & l & Hk & Hn & Hl & Hb & E)|(Hb & E)].
        -- left. exists (S k), l. repeat split; auto; try lia.
           ++ intros [|j] l' Hj Hn'.
              ** inversion Hn'; subst. exact El.
              ** apply (Hb j); [lia | exact Hn'].
           ++ rewrite E. do 2 f_equal. lia.
        -- right. split; [|exact E]. intros [|j] l Hj Hn.
           ++ inversion Hn; subst. exact El.
           ++ apply (Hb j); [lia | exact Hn].
Qed.

(** The lines [extractMerchantName] looks at: the lines of the text,
    trimmed, without the empty ones. *)
Definition candidateLines (t : text) : list text :=
  filter (fun line => (0 <? List.length line)%nat) (map trim (splitLines t)).

Lemma candidateLines_trimmed t line : In line (candidateLines t) -> trimmed line /\ line <> [].
Proof.
  unfold candidateLines. intros H. apply filter_In in H. destruct H as (H & N).
  apply in_map_iff in H. destruct H as (x & <- & _). split; [apply trim_trimmed|].
  intros E. rewrite E in N. discriminate.
Qed.

(** The merchant name is the first plausible line among the first five
    non-blank lines of the text, trimmed: it has 3 to 50 characters, no
    white space at its ends, and a confidence from 0.5 to 1 computed from
    its position and its length.  When none of these five lines is
    plausible the result is the empty name with confidence 0, whatever
    the later lines are. *)
Theorem extractMerchantName_first_plausible (t : text) :
  (exists k line,
      k < 5
      /\ nth_error (candidateLines t) k = Some line
      /\ isLikelyMerchantName line = true
      /\ (forall j l, j < k -> nth_error (candidateLines t) j = Some l ->
            isLikelyMerchantName l = false)
      /\ extractMerchantName t
         = {| value := line; confidence := calculateMerchantConfidence line k |}
      /\ 3 <= List.length line <= 50
      /\ trimmed line
      /\ (0.5 <= confidence (extractMerchantName t))%Q
      /\ (confidence (extractMerchantName t) <= 1)%Q)
  \/ ((forall j l, j < 5 -> nth_error (candidateLines t) j = Some l ->
         isLikelyMerchantName l = false)
      /\ extractMerchantName t = {| value := []; confidence := 0%Q |}).
Proof.
  unfold extractMerchantName. fold (candidateLines t).
  destruct (firstMerchant_spec (candidateLines t) 0) as [(k & l & Hk & Hn & Hl & Hb & E)|(Hb & E)].
  - left. exists k, l. simpl in Hk, E. rewrite E. repeat split; auto.
    + apply isLikelyMerchantName_length; exact Hl.
    + apply isLikelyMerchantName_length; exact Hl.
    + apply (candidateLines_trimmed t). eapply nth_error_In; eauto.
    + apply (candidateLines_trimmed t). eapply nth_error_In; eauto.
    + apply calculateMerchantConfidence_range.
    + apply calculateMerchantConfidence_range.
  - right. split; [|exact E]. intros j l Hj. apply Hb. simpl. exact Hj.
Qed.

End MerchantTheorems.

Module MatchFacts.
Import Chars RegExp JsString OCRService RegExpFacts StringFacts.

(** ** Attempts that succeed *)

Lemma try_down_found {R} (f : nat -> option R) lo d j :
  lo <= j <= lo + d -> f j <> None -> try_down f lo d <> None.
Proof.
  induction d as [|d IH]; simpl; intros Hj Fj.
  - replace (lo + 0) with j by lia. destruct (f j); [discriminate | contradiction].
  - destruct (f (lo + S d)) eqn:E; [discriminate|].
    apply IH; [|exact Fj].
    destruct (Nat.eq_dec j (lo + S d)) as [->|N]; [congruence | lia].
Qed.

Lemma try_up_found {R} (f : nat -> option R) d : forall k j,
  k <= j <= k + d -> f j <> None -> try_up f k d <> None.
Proof.
  induction d as [|d IH]; simpl; intros k j Hj Fj.
  - replace k with j by lia. destruct (f j); [discriminate | contradiction].
  - destruct (f k) eqn:E; [discriminate|].
    apply (IH (S k) j); [|exact Fj].
    destruct (Nat.eq_dec j k) as [->|N]; [congruence | lia].
Qed.

Lemma try_down_first {R} (f : nat -> option R) lo d r :
  f (lo + d) = Some r -> try_down f lo d = Some r.
Proof. destruct d; simpl; intros ->; reflexivity. Qed.

Lemma try_up_first {R} (f : nat -> option R) k d r :
  f k = Some r -> try_up f k d = Some r.
Proof. destruct d; simpl; intros ->; reflexivity. Qed.

(** A quantified class matches when some number of repetitions within
    its run lets the rest match. *)
Lemma exec_cls_found p lo hi g rest at0 s n st j :
  lo <= j <= run p hi s ->
  exec rest at0 (skipn j s) (n + j) st <> None ->
  exec (Cls p lo hi g :: rest) at0 s n st <> None.
Proof.
  intros Hj Ej. cbn [exec]. cbv zeta.
  destruct (Nat.ltb_spec (run p hi s) lo) as [L|L]; [lia|].
  destruct g.
  - apply (try_down_found _ lo (run p hi s - lo) j); [lia | exact Ej].
  - apply (try_up_found _ (run p hi s - lo) lo j); [lia | exact Ej].
Qed.

(** A greedy class takes its whole run when the rest matches after it. *)
Lemma exec_cls_greedy p lo hi rest at0 s n st r :
  lo <= run p hi s ->
  exec rest at0 (skipn (run p hi s) s) (n + run p hi s) st = Some r ->
  exec (Cls p lo hi true :: rest) at0 s n st = Some r.
Proof.
  intros L E. cbn [exec]. cbv zeta.
  destruct (Nat.ltb_spec (run p hi s) lo) as [L'|L']; [lia|].
  apply try_down_first. replace (lo + (run p hi s - lo)) with (run p hi s) by lia. exact E.
Qed.

(** ** Runs *)

Lemma runAll_all p a : forallb p a = true -> runAll p a = List.length a.
Proof.
  induction a as [|c a IH]; simpl; [reflexivity|].
  intros H. apply andb_prop in H. destruct H as (-> & H). rewrite IH by exact H. reflexivity.
Qed.

Lemma runAll_stop p a c s :
  forallb p a = true -> p c = false -> runAll p (a ++ c :: s) = List.length a.
Proof.
  induction a as [|d a IH]; simpl; intros H Pc.
  - rewrite Pc. reflexivity.
  - apply andb_prop in H. destruct H as (-> & H). rewrite IH by assumption. reflexivity.
Qed.

Lemma runAll_app_ge p a s : forallb p a = true -> List.length a <= runAll p (a ++ s).
Proof.
  induction a as [|d a IH]; simpl; intros H; [lia|].
  apply andb_prop in H. destruct H as (-> & H). specialize (IH H). lia.
Qed.

Lemma runUpTo_stop p h a c s :
  forallb p a = true -> p c = false -> List.length a <= h ->
  runUpTo p h (a ++ c :: s) = List.length a.
Proof.
  revert h. induction a as [|d a IH]; intros h H Pc L.
  - destruct h; simpl; [reflexivity|]. rewrite Pc. reflexivity.
  - destruct h as [|h]; [simpl in L; lia|].
    simpl in H. apply andb_prop in H. destruct H as (Pd & H).
    cbn [app runUpTo]. rewrite Pd, IH; auto. simpl in L. lia.
Qed.

Lemma runUpTo_all p h a :
  forallb p a = true -> List.length a <= h -> runUpTo p h a = List.length a.
Proof.
  revert h. induction a as [|d a IH]; intros h H L.
  - destruct h; reflexivity.
  - destruct h as [|h]; [simpl in L; lia|].
    simpl in H. apply andb_prop in H. destruct H as (Pd & H).
    cbn [runUpTo]. rewrite Pd, IH; auto. simpl in L. lia.
Qed.

Lemma runUpTo_head p h c s : p c = true -> 1 <= runUpTo p (S h) (c :: s).
Proof. intros H. simpl. rewrite H. lia. Qed.

Lemma runUpTo_le p h : forall s, runUpTo p h s <= h.
Proof.
  induction h as [|h IH]; intros s; simpl; [lia|].
  destruct s as [|c s]; [lia|]. destruct (p c); [|lia]. specialize (IH s). lia.
Qed.

Lemma runAll_head p c s : p c = true -> 1 <= runAll p (c :: s).
Proof. intros H. simpl. rewrite H. lia. Qed.

(** ** Scans that find something *)

Lemma scan_found its pre : forall s i,
  exec its (i + List.length pre =? 0) s 0 no_caps <> None ->
  scan its (pre ++ s) i 0 <> [].
Proof.
  induction pre as [|c pre IH]; intros s i H.
  - simpl in H. rewrite Nat.add_0_r in H. cbn [app].
    destruct s as [|d s]; simpl; destruct (exec its (i =? 0) _ 0 no_caps) as [[len st]|];
      try discriminate; contradiction.
  - cbn [app]. cbn [scan].
    destruct (exec its (i =? 0) (c :: pre ++ s) 0 no_caps) as [[len st]|]; [discriminate|].
    apply IH. cbn [List.length] in H. rewrite <- plus_n_Sm in H. exact H.
Qed.

Lemma test_found its pre s :
  exec its (List.length pre =? 0) s 0 no_caps <> None -> test its (pre ++ s) = true.
Proof.
  intros H. unfold test, match1, matchAll.
  pose proof (scan_found its pre s 0 H) as N.
  destruct (scan its (pre ++ s) 0 0); [contradiction | reflexivity].
Qed.

(** A pattern that is not anchored matches at a later position as it
    does at the start. *)
Definition unanchored (its : pattern) : Prop := ~ In Bol its.

Lemma try_down_ext {R} (f g : nat -> option R) lo d :
  (forall j, f j = g j) -> try_down f lo d = try_down g lo d.
Proof. intros H. induction d as [|d IH]; simpl; rewrite H; [|rewrite IH]; reflexivity. Qed.

Lemma try_up_ext {R} (f g : nat -> option R) d :
  (forall j, f j = g j) -> forall k, try_up f k d = try_up g k d.
Proof.
  intros H. induction d as [|d IH]; intros k; simpl; rewrite H; [|rewrite IH]; reflexivity.
Qed.

Lemma try_words_ext {R} (f g : nat -> option R) s ws :
  (forall j, f j = g j) -> try_words f s ws = try_words g s ws.
Proof.
  intros H. induction ws as [|w ws IH]; simpl; [reflexivity|].
  rewrite H, IH. reflexivity.
Qed.

Lemma exec_unanchored its : unanchored its ->
  forall at0 at1 s n st, exec its at0 s n st = exec its at1 s n st.
Proof.
  induction its as [|it its IH]; intros U at0 at1 s n st; [reflexivity|].
  assert (U' : unanchored its) by (intros I; apply U; right; exact I).
  specialize (IH U').
  destruct it as [p lo hi g | ws | g | g | | m]; cbn [exec].
  - cbv zeta. destruct (run p hi s <? lo); [reflexivity|].
    destruct g; [apply try_down_ext | apply try_up_ext]; intros j; apply IH.
  - apply try_words_ext. intros j. apply IH.
  - apply IH.
  - apply IH.
  - exfalso. apply U. left. reflexivity.
  - destruct s as [|c s]; [apply IH|].
    destruct (m && isLineTerminator c); [apply IH | reflexivity].
Qed.

(** An anchored pattern matches at the start of the text or not at all. *)
Lemma scan_Bol rest s : forall i k, scan (Bol :: rest) s (S i) k = [].
Proof.
  induction s as [|c s IH]; intros i k; destruct k; simpl; auto.
Qed.

Lemma test_Bol rest s :
  test (Bol :: rest) s = match exec rest true s 0 no_caps with Some _ => true | None => false end.
Proof.
  unfold test, match1, matchAll.
  destruct s as [|c s]; cbn [scan exec Nat.eqb andb];
    destruct (exec rest true _ 0 no_caps) as [[len st]|]; try reflexivity.
  rewrite scan_Bol. reflexivity.
Qed.

(** [text.replace(/\s/g, '')] keeps what is not white space. *)
Lemma removeAll_class p s :
  removeAll [one p] s = filter (fun c => negb (p c)) s.
Proof.
  unfold removeAll. generalize 0 at 1. induction s as [|c s IH]; intros i.
  - simpl. reflexivity.
  - cbn [remove_scan exec one run runUpTo]. cbv zeta. destruct (p c) eqn:Pc.
    + cbn [Nat.ltb Nat.leb Nat.sub try_down Nat.add skipn exec filter negb].
      rewrite Pc. cbn [negb]. apply IH.
    + cbn [Nat.ltb Nat.leb filter]. rewrite Pc. cbn [negb]. rewrite IH. reflexivity.
Qed.

Lemma slashOrDash_not_digit c : slashOrDash c = true -> isDigit c = false.
Proof. destruct c as [[] [] [] [] [] [] [] []]; intros H; try discriminate H; reflexivity. Qed.


Lemma digit_not_space c : isDigit c = true -> isSpace c = false.
Proof. destruct c as [[] [] [] [] [] [] [] []]; intros H; try discriminate H; reflexivity. Qed.


Lemma skipn_length_all {A} (l : list A) : skipn (List.length l) l = [].

Proof. induction l; simpl; auto. Qed.


Lemma try_up_skip {R} (f : nat -> option R) i : forall k d,
  (forall j, k <= j < k + i -> f j = None) -> i <= d ->
  try_up f k d = try_up f (k + i) (d - i).
Proof.
  induction i as [|i IH]; intros k d H L.
  - rewrite Nat.add_0_r, Nat.sub_0_r. reflexivity.
  - destruct d as [|d]; [lia|]. cbn [try_up]. rewrite (H k) by lia.
    rewrite (IH (S k) d); [|intros j Hj; apply H; lia | lia].
    f_equal. lia.
Qed.


Lemma firstn_app_length {A} (a s : list A) : firstn (List.length a) (a ++ s) = a.
Proof. induction a; simpl; [destruct s; reflexivity | f_equal; auto]. Qed.


Lemma letter_not_space c : letter c = true -> isSpace c = false.
Proof. destruct c as [[] [] [] [] [] [] [] []]; intros H; try discriminate H; reflexivity. Qed.


Lemma letter_not_dollar c : letter c = true -> chr "$" c = false.
Proof. destruct c as [[] [] [] [] [] [] [] []]; intros H; try discriminate H; reflexivity. Qed.


Lemma digit_isDot c : isDigit c = true -> isDot c = true.
Proof. destruct c as [[] [] [] [] [] [] [] []]; intros H; try discriminate H; reflexivity. Qed.


Lemma digit_not_dollar c : isDigit c = true -> chr "$" c = false.
Proof. destruct c as [[] [] [] [] [] [] [] []]; intros H; try discriminate H; reflexivity. Qed.


Lemma digit_not_point c : isDigit c = true -> chr "." c = false.
Proof. destruct c as [[] [] [] [] [] [] [] []]; intros H; try discriminate H; reflexivity. Qed.


Lemma exec_cls_greedy_at p lo hi rest at0 s n st r m :
  run p hi s = m -> lo <= m ->
  exec rest at0 (skipn m s) (n + m) st = Some r ->
  exec (Cls p lo hi true :: rest) at0 s n st = Some r.
Proof. intros <- L E. apply exec_cls_greedy; assumption. Qed.


End MatchFacts.

Module MerchantLineTheorems.
Import Chars RegExp JsString JsNumber Data OCRService RegExpFacts TextFacts DateFacts StringFacts
  MatchFacts.

(** A nonempty string of digits is wholly numeric. *)
Lemma onlyDigits_digits s :
  s <> [] -> forallb isDigit s = true -> test onlyDigits s = true.
Proof.
  intros N F. unfold onlyDigits. rewrite test_Bol.
  assert (E : exec [plus isDigit; Eol false] true s 0 no_caps <> None).
  { unfold plus. apply (exec_cls_found _ _ _ _ _ _ _ _ _ (List.length s)).
    - cbn [run]. rewrite runAll_all by exact F.
      destruct s; [contradiction | simpl; lia].
    - rewrite skipn_length_all. simpl. discriminate. }
  destruct (exec _ _ _ _ _); [reflexivity | contradiction].
Qed.

Lemma addressLike_found ds s1 c rest :
  ds <> [] -> forallb isDigit ds = true -> isSpace s1 = true ->
  letter c || isSpace c = true ->
  test addressLike (ds ++ s1 :: c :: rest) = true.
Proof.
  intros N F S1 C. unfold addressLike. rewrite test_Bol.
  assert (E : exec [plus isDigit; plus isSpace; plus (any [letter; isSpace])] true
                   (ds ++ s1 :: c :: rest) 0 no_caps <> None).
  { unfold plus. apply (exec_cls_found _ _ _ _ _ _ _ _ _ (List.length ds)).
    - cbn [run]. split; [destruct ds; [contradiction | simpl; lia] | apply runAll_app_ge; exact F].
    - rewrite skipn_app_length.
      apply (exec_cls_found _ _ _ _ _ _ _ _ _ 1).
      + cbn [run]. split; [lia | apply runAll_head; exact S1].
      + cbn [skipn]. apply (exec_cls_found _ _ _ _ _ _ _ _ _ 1).
        * cbn [run]. split; [lia|]. apply runAll_head. unfold any. simpl.
          rewrite orb_false_r. exact C.
        * simpl. discriminate. }
  destruct (exec _ _ _ _ _); [reflexivity | contradiction].
Qed.

Lemma dateLike_unanchored : unanchored dateLike.
Proof. unfold unanchored, dateLike, rep, one. simpl. intuition discriminate. Qed.

Lemma dateLike_found pre x s1 B s2 y post :
  isDigit x = true -> slashOrDash s1 = true ->
  B <> [] -> forallb isDigit B = true -> List.length B <= 4 ->
  slashOrDash s2 = true -> isDigit y = true ->
  test dateLike (pre ++ x :: s1 :: B ++ s2 :: y :: post) = true.
Proof.
  intros X S1 N F LB S2 Y. apply test_found.
  rewrite (exec_unanchored dateLike dateLike_unanchored (List.length pre =? 0) true).
  unfold dateLike, rep, one.
  apply (exec_cls_found _ _ _ _ _ _ _ _ _ 1).
  { cbn [run]. split; [lia | apply runUpTo_head; exact X]. }
  cbn [skipn]. apply (exec_cls_found _ _ _ _ _ _ _ _ _ 1).
  { cbn [run]. split; [lia | apply runUpTo_head; exact S1]. }
  cbn [skipn]. apply (exec_cls_found _ _ _ _ _ _ _ _ _ (List.length B)).
  { cbn [run]. rewrite runUpTo_stop; auto using slashOrDash_not_digit.
    split; [destruct B; [contradiction | simpl; lia] | lia]. }
  rewrite skipn_app_length. apply (exec_cls_found _ _ _ _ _ _ _ _ _ 1).
  { cbn [run]. split; [lia | apply runUpTo_head; exact S2]. }
  cbn [skipn]. apply (exec_cls_found _ _ _ _ _ _ _ _ _ 1).
  { cbn [run]. split; [lia | apply runUpTo_head; exact Y]. }
  simpl. discriminate.
Qed.

(** What [isLikelyMerchantName] refuses: a line of digits and white
    space with at least one digit; a line that begins with digits, white
    space and then a letter or more white space, as a street address
    does; a line that holds a date in digits (a digit, a slash or dash,
    one to four digits, a slash or dash, a digit); and every line
    shorter than 3 or longer than 50 characters. *)
Theorem isLikelyMerchantName_refuses :
  (forall line,
     forallb (fun c => isDigit c || isSpace c) line = true ->
     existsb isDigit line = true ->
     isLikelyMerchantName line = false)
  /\ (forall ds s1 c rest,
        ds <> [] -> forallb isDigit ds = true -> isSpace s1 = true ->
        letter c || isSpace c = true ->
        isLikelyMerchantName (ds ++ s1 :: c :: rest) = false)
  /\ (forall pre x s1 B s2 y post,
        isDigit x = true -> slashOrDash s1 = true ->
        B <> [] -> forallb isDigit B = true -> List.length B <= 4 ->
        slashOrDash s2 = true -> isDigit y = true ->
        isLikelyMerchantName (pre ++ x :: s1 :: B ++ s2 :: y :: post) = false)
  /\ (forall line,
        List.length line < 3 \/ 50 < List.length line ->
        isLikelyMerchantName line = false).
Proof.
  split; [|split; [|split]].
  - intros line F E. unfold isLikelyMerchantName.
    rewrite removeAll_class, onlyDigits_digits; [reflexivity | |].
    + apply existsb_exists in E. destruct E as (c & Ic & Dc).
      intros Z. assert (I : In c (filter (fun c => negb (isSpace c)) line)).
      { apply filter_In. split; [exact Ic|]. rewrite (digit_not_space _ Dc). reflexivity. }
      rewrite Z in I. contradiction.
    + apply forallb_forall. intros c Ic. apply filter_In in Ic. destruct Ic as (Ic & Sc).
      rewrite forallb_forall in F. specialize (F c Ic).
      apply negb_true_iff in Sc. rewrite Sc, orb_false_r in F. exact F.
  - intros ds s1 c rest N F S1 C. unfold isLikelyMerchantName.
    rewrite (addressLike_found ds s1 c rest N F S1 C).
    destruct (test onlyDigits _); reflexivity.
  - intros pre x s1 B s2 y post X S1 N F LB S2 Y. unfold isLikelyMerchantName.
    rewrite (dateLike_found pre x s1 B s2 y post X S1 N F LB S2 Y).
    destruct (test onlyDigits _); [reflexivity|].
    destruct (test addressLike _); reflexivity.
  - intros line H. unfold isLikelyMerchantName.
    destruct (test onlyDigits _); [reflexivity|].
    destruct (test addressLike _); [reflexivity|].
    destruct (test dateLike _); [reflexivity|].
    apply andb_false_iff. rewrite Nat.leb_gt, Nat.leb_gt. lia.
Qed.

(** A line of digits, an address and a dated line. *)
Lemma isLikelyMerchantName_refuses_witness :
  isLikelyMerchantName (L "555 0199") = false
  /\ isLikelyMerchantName (L "123 Main Street") = false
  /\ isLikelyMerchantName (L "Visit 01/15/2024") = false
  /\ isLikelyMerchantName (L "AB") = false.
Proof.
  destruct isLikelyMerchantName_refuses as (A & B & C & D).
  split; [apply A; reflexivity|].
  split; [apply (B (L "123") " "%char "M"%char (L "ain Street")); (reflexivity || discriminate)|].
  split; [apply (C (L "Visit 0") "1"%char "/"%char (L "15") "/"%char "2"%char (L "024"));
          first [reflexivity | discriminate | simpl; lia]|].
  apply D. simpl. lia.
Defined.

End MerchantLineTheorems.

Module ItemFacts.
Import Chars RegExp JsString JsNumber Data OCRService RegExpFacts AmountFacts TextFacts DateFacts
  StringFacts MatchFacts.

Lemma dropWhile_length p s : List.length (dropWhile p s) <= List.length s.
Proof.
  induction s as [|c s IH]; simpl; [lia|]. destruct (p c); simpl; lia.
Qed.

Lemma trim_length s : List.length (trim s) <= List.length s.
Proof.
  unfold trim. rewrite length_rev.
  pose proof (dropWhile_length isSpace (rev (dropWhile isSpace s))) as H1.
  pose proof (dropWhile_length isSpace s) as H2.
  rewrite length_rev in H1. lia.
Qed.

Lemma calculateItemConfidence_range name price :
  (0.3 <= calculateItemConfidence name price)%Q
  /\ (calculateItemConfidence name price <= 0.7)%Q.
Proof.
  unfold calculateItemConfidence.
  destruct (_ && _); destruct (_ && _); split; vm_compute; discriminate.
Qed.

(** What holds of an item that [lineItem] lets through. *)
Definition wellFormed (item : Item) : Prop :=
  (0 < price item)%Q /\ (price item < 1000)%Q
  /\ isLikelyTotalLine (name item) = false
  /\ trimmed (name item)
  /\ List.length (name item) < 50
  /\ item_confidence item = calculateItemConfidence (name item) (price item)
  /\ (0.3 <= item_confidence item)%Q /\ (item_confidence item <= 0.7)%Q.

Lemma lineItem_wellFormed line item : In item (lineItem line) -> wellFormed item.
Proof.
  unfold lineItem. cbv zeta.
  destruct (match1 itemPattern (trim line)) as [m|]; [|intros []].
  destruct (group 1 m) as [g1|]; [|intros []].
  destruct (_ && _) eqn:Lg; [|intros []].
  destruct (parseFloat_arg (group 2 m)) as [p|]; [|intros []].
  destruct (negb (isLikelyTotalLine (trim g1)) && Qltb 0 p && Qltb p 1000) eqn:C; [|intros []].
  intros [<-|[]].
  apply andb_prop in C. destruct C as (C & P2). apply andb_prop in C. destruct C as (T & P1).
  apply andb_prop in Lg. destruct Lg as (_ & Lg). apply Nat.ltb_lt in Lg.
  unfold wellFormed. cbn [name price item_confidence].
  split; [apply Qltb_true; exact P1|].
  split; [apply Qltb_true; exact P2|].
  split; [apply negb_true_iff; exact T|].
  split; [apply trim_trimmed|].
  split; [pose proof (trim_length g1); lia|].
  split; [reflexivity|].
  apply calculateItemConfidence_range.
Qed.

End ItemFacts.

Module ItemTheorems.
Import Chars RegExp JsString JsNumber Data OCRService RegExpFacts AmountFacts TextFacts DateFacts
  StringFacts MatchFacts ItemFacts.

(** The characters of a plain item name: letters and spaces. *)
Definition nameChar (c : ascii) : bool := letter c || chr " " c.

Lemma nameChar_isDot c : nameChar c = true -> isDot c = true.
Proof. destruct c as [[] [] [] [] [] [] [] []]; intros H; try discriminate H; reflexivity. Qed.

Lemma nameChar_not_digit c : nameChar c = true -> isDigit c = false.
Proof. destruct c as [[] [] [] [] [] [] [] []]; intros H; try discriminate H; reflexivity. Qed.

Lemma nameChar_letter c : nameChar c = true -> isSpace c = false -> letter c = true.
Proof. destruct c as [[] [] [] [] [] [] [] []]; intros H1 H2; try discriminate; reflexivity. Qed.

(** What follows the name in [itemPattern]. *)
Definition priceTail : pattern :=
  [Close 1; plus isSpace; opt (chr "$");
   Open 2; plus isDigit; opt (chr "."); rep isDigit 0 2; Close 2; Eol false].

(** After a proper prefix of the name the price does not follow. *)
Lemma priceTail_inside N' l r0 sp d D at0 n st :
  forallb nameChar N' = true ->
  rev N' = l :: r0 -> isSpace l = false ->
  isSpace sp = true -> isDigit d = true ->
  exec priceTail at0 (N' ++ sp :: d :: D) n st = None.
Proof.
  intros FN EL Ll Ssp Dd.
  destruct (exec _ _ _ _ _) as [r|] eqn:E; [exfalso | reflexivity].
  unfold priceTail in E.
  change (exec (Close 1 :: ?rest) at0 ?s ?m ?t) with (exec rest at0 s m (close_group 1 m t)) in E.
  apply exec_cls_split in E. destruct E as (a & s1 & Es & Fa & La & _ & E).
  apply exec_cls_split in E. destruct E as (b & s2 & -> & Fb & _ & _ & E).
  change (exec (Open 2 :: ?rest) at0 ?s ?m ?t) with (exec rest at0 s m (open_group 2 m t)) in E.
  apply exec_cls_split in E. destruct E as (ds & s3 & -> & Fd & Ld & _ & _).
  destruct ds as [|d' ds]; [simpl in Ld; lia|].
  simpl in Fd. apply andb_prop in Fd. destruct Fd as (Dd' & _).
  assert (EA : N' ++ [sp] = a ++ b).
  { eapply (first_digit_unique _ _ d d' D (ds ++ s3)); auto.
    - rewrite noDigits_app. rewrite (noDigits_of nameChar N' nameChar_not_digit FN).
      simpl. rewrite (space_not_digit _ Ssp). reflexivity.
    - rewrite noDigits_app. rewrite (noDigits_of isSpace a space_not_digit Fa).
      rewrite (noDigits_of (chr "$") b); [reflexivity | | exact Fb].
      intros c Hc. destruct c as [[] [] [] [] [] [] [] []]; try discriminate Hc; reflexivity.
    - rewrite <- !app_assoc. simpl. simpl in Es. exact Es. }
  assert (Il : In l (a ++ b)).
  { rewrite <- EA. apply in_or_app. left. apply in_rev. rewrite EL. left. reflexivity. }
  assert (Nl : nameChar l = true).
  { rewrite forallb_forall in FN. apply FN. apply in_rev. rewrite EL. left. reflexivity. }
  apply in_app_or in Il. destruct Il as [Il|Il].
  - rewrite forallb_forall in Fa. rewrite (Fa _ Il) in Ll. discriminate.
  - rewrite forallb_forall in Fb. specialize (Fb _ Il).
    rewrite (letter_not_dollar _ (nameChar_letter _ Nl Ll)) in Fb. discriminate.
Qed.

(** After the whole name the price follows. *)
Lemma priceTail_after sp d ip fp at0 n :
  isSpace sp = true -> forallb isDigit (d :: ip) = true ->
  forallb isDigit fp = true -> List.length fp <= 2 ->
  exec priceTail at0 (sp :: (d :: ip) ++ "."%char :: fp) n {| opened := [(1, 0)]; closed := [] |}
  = Some (n + 1 + 0 + List.length (d :: ip) + 1 + List.length fp,
          {| opened := [(2, n + 1 + 0); (1, 0)];
             closed := [(2, (n + 1 + 0, n + 1 + 0 + List.length (d :: ip) + 1 + List.length fp));
                        (1, (0, n))] |}).
Proof.
  intros Ssp Fip Ffp Lfp. unfold priceTail.
  change (exec (Close 1 :: ?rest) at0 ?s ?m ?t) with (exec rest at0 s m (close_group 1 m t)).
  cbn [close_group lookup opened closed Nat.eqb].
  pose proof Fip as Fip'. simpl in Fip'. apply andb_prop in Fip'. destruct Fip' as (Dd & _).
  unfold plus at 1. apply (exec_cls_greedy_at _ _ _ _ _ _ _ _ _ 1).
  { cbn [run]. apply (runAll_stop isSpace [sp]); [simpl; rewrite Ssp; reflexivity|].
    apply digit_not_space. exact Dd. }
  { lia. }
  cbn [skipn]. unfold opt at 1. apply (exec_cls_greedy_at _ _ _ _ _ _ _ _ _ 0).
  { cbn [run app]. cbn [runUpTo]. rewrite (digit_not_dollar _ Dd). reflexivity. }
  { lia. }
  cbn [skipn].
  change (exec (Open 2 :: ?rest) at0 ?s ?m ?t) with (exec rest at0 s m (open_group 2 m t)).
  cbn [open_group opened closed].
  unfold plus at 1. apply (exec_cls_greedy_at _ _ _ _ _ _ _ _ _ (List.length (d :: ip))).
  { cbn [run]. apply runAll_stop; [exact Fip | reflexivity]. }
  { simpl. lia. }
  rewrite skipn_app_length.
  unfold opt at 1. apply (exec_cls_greedy_at _ _ _ _ _ _ _ _ _ 1).
  { reflexivity. }
  { lia. }
  cbn [skipn]. unfold rep at 1. apply (exec_cls_greedy_at _ _ _ _ _ _ _ _ _ (List.length fp)).
  { cbn [run]. apply runUpTo_all; assumption. }
  { lia. }
  rewrite skipn_length_all.
  change (exec (Close 2 :: ?rest) at0 ?s ?m ?t) with (exec rest at0 s m (close_group 2 m t)).
  cbn [close_group lookup opened closed Nat.eqb exec]. reflexivity.
Qed.

Lemma skipn_last {A} (N : list A) j l r :
  j < List.length N -> rev N = l :: r -> exists r', rev (skipn j N) = l :: r'.
Proof.
  intros Hj E.
  assert (S : rev N = rev (skipn j N) ++ rev (firstn j N)).
  { rewrite <- rev_app_distr, firstn_skipn. reflexivity. }
  destruct (rev (skipn j N)) as [|l' r'] eqn:Er.
  - apply (f_equal (@List.length _)) in Er. rewrite length_rev, length_skipn in Er.
    simpl in Er. lia.
  - rewrite E in S. simpl in S. inversion S; subst. exists r'. reflexivity.
Qed.

Lemma forallb_skipn {A} (p : A -> bool) j : forall l,
  forallb p l = true -> forallb p (skipn j l) = true.
Proof.
  induction j as [|j IH]; intros [|c l] H; simpl; auto.
  simpl in H. apply andb_prop in H. apply IH. tauto.
Qed.

(** The match of [itemPattern] on a name, a space and a price. *)
Lemma itemPattern_name_price N sp d ip fp :
  N <> [] -> forallb nameChar N = true -> trimmed N ->
  isSpace sp = true -> forallb isDigit (d :: ip) = true ->
  forallb isDigit fp = true -> List.length fp <= 2 ->
  exec itemPattern true (N ++ sp :: (d :: ip) ++ "."%char :: fp) 0 no_caps
  = Some (0 + List.length N + 1 + 0 + List.length (d :: ip) + 1 + List.length fp,
          {| opened := [(2, 0 + List.length N + 1 + 0); (1, 0)];
             closed := [(2, (0 + List.length N + 1 + 0,
                             0 + List.length N + 1 + 0 + List.length (d :: ip) + 1
                             + List.length fp));
                        (1, (0, 0 + List.length N))] |}).
Proof.
  intros NN FN (_ & TN) Ssp Fip Ffp Lfp.
  destruct (rev N) as [|l r] eqn:Er.
  { apply (f_equal (@List.length _)) in Er. rewrite length_rev in Er.
    destruct N; [contradiction | discriminate]. }
  set (line := N ++ sp :: (d :: ip) ++ "."%char :: fp).
  change (exec itemPattern true line 0 no_caps)
    with (if run isDot None line <? 1 then None
          else try_up (fun j => exec priceTail true (skipn j line) (0 + j)
                                  {| opened := [(1, 0)]; closed := [] |})
                 1 (run isDot None line - 1)).
  assert (M : List.length N <= run isDot None line).
  { cbn [run]. apply runAll_app_ge. eapply forallb_weaken; [|exact FN]. apply nameChar_isDot. }
  assert (L1 : 1 <= List.length N) by (destruct N; [contradiction | simpl; lia]).
  destruct (Nat.ltb_spec (run isDot None line) 1) as [H|_]; [lia|].
  rewrite (try_up_skip _ (List.length N - 1)); [| |lia].
  - replace (1 + (List.length N - 1)) with (List.length N) by lia.
    apply try_up_first. unfold line. rewrite skipn_app_length.
    apply priceTail_after; assumption.
  - intros j Hj. unfold line.
    assert (Sk : skipn j (N ++ sp :: (d :: ip) ++ "."%char :: fp)
                 = skipn j N ++ sp :: d :: ip ++ "."%char :: fp).
    { rewrite skipn_app. replace (j - List.length N) with 0 by lia. reflexivity. }
    rewrite Sk.
    destruct (skipn_last N j l r ltac:(lia) Er) as (r' & Er').
    simpl in Fip. apply andb_prop in Fip. destruct Fip as (Dd & _).
    eapply priceTail_inside; eauto using forallb_skipn.
Qed.

(** The number a string of digits writes. *)
Definition number (ds : text) : Z := fold_left (fun acc c => (10 * acc + digitVal c)%Z) ds 0%Z.

(** The value of [ip.fp]. *)
Definition decimal (ip fp : text) : Q :=
  match fp with
  | [] => inject_Z (number ip)
  | _ => Qmake (number ip * Zpos (pow10 (List.length fp)) + number fp) (pow10 (List.length fp))
  end.

Lemma digits_run ds : forall rest acc n,
  forallb isDigit ds = true ->
  match rest with [] => True | c :: _ => isDigit c = false end ->
  digits (ds ++ rest) acc n
  = (fold_left (fun acc c => (10 * acc + digitVal c)%Z) ds acc, n + List.length ds, rest).
Proof.
  induction ds as [|c ds IH]; intros rest acc n F R.
  - simpl. rewrite Nat.add_0_r. destruct rest as [|c rest]; [reflexivity|].
    simpl. rewrite R. reflexivity.
  - simpl in F. apply andb_prop in F. destruct F as (Dc & F).
    cbn [app digits]. rewrite Dc. rewrite IH by assumption.
    cbn [fold_left List.length]. f_equal. f_equal. lia.
Qed.

Lemma parseFloat_decimal d ip fp :
  forallb isDigit (d :: ip) = true -> forallb isDigit fp = true ->
  parseFloat ((d :: ip) ++ "."%char :: fp) = Some (decimal (d :: ip) fp).
Proof.
  intros Fip Ffp. pose proof Fip as Fip'. simpl in Fip'. apply andb_prop in Fip'.
  destruct Fip' as (Dd & _).
  unfold parseFloat. cbn [app dropWhile]. rewrite (digit_not_space _ Dd).
  assert (N1 : Ascii.eqb d "-"%char = false)
    by (destruct d as [[] [] [] [] [] [] [] []]; try discriminate Dd; reflexivity).
  assert (N2 : Ascii.eqb d "+"%char = false)
    by (destruct d as [[] [] [] [] [] [] [] []]; try discriminate Dd; reflexivity).
  rewrite N1, N2. unfold unsignedDecimal.
  change (d :: ip ++ "."%char :: fp) with ((d :: ip) ++ "."%char :: fp).
  rewrite (digits_run (d :: ip) ("."%char :: fp) 0%Z 0 Fip eq_refl).
  change (Ascii.eqb "." ".") with true. cbv iota.
  rewrite <- (app_nil_r fp) at 1.
  rewrite (digits_run fp [] 0%Z 0 Ffp I). fold (number (d :: ip)). fold (number fp).
  cbn [Nat.add List.length Nat.eqb exponent scale10].
  unfold decimal. destruct fp as [|f fp']; reflexivity.
Qed.

Lemma trimmed_line N sp d ip fp :
  N <> [] -> trimmed N -> forallb isDigit (d :: ip) = true -> forallb isDigit fp = true ->
  trimmed (N ++ sp :: (d :: ip) ++ "."%char :: fp).
Proof.
  intros NN (T1 & _) Fip Ffp. split.
  - destruct N as [|c N]; [contradiction | exact T1].
  - rewrite rev_app_distr. cbn [rev]. rewrite rev_app_distr. cbn [rev].
    destruct (rev fp) as [|f r] eqn:Er; [reflexivity|].
    cbn [app]. apply digit_not_space.
    rewrite forallb_forall in Ffp. apply Ffp. apply in_rev. rewrite Er. left. reflexivity.
Qed.

(** [lineItem] on a line made of a name of letters and spaces, one
    white-space character and a price written with a decimal point and
    at most two decimals, the name is the whole name and the price the
    number written: the line yields that one item when the name has 3 to
    49 characters and no total word and the price lies strictly between
    0 and 1000, and nothing otherwise. *)
Theorem lineItem_name_and_price (N : text) (sp d : ascii) (ip fp : text) :
  N <> [] -> forallb nameChar N = true -> trimmed N ->
  isSpace sp = true -> forallb isDigit (d :: ip) = true ->
  forallb isDigit fp = true -> List.length fp <= 2 ->
  lineItem (N ++ sp :: (d :: ip) ++ "."%char :: fp)
  = if (2 <? List.length N) && (List.length N <? 50)
       && negb (isLikelyTotalLine N)
       && Qltb 0 (decimal (d :: ip) fp) && Qltb (decimal (d :: ip) fp) 1000
    then [{| name := N; price := decimal (d :: ip) fp;
             item_confidence := calculateItemConfidence N (decimal (d :: ip) fp) |}]
    else [].
Proof.
  intros NN FN TN Ssp Fip Ffp Lfp.
  unfold lineItem. cbv zeta.
  rewrite (trim_of_trimmed _ (trimmed_line N sp d ip fp NN TN Fip Ffp)).
  unfold match1, matchAll.
  destruct N as [|c N'] eqn:EN; [contradiction|]. rewrite <- EN in *.
  assert (H := itemPattern_name_price N sp d ip fp NN FN TN Ssp Fip Ffp Lfp).
  rewrite EN at 1. cbn [app]. rewrite EN in H at 1. cbn [app] in H.
  rewrite (scan_hit itemPattern c _ 0 _ _ H). cbn [hd_error].
  unfold group, mk_match. cbn [m_groups closed map lookup Nat.eqb].
  unfold substring.
  change (c :: N' ++ sp :: d :: ip ++ "."%char :: fp)
    with ((c :: N') ++ sp :: (d :: ip) ++ "."%char :: fp).
  rewrite <- EN.
  replace (0 + List.length N - 0) with (List.length N) by lia.
  cbn [skipn]. rewrite firstn_app_length.
  rewrite (trim_of_trimmed _ TN).
  replace (0 + List.length N + 1 + 0) with (List.length (N ++ [sp]))
    by (rewrite length_app; simpl; lia).
  replace (N ++ sp :: (d :: ip) ++ "."%char :: fp)
    with ((N ++ [sp]) ++ (d :: ip) ++ "."%char :: fp)
    by (rewrite <- app_assoc; reflexivity).
  rewrite skipn_app_length.
  replace (List.length (N ++ [sp]) + List.length (d :: ip) + 1 + List.length fp
           - List.length (N ++ [sp]))
    with (List.length ((d :: ip) ++ "."%char :: fp))
    by (rewrite (length_app (d :: ip)); simpl; lia).
  rewrite firstn_all.
  unfold parseFloat_arg. rewrite (parseFloat_decimal d ip fp Fip Ffp).
  destruct ((2 <? List.length N) && (List.length N <? 50)); [|reflexivity].
  cbn [andb]. destruct (negb (isLikelyTotalLine N)); [|reflexivity].
  cbn [andb]. reflexivity.
Qed.

(** The line [Coffee 3.50]. *)
Lemma lineItem_name_and_price_witness :
  lineItem (L "Coffee 3.50")
  = [{| name := L "Coffee"; price := decimal (L "3") (L "50");
        item_confidence := calculateItemConfidence (L "Coffee") (decimal (L "3") (L "50")) |}].
Proof.
  exact (lineItem_name_and_price (L "Coffee") " "%char "3"%char [] (L "50")
           ltac:(discriminate) eq_refl (conj eq_refl eq_refl) eq_refl eq_refl eq_refl
           (le_n 2)).
Defined.

(** [extractLineItems] returns at most 20 items, and each of them has a
    price strictly between 0 and 1000, a name without a total word and
    without white space at its ends, shorter than 50 characters, and the
    confidence [calculateItemConfidence] gives, from 0.3 to 0.7. *)
Theorem extractLineItems_bounds (t : text) :
  List.length (extractLineItems t) <= 20
  /\ Forall wellFormed (extractLineItems t).
Proof.
  unfold extractLineItems. split.
  - apply firstn_le_length.
  - apply Forall_forall. intros item H.
    assert (I : In item (flat_map lineItem (splitLines t))).
    { rewrite <- (firstn_skipn 20). apply in_or_app. left. exact H. }
    apply in_flat_map in I. destruct I as (line & _ & I).
    eapply lineItem_wellFormed; eauto.
Qed.

End ItemTheorems.

Module KeywordTheorems.
Import Chars RegExp JsString JsNumber Data OCRService StringFacts.

(** The text mentions one of the keywords, in any letter case. *)
Definition mentions (t : text) (keywords : list text) : bool :=
  existsb (fun keyword => includes (toLowerCase t) keyword) keywords.

(** The entry of a table that decides: the first one with a keyword in
    the text. *)
Definition decides (table : list (text * list text)) (t : text) (label : text) : Prop :=
  exists before keywords after,
    table = before ++ (label, keywords) :: after
    /\ mentions t keywords = true
    /\ Forall (fun entry => mentions t (snd entry) = false) before.

Definition undecided (table : list (text * list text)) (t : text) : Prop :=
  Forall (fun entry => mentions t (snd entry) = false) table.

Lemma firstKeyword_spec table t :
  match firstKeyword table (toLowerCase t) with
  | Some label => decides table t label
  | None => undecided table t
  end.
Proof.
  induction table as [|[label keywords] table IH]; cbn [firstKeyword].
  - constructor.
  - fold (mentions t keywords). destruct (mentions t keywords) eqn:E.
    + exists [], keywords, table. repeat split; auto.
    + destruct (firstKeyword table (toLowerCase t)) as [l|].
      * destruct IH as (before & kws & after & -> & M & F).
        exists ((label, keywords) :: before), kws, after. repeat split; auto.
      * constructor; [exact E | exact IH].
Qed.

Lemma decides_first label keywords table t :
  mentions t keywords = true -> firstKeyword ((label, keywords) :: table) (toLowerCase t) = Some label.
Proof. intros H. cbn [firstKeyword]. fold (mentions t keywords). rewrite H. reflexivity. Qed.

(** The category is that of the first entry of [categoryMappings], in the
    order of the table, one of whose keywords occurs in the lower-cased
    text, with confidence 0.7; without any keyword it is [other] with
    confidence 0.3.  So a text that mentions a keyword of [groceries],
    the first entry, is [groceries] whatever else it mentions. *)
Theorem suggestCategory_first_entry (t : text) :
  ((exists label,
      decides categoryMappings t label
      /\ suggestCategory t = {| suggested := label; category_confidence := 0.7 |})
   \/ (undecided categoryMappings t
       /\ suggestCategory t = {| suggested := L "other"; category_confidence := 0.3 |}))
  /\ (forall keyword,
        In keyword (map L ["walmart"; "target"; "kroger"; "safeway"; "whole foods"; "costco";
                            "grocery"]%string) ->
        includes (toLowerCase t) keyword = true ->
        suggested (suggestCategory t) = L "groceries").
Proof.
  split.
  - pose proof (firstKeyword_spec categoryMappings t) as H. unfold suggestCategory.
    destruct (firstKeyword categoryMappings (toLowerCase t)) as [label|];
      [left; exists label | right]; split; auto.
  - intros keyword I M. unfold suggestCategory, categoryMappings.
    rewrite decides_first; [reflexivity|].
    unfold mentions. apply existsb_exists. exists keyword. split; assumption.
Qed.

(** The payment method is that of the first entry of [paymentMethods]
    one of whose keywords occurs in the lower-cased text, with confidence
    0.6; without any keyword it is [other] with confidence 0.1.  A text
    that mentions both a credit and a debit keyword is a credit card. *)
Theorem extractPaymentMethod_first_entry (t : text) :
  ((exists label,
      decides paymentMethods t label
      /\ extractPaymentMethod t = {| value := label; confidence := 0.6 |})
   \/ (undecided paymentMethods t
       /\ extractPaymentMethod t = {| value := L "other"; confidence := 0.1 |}))
  /\ (forall keyword,
        In keyword (map L ["credit"; "visa"; "mastercard"; "amex"]%string) ->
        includes (toLowerCase t) keyword = true ->
        value (extractPaymentMethod t) = L "credit_card").
Proof.
  split.
  - pose proof (firstKeyword_spec paymentMethods t) as H. unfold extractPaymentMethod.
    destruct (firstKeyword paymentMethods (toLowerCase t)) as [label|];
      [left; exists label | right]; split; auto.
  - intros keyword I M. unfold extractPaymentMethod, paymentMethods.
    rewrite decides_first; [reflexivity|].
    unfold mentions. apply existsb_exists. exists keyword. split; assumption.
Qed.

End KeywordTheorems.

Module ParserTheorems.
Import Chars RegExp JsString JsNumber Data OCRService RegExpFacts AmountFacts StringFacts
  MerchantTheorems ItemFacts.

Definition inUnit (q : Q) : Prop := (0 <= q)%Q /\ (q <= 1)%Q.

(** Every confidence of a parse lies between 0 and 1. *)
Definition confidencesInUnit (d : ParsedData) : Prop :=
  inUnit (confidence (merchantName d))
  /\ inUnit (confidence (totalAmount d))
  /\ inUnit (confidence (date d))
  /\ Forall (fun item => inUnit (item_confidence item)) (items d)
  /\ inUnit (confidence (taxAmount d))
  /\ inUnit (category_confidence (category d))
  /\ inUnit (confidence (paymentMethod d)).

Lemma inUnit_0 : inUnit 0.
Proof. split; vm_compute; discriminate. Qed.

Lemma calculateAmountConfidence_unit context index amount :
  inUnit (calculateAmountConfidence context index amount).
Proof.
  unfold calculateAmountConfidence.
  destruct (index =? 0); destruct (includes _ _); destruct (_ && _);
    split; vm_compute; discriminate.
Qed.

Lemma calculateDateConfidence_unit s index : inUnit (calculateDateConfidence s index).
Proof.
  unfold calculateDateConfidence. destruct (index =? 0); split; vm_compute; discriminate.
Qed.

Lemma amountCandidates_unit t x : In x (amountCandidates t) -> inUnit (c_confidence x).
Proof.
  unfold amountCandidates. intros H. apply in_flat_map in H.
  destruct H as ((index & pattern) & _ & H). apply in_flat_map in H.
  destruct H as (m & _ & H). unfold amountCandidate in H.
  destruct (parseFloat_arg (group 1 m)) as [a|]; [|contradiction].
  destruct (_ && _); [|contradiction]. destruct H as [<-|[]].
  apply calculateAmountConfidence_unit.
Qed.

Lemma dateCandidates_unit {platform : Platform} now t x :
  In x (dateCandidates now t) -> inUnit (c_confidence x).
Proof.
  unfold dateCandidates. intros H. apply in_flat_map in H.
  destruct H as ((index & pattern) & _ & H). apply in_flat_map in H.
  destruct H as (m & _ & H). unfold dateCandidate in H.
  destruct (parseDate (m_text m)) as [d|]; [|contradiction].
  destruct (isReasonableDate now d); [|contradiction]. destruct H as [<-|[]].
  apply calculateDateConfidence_unit.
Qed.

Lemma extractTotalAmount_unit t : inUnit (confidence (extractTotalAmount t)).
Proof.
  unfold extractTotalAmount.
  destruct (sortByConfidence (amountCandidates t)) as [|best rest] eqn:E; [apply inUnit_0|].
  apply sort_head in E. destruct E as (I & _). apply (amountCandidates_unit t). exact I.
Qed.

Lemma extractDate_unit {platform : Platform} now t : inUnit (confidence (extractDate now t)).
Proof.
  unfold extractDate.
  destruct (sortByConfidence (dateCandidates now t)) as [|best rest] eqn:E; [apply inUnit_0|].
  apply sort_head in E. destruct E as (I & _). apply (dateCandidates_unit now t). exact I.
Qed.

Lemma extractMerchantName_unit t : inUnit (confidence (extractMerchantName t)).
Proof.
  unfold extractMerchantName. cbv zeta.
  match goal with |- context [firstMerchant ?ls 0] =>
    destruct (firstMerchant_spec ls 0) as [(k & line & _ & _ & _ & _ & ->)|(_ & ->)] end;
    [|apply inUnit_0].
  cbn [confidence].
  destruct (calculateMerchantConfidence_range line (0 + k)) as (H1 & H2).
  split; [|exact H2]. eapply Qle_trans; [|exact H1]. vm_compute. discriminate.
Qed.

Lemma extractLineItems_unit t :
  Forall (fun item => inUnit (item_confidence item)) (extractLineItems t).
Proof.
  unfold extractLineItems. apply Forall_forall. intros item H.
  assert (I : In item (flat_map lineItem (splitLines t))).
  { rewrite <- (firstn_skipn 20). apply in_or_app. left. exact H. }
  apply in_flat_map in I. destruct I as (line & _ & I).
  destruct (lineItem_wellFormed line item I) as (_ & _ & _ & _ & _ & _ & H1 & H2). split.
  - eapply Qle_trans; [|exact H1]. vm_compute. discriminate.
  - eapply Qle_trans; [exact H2|]. vm_compute. discriminate.
Qed.

Lemma firstTax_unit patterns t : inUnit (confidence (firstTax patterns t)).
Proof.
  induction patterns as [|pattern patterns IH]; cbn [firstTax]; [apply inUnit_0|].
  destruct (match_g pattern t); [|exact IH].
  destruct (parseFloat_arg _); [|exact IH].
  destruct (_ && _); [|exact IH].
  split; vm_compute; discriminate.
Qed.

(** Every confidence [parseReceiptData] returns (merchant, total, date,
    each item, tax, category, payment method) lies between 0 and 1, the
    bounds the schema of the receipt sets on them. *)
Theorem parseReceiptData_confidences {platform : Platform} (now : Z) (t : text) :
  confidencesInUnit (parseReceiptData now t).
Proof.
  unfold parseReceiptData, confidencesInUnit.
  destruct (List.length (trim t) =? 0).
  - cbn. repeat split; try (vm_compute; discriminate). constructor.
  - cbn [merchantName totalAmount date items taxAmount category paymentMethod].
    split; [apply extractMerchantName_unit|].
    split; [apply extractTotalAmount_unit|].
    split; [apply extractDate_unit|].
    split; [apply extractLineItems_unit|].
    split.
    { apply firstTax_unit. }
    split.
    { unfold suggestCategory. destruct (firstKeyword _ _); split; vm_compute; discriminate. }
    unfold extractPaymentMethod. destruct (firstKeyword _ _); split; vm_compute; discriminate.
Qed.

(** On a text that is empty or made of white space only,
    [parseReceiptData] returns the empty parse: no merchant, amounts 0,
    the time of the call as date, no items, category and payment method
    [other], every confidence 0.  On any other text the category and the
    payment method come from the keyword tables, with a confidence of at
    least 0.3 and 0.1. *)
Theorem parseReceiptData_blank {platform : Platform} (now : Z) (t : text) :
  (forallb isSpace t = true -> parseReceiptData now t = getEmptyParsedData now)
  /\ (forallb isSpace t = false ->
        category (parseReceiptData now t) = suggestCategory t
        /\ paymentMethod (parseReceiptData now t) = extractPaymentMethod t
        /\ (0.3 <= category_confidence (category (parseReceiptData now t)))%Q
        /\ (0.1 <= confidence (paymentMethod (parseReceiptData now t)))%Q).
Proof.
  unfold parseReceiptData. split; intros H.
  - rewrite (trim_spaces _ H). reflexivity.
  - destruct (trim t) as [|c s] eqn:E.
    + apply trim_nil_spaces in E. congruence.
    + cbn [List.length Nat.eqb category paymentMethod]. repeat split.
      * unfold suggestCategory. destruct (firstKeyword _ _); vm_compute; discriminate.
      * unfold extractPaymentMethod. destruct (firstKeyword _ _); vm_compute; discriminate.
Qed.

End ParserTheorems.

Module PathFacts.
Import Chars JsString StoreFacts StringFacts TraceFacts.

Lemma takeWhile_split p s : exists b, s = takeWhile p s ++ b.
Proof.
  induction s as [|c s IH]; [exists []; reflexivity|].
  cbn [takeWhile]. destruct (p c); [|exists (c :: s); reflexivity].
  destruct IH as (b & E). exists b. cbn [app]. rewrite <- E. reflexivity.
Qed.

(** The last component is a piece of the path. *)
Lemma lastComponent_infix p : exists a b, p = a ++ lastComponent p ++ b.
Proof.
  unfold lastComponent.
  destruct (dropWhile_split isSlash (rev p)) as (sl & E1 & _).
  destruct (takeWhile_split (fun c => negb (isSlash c)) (dropWhile isSlash (rev p))) as (b & E2).
  exists (rev b), (rev sl).
  set (d := dropWhile isSlash (rev p)) in *.
  set (k := takeWhile (fun c => negb (isSlash c)) d) in *.
  rewrite <- (rev_involutive p), E1, E2.
  rewrite !rev_app_distr, <- app_assoc. reflexivity.
Qed.

Lemma fromLastDot_suffix s : forall found e,
  fromLastDot s found = Some e ->
  (found = Some e) \/ (exists a, s = a ++ e).
Proof.
  induction s as [|c s IH]; intros found e H.
  - left. exact H.
  - cbn [fromLastDot] in H. destruct (Ascii.eqb c ".").
    + destruct (IH _ _ H) as [E|(a & E)].
      * inversion E. right. exists []. reflexivity.
      * right. exists (c :: a). rewrite E. reflexivity.
    + destruct (IH _ _ H) as [E|(a & E)]; [left; exact E|].
      right. exists (c :: a). rewrite E. reflexivity.
Qed.

(** The extension is a piece of the path. *)
Lemma extname_infix p : exists a b, p = a ++ extname p ++ b.
Proof.
  unfold extname. destruct (lastComponent_infix p) as (a & b & E).
  destruct (lastComponent p) as [|c rest]; [exists p, []; rewrite app_nil_r; reflexivity|].
  destruct (fromLastDot rest None) as [e|] eqn:F;
    [|exists p, []; rewrite app_nil_r; reflexivity].
  destruct (text_eqb (c :: rest) (L "..")); [exists p, []; rewrite app_nil_r; reflexivity|].
  apply fromLastDot_suffix in F. destruct F as [F|(m & F)]; [discriminate|].
  exists (a ++ c :: m), b. rewrite E, F. cbn [app]. rewrite <- !app_assoc. reflexivity.
Qed.

(** [s.replace(pat, rep)] replaces an occurrence of the pattern. *)
Lemma replaceFirst_found pat rep : forall s,
  includes s pat = true ->
  exists a b, s = a ++ pat ++ b /\ replaceFirst s pat rep = a ++ rep ++ b.
Proof.
  induction s as [|c s IH]; intros H.
  - simpl in H. rewrite orb_false_r in H. pose proof H as H'.
    apply isPrefix_split in H. destruct H as (b & E).
    exists [], b. split; [exact E|]. cbn [replaceFirst]. rewrite H'.
    destruct pat; [|discriminate]. simpl in E. subst b. reflexivity.
  - cbn [replaceFirst]. destruct (isPrefix pat (c :: s)) eqn:P.
    + apply isPrefix_split in P. destruct P as (b & E).
      exists [], b. split; [exact E|]. rewrite E, skipn_app. 
      rewrite skipn_all, Nat.sub_diag. reflexivity.
    + cbn [includes] in H. rewrite P in H. simpl in H.
      destruct (IH H) as (a & b & E & R). exists (c :: a), b.
      rewrite E at 1. rewrite R. auto.
Qed.

(** The path [preprocessImage] writes to, for a path with an extension:
    another path, marked [_processed], so one that [cleanupTempFiles]
    removes. *)
Lemma processed_temporary filePath :
  extname filePath <> [] ->
  temporary filePath
    (replaceFirst filePath (extname filePath) (L "_processed" ++ extname filePath)) = true.
Proof.
  intros N. destruct (extname_infix filePath) as (a0 & b0 & E0).
  assert (I : includes filePath (extname filePath) = true).
  { apply includes_iff. exists a0, b0. exact E0. }
  destruct (replaceFirst_found (extname filePath) (L "_processed" ++ extname filePath) _ I)
    as (a & b & E & R).
  rewrite R. unfold temporary. apply andb_true_intro. split.
  - apply negb_true_iff. apply text_eqb_neq. intros C.
    apply (f_equal (@List.length _)) in C. rewrite E in C at 2.
    rewrite !length_app in C. simpl in C. lia.
  - rewrite <- app_assoc. apply includes_app.
Qed.

End PathFacts.

Module RunFacts2.
Import Eff.

Lemma bind_ok {S A B} (c : M S A) (k : A -> M S B) st a st1 :
  c st = (Ok a, st1) -> bind c k st = k a st1.
Proof. intros E. unfold bind. rewrite E. reflexivity. Qed.

Lemma bind_throw {S A B} (c : M S A) (k : A -> M S B) st e st1 :
  c st = (Throw e, st1) -> bind c k st = (Throw e, st1).
Proof. intros E. unfold bind. rewrite E. reflexivity. Qed.

Lemma tryCatch_ok {S A} (c : M S A) (h : text -> M S A) st a st1 :
  c st = (Ok a, st1) -> tryCatch c h st = (Ok a, st1).
Proof. intros E. unfold tryCatch. rewrite E. reflexivity. Qed.

Lemma tryCatch_throw {S A} (c : M S A) (h : text -> M S A) st e st1 :
  c st = (Throw e, st1) -> tryCatch c h st = h e st1.
Proof. intros E. unfold tryCatch. rewrite E. reflexivity. Qed.

Lemma bind_inv {S A B} (c : M S A) (k : A -> M S B) st r st' :
  bind c k st = (r, st') ->
  (exists e, c st = (Throw e, st') /\ r = Throw e)
  \/ (exists a st1, c st = (Ok a, st1) /\ k a st1 = (r, st')).
Proof.
  unfold bind. destruct (c st) as [[a|e] st1]; intros E.
  - right. exists a, st1. auto.
  - left. inversion E; subst. exists e. auto.
Qed.

End RunFacts2.

Module HeuristicRunTheorems.
Import Chars JsString Json Data Eff EffFacts StoreFacts StringFacts TraceFacts PathFacts RunFacts2.

Section Run.

Context {platform : Platform}.
Variable w : World.

(** The path [prepareImageFiles] hands on for an image: the processed
    copy, or the original when the copy could not be written. *)
Definition processedPath (filePath : text) : text :=
  replaceFirst filePath (extname filePath) (L "_processed" ++ extname filePath).

Definition prepared (filePath : text) : text :=
  match sharp_toFile w filePath (processedPath filePath) with
  | Ok _ => processedPath filePath
  | Throw _ => filePath
  end.

Definition isImage (filePath : text) : bool :=
  existsb (text_eqb (toLowerCase (extname filePath))) OCRService.imageExtensions.

Lemma isImage_not_pdf filePath :
  isImage filePath = true -> text_eqb (toLowerCase (extname filePath)) (L ".pdf") = false.
Proof.
  unfold isImage. intros H. apply existsb_exists in H. destruct H as (e & I & E).
  apply text_eqb_eq in E. rewrite E.
  simpl in I. repeat (destruct I as [<-|I]; [reflexivity|]). contradiction.
Qed.

Lemma isImage_extension filePath : isImage filePath = true -> extname filePath <> [].
Proof.
  unfold isImage. intros H E. rewrite E in H. discriminate.
Qed.

Lemma prepareImageFiles_image filePath st :
  isImage filePath = true ->
  OCRService.prepareImageFiles w filePath st = (Ok [prepared filePath], st).
Proof.
  intros I. unfold OCRService.prepareImageFiles. cbv zeta.
  rewrite (isImage_not_pdf _ I). fold (isImage filePath). rewrite I.
  unfold OCRService.preprocessImage, prepared, processedPath, bind, tryCatch, lift, ret.
  cbv zeta. destruct (sharp_toFile w filePath _); reflexivity.
Qed.

Definition withWorker (st : St) : St :=
  if tesseractInitialized st then st
  else {| clockReads := clockReads st; trace := trace st; tesseractInitialized := true;
          geminiInitialized := geminiInitialized st; geminiModel := geminiModel st |}.

Lemma initializeTesseract_run st :
  tesseractInitialized st = true \/ tesseract_createWorker w = Ok tt ->
  OCRService.initializeTesseract w st = (Ok tt, withWorker st).
Proof.
  intros H. unfold OCRService.initializeTesseract, withWorker, bind, gets.
  destruct (tesseractInitialized st) eqn:E; [reflexivity|].
  destruct H as [H|H]; [discriminate|].
  unfold tryCatch, lift. rewrite H. reflexivity.
Qed.

Lemma recognizeAll_one p txt q st :
  tesseract_recognize w p = Ok (txt, q) ->
  OCRService.recognizeAll w [p] [] [] st = (Ok (trim txt ++ ["010"%char], [q]), st).
Proof.
  intros H. cbn [OCRService.recognizeAll].
  unfold OCRService.extractTextFromImage, bind, tryCatch, lift, ret. rewrite H. reflexivity.
Qed.

Lemma cleanup_prepared filePath :
  isImage filePath = true ->
  filter (temporary filePath) [prepared filePath]
  = match sharp_toFile w filePath (processedPath filePath) with
    | Ok _ => [processedPath filePath]
    | Throw _ => []
    end.
Proof.
  intros I. unfold prepared. cbn [filter].
  destruct (sharp_toFile w filePath (processedPath filePath)).
  - unfold processedPath. rewrite processed_temporary; [reflexivity|].
    apply isImage_extension. exact I.
  - unfold temporary. rewrite text_eqb_refl. reflexivity.
Qed.

Lemma average_one q : (OCRService.average [q] / 100 == q / 100)%Q.
Proof.
  unfold OCRService.average. cbn [fold_left List.length Z.of_nat Pos.of_succ_nat].
  destruct q as [n d]. unfold Qeq, Qdiv, Qmult, Qplus, Qinv. simpl. lia.
Qed.

(** The heuristic tier on an image file (extension jpg, jpeg, png, bmp
    or tiff in any letter case) whose OCR worker starts and reads the
    prepared image: the tier reports success with method [tesseract],
    the trimmed text of the engine as extracted text, the parse of that
    text followed by a line feed, and the confidence of the engine
    divided by 100.  It unlinks the processed copy when one was written,
    and nothing else. *)
Theorem processWithTesseract_image (filePath txt : text) (q : Q) (st : St) :
  isImage filePath = true ->
  tesseractInitialized st = true \/ tesseract_createWorker w = Ok tt ->
  tesseract_recognize w (prepared filePath) = Ok (txt, q) ->
  exists r st',
    OCRService.processWithTesseract w filePath st = (Ok r, st')
    /\ success r = true /\ error r = None /\ method r = L "tesseract"
    /\ extractedText r = JStr (trim txt)
    /\ parsedData r
       = Heuristic (OCRService.parseReceiptData (clock w (S (clockReads st)))
                      (trim txt ++ ["010"%char]))
    /\ (exists c, ocr_confidence r = JNum c /\ (c == q / 100)%Q)
    /\ processingTime r = (clock w (S (S (clockReads st))) - clock w (clockReads st))%Z
    /\ trace st'
       = trace st ++ HeuristicTier filePath
           :: match sharp_toFile w filePath (processedPath filePath) with
              | Ok _ => [Unlinked (processedPath filePath)]
              | Throw _ => []
              end
    /\ tesseractInitialized st' = true.
Proof.
  intros I W R.
  unfold OCRService.processWithTesseract.
  unfold bind at 1. unfold log, modify. unfold bind at 1. unfold readClock at 1.
  cbn [clockReads trace tesseractInitialized geminiInitialized geminiModel].
  set (st1 := {| clockReads := S (clockReads st); trace := trace st ++ [HeuristicTier filePath];
                 tesseractInitialized := tesseractInitialized st;
                 geminiInitialized := geminiInitialized st; geminiModel := geminiModel st |}).
  assert (W1 : tesseractInitialized st1 = true \/ tesseract_createWorker w = Ok tt) by exact W.
  eexists _, _. split.
  { erewrite tryCatch_ok; [reflexivity|].
    erewrite bind_ok by (apply prepareImageFiles_image; exact I).
    erewrite bind_ok by (apply initializeTesseract_run; exact W1).
    erewrite bind_ok by (apply recognizeAll_one; exact R).
    unfold bind at 1. unfold readClock at 1. cbv beta iota zeta.
    erewrite bind_ok by apply cleanupTempFiles_run.
    unfold bind at 1. unfold readClock at 1. cbv beta iota zeta.
    unfold ret. reflexivity. }
  cbn [success error method extractedText parsedData ocr_confidence processingTime fst snd
       clockReads trace tesseractInitialized].
  repeat split.
  - rewrite trim_app_spaces; [reflexivity | apply trim_trimmed | reflexivity].
  - unfold withWorker, st1. destruct (tesseractInitialized st); reflexivity.
  - eexists. split; [reflexivity | apply average_one].
  - unfold withWorker, st1. destruct (tesseractInitialized st); reflexivity.
  - rewrite (cleanup_prepared _ I).
    assert (T : trace (withWorker st1) = trace st ++ [HeuristicTier filePath]).
    { unfold withWorker, st1. destruct (tesseractInitialized st); reflexivity. }
    rewrite T, <- app_assoc. cbn [app].
    destruct (sharp_toFile w filePath (processedPath filePath)); reflexivity.
  - unfold withWorker, st1. cbn [tesseractInitialized].
    destruct (tesseractInitialized st) eqn:E; reflexivity.
Qed.

(** A computation that leaves the trace as it is. *)
Definition silent {A} (c : M St A) : Prop := adds (fun _ => False) c.

Lemma silent_trace {A} (c : M St A) st r st' :
  silent c -> c st = (r, st') -> trace st' = trace st.
Proof.
  intros H E. destruct (H _ _ _ E) as ([|e es] & T & F).
  - rewrite T. apply app_nil_r.
  - inversion F; contradiction.
Qed.

Lemma silent_prepareImageFiles filePath : silent (OCRService.prepareImageFiles w filePath).
Proof.
  unfold silent, OCRService.prepareImageFiles, OCRService.convertPdfToImages,
    OCRService.preprocessImage.
  repeat adds_step.
Qed.

Lemma silent_initializeTesseract : silent (OCRService.initializeTesseract w).
Proof. unfold silent, OCRService.initializeTesseract. repeat adds_step. Qed.

Lemma silent_recognizeAll paths : forall acc scores,
  silent (OCRService.recognizeAll w paths acc scores).
Proof.
  induction paths as [|p paths IH]; intros acc scores; cbn [OCRService.recognizeAll].
  - apply adds_ret.
  - unfold OCRService.extractTextFromImage. apply adds_bind; [repeat adds_step|].
    intros r. apply IH.
Qed.

(** When the heuristic tier reports a failure it has unlinked nothing:
    the failure arose while the images were prepared, the worker started
    or the text recognized, before the clean-up, so a processed copy
    that was already written stays where it is. *)
Theorem processWithTesseract_failure_unlinks_nothing (filePath : text) (st st' : St)
    (r : OcrResult) :
  OCRService.processWithTesseract w filePath st = (Ok r, st') ->
  success r = false ->
  trace st' = trace st ++ [HeuristicTier filePath].
Proof.
  unfold OCRService.processWithTesseract. intros E F.
  unfold bind at 1 in E. unfold log, modify in E. unfold bind at 1 in E.
  unfold readClock at 1 in E.
  cbn [clockReads trace tesseractInitialized geminiInitialized geminiModel] in E.
  set (st1 := {| clockReads := S (clockReads st); trace := trace st ++ [HeuristicTier filePath];
                 tesseractInitialized := tesseractInitialized st;
                 geminiInitialized := geminiInitialized st; geminiModel := geminiModel st |}) in E.
  unfold tryCatch in E.
  match type of E with (match ?body ?s with _ => _ end) = _ =>
    destruct (body s) as [[r0|e] st2] eqn:Eb end.
  - inversion E; subst. exfalso.
    repeat (apply HeuristicFacts.bind_Ok_inv in Eb; destruct Eb as (? & ? & _ & Eb)).
    inversion Eb; subst. discriminate F.
  - assert (T2 : trace st2 = trace st1).
    { apply bind_inv in Eb. destruct Eb as [(e1 & Eb & _)|(ps & s2 & Ep & Eb)].
      { eapply silent_trace; [apply silent_prepareImageFiles | exact Eb]. }
      rewrite <- (silent_trace _ _ _ _ (silent_prepareImageFiles filePath) Ep).
      apply bind_inv in Eb. destruct Eb as [(e1 & Eb & _)|([] & s3 & Ei & Eb)].
      { eapply silent_trace; [apply silent_initializeTesseract | exact Eb]. }
      rewrite <- (silent_trace _ _ _ _ silent_initializeTesseract Ei).
      apply bind_inv in Eb. destruct Eb as [(e1 & Eb & _)|(rr & s4 & Er & Eb)].
      { eapply silent_trace; [apply silent_recognizeAll | exact Eb]. }
      exfalso. unfold bind at 1 in Eb. unfold readClock at 1 in Eb. cbv beta iota zeta in Eb.
      unfold bind at 1 in Eb. rewrite cleanupTempFiles_run in Eb.
      unfold bind, readClock, ret in Eb. discriminate Eb. }
    unfold bind, readClock, ret in E. inversion E; subst. cbn [trace]. exact T2.
Qed.

End Run.

(** An image that the OCR engine cannot read: the processed copy
    [uploads/receipt-1_processed.png] was written and is not unlinked. *)
Lemma processWithTesseract_failure_unlinks_nothing_witness :
  trace (snd (OCRService.processWithTesseract (platform := Samples.samplePlatform)
                (Samples.unreadable Samples.offline) (L "uploads/receipt-1.png") initial))
  = [HeuristicTier (L "uploads/receipt-1.png")]
  /\ sharp_toFile (Samples.unreadable Samples.offline) (L "uploads/receipt-1.png")
       (L "uploads/receipt-1_processed.png") = Ok tt.
Proof.
  split; [|reflexivity].
  exact (processWithTesseract_failure_unlinks_nothing (platform := Samples.samplePlatform)
           (Samples.unreadable Samples.offline) (L "uploads/receipt-1.png") initial _ _
           eq_refl eq_refl).
Defined.

(** The receipt [uploads/receipt-1.png] read at 90 percent. *)
Lemma processWithTesseract_image_witness :
  exists r st',
    OCRService.processWithTesseract (platform := Samples.samplePlatform) Samples.offline
      (L "uploads/receipt-1.png") initial = (Ok r, st')
    /\ success r = true
    /\ extractedText r = JStr (L "Total: $45.67")
    /\ trace st' = [HeuristicTier (L "uploads/receipt-1.png");
                    Unlinked (L "uploads/receipt-1_processed.png")].
Proof.
  destruct (processWithTesseract_image (platform := Samples.samplePlatform) Samples.offline
              (L "uploads/receipt-1.png") (L "Total: $45.67") 90%Q initial
              eq_refl (or_intror eq_refl) eq_refl)
    as (r & st' & E & S & _ & _ & X & _ & _ & _ & T & _).
  exists r, st'. repeat split; assumption.
Defined.

End HeuristicRunTheorems.

Module ScoreFacts.
Import Chars JsString Json Data Eff EffFacts StoreFacts RunFacts2 HeuristicFacts.

(** A confidence of the OCR engine: a percentage. *)
Definition percent (q : Q) : Prop := (0 <= q)%Q /\ (q <= 100)%Q.

Lemma sum_range l : forall a,
  Forall percent l ->
  (a <= fold_left Qplus l a)%Q
  /\ (fold_left Qplus l a <= a + 100 * inject_Z (Z.of_nat (List.length l)))%Q.
Proof.
  induction l as [|q l IH]; intros a F.
  - cbn [fold_left List.length Z.of_nat]. change (inject_Z 0) with 0%Q. split; lra.
  - inversion F as [|? ? (Q0 & Q1) Fl]; subst.
    destruct (IH (a + q)%Q Fl) as (H1 & H2). cbn [fold_left List.length].
    rewrite Nat2Z.inj_succ. unfold Z.succ. rewrite inject_Z_plus.
    change (inject_Z 1) with 1%Q. split; lra.
Qed.

Lemma average_range l : Forall percent l -> percent (OCRService.average l).
Proof.
  intros F. unfold OCRService.average. destruct l as [|q l]; [split; lra|].
  destruct (sum_range (q :: l) 0%Q F) as (H1 & H2).
  set (s := fold_left Qplus (q :: l) 0%Q) in *.
  set (n := inject_Z (Z.of_nat (List.length (q :: l)))) in *.
  assert (N : (0 < n)%Q).
  { unfold n. change 0%Q with (inject_Z 0). rewrite <- Zlt_Qlt. simpl. lia. }
  split.
  - apply Qle_shift_div_l; [exact N | lra].
  - apply Qle_shift_div_r; [exact N | lra].
Qed.

Section Scores.

Variable w : World.

Hypothesis engine_percent :
  forall p txt q, tesseract_recognize w p = Ok (txt, q) -> percent q.

Lemma recognizeAll_scores paths : forall acc scores st r st',
  OCRService.recognizeAll w paths acc scores st = (Ok r, st') ->
  Forall percent scores -> Forall percent (snd r).
Proof.
  induction paths as [|p paths IH]; intros acc scores st r st' E F.
  - inversion E; subst. exact F.
  - cbn [OCRService.recognizeAll] in E. apply bind_Ok_inv in E.
    destruct E as ((txt & q) & st1 & Ex & E).
    apply IH in E; [exact E|]. apply Forall_app. split; [exact F|].
    constructor; [|constructor]. cbn [snd].
    unfold OCRService.extractTextFromImage, tryCatch, bind, lift, ret in Ex.
    destruct (tesseract_recognize w p) as [[t0 q0]|e] eqn:R; [|discriminate].
    inversion Ex; subst. eapply engine_percent; eauto.
Qed.

End Scores.

End ScoreFacts.

Module ConfidenceTheorems.
Import Chars JsString Json Data Eff EffFacts StoreFacts RunFacts2 HeuristicFacts ScoreFacts.

(** When the OCR engine reports its confidences as percentages (0 to
    100), the overall confidence of every result of the heuristic tier,
    for one image or for the pages of a PDF, is a number between 0 and 1,
    which the schema of the receipt accepts. *)
Theorem processWithTesseract_confidence_in_unit {platform : Platform} (w : World)
    (filePath : text) (st st' : St) (r : OcrResult) :
  (forall p txt q, tesseract_recognize w p = Ok (txt, q) -> (0 <= q)%Q /\ (q <= 100)%Q) ->
  OCRService.processWithTesseract w filePath st = (Ok r, st') ->
  exists c, ocr_confidence r = JNum c /\ (0 <= c)%Q /\ (c <= 1)%Q.
Proof.
  intros P E. unfold OCRService.processWithTesseract in E.
  apply bind_Ok_inv in E. destruct E as ([] & st1 & _ & E).
  apply bind_Ok_inv in E. destruct E as (startTime & st2 & _ & E).
  unfold tryCatch in E.
  match type of E with (match ?body ?s with _ => _ end) = _ =>
    destruct (body s) as [[r0|e] st3] eqn:Eb end.
  - inversion E; subst. clear E.
    apply bind_Ok_inv in Eb. destruct Eb as (paths & s1 & _ & Eb).
    apply bind_Ok_inv in Eb. destruct Eb as ([] & s2 & _ & Eb).
    apply bind_Ok_inv in Eb. destruct Eb as (rr & s3 & Er & Eb).
    repeat (apply bind_Ok_inv in Eb; destruct Eb as (? & ? & _ & Eb)).
    inversion Eb; subst. cbn [ocr_confidence].
    eexists. split; [reflexivity|].
    pose proof (recognizeAll_scores w P _ _ _ _ _ _ Er (Forall_nil _)) as F.
    destruct (average_range _ F) as (H1 & H2).
    split.
    + apply Qle_shift_div_l; [reflexivity | lra].
    + apply Qle_shift_div_r; [reflexivity | lra].
  - repeat (apply bind_Ok_inv in E; destruct E as (? & ? & _ & E)).
    inversion E; subst. cbn [ocr_confidence]. exists 0%Q. split; [reflexivity|]. split; lra.
Qed.

(** The engine of the sample world answers 90. *)
Lemma processWithTesseract_confidence_in_unit_witness :
  exists r st',
    OCRService.processWithTesseract (platform := Samples.samplePlatform)
      Samples.offline (L "uploads/receipt-1.png") initial = (Ok r, st')
    /\ exists c, ocr_confidence r = JNum c /\ (0 <= c)%Q /\ (c <= 1)%Q.
Proof.
  eexists _, _. split; [vm_compute; reflexivity|].
  refine (processWithTesseract_confidence_in_unit (platform := Samples.samplePlatform)
            Samples.offline (L "uploads/receipt-1.png") initial _ _ _ eq_refl).
  intros p txt q H. inversion H; subst. split; vm_compute; discriminate.
Defined.

End ConfidenceTheorems.

Module VisionTheorems.
Import Chars JsString Json Data Eff EffFacts TierFacts OrchestratorFacts VisionFacts HeuristicFacts
  StoreFacts RunFacts2.

(** A JSON value that is neither [null] nor an object: a boolean, a
    number, a string or an array. *)
Definition notObject (v : json) : bool :=
  match v with
  | JNull | JObj _ => false
  | _ => true
  end.

Lemma prop_of_notObject v key : notObject v = true -> GeminiOCRService.prop_of v key = None.
Proof. destruct v; try discriminate; reflexivity. Qed.

Lemma notObject_not_null v : notObject v = true -> v <> JNull.
Proof. destruct v; try discriminate; congruence. Qed.

(** The fields of [formatParsedData] when the response gives none. *)
Definition defaults (d : Z) : VisionData :=
  {| v_merchantName := GeminiOCRService.field (JStr []) 0%Q;
     v_totalAmount := GeminiOCRService.field (JNum 0) 0%Q;
     v_date := {| vd_value := d; vd_confidence := JNum 0 |};
     v_items := JArr [];
     v_taxAmount := GeminiOCRService.field (JNum 0) 0%Q;
     v_category := GeminiOCRService.emptyCategory;
     v_paymentMethod := GeminiOCRService.field (JStr (L "other")) 0%Q;
     v_subtotal := GeminiOCRService.field (JNum 0) 0%Q |}.

Section Vision.

Context {platform : Platform}.
Variable w : World.

(** The key of the vision model is read at the first check only: once
    [isAvailable] has answered, every later call gives the same answer
    and changes nothing, whatever the environment holds by then; the
    first answer says whether the key was set and not empty. *)
Theorem isAvailable_reads_key_once (w2 : World) (st : St) :
  GeminiOCRService.isAvailable w2 (snd (GeminiOCRService.isAvailable w st))
  = GeminiOCRService.isAvailable w st
  /\ (geminiInitialized st = false ->
      fst (GeminiOCRService.isAvailable w st)
      = Ok (match env_GEMINI_API_KEY w with Some (_ :: _) => true | _ => false end)).
Proof.
  unfold GeminiOCRService.isAvailable, GeminiOCRService.initialize, bind, gets, ret.
  destruct (geminiInitialized st) eqn:E.
  - cbn [snd]. rewrite E. split; [reflexivity | discriminate].
  - destruct (env_GEMINI_API_KEY w) as [[|c k]|]; split; reflexivity.
Qed.

(** A response whose JSON text parses to a value that is not an object
    (a number, a string, a boolean, an array) is taken as a success: the
    vision tier returns every field at its default with confidence 0,
    the time of the run as date, an empty extracted text and the overall
    confidence 0.8, which passes the acceptance test of the
    orchestrator. *)
Theorem vision_non_object_response (path resp : text) (parsed : json) (st : St) :
  configured w st = true ->
  answers w path resp ->
  JSON_parse (GeminiOCRService.jsonTextOf resp) = Some parsed ->
  notObject parsed = true ->
  exists r st' d,
    GeminiOCRService.processReceipt w path st = (Ok r, st')
    /\ success r = true
    /\ method r = L "gemini"
    /\ extractedText r = JStr []
    /\ ocr_confidence r = JNum 0.8%Q
    /\ parsedData r = Vision (defaults d)
    /\ success r && OCRService.js_gt (ocr_confidence r) 0.5%Q = true.
Proof.
  intros C A P N.
  destruct (vision_runs w path st) as (r & st' & us & E & T & F).
  exists r, st'. pose proof E as E0.
  destruct (@vision_parsed _ w path st resp C A) as (st1 & startTime & T1 & E1).
  rewrite E1 in E. clear E1.
  unfold tryCatch, GeminiOCRService.parseGeminiResponse in E. rewrite P in E.
  unfold bind at 1 in E. cbn [ret] in E.
  unfold bind at 1 in E.
  destruct (total_cleanup w path st1) as ([] & st2 & E2). rewrite E2 in E.
  unfold bind at 1 in E. rewrite readClock_started in E.
  unfold bind at 1 in E.
  rewrite (@prop_not_null St parsed "rawText"%string (notObject_not_null _ N)) in E.
  unfold bind at 1 in E.
  unfold GeminiOCRService.formatParsedData in E.
  rewrite !(prop_of_notObject _ _ N) in E.
  unfold GeminiOCRService.formatDateValue in E.
  unfold bind at 1 in E. unfold bind at 1 in E. rewrite readClock_started in E.
  cbn [ret or_else] in E.
  exists (clock w (clockReads (started w st2))).
  split; [exact E0|].
  inversion E; subst. clear E. cbn. repeat split; reflexivity.
Qed.

(** A response whose JSON text parses to [null] makes the vision tier
    fail: reading a field of [null] raises, the tier catches it and
    reports a failure with method [gemini], confidence 0 and the empty
    parse. *)
Theorem vision_null_response (path resp : text) (st : St) :
  configured w st = true ->
  answers w path resp ->
  JSON_parse (GeminiOCRService.jsonTextOf resp) = Some JNull ->
  exists r st',
    GeminiOCRService.processReceipt w path st = (Ok r, st')
    /\ failureOf (L "gemini") r.
Proof.
  intros C A P.
  destruct (vision_runs w path st) as (r & st' & us & E & T & F).
  exists r, st'. split; [exact E|].
  destruct (@vision_parsed _ w path st resp C A) as (st1 & startTime & T1 & E1).
  rewrite E1 in E. clear E1.
  unfold tryCatch, GeminiOCRService.parseGeminiResponse in E. rewrite P in E.
  unfold bind at 1 in E. cbn [ret] in E.
  unfold bind at 1 in E.
  destruct (total_cleanup w path st1) as ([] & st2 & E2). rewrite E2 in E.
  unfold bind at 1 in E. rewrite readClock_started in E.
  unfold bind at 1 in E. unfold GeminiOCRService.prop, throw in E.
  unfold bind, readClock, ret in E. inversion E; subst. clear E.
  unfold failureOf. cbn. repeat split; eauto.
Qed.

End Vision.

(** A model that answers [[]]. *)
Lemma vision_non_object_response_witness :
  exists r st',
    GeminiOCRService.processReceipt (platform := Samples.samplePlatform)
      (Samples.online (L "[]")) PipelineTheorems.png initial = (Ok r, st')
    /\ success r = true /\ ocr_confidence r = JNum 0.8%Q /\ extractedText r = JStr [].
Proof.
  destruct (vision_non_object_response (platform := Samples.samplePlatform)
              (Samples.online (L "[]")) PipelineTheorems.png (L "[]") (JArr []) initial
              eq_refl (PipelineTheorems.answers_online _ PipelineTheorems.png eq_refl)
              eq_refl eq_refl)
    as (r & st' & d & E & S & _ & X & C & _).
  exists r, st'. auto.
Defined.

(** A model that answers [null]. *)
Lemma vision_null_response_witness :
  exists r st',
    GeminiOCRService.processReceipt (platform := Samples.samplePlatform)
      (Samples.online (L "null")) PipelineTheorems.png initial = (Ok r, st')
    /\ success r = false /\ method r = L "gemini".
Proof.
  destruct (vision_null_response (platform := Samples.samplePlatform)
              (Samples.online (L "null")) PipelineTheorems.png (L "null") initial
              eq_refl (PipelineTheorems.answers_online _ PipelineTheorems.png eq_refl) eq_refl)
    as (r & st' & E & S & M & _).
  exists r, st'. auto.
Defined.

End VisionTheorems.

Module FenceFacts.
Import Chars RegExp JsString RegExpFacts StringFacts MatchFacts.

(** No character of the string is in the class. *)
Definition without (p : ascii -> bool) (s : text) : bool := forallb (fun c => negb (p c)) s.

Lemma without_app p a b : without p (a ++ b) = without p a && without p b.
Proof. apply forallb_app. Qed.

(** A pattern that begins with one character of a class fails where
    that character is not. *)
Lemma exec_one_miss p rest at0 s n st :
  match s with [] => True | c :: _ => p c = false end ->
  exec (one p :: rest) at0 s n st = None.
Proof.
  intros H. destruct (exec _ _ _ _ _) as [r|] eqn:E; [exfalso | reflexivity].
  apply exec_one_split in E. destruct E as (c & s' & -> & Pc & _). congruence.
Qed.

Lemma remove_scan_through p rest a tail : forall i,
  without p a = true ->
  remove_scan (one p :: rest) (a ++ tail) i 0
  = a ++ remove_scan (one p :: rest) tail (i + List.length a) 0.
Proof.
  induction a as [|c a IH]; intros i W.
  - simpl. rewrite Nat.add_0_r. reflexivity.
  - simpl in W. apply andb_prop in W. destruct W as (Pc & W). apply negb_true_iff in Pc.
    cbn [app remove_scan]. rewrite exec_one_miss by exact Pc.
    rewrite IH by exact W. cbn [List.length]. rewrite <- plus_n_Sm. reflexivity.
Qed.

Lemma remove_scan_without p rest a i :
  without p a = true -> remove_scan (one p :: rest) a i 0 = a.
Proof.
  intros W. rewrite <- (app_nil_r a) at 1. rewrite remove_scan_through by exact W.
  cbn [remove_scan]. rewrite exec_one_miss by exact I. apply app_nil_r.
Qed.

Lemma scan_prefix p rest a tail : forall i,
  without p a = true ->
  scan (one p :: rest) (a ++ tail) i 0 = scan (one p :: rest) tail (i + List.length a) 0.
Proof.
  induction a as [|c a IH]; intros i W.
  - simpl. rewrite Nat.add_0_r. reflexivity.
  - simpl in W. apply andb_prop in W. destruct W as (Pc & W). apply negb_true_iff in Pc.
    cbn [app]. rewrite scan_miss by (apply exec_one_miss; exact Pc).
    rewrite IH by exact W. cbn [List.length]. rewrite <- plus_n_Sm. reflexivity.
Qed.

Lemma try_down_last {R} (f : nat -> option R) lo j0 r : forall d,
  lo <= j0 <= lo + d -> f j0 = Some r ->
  (forall j, j0 < j <= lo + d -> f j = None) ->
  try_down f lo d = Some r.
Proof.
  induction d as [|d IH]; intros Hj Fj Hn.
  - simpl. replace (lo + 0) with j0 by lia. rewrite Fj. reflexivity.
  - cbn [try_down]. destruct (Nat.eq_dec j0 (lo + S d)) as [->|N].
    + rewrite Fj. reflexivity.
    + rewrite (Hn (lo + S d)) by lia. apply IH; [lia | exact Fj|].
      intros j H. apply Hn. lia.
Qed.

(** ** The braces *)

Definition brace_open : ascii := "{"%char.
Definition brace_close : ascii := "}"%char.

Lemma braces_at mid post at0 :
  without (chr brace_close) post = true ->
  exec GeminiOCRService.braces at0 (brace_open :: mid ++ brace_close :: post) 0 no_caps
  = Some (0 + 1 + List.length mid + 1, no_caps).
Proof.
  intros W. unfold GeminiOCRService.braces, one, star.
  apply (exec_cls_greedy_at _ _ _ _ _ _ _ _ _ 1); [reflexivity | lia |].
  cbn [skipn]. cbn [exec]. cbv zeta.
  set (s := mid ++ brace_close :: post).
  assert (M : run (fun _ => true) None s = List.length s).
  { cbn [run]. apply runAll_all. apply forallb_forall. reflexivity. }
  rewrite M. cbn [Nat.ltb Nat.leb]. rewrite Nat.sub_0_r.
  apply (try_down_last _ 0 (List.length mid)).
  - unfold s. rewrite length_app. simpl. lia.
  - unfold s. rewrite skipn_app_length. reflexivity.
  - intros j Hj. unfold s. unfold s in Hj. rewrite length_app in Hj. cbn [List.length] in Hj.
    rewrite skipn_app. rewrite skipn_all2 by lia. cbn [app].
    replace (j - List.length mid) with (S (j - List.length mid - 1)) by lia.
    cbn [skipn].
    assert (W' : without (chr brace_close) (skipn (j - List.length mid - 1) post) = true).
    { unfold without in *. rewrite forallb_forall in *. intros c Hc. apply W.
      rewrite <- (firstn_skipn (j - List.length mid - 1) post). apply in_or_app. right. exact Hc. }
    cbv beta.
    destruct (skipn (j - List.length mid - 1) post) as [|c tl] eqn:Es; [reflexivity|].
    simpl in W'. apply andb_prop in W'. destruct W' as (Pc & _). apply negb_true_iff in Pc.
    unfold brace_close in Pc. cbn [run runUpTo]. rewrite Pc. reflexivity.
Qed.

(** The first match of the braces: from the first opening brace to the
    last closing one. *)
Lemma braces_match pre mid post :
  without (chr brace_open) pre = true ->
  without (chr brace_close) post = true ->
  option_map m_text
    (match1 GeminiOCRService.braces (pre ++ brace_open :: mid ++ brace_close :: post))
  = Some (brace_open :: mid ++ [brace_close]).
Proof.
  intros W1 W2. unfold match1, matchAll.
  unfold GeminiOCRService.braces at 1. rewrite scan_prefix by exact W1.
  fold GeminiOCRService.braces.
  rewrite (scan_hit _ _ _ _ _ _ (braces_at mid post _ W2)).
  cbn [hd_error option_map mk_match m_text].
  replace (0 + 1 + List.length mid + 1) with (List.length (brace_open :: mid ++ [brace_close]))
    by (cbn [List.length]; rewrite length_app; simpl; lia).
  replace (brace_open :: mid ++ brace_close :: post)
    with ((brace_open :: mid ++ [brace_close]) ++ post)
    by (cbn [app]; rewrite <- app_assoc; reflexivity).
  rewrite firstn_app_length. reflexivity.
Qed.

End FenceFacts.

Module FenceTheorems.
Import Chars RegExp JsString RegExpFacts StringFacts MatchFacts FenceFacts.

Definition tick : ascii := "`"%char.
Definition lf : ascii := "010"%char.

Lemma jsonFence_shape :
  GeminiOCRService.jsonFence = one (chr tick) :: (lit "``json" ++ [opt (chr lf)]).
Proof. reflexivity. Qed.

Lemma fence_shape :
  GeminiOCRService.fence = one (chr tick) :: (lit "``" ++ [opt (chr lf)]).
Proof. reflexivity. Qed.

Lemma removeAll_without p rest s :
  without p s = true -> removeAll (one p :: rest) s = s.
Proof. intros W. unfold removeAll. apply remove_scan_without. exact W. Qed.

Lemma dropWhile_app_all p a s : forallb p a = true -> dropWhile p (a ++ s) = dropWhile p s.
Proof.
  induction a as [|c a IH]; simpl; [reflexivity|].
  intros H. apply andb_prop in H. destruct H as (-> & H). auto.
Qed.

Lemma trim_around ws1 core ws2 :
  forallb isSpace ws1 = true -> forallb isSpace ws2 = true -> trimmed core ->
  trim (ws1 ++ core ++ ws2) = core.
Proof.
  intros W1 W2 T.
  assert (E : trim (ws1 ++ core ++ ws2) = trim (core ++ ws2)).
  { unfold trim. rewrite dropWhile_app_all by exact W1. reflexivity. }
  rewrite E. apply trim_app_spaces; assumption.
Qed.

Lemma braces_text t pre mid post :
  t = pre ++ brace_open :: mid ++ brace_close :: post ->
  without (chr brace_open) pre = true ->
  without (chr brace_close) post = true ->
  match match1 GeminiOCRService.braces t with
  | Some jsonMatch => m_text jsonMatch
  | None => t
  end = brace_open :: mid ++ [brace_close].
Proof.
  intros -> W1 W2. pose proof (braces_match pre mid post W1 W2) as H.
  destruct (match1 _ _) as [m|]; [|discriminate]. inversion H. reflexivity.
Qed.

(** The JSON text [parseGeminiResponse] hands to the parser.  For a
    response without back-ticks that holds braces, with any white space
    around it: the text from the first opening brace to the last closing
    brace, whatever stands before, between and after them.  For an
    object in a [json] code fence: the object without the fence. *)
Theorem jsonTextOf_object :
  (forall ws1 pre mid post ws2,
     forallb isSpace ws1 = true -> forallb isSpace ws2 = true ->
     trimmed (pre ++ brace_open :: mid ++ brace_close :: post) ->
     without (chr tick) (pre ++ brace_open :: mid ++ brace_close :: post) = true ->
     without (chr brace_open) pre = true ->
     without (chr brace_close) post = true ->
     GeminiOCRService.jsonTextOf
       (ws1 ++ (pre ++ brace_open :: mid ++ brace_close :: post) ++ ws2)
     = brace_open :: mid ++ [brace_close])
  /\ (forall mid,
        without (chr tick) mid = true ->
        GeminiOCRService.jsonTextOf
          ((L "```json" ++ lf :: brace_open :: mid ++ [brace_close]) ++ lf :: L "```")
        = brace_open :: mid ++ [brace_close]).
Proof.
  split.
  - intros ws1 pre mid post ws2 S1 S2 T K W1 W2.
    unfold GeminiOCRService.jsonTextOf. cbv zeta.
    rewrite trim_around by assumption.
    rewrite jsonFence_shape, removeAll_without by exact K.
    rewrite fence_shape, removeAll_without by exact K.
    apply (braces_text _ pre mid post); auto.
  - intros mid K.
    unfold GeminiOCRService.jsonTextOf. cbv zeta.
    set (body := brace_open :: mid ++ [brace_close]).
    assert (Kb : without (chr tick) body = true).
    { unfold body. cbn [without forallb]. fold (without (chr tick) (mid ++ [brace_close])).
      rewrite without_app, K. reflexivity. }
    rewrite trim_of_trimmed.
    2:{ split; [reflexivity|]. rewrite rev_app_distr. reflexivity. }
    assert (R1 : removeAll GeminiOCRService.jsonFence
                   ((L "```json" ++ lf :: body) ++ lf :: L "```")
                 = body ++ lf :: L "```").
    { unfold removeAll.
      change (remove_scan GeminiOCRService.jsonFence
                ((L "```json" ++ lf :: body) ++ lf :: L "```") 0 0)
        with (remove_scan GeminiOCRService.jsonFence (body ++ lf :: L "```") 8 0).
      rewrite jsonFence_shape, remove_scan_through by exact Kb. reflexivity. }
    rewrite R1.
    assert (R2 : removeAll GeminiOCRService.fence (body ++ lf :: L "```") = body ++ [lf]).
    { unfold removeAll. rewrite fence_shape, remove_scan_through by exact Kb. reflexivity. }
    rewrite R2.
    apply (braces_text _ [] mid [lf]); [|reflexivity|reflexivity].
    unfold body. cbn [app]. rewrite <- app_assoc. reflexivity.
Qed.

(** A reply with words around the object, and one in a code fence. *)
Lemma jsonTextOf_object_witness :
  GeminiOCRService.jsonTextOf (L " Here it is: {total: 5} as asked. ") = L "{total: 5}"
  /\ GeminiOCRService.jsonTextOf ((L "```json" ++ lf :: L "{total: 5}") ++ lf :: L "```")
     = L "{total: 5}".
Proof.
  destruct jsonTextOf_object as (A & B). split.
  - exact (A (L " ") (L "Here it is: ") (L "total: 5") (L " as asked.") (L " ")
             eq_refl eq_refl (conj eq_refl eq_refl) eq_refl eq_refl eq_refl).
  - exact (B (L "total: 5") eq_refl).
Defined.

End FenceTheorems.

Module ReceiptMethodTheorems.
Import Eff EffFacts OrchestratorFacts Json Data JsString Receipt ReceiptController ReceiptMethods
  StoreFacts RunFacts RunFacts2 AmountFacts.

Section Methods.

Context {platform : Platform}.
Variable w : World.
Variable db : Db.
Hypothesis no_fault : forall k, fault db k = false.
Hypothesis no_reject : forall d, rejects db d = false.

Lemma markAsFailed_run id this msg sys :
  documents sys id = Some this ->
  validate db this = true ->
  let now := clock w (clockReads (services sys)) in
  let marked :=
    {| userId := userId this; filePath := filePath this; status := failed;
       ocrResults := ocrResults this; parsedData := parsedData this;
       processingAttempts := processingAttempts this + 1;
       lastProcessingError := Some {| message := messageOf msg; timestamp := now |};
       isActive := isActive this |} in
  if (processingAttempts this <? 3)%Z
  then exists sys',
         markAsFailed w db id this msg sys = (Ok marked, sys')
         /\ documents sys' id = Some marked
  else exists sys',
         markAsFailed w db id this msg sys = (Throw (L "Receipt validation failed"), sys')
         /\ documents sys' = documents sys.
Proof.
  intros D V now marked.
  set (sys1 := {| services := started w (services sys); documents := documents sys;
                  dbOps := dbOps sys |}).
  assert (E0 : markAsFailed w db id this msg sys = save w db id marked sys1) by reflexivity.
  rewrite E0.
  assert (D1 : documents sys1 id = Some this) by exact D.
  destruct (Z.ltb_spec (processingAttempts this) 3) as [Lt|Ge].
  - assert (V1 : validate db marked = true).
    { unfold validate in *. cbn [processingAttempts ocrResults marked]. rewrite no_reject in *.
      apply andb_prop in V. destruct V as (V & _). apply andb_prop in V. destruct V as (_ & V).
      rewrite V. replace (processingAttempts this + 1 <=? 3)%Z with true
        by (symmetry; apply Z.leb_le; lia). reflexivity. }
    rewrite (save_plain w db no_fault id marked sys1 this V1 D1 eq_refl).
    eexists. split; [reflexivity|]. cbn. rewrite Nat.eqb_refl. reflexivity.
  - assert (V1 : validate db marked = false).
    { unfold validate. cbn [processingAttempts marked].
      replace (processingAttempts this + 1 <=? 3)%Z with false
        by (symmetry; apply Z.leb_gt; lia). reflexivity. }
    rewrite (save_refused w db no_fault id marked sys1 V1).
    eexists. split; reflexivity.
Qed.

End Methods.

(** [markAsFailed] on a stored receipt, with a store that neither faults
    nor refuses: below 3 attempts it stores the receipt with the status
    [failed], one more attempt and the message of the error ([Unknown
    error] when there is none); at 3 attempts the validator of the
    schema refuses the save, the call raises and no document changes. *)
Theorem markAsFailed_counts_to_three {platform : Platform} (w : World) (db : Db) (id : nat)
    (this : Receipt) (msg : option text) (sys : Sys) :
  (forall k, fault db k = false) ->
  (forall d, rejects db d = false) ->
  documents sys id = Some this ->
  validate db this = true ->
  ((processingAttempts this < 3)%Z ->
     exists r sys',
       markAsFailed w db id this msg sys = (Ok r, sys')
       /\ documents sys' id = Some r
       /\ status r = failed
       /\ processingAttempts r = (processingAttempts this + 1)%Z
       /\ option_map message (lastProcessingError r) = Some (messageOf msg)
       /\ needsProcessing r = false)
  /\ ((3 <= processingAttempts this)%Z ->
        exists sys',
          markAsFailed w db id this msg sys = (Throw (L "Receipt validation failed"), sys')
          /\ documents sys' = documents sys).
Proof.
  intros F R D V.
  pose proof (markAsFailed_run w db F R id this msg sys D V) as H. cbv zeta in H.
  split; intros L.
  - replace (processingAttempts this <? 3)%Z with true in H by (symmetry; apply Z.ltb_lt; lia).
    destruct H as (sys' & E & D'). eexists _, sys'. split; [exact E|].
    split; [exact D'|]. repeat split.
  - replace (processingAttempts this <? 3)%Z with false in H by (symmetry; apply Z.ltb_ge; lia).
    exact H.
Qed.

(** A receipt that failed twice, alone in the store. *)
Definition failedTwice : Receipt :=
  {| userId := 7; filePath := PipelineTheorems.png; status := failed;
     ocrResults := defaultOcrResults; parsedData := NoData; processingAttempts := 2;
     lastProcessingError := None; isActive := true |}.

Definition holding (r : Receipt) : Sys :=
  {| services := initial;
     documents := fun k => if (k =? 1)%nat then Some r else None;
     dbOps := 0 |}.

Lemma markAsFailed_counts_to_three_witness :
  exists r' sys',
    markAsFailed Samples.offline Samples.reliable 1 failedTwice None (holding failedTwice)
    = (Ok r', sys')
    /\ processingAttempts r' = 3%Z.
Proof.
  destruct (markAsFailed_counts_to_three (platform := Samples.samplePlatform)
              Samples.offline Samples.reliable 1 failedTwice None (holding failedTwice)
              (fun _ => eq_refl) (fun _ => eq_refl) eq_refl eq_refl) as (A & _).
  destruct (A ltac:(reflexivity)) as (r' & sys' & E & _ & _ & P & _).
  exists r', sys'. split; [exact E | exact P].
Defined.

(** After a run on a stored receipt, with a store that neither faults
    nor refuses, the receipt matches the filter of
    [getNeedingProcessing] again exactly when the schema refused the
    result of a successful extraction: the result reports success with a
    confidence outside 0 to 1, fewer than 3 attempts are recorded and
    the receipt is active.  The receipt then has the status [processing]
    and nothing of the result is stored.  A result with a confidence the
    schema accepts, and every failure, leaves no work. *)
Theorem run_leaves_work_when_refused {platform : Platform} (w : World) (db : Db) (id : nat)
    (sys : Sys) (receipt : Receipt) :
  (forall k, fault db k = false) ->
  (forall d, rejects db d = false) ->
  documents sys id = Some receipt ->
  validate db receipt = true ->
  exists o st' sys' final,
    OCRService.processReceipt w (filePath receipt) (services sys) = (Ok o, st')
    /\ processReceiptOCR w db id sys = (Ok tt, sys')
    /\ documents sys' id = Some final
    /\ needsProcessing final
       = success o && negb (storable o) && (processingAttempts receipt <? 3)%Z
         && isActive receipt
    /\ (needsProcessing final = true -> final = withStatus processing receipt).
Proof.
  intros F R D V.
  destruct (PipelineTheorems.orchestrator_result w (filePath receipt) (services sys))
    as (o & st' & Eo & _).
  destruct (run_outcome w db F id sys receipt o st' D R V Eo)
    as (sys' & final & E & Df & S & _ & _ & P).
  exists o, st', sys', final. split; [exact Eo|]. split; [exact E|]. split; [exact Df|].
  assert (N : needsProcessing final
              = success o && negb (storable o) && (processingAttempts receipt <? 3)%Z
                && isActive receipt).
  { destruct (success o); [destruct (storable o)|
                           destruct (processingAttempts receipt <? 3)%Z eqn:Lt].
    - unfold needsProcessing. rewrite S. reflexivity.
    - rewrite (P S). reflexivity.
    - unfold needsProcessing. rewrite S. reflexivity.
    - rewrite (P S). unfold needsProcessing. cbn. rewrite Lt. reflexivity. }
  split; [exact N|].
  intros T. apply P. rewrite S.
  rewrite N in T. destruct (success o); [|discriminate T].
  destruct (storable o); [discriminate T | reflexivity].
Qed.

(** A fresh upload whose image the vision model scores with a confidence
    of 5: the orchestrator accepts the result, the schema does not, and
    the receipt is left for another run. *)
Lemma run_leaves_work_when_refused_witness :
  exists sys' final,
    processReceiptOCR (platform := Samples.samplePlatform) (Samples.online Samples.confidence5)
      Samples.reliable 1 (Samples.oneReceipt PipelineTheorems.png) = (Ok tt, sys')
    /\ documents sys' 1 = Some final
    /\ needsProcessing final = true
    /\ status final = processing.
Proof.
  destruct (run_leaves_work_when_refused (platform := Samples.samplePlatform)
              (Samples.online Samples.confidence5)
              Samples.reliable 1 (Samples.oneReceipt PipelineTheorems.png)
              (Receipt.create 7 PipelineTheorems.png)
              (fun _ => eq_refl) (fun _ => eq_refl) eq_refl eq_refl)
    as (o & st' & sys' & final & Eo & E & D & N & P).
  vm_compute in Eo. inversion Eo; subst o st'. clear Eo.
  exists sys', final. split; [exact E|]. split; [exact D|].
  assert (T : needsProcessing final = true) by (rewrite N; reflexivity).
  split; [exact T|]. rewrite (P T). reflexivity.
Defined.

End ReceiptMethodTheorems.

Module IdentityFacts.
Import Eff EffFacts Json Data JsString Receipt ReceiptController StoreFacts.

(** What a run has no business changing: the owner, the file and the
    active flag. *)
Definition sameIdentity (r d : Receipt) : Prop :=
  userId r = userId d /\ filePath r = filePath d /\ isActive r = isActive d.

(** The store [sys] against the store [sys0] a request on [id] started
    from: the other receipts are the same, and the receipt [id] is still
    there, with its identity. *)
Definition kept (id : nat) (sys0 sys : Sys) : Prop :=
  (forall k, k <> id -> documents sys k = documents sys0 k)
  /\ (forall d0, documents sys0 id = Some d0 ->
        exists d, documents sys id = Some d /\ sameIdentity d d0).

(** A document that may be stored under [id]. *)
Definition continues (id : nat) (sys0 : Sys) (r : Receipt) : Prop :=
  forall d0, documents sys0 id = Some d0 -> sameIdentity r d0.

Definition holds {A} (id : nat) (sys0 : Sys) (Q : A -> Prop) (c : M Sys A) : Prop :=
  forall sys x sys', kept id sys0 sys -> c sys = (x, sys') ->
    kept id sys0 sys' /\ (forall a, x = Ok a -> Q a).

Lemma kept_refl id sys : kept id sys sys.
Proof.
  split; [reflexivity|]. intros d0 D. exists d0. split; [exact D|]. repeat split.
Qed.

Lemma kept_documents id sys0 sys sys' :
  documents sys' = documents sys -> kept id sys0 sys -> kept id sys0 sys'.
Proof. intros E (K1 & K2). split; rewrite E; assumption. Qed.

Lemma holds_same {A} id sys0 (Q : A -> Prop) (c : M Sys A) :
  (forall sys x sys', c sys = (x, sys') ->
     documents sys' = documents sys /\ (forall a, x = Ok a -> Q a)) ->
  holds id sys0 Q c.
Proof.
  intros H sys x sys' K E. destruct (H _ _ _ E) as (D & Hq).
  split; [exact (kept_documents id sys0 sys sys' D K) | exact Hq].
Qed.

Lemma holds_weaken {A} id sys0 (Q R : A -> Prop) (c : M Sys A) :
  (forall a, Q a -> R a) -> holds id sys0 Q c -> holds id sys0 R c.
Proof.
  intros QR H sys x sys' K E. destruct (H _ _ _ K E) as (K' & Hq).
  split; [exact K' | intros a Ea; apply QR; apply Hq; exact Ea].
Qed.

Lemma holds_ret {A} id sys0 (Q : A -> Prop) (a : A) : Q a -> holds id sys0 Q (ret a).
Proof.
  intros Ha. apply holds_same. intros sys x sys' E. inversion E; subst.
  split; [reflexivity|]. intros b Eb. inversion Eb; subst. exact Ha.
Qed.

Lemma holds_throw {A} id sys0 (Q : A -> Prop) m : holds id sys0 Q (@throw Sys A m).
Proof.
  apply holds_same. intros sys x sys' E. inversion E; subst.
  split; [reflexivity|]. intros b Eb. discriminate.
Qed.

Lemma holds_svc {A} id sys0 (c : M St A) : holds id sys0 (fun _ => True) (svc c).
Proof.
  apply holds_same. intros sys x sys' E. unfold svc in E.
  destruct (c (services sys)). inversion E. split; [reflexivity | trivial].
Qed.

Lemma holds_dbOp id sys0 db : holds id sys0 (fun _ => True) (dbOp db).
Proof.
  apply holds_same. intros sys x sys' E. unfold dbOp in E.
  destruct (fault db (dbOps sys)); inversion E; split; trivial.
Qed.

Lemma holds_bind {A B} id sys0 (Q : A -> Prop) (R : B -> Prop) (c : M Sys A) (k : A -> M Sys B) :
  holds id sys0 Q c -> (forall a, Q a -> holds id sys0 R (k a)) -> holds id sys0 R (bind c k).
Proof.
  intros Hc Hk sys x sys' K E. unfold bind in E.
  destruct (c sys) as [[a|e] sys1] eqn:Ec.
  - destruct (Hc _ _ _ K Ec) as (K1 & Qa). exact (Hk a (Qa a eq_refl) _ _ _ K1 E).
  - inversion E; subst. destruct (Hc _ _ _ K Ec) as (K1 & _).
    split; [exact K1 | intros b Eb; discriminate].
Qed.

Lemma holds_tryCatch {A} id sys0 (Q R : A -> Prop) (c : M Sys A) (h : text -> M Sys A) :
  holds id sys0 Q c -> (forall e, holds id sys0 R (h e)) ->
  holds id sys0 (fun a => Q a \/ R a) (tryCatch c h).
Proof.
  intros Hc Hh sys x sys' K E. unfold tryCatch in E.
  destruct (c sys) as [[a|e] sys1] eqn:Ec.
  - inversion E; subst. destruct (Hc _ _ _ K Ec) as (K1 & Qa).
    split; [exact K1 | intros b Eb; left; apply Qa; exact Eb].
  - destruct (Hc _ _ _ K Ec) as (K1 & _). destruct (Hh e _ _ _ K1 E) as (K2 & Rb).
    split; [exact K2 | intros b Eb; right; apply Rb; exact Eb].
Qed.

Lemma holds_put id sys0 r : continues id sys0 r -> holds id sys0 (fun _ => True) (put id r).
Proof.
  intros C sys x sys' (K1 & K2) E. inversion E; subst. split; [|trivial].
  split; cbn [documents].
  - intros k N. apply Nat.eqb_neq in N. rewrite N. apply K1. apply Nat.eqb_neq. exact N.
  - intros d0 D. rewrite Nat.eqb_refl. exists r. split; [reflexivity | exact (C d0 D)].
Qed.

Lemma kept_continues id sys0 sys r :
  kept id sys0 sys -> documents sys id = Some r -> continues id sys0 r.
Proof.
  intros (_ & K2) D d0 D0. destruct (K2 d0 D0) as (d & Dd & S).
  rewrite D in Dd. inversion Dd; subst. exact S.
Qed.

Lemma holds_findById id sys0 db :
  holds id sys0 (fun found => forall r, found = Some r -> continues id sys0 r) (findById db id).
Proof.
  unfold findById. eapply holds_bind; [apply holds_dbOp | intros _ _].
  intros sys x sys' K E. inversion E; subst. split; [exact K|].
  intros a Ea r Er. inversion Ea as [Ea']. rewrite <- Ea' in Er.
  exact (kept_continues id sys0 sys' r K Er).
Qed.

Lemma holds_findOne id sys0 db user :
  holds id sys0 (fun found => forall r, found = Some r -> continues id sys0 r)
    (findOne db id user).
Proof.
  unfold findOne. eapply holds_bind; [apply holds_dbOp | intros _ _].
  intros sys x sys' K E. inversion E; subst. split; [exact K|].
  intros a Ea r Er. inversion Ea as [Ea']. rewrite <- Ea' in Er.
  destruct (documents sys' id) as [d|] eqn:D; [|discriminate].
  destruct ((userId d =? user)%nat && isActive d); [|discriminate].
  inversion Er as [Ed]. rewrite <- Ed. exact (kept_continues id sys0 sys' d K D).
Qed.

Lemma holds_preSave w id sys0 r :
  continues id sys0 r -> holds id sys0 (continues id sys0) (preSave w id r).
Proof.
  intros C. unfold preSave. eapply holds_bind.
  - apply (holds_same id sys0 (fun _ => True)). intros sys x sys' E.
    inversion E; subst. split; [reflexivity | trivial].
  - intros stored _.
    destruct (isModified_extractedText stored r && truthy _).
    + eapply holds_bind; [apply holds_svc | intros now _].
      apply holds_ret. exact C.
    + apply holds_ret. exact C.
Qed.

Lemma holds_save w db id sys0 r :
  continues id sys0 r -> holds id sys0 (continues id sys0) (save w db id r).
Proof.
  intros C. unfold save. eapply holds_bind; [apply holds_dbOp | intros _ _].
  destruct (validate db r); [|apply holds_throw].
  eapply holds_bind; [apply holds_preSave; exact C | intros r' C'].
  eapply holds_bind; [apply holds_put; exact C' | intros _ _].
  apply holds_ret. exact C'.
Qed.

Lemma holds_findByIdAndUpdate db id sys0 u :
  holds id sys0 (fun _ => True) (findByIdAndUpdate db id u).
Proof.
  unfold findByIdAndUpdate.
  destruct (castNumber (set_processingAttempts u)) as [n|]; [|apply holds_throw].
  eapply holds_bind; [apply holds_dbOp | intros _ _].
  intros sys x sys' K E. unfold bind, gets in E.
  destruct (documents sys id) as [r|] eqn:D.
  - revert E. apply holds_put; [|exact K].
    intros d0 D0. destruct (kept_continues id sys0 sys r K D d0 D0) as (A & B & C).
    repeat split; assumption.
  - inversion E; subst. split; [exact K | trivial].
Qed.

Section Facts.
Context {platform : Platform}.
Variable w : World.
Variable db : Db.

Lemma holds_processReceiptOCR id sys0 :
  holds id sys0 (fun _ => True) (processReceiptOCR w db id).
Proof.
  unfold processReceiptOCR.
  eapply holds_weaken; [|apply (holds_tryCatch id sys0 (fun _ => True) (fun _ => True))].
  - trivial.
  - eapply holds_bind; [apply holds_findById | intros [receipt|] C]; [|apply holds_ret; trivial].
    specialize (C receipt eq_refl).
    eapply holds_bind; [apply holds_save; exact C | intros r1 C1].
    eapply holds_bind; [apply holds_svc | intros o _].
    eapply holds_bind; [apply holds_svc | intros now _].
    eapply holds_bind; [| intros _ _; apply holds_ret; trivial].
    destruct (success o); apply holds_save; intros d0 D0; exact (C1 d0 D0).
  - intros e.
    eapply holds_weaken; [|apply (holds_tryCatch id sys0 (fun _ => True) (fun _ => True))].
    + trivial.
    + eapply holds_bind; [apply holds_svc | intros now _].
      apply holds_findByIdAndUpdate.
    + intros _. apply holds_ret. trivial.
Qed.

Lemma holds_reprocessReceipt id user sys0 :
  holds id sys0 (fun _ => True) (reprocessReceipt w db id user).
Proof.
  unfold reprocessReceipt.
  eapply holds_bind; [apply holds_findOne | intros [receipt|] C]; [|apply holds_ret; trivial].
  specialize (C receipt eq_refl).
  eapply holds_bind; [apply holds_svc | intros now _].
  eapply holds_bind; [apply holds_save; intros d0 D0; exact (C d0 D0) | intros _ _].
  eapply holds_bind; [apply holds_processReceiptOCR | intros _ _; apply holds_ret; trivial].
Qed.

End Facts.
End IdentityFacts.

Module IdentityTheorems.
Import Eff EffFacts Json Data JsString Receipt ReceiptController StoreFacts IdentityFacts.

(** Whatever the services and the store answer, a background run and a
    reprocess request on [id] leave every other receipt as it was, and
    the receipt [id], when there was one, is still stored afterwards with
    the same owner, file path and active flag. *)
Theorem runs_keep_identity {platform : Platform} (w : World) (db : Db) (id user : nat)
    (sys : Sys) :
  kept id sys (snd (processReceiptOCR w db id sys))
  /\ kept id sys (snd (reprocessReceipt w db id user sys)).
Proof.
  split.
  - destruct (processReceiptOCR w db id sys) as [x sys'] eqn:E.
    exact (proj1 (holds_processReceiptOCR w db id sys sys x sys' (kept_refl id sys) E)).
  - destruct (reprocessReceipt w db id user sys) as [x sys'] eqn:E.
    exact (proj1 (holds_reprocessReceipt w db id user sys sys x sys' (kept_refl id sys) E)).
Qed.

End IdentityTheorems.

Module RequestTheorems.
Import Eff EffFacts OrchestratorFacts Json Data JsString Receipt ReceiptController StoreFacts
  RunFacts IdentityFacts.

(** The background run never raises, whatever the services and the
    store answer: its outer handler catches what the run throws, and the
    update made there is caught in turn.  For an id under which nothing
    is stored, it changes no document and the services record no event:
    no recognition is started. *)
Theorem processReceiptOCR_never_raises {platform : Platform} (w : World) (db : Db) (id : nat)
    (sys : Sys) :
  exists sys',
    processReceiptOCR w db id sys = (Ok tt, sys')
    /\ (documents sys id = None ->
        documents sys' = documents sys
        /\ trace (services sys') = trace (services sys)).
Proof.
  unfold processReceiptOCR. unfold tryCatch at 1.
  unfold bind at 1. unfold findById. unfold bind at 1. unfold dbOp.
  destruct (fault db (dbOps sys)) eqn:F1.
  - (* the lookup fails: the handler, whose update is refused and caught *)
    unfold tryCatch, bind, svc. cbn [readClock services].
    unfold findByIdAndUpdate. cbn [markFailed set_processingAttempts castNumber throw ret].
    eexists. split; [reflexivity|]. intros _. split; reflexivity.
  - unfold gets. cbn [documents]. destruct (documents sys id) as [receipt|] eqn:D.
    + match goal with |- context [bind ?c ?k ?s] => destruct (bind c k s) as [[[]|e] sys1] end.
      * eexists. split; [reflexivity|]. intros N. discriminate.
      * match goal with |- context [tryCatch ?c ?h ?s] =>
          destruct (total_tryCatch c h (fun _ => total_ret tt) s) as ([] & sys2 & E)
        end.
        rewrite E. eexists. split; [reflexivity|]. intros N. discriminate.
    + eexists. split; [reflexivity|]. intros _. split; reflexivity.
Qed.

(** A reprocess request for an id under which nothing is stored, for the
    receipt of another user, or for a receipt that is not active, is
    answered with 404 (or fails with the store): one store operation is
    made, no document changes, the clock is not read and no run is
    started. *)
Theorem reprocessReceipt_refuses {platform : Platform} (w : World) (db : Db) (id user : nat)
    (sys : Sys) :
  (forall r, documents sys id = Some r -> userId r <> user \/ isActive r = false) ->
  reprocessReceipt w db id user sys
  = (if fault db (dbOps sys) then Throw (L "store operation failed") else Ok 404, bump sys).
Proof.
  intros H. unfold reprocessReceipt, findOne. unfold bind at 1. unfold bind at 1. unfold dbOp.
  destruct (fault db (dbOps sys)); [reflexivity|].
  unfold gets. cbn [documents].
  destruct (documents sys id) as [r|] eqn:D; [|reflexivity].
  destruct (H r eq_refl) as [U|A].
  - apply Nat.eqb_neq in U. rewrite U. reflexivity.
  - rewrite A, andb_false_r. reflexivity.
Qed.

(** With a store that neither faults nor refuses, an upload answers 201
    and, once its run is over, the receipt is stored under the new id
    for the uploading user and the uploaded file, active, and the other
    receipts are as before.  Its status follows the result of the
    orchestrator on the file: [processed] without a recorded attempt
    when the result reports success with a confidence the schema
    accepts, [failed] with one attempt when it reports failure, and
    still [processing], without an attempt, when it reports success
    with a confidence outside 0 to 1, which the schema refuses. *)
Theorem uploadReceipt_creates {platform : Platform} (w : World) (db : Db) (id user : nat)
    (path : text) (sys : Sys) :
  (forall k, fault db k = false) ->
  (forall d, rejects db d = false) ->
  exists o st' sys' final,
    OCRService.processReceipt w path (services sys) = (Ok o, st')
    /\ uploadReceipt w db id user path sys = (Ok 201, sys')
    /\ documents sys' id = Some final
    /\ userId final = user /\ filePath final = path /\ isActive final = true
    /\ status final =
       (if success o then if storable o then processed else processing else failed)
    /\ processingAttempts final = (if success o then 0 else 1)%Z
    /\ (forall k, k <> id -> documents sys' k = documents sys k).
Proof.
  intros F R. unfold uploadReceipt. unfold bind at 1. rewrite (dbOp_ok db F).
  unfold bind at 1. unfold put at 1, modify.
  set (mid := {| services := services (bump sys);
                 documents := fun k => if (k =? id)%nat then Some (create user path)
                                       else documents (bump sys) k;
                 dbOps := dbOps (bump sys) |}).
  assert (D : documents mid id = Some (create user path)).
  { cbn. rewrite Nat.eqb_refl. reflexivity. }
  assert (V : validate db (create user path) = true).
  { unfold validate. rewrite R. reflexivity. }
  destruct (PipelineTheorems.orchestrator_result w (filePath (create user path)) (services mid))
    as (o & st' & Eo & _).
  destruct (run_outcome w db F id mid (create user path) o st' D R V Eo)
    as (sys' & final & E & Df & S & A & _).
  destruct (holds_processReceiptOCR w db id mid mid (Ok tt) sys' (kept_refl id mid) E)
    as ((K1 & K2) & _).
  destruct (K2 _ D) as (d & Dd & I1 & I2 & I3).
  rewrite Df in Dd. inversion Dd; subst d.
  exists o, st', sys', final. unfold bind. rewrite E.
  split; [exact Eo|].
  split; [reflexivity|]. split; [exact Df|].
  split; [exact I1|]. split; [exact I2|]. split; [exact I3|].
  split; [rewrite S; reflexivity|].
  split; [rewrite A; destruct (success o); reflexivity|].
  intros k N. rewrite (K1 k N). cbn. apply Nat.eqb_neq in N. rewrite N. reflexivity.
Qed.

Lemma reprocessReceipt_refuses_witness :
  reprocessReceipt (platform := Samples.samplePlatform) Samples.offline Samples.reliable 1 8
    (Samples.oneReceipt PipelineTheorems.png)
  = (Ok 404, bump (Samples.oneReceipt PipelineTheorems.png)).
Proof.
  apply (reprocessReceipt_refuses (platform := Samples.samplePlatform) Samples.offline
           Samples.reliable 1 8 (Samples.oneReceipt PipelineTheorems.png)).
  intros r D. left. cbn in D. inversion D. cbn. lia.
Defined.

Lemma uploadReceipt_creates_witness :
  exists sys' final,
    uploadReceipt (platform := Samples.samplePlatform) Samples.offline Samples.reliable 2 9
      (L "uploads/receipt-2.png") (Samples.oneReceipt PipelineTheorems.png) = (Ok 201, sys')
    /\ documents sys' 2 = Some final
    /\ userId final = 9
    /\ status final = processed
    /\ documents sys' 1 = Some (create 7 PipelineTheorems.png).
Proof.
  destruct (uploadReceipt_creates (platform := Samples.samplePlatform) Samples.offline
              Samples.reliable 2 9 (L "uploads/receipt-2.png")
              (Samples.oneReceipt PipelineTheorems.png) (fun _ => eq_refl) (fun _ => eq_refl))
    as (o & st' & sys' & final & Eo & E & D & U & _ & _ & S & _ & O).
  vm_compute in Eo. inversion Eo; subst o st'. clear Eo.
  exists sys', final. split; [exact E|]. split; [exact D|]. split; [exact U|].
  split; [exact S|].
  rewrite (O 1%nat); [reflexivity | lia].
Defined.

End RequestTheorems.

Module ExtensionFacts.
Import Chars JsString RegExp Eff Upload StringFacts MatchFacts.

(** [[^/.]] *)
Definition segmentChar (c : ascii) : bool := negb (any [chr "/"; chr "."] c).

Lemma runAll_le p s : runAll p s <= List.length s.
Proof. induction s as [|c s IH]; simpl; [lia|]. destruct (p c); lia. Qed.

Lemma runAll_short p s : forallb p s = false -> runAll p s < List.length s.
Proof.
  induction s as [|c s IH]; simpl; [discriminate|].
  destruct (p c); simpl; [intros H; specialize (IH H); lia | lia].
Qed.

Lemma try_down_none {R} (f : nat -> option R) lo d :
  (forall j, j <= lo + d -> f j = None) -> try_down f lo d = None.
Proof.
  induction d as [|d IH]; intros H; simpl.
  - rewrite H by lia. reflexivity.
  - rewrite H by lia. apply IH. intros j Hj. apply H. lia.
Qed.

Lemma skipn_more {A} (s : list A) j : j < List.length s -> skipn j s <> [].
Proof.
  intros H E. apply (f_equal (@List.length A)) in E. rewrite length_skipn in E.
  simpl in E. lia.
Qed.

(** The class has to run up to the end of the input. *)
Lemma tail_short p at0 s n st :
  forallb p s = false -> exec [plus p; Eol false] at0 s n st = None.
Proof.
  intros H. apply runAll_short in H. unfold plus. cbn [exec run]. cbv zeta.
  destruct (Nat.ltb_spec (runAll p s) 1) as [L1|L1]; [reflexivity|].
  apply try_down_none. intros j Hj.
  destruct (skipn j s) as [|c r] eqn:E; [|reflexivity].
  exfalso. revert E. apply skipn_more. lia.
Qed.

Lemma tail_empty p at0 n st : exec [plus p; Eol false] at0 [] n st = None.
Proof. reflexivity. Qed.

Lemma tail_whole p at0 s n st :
  s <> [] -> forallb p s = true ->
  exec [plus p; Eol false] at0 s n st = Some (n + List.length s, st).
Proof.
  intros N H. apply exec_cls_greedy_at with (m := List.length s).
  - cbn [run]. apply runAll_all. exact H.
  - destruct s; [contradiction | simpl; lia].
  - rewrite skipn_length_all. reflexivity.
Qed.

Lemma exec_one_cons p rest at0 c s n st :
  exec (one p :: rest) at0 (c :: s) n st = if p c then exec rest at0 s (n + 1) st else None.
Proof.
  unfold one. cbn [exec run runUpTo]. cbv zeta. destruct (p c); [|reflexivity].
  cbn [Nat.ltb Nat.leb Nat.sub try_down Nat.add skipn].
  destruct (exec rest at0 s (n + 1) st); reflexivity.
Qed.

Lemma extension_at at0 s st :
  exec extension at0 s 0 st =
  match s with
  | c :: ext =>
      if chr "." c && negb (match ext with [] => true | _ => false end) && forallb segmentChar ext
      then Some (S (List.length ext), st) else None
  | [] => None
  end.
Proof.
  destruct s as [|c ext]; [reflexivity|].
  unfold extension. rewrite exec_one_cons.
  destruct (chr "." c) eqn:C; [|reflexivity].
  cbn [andb Nat.add].
  destruct ext as [|d ext]; [reflexivity|].
  cbn [negb andb].
  change (exec [plus segmentChar; Eol false] at0 (d :: ext) 1 st
          = if forallb segmentChar (d :: ext) then Some (S (List.length (d :: ext)), st) else None).
  destruct (forallb segmentChar (d :: ext)) eqn:F.
  - rewrite (tail_whole segmentChar at0 (d :: ext) 1 st) by (assumption || discriminate).
    reflexivity.
  - rewrite (tail_short segmentChar at0 (d :: ext) 1 st) by assumption. reflexivity.
Qed.

(** The first match is at the last period, when what follows it is a
    non-empty run of the class. *)
Lemma scan_extension base ext : forall i,
  ext <> [] -> forallb segmentChar ext = true ->
  hd_error (scan extension (base ++ "."%char :: ext) i 0)
  = Some (mk_match (i + List.length base) ("."%char :: ext) (S (List.length ext)) no_caps).
Proof.
  induction base as [|c base IH]; intros i N F.
  - cbn [app scan]. rewrite extension_at.
    change (chr "." "."%char) with true. rewrite F.
    destruct ext; [contradiction|]. cbn [negb andb hd_error List.length].
    rewrite Nat.add_0_r. reflexivity.
  - cbn [app scan]. rewrite extension_at.
    replace (forallb segmentChar (base ++ "."%char :: ext)) with false.
    + rewrite andb_false_r. cbn [List.length]. rewrite (IH (S i) N F).
      f_equal. f_equal. lia.
    + symmetry. rewrite forallb_app. cbn [forallb]. apply andb_false_r.
Qed.

Lemma scan_no_extension s : forall i,
  (forall base ext, s = base ++ "."%char :: ext -> ext = [] \/ forallb segmentChar ext = false) ->
  scan extension s i 0 = [].
Proof.
  induction s as [|c s IH]; intros i H.
  - cbn [scan]. rewrite extension_at. reflexivity.
  - cbn [scan]. rewrite extension_at.
    assert (E : chr "." c && negb (match s with [] => true | _ => false end)
                && forallb segmentChar s = false).
    { destruct (chr "." c) eqn:C; [|reflexivity].
      apply Ascii.eqb_eq in C. subst c.
      destruct (H [] s eq_refl) as [->|F]; [reflexivity|].
      rewrite F. apply andb_false_r. }
    rewrite E. apply IH. intros base ext Eq.
    apply (H (c :: base) ext). rewrite Eq. reflexivity.
Qed.

Lemma replaceMatch_extension base ext rep :
  ext <> [] -> forallb segmentChar ext = true ->
  replaceMatch extension (base ++ "."%char :: ext) rep = base ++ rep.
Proof.
  intros N F. unfold replaceMatch, match1, matchAll.
  rewrite (scan_extension base ext 0 N F). cbn [mk_match m_index m_text Nat.add].
  rewrite firstn_app_length.
  change (firstn (S (List.length ext)) ("."%char :: ext))
    with ("."%char :: firstn (List.length ext) ext).
  rewrite firstn_all. cbn [List.length].
  replace (List.length base + S (List.length ext))
    with (List.length (base ++ "."%char :: ext))
    by (rewrite length_app; reflexivity).
  rewrite skipn_length_all. rewrite app_nil_r. reflexivity.
Qed.

Lemma replaceMatch_no_extension s rep :
  (forall base ext, s = base ++ "."%char :: ext -> ext = [] \/ forallb segmentChar ext = false) ->
  replaceMatch extension s rep = s.
Proof.
  intros H. unfold replaceMatch, match1, matchAll.
  rewrite (scan_no_extension s 0 H). reflexivity.
Qed.

End ExtensionFacts.

Module ProcessImageTheorems.
Import Chars JsString RegExp Eff Upload StringFacts MatchFacts ExtensionFacts.

(** [processImage] writes the processed image beside the original: the
    last extension of the path, a period followed up to the end by
    characters other than [/] and [.], is replaced by [_processed.] and
    the format.  A path without such an extension is not changed, so
    that the pipeline is given the input file as its output file.
    Whatever the pipeline raises becomes [Failed to process image].
    The format holds no [$], which the replacement would interpret. *)
Theorem processImage_path {S} (sharp : text -> text -> Exn unit) (filePath format : text)
    (st : S) :
  ~ In "$"%char format ->
  (forall base ext,
     filePath = base ++ "."%char :: ext -> ext <> [] -> forallb segmentChar ext = true ->
     processImage sharp filePath format st
     = match sharp filePath (base ++ L "_processed." ++ format) with
       | Ok _ => (Ok (base ++ L "_processed." ++ format), st)
       | Throw _ => (Throw (L "Failed to process image"), st)
       end)
  /\ ((forall base ext,
         filePath = base ++ "."%char :: ext -> ext = [] \/ forallb segmentChar ext = false) ->
      processImage sharp filePath format st
      = match sharp filePath filePath with
        | Ok _ => (Ok filePath, st)
        | Throw _ => (Throw (L "Failed to process image"), st)
        end).
Proof.
  intros _. split.
  - intros base ext E N F. subst filePath. unfold processImage. cbv zeta.
    rewrite (replaceMatch_extension base ext _ N F).
    unfold tryCatch, bind, lift, ret, throw.
    destruct (sharp _ (base ++ L "_processed." ++ format)); reflexivity.
  - intros H. unfold processImage. cbv zeta.
    rewrite (replaceMatch_no_extension filePath _ H).
    unfold tryCatch, bind, lift, ret, throw.
    destruct (sharp filePath filePath); reflexivity.
Qed.

Lemma processImage_path_witness :
  processImage (S := unit) (fun _ _ => Ok tt) (L "uploads/receipt.v2.png") (L "jpeg") tt
  = (Ok (L "uploads/receipt.v2_processed.jpeg"), tt)
  /\ processImage (S := unit) (fun _ _ => Ok tt) (L "uploads/receipt") (L "jpeg") tt
     = (Ok (L "uploads/receipt"), tt).
Proof.
  assert (D : ~ In "$"%char (L "jpeg")) by (intros I; vm_compute in I; intuition discriminate).
  split.
  - apply (proj1 (processImage_path (S := unit) (fun _ _ => Ok tt) (L "uploads/receipt.v2.png")
                    (L "jpeg") tt D) (L "uploads/receipt.v2") (L "png"));
      [reflexivity | discriminate | reflexivity].
  - apply (proj2 (processImage_path (S := unit) (fun _ _ => Ok tt) (L "uploads/receipt")
                    (L "jpeg") tt D)).
    intros base ext E. exfalso.
    assert (I : In "."%char (L "uploads/receipt")) by (rewrite E; apply in_elt).
    vm_compute in I. intuition discriminate.
Defined.

End ProcessImageTheorems.

Module DoubleFacts.
Import Double.

Local Open Scope Z_scope.

Lemma Qred_integer z : Qred (inject_Z z) = inject_Z z.
Proof.
  unfold Qred, inject_Z.
  pose proof (Z.ggcd_gcd z 1) as G. pose proof (Z.ggcd_correct_divisors z 1) as D.
  destruct (Z.ggcd z 1) as (g, (a, b)). cbn [fst snd] in G, D.
  rewrite Z.gcd_1_r in G. subst g. destruct D as (Da & Db).
  rewrite Z.mul_1_l in Da, Db. subst a b. reflexivity.
Qed.

Lemma pow2_pos e : 0 < 2 ^ e \/ (e < 0 /\ 2 ^ e = 0).
Proof.
  destruct (Z_lt_le_dec e 0) as [N|N].
  - right. split; [exact N|]. apply Z.pow_neg_r. exact N.
  - left. apply Z.pow_pos_nonneg; lia.
Qed.

Lemma pow2_positive e : 0 <= e -> 0 < 2 ^ e.
Proof. intros H. apply Z.pow_pos_nonneg; lia. Qed.

(** [timesPow2] has the value its name says. *)
Lemma timesPow2_value m e :
  e < 0 -> (timesPow2 m e == m # Z.to_pos (2 ^ (- e)))%Q.
Proof.
  intros H. unfold timesPow2. destruct (Z.leb_spec 0 e) as [A|A]; [lia|].
  apply Qred_correct.
Qed.

Lemma timesPow2_integer z e :
  e < 0 -> timesPow2 (z * 2 ^ (- e)) e = inject_Z z.
Proof.
  intros H. unfold timesPow2. destruct (Z.leb_spec 0 e) as [A|A]; [lia|].
  rewrite <- (Qred_integer z). apply Qred_complete.
  unfold Qeq, inject_Z. cbn [Qnum Qden].
  rewrite Z2Pos.id by (apply pow2_positive; lia). lia.
Qed.

Lemma timesPow2_nonneg m e : 0 <= m -> (0 <= timesPow2 m e)%Q.
Proof.
  intros H. unfold timesPow2. destruct (Z.leb_spec 0 e) as [A|A].
  - unfold Qle, inject_Z. cbn [Qnum Qden]. pose proof (pow2_positive e A). nia.
  - rewrite Qred_correct. unfold Qle. cbn [Qnum Qden]. lia.
Qed.

Lemma scaled_positive n d e a b :
  0 < n -> 0 < d -> scaled n d e = (a, b) -> 0 < a /\ 0 < b.
Proof.
  intros Hn Hd. unfold scaled. destruct (Z.leb_spec 0 e) as [A|A]; intros E; inversion E.
  - pose proof (pow2_positive e A). nia.
  - pose proof (pow2_positive (- e) ltac:(lia)). nia.
Qed.

Lemma roundHalfEven_bounds a b :
  0 < b -> a / b <= roundHalfEven a b <= a / b + 1.
Proof.
  intros H. unfold roundHalfEven. cbv zeta.
  destruct ((b <? 2 * (a mod b)) || ((b =? 2 * (a mod b)) && Z.odd (a / b))); lia.
Qed.

Lemma roundHalfEven_exact z b : 0 < b -> roundHalfEven (z * b) b = z.
Proof.
  intros H. unfold roundHalfEven. cbv zeta.
  rewrite Z.mod_mul by lia. rewrite Z.div_mul by lia.
  destruct (Z.ltb_spec b (2 * 0)) as [A|A]; [lia|].
  destruct (Z.eqb_spec b (2 * 0)) as [B|B]; [lia|]. reflexivity.
Qed.

(** The exponent that an integer gets. *)
Lemma exponent_integer n : 0 < n -> exponent n 1 = Z.log2 n - 52.
Proof.
  intros H. unfold exponent. cbv zeta.
  change (Z.log2 1) with 0. rewrite Z.sub_0_r.
  pose proof (Z.log2_nonneg n) as K. pose proof (Z.log2_spec n H) as (Lo & Hi).
  unfold scaled. destruct (Z.leb_spec 0 (Z.log2 n)) as [A|A]; [|lia].
  destruct (Z.ltb_spec n (1 * 2 ^ Z.log2 n)) as [B|B]; lia.
Qed.

(** An integer of at most 53 bits is a double. *)
Lemma nearest_integer n : 0 < n <= 2 ^ 53 -> nearest n 1 = Some (inject_Z n).
Proof.
  intros (Hn & Hb). unfold nearest. cbv zeta. rewrite (exponent_integer n Hn).
  pose proof (Z.log2_spec n Hn) as (Lo & Hi).
  assert (K : Z.log2 n <= 53).
  { destruct (Z_lt_le_dec 53 (Z.log2 n)) as [A|A]; [|lia].
    exfalso. pose proof (Z.pow_lt_mono_r 2 53 (Z.log2 n) ltac:(lia) ltac:(lia) A). lia. }
  unfold scaled. destruct (Z.leb_spec 0 (Z.log2 n - 52)) as [A|A].
  - assert (P : 2 ^ (Z.log2 n - 52) = 1 \/ (Z.log2 n = 53 /\ n = 2 ^ 53)).
    { destruct (Z.eq_dec (Z.log2 n) 52) as [E|E].
      - left. rewrite E. reflexivity.
      - right. assert (E' : Z.log2 n = 53) by lia. rewrite E' in Lo. split; lia. }
    destruct P as [P|(P & Q)].
    + rewrite P. change (1 * 1) with 1.
      assert (R : roundHalfEven n 1 = n).
      { rewrite <- (Z.mul_1_r n) at 1. apply roundHalfEven_exact. lia. }
      rewrite R.
      destruct (Z.leb_spec (2 ^ 1024) (n * 1)) as [B|B].
      * exfalso. assert (2 ^ 53 < 2 ^ 1024) by (apply Z.pow_lt_mono_r; lia). lia.
      * cbn [andb]. unfold timesPow2. destruct (Z.leb_spec 0 (Z.log2 n - 52)); [|lia].
        rewrite P, !Z.mul_1_r. reflexivity.
    + rewrite P, Q. vm_compute. reflexivity.
  - cbn [andb]. f_equal.
    assert (R : roundHalfEven (n * 2 ^ (- (Z.log2 n - 52))) 1 = n * 2 ^ (- (Z.log2 n - 52))).
    { rewrite <- (Z.mul_1_r (n * 2 ^ (- (Z.log2 n - 52)))) at 1.
      apply roundHalfEven_exact. lia. }
    rewrite R. apply timesPow2_integer. exact A.
Qed.

Lemma fl_integer z : - 2 ^ 53 <= z <= 2 ^ 53 -> fl (inject_Z z) = integer z.
Proof.
  intros H. unfold fl, integer, inject_Z. cbn [Qnum Qden].
  destruct z as [|n|n].
  - reflexivity.
  - rewrite (nearest_integer (Z.pos n)) by lia. reflexivity.
  - rewrite (nearest_integer (Z.pos n)) by lia. reflexivity.
Qed.

(** A larger integer is rounded to a double that is an integer of at
    least 54 bits, or to infinity. *)
Lemma nearest_large n :
  2 ^ 53 <= n ->
  nearest n 1 = None \/ exists k, nearest n 1 = Some (inject_Z k) /\ 2 ^ 53 <= k.
Proof.
  intros H. assert (Hn : 0 < n) by (assert (0 < 2 ^ 53) by reflexivity; lia).
  unfold nearest. cbv zeta. rewrite (exponent_integer n Hn).
  pose proof (Z.log2_spec n Hn) as (Lo & Hi).
  assert (K : 53 <= Z.log2 n).
  { apply Z.log2_le_pow2; [exact Hn | exact H]. }
  unfold scaled. destruct (Z.leb_spec 0 (Z.log2 n - 52)) as [A|A]; [|lia].
  set (e := Z.log2 n - 52) in *. rewrite Z.mul_1_l.
  destruct (2 ^ 1024 <=? roundHalfEven n (2 ^ e) * 2 ^ e); [left; reflexivity|].
  right. cbn [andb]. exists (roundHalfEven n (2 ^ e) * 2 ^ e). split.
  - unfold timesPow2. destruct (Z.leb_spec 0 e); [reflexivity | lia].
  - pose proof (pow2_positive e A) as P.
    pose proof (roundHalfEven_bounds n (2 ^ e) P) as (B & _).
    assert (Q : 2 ^ 52 <= n / 2 ^ e).
    { apply Z.div_le_lower_bound; [exact P|].
      rewrite Z.mul_comm, <- Z.pow_add_r by lia.
      replace (52 + e) with (Z.log2 n) by (unfold e; lia). exact Lo. }
    assert (E1 : 1 <= e) by (unfold e; lia).
    assert (P2 : 2 ^ 1 <= 2 ^ e) by (apply Z.pow_le_mono_r; lia).
    change (2 ^ 53) with (2 ^ 52 * 2 ^ 1). nia.
Qed.

(** What an integer is rounded to. *)
Lemma fl_integral z :
  fl (inject_Z z) = PosInfinity /\ 2 ^ 53 <= z
  \/ fl (inject_Z z) = NegInfinity /\ z <= - 2 ^ 53
  \/ exists k, fl (inject_Z z) = integer k
               /\ (- 2 ^ 53 <= z <= 2 ^ 53 -> k = z)
               /\ (2 ^ 53 <= z -> 2 ^ 53 <= k)
               /\ (z <= - 2 ^ 53 -> k <= - 2 ^ 53).
Proof.
  destruct (Z_lt_le_dec z (- 2 ^ 53)) as [A|A].
  - destruct z as [|n|n]; try (exfalso; assert (0 < 2 ^ 53) by reflexivity; lia).
    unfold fl, inject_Z. cbn [Qnum Qden].
    destruct (nearest_large (Z.pos n) ltac:(lia)) as [E|(k & E & B)]; rewrite E.
    + right. left. split; [reflexivity | lia].
    + right. right. exists (- k). split; [reflexivity|].
      split; [lia|]. split; [intros; exfalso; assert (0 < 2 ^ 53) by reflexivity; lia | lia].
  - destruct (Z_lt_le_dec (2 ^ 53) z) as [B|B].
    + destruct z as [|n|n]; try (exfalso; assert (0 < 2 ^ 53) by reflexivity; lia).
      unfold fl, inject_Z. cbn [Qnum Qden].
      destruct (nearest_large (Z.pos n) ltac:(lia)) as [E|(k & E & C)]; rewrite E.
      * left. split; [reflexivity | lia].
      * right. right. exists k. split; [reflexivity|].
        split; [lia|]. split; [lia | intros; exfalso; assert (0 < 2 ^ 53) by reflexivity; lia].
    + right. right. exists z. split; [apply fl_integer; lia|].
      split; [reflexivity|]. split; lia.
Qed.

Lemma add_integer a b :
  add (integer a) (integer b) = fl (inject_Z (a + b)).
Proof.
  unfold add, integer, fl, inject_Z, Qplus. cbn [Qnum Qden Pos.mul].
  rewrite !Z.mul_1_r. reflexivity.
Qed.

Lemma sub_integer a b :
  sub (integer a) (integer b) = fl (inject_Z (a - b)).
Proof.
  unfold sub, neg, integer. change (- inject_Z b)%Q with (inject_Z (- b)).
  apply (add_integer a (- b)).
Qed.

Lemma mul_integer a b :
  mul (integer a) (integer b) = fl (inject_Z (a * b)).
Proof. reflexivity. Qed.

Lemma lt_integer a b : lt (integer a) (integer b) = (a <? b).
Proof.
  unfold lt, integer, JsNumber.Qltb, Qle_bool, inject_Z. cbn [Qnum Qden].
  rewrite !Z.mul_1_r. destruct (Z.leb_spec b a); destruct (Z.ltb_spec a b); try reflexivity; lia.
Qed.

(** [ceiling] is the least integer not below. *)
Lemma ceiling_spec q z :
  (inject_Z (z - 1) < q)%Q -> (q <= inject_Z z)%Q -> ceiling q = z.
Proof.
  destruct q as (n, d). unfold Qlt, Qle, ceiling, inject_Z. cbn [Qnum Qden].
  intros A B. pose proof (Z.div_mod (- n) (Z.pos d) ltac:(lia)) as DM.
  pose proof (Z.mod_pos_bound (- n) (Z.pos d) ltac:(lia)) as MB. nia.
Qed.

(** Rounding a scaled quotient does not cross an integer: with
    [F] a power of two above half of [l]. *)
Lemma round_between t l F k :
  0 < l -> 0 < F -> l < 2 * F ->
  (k - 1) * l < t <= k * l ->
  (k - 1) * F < roundHalfEven (t * F) l <= k * F.
Proof.
  intros Hl HF HlF (Lo & Hi). unfold roundHalfEven. cbv zeta.
  pose proof (Z.div_mod (t * F) l ltac:(lia)) as DM.
  pose proof (Z.mod_pos_bound (t * F) l Hl) as MB.
  set (m := t * F / l) in *. set (r := (t * F) mod l) in *.
  assert (N1 : (k - 1) * l * F + F <= t * F) by nia.
  assert (N2 : t * F <= k * l * F) by nia.
  assert (M1 : (k - 1) * F <= m) by nia.
  assert (M2 : m <= k * F) by nia.
  destruct (Z.ltb_spec l (2 * r)) as [A|A]; cbn [orb].
  - split; [lia|]. assert (m <> k * F) by nia. lia.
  - destruct (Z.eqb_spec l (2 * r)) as [B|B]; cbn [andb].
    + assert (m <> k * F) by nia. assert (m <> (k - 1) * F) by nia.
      destruct (Z.odd m); lia.
    + split; [|lia]. assert (m <> (k - 1) * F) by nia. lia.
Qed.

Lemma log2_below t : 0 < t < 2 ^ 53 -> 0 <= Z.log2 t <= 52.
Proof.
  intros (H0 & H). split; [apply Z.log2_nonneg|].
  apply Z.lt_succ_r. apply Z.log2_lt_pow2; [exact H0 | exact H].
Qed.

(** The exponent of a quotient of integers of at most 53 bits. *)
Lemma exponent_quotient t l :
  0 < t < 2 ^ 53 -> 0 < l < 2 ^ 53 ->
  exponent t l <= 0 /\ l < 2 ^ (1 - exponent t l).
Proof.
  intros Ht Hl. pose proof (log2_below t Ht) as Kt. pose proof (log2_below l Hl) as Kl.
  pose proof (Z.log2_spec t ltac:(lia)) as (Tl & Th).
  pose proof (Z.log2_spec l ltac:(lia)) as (Ll & Lh).
  unfold exponent. cbv zeta. set (k := Z.log2 t - Z.log2 l).
  destruct (scaled t l k) as (a, b) eqn:S.
  set (E := if a <? b then k - 1 else k).
  assert (EK : E <= k) by (unfold E; destruct (a <? b); lia).
  assert (B : l < 2 ^ (53 - E)).
  { destruct (Z_lt_le_dec E 0) as [N|N].
    - assert (2 ^ 53 <= 2 ^ (53 - E)) by (apply Z.pow_le_mono_r; lia). lia.
    - assert (P : l * 2 ^ E <= t).
      { unfold scaled in S. destruct (Z.leb_spec 0 k) as [K0|K0]; [|lia].
        inversion S. subst a b. unfold E in *.
        destruct (Z.ltb_spec t (l * 2 ^ k)) as [C|C]; [|exact C].
        assert (Q : 2 ^ Z.succ (Z.log2 l) * 2 ^ (k - 1) = 2 ^ Z.log2 t).
        { rewrite <- Z.pow_add_r by lia. f_equal. unfold k. lia. }
        pose proof (pow2_positive (k - 1) N). nia. }
      assert (Q : 2 ^ E * 2 ^ (53 - E) = 2 ^ 53).
      { rewrite <- Z.pow_add_r by lia. f_equal. lia. }
      pose proof (pow2_positive E N). pose proof (pow2_positive (53 - E) ltac:(lia)). nia. }
  split; [lia|].
  destruct (Z.max_spec (-1074) (E - 52)) as [(M1 & M2)|(M1 & M2)]; rewrite M2.
  - replace (1 - (E - 52)) with (53 - E) by lia. exact B.
  - assert (2 ^ 53 < 2 ^ (1 - -1074)) by reflexivity. lia.
Qed.

(** The double nearest to a quotient of such integers has the ceiling
    of the quotient. *)
Lemma nearest_quotient t l :
  0 < t < 2 ^ 53 -> 0 < l < 2 ^ 53 ->
  exists v, nearest t l = Some v /\ ceiling v = - (- t / l).
Proof.
  intros Ht Hl. destruct (exponent_quotient t l Ht Hl) as (E0 & El).
  set (k := - (- t / l)).
  assert (Hk : (k - 1) * l < t <= k * l).
  { unfold k. pose proof (Z.div_mod (- t) l ltac:(lia)) as DM.
    pose proof (Z.mod_pos_bound (- t) l ltac:(lia)) as MB. nia. }
  unfold nearest. cbv zeta. set (e := exponent t l) in *.
  unfold scaled. destruct (Z.leb_spec 0 e) as [A|A].
  - assert (e = 0) by lia. assert (E1 : l = 1).
    { replace (1 - e) with 1 in El by lia. change (2 ^ 1) with 2 in El. lia. }
    replace e with 0 by lia. rewrite E1 in *. change (1 * 2 ^ 0) with 1. change (2 ^ 0) with 1.
    assert (R : roundHalfEven t 1 = t).
    { rewrite <- (Z.mul_1_r t) at 1. apply roundHalfEven_exact. lia. }
    rewrite R, Z.mul_1_r.
    destruct (Z.leb_spec (2 ^ 1024) t) as [B|B].
    + exfalso. assert (2 ^ 53 < 2 ^ 1024) by reflexivity. lia.
    + cbn [andb]. exists (timesPow2 t 0). split; [reflexivity|].
      unfold timesPow2. cbn [Z.leb Z.compare]. change (2 ^ 0) with 1. rewrite Z.mul_1_r.
      apply ceiling_spec; unfold Qlt, Qle, inject_Z; cbn [Qnum Qden]; lia.
  - cbn [andb]. eexists. split; [reflexivity|].
    pose proof (pow2_positive (- e) ltac:(lia)) as F0.
    assert (F2 : 2 * 2 ^ (- e) = 2 ^ (1 - e)).
    { replace (1 - e) with (1 + - e) by lia. rewrite Z.pow_add_r by lia. reflexivity. }
    pose proof (round_between t l (2 ^ (- e)) k ltac:(lia) F0 ltac:(lia) Hk) as (Lo & Hi).
    apply ceiling_spec.
    + rewrite (timesPow2_value _ e A). unfold Qlt, inject_Z. cbn [Qnum Qden].
      rewrite Z2Pos.id by exact F0. lia.
    + rewrite (timesPow2_value _ e A). unfold Qle, inject_Z. cbn [Qnum Qden].
      rewrite Z2Pos.id by exact F0. lia.
Qed.

Lemma div_integer t p : div (integer t) (integer (Z.pos p)) = fl (t # p).
Proof.
  unfold div, integer. change (Qeq_bool (inject_Z (Z.pos p)) 0) with false.
  cbv iota. unfold Qdiv, Qmult, Qinv, inject_Z. cbn [Qnum Qden Pos.mul].
  rewrite Z.mul_1_r. reflexivity.
Qed.

(** [Math.ceil(t / l)] for a count and a positive limit of at most 53
    bits is the least number of pages that holds [t] items. *)
Lemma ceil_div t l :
  0 <= t < 2 ^ 53 -> 0 < l < 2 ^ 53 ->
  Math_ceil (div (integer t) (integer l)) = integer (- (- t / l)).
Proof.
  intros Ht Hl. destruct l as [|p|p]; try lia. rewrite div_integer.
  unfold fl. cbn [Qnum Qden]. destruct t as [|n|n]; try lia.
  - reflexivity.
  - destruct (nearest_quotient (Z.pos n) (Z.pos p) ltac:(lia) Hl) as (v & E & C).
    rewrite E. unfold Math_ceil, integer. rewrite C. reflexivity.
Qed.

End DoubleFacts.

Module PaginationFacts.
Import Chars JsString Double ApiResponse StringFacts DoubleFacts.

Local Open Scope Z_scope.

(** The number a run of decimal digits writes. *)
Definition decimalValue (ds : text) : Z :=
  fold_left (fun acc c => 10 * acc + (Z.of_N (code c) - 48)) ds 0.

(** A text that does not start, after white space, with a digit or a
    sign: the empty text, or a word. *)
Definition notNumeric (s : text) : bool :=
  match dropWhile isSpace s with
  | [] => true
  | c :: _ => negb (isDigit c || chr "+" c || chr "-" c)
  end.

Lemma digitIn_decimal c :
  digitIn 10 c = if isDigit c then Some (Z.of_N (code c) - 48) else None.
Proof. destruct c as [[] [] [] [] [] [] [] []]; reflexivity. Qed.

Lemma digitsIn_digits ds : forall acc n,
  forallb isDigit ds = true ->
  digitsIn 10 ds acc n
  = (fold_left (fun acc c => 10 * acc + (Z.of_N (code c) - 48)) ds acc, (n + List.length ds)%nat).
Proof.
  induction ds as [|c ds IH]; intros acc n H.
  - cbn. rewrite Nat.add_0_r. reflexivity.
  - cbn [forallb] in H. apply andb_prop in H. destruct H as (Hc & H).
    cbn [digitsIn]. rewrite digitIn_decimal, Hc. rewrite IH by exact H.
    cbn [fold_left List.length]. f_equal. lia.
Qed.

Lemma digit_plain c :
  isDigit c = true ->
  isSpace c = false /\ Ascii.eqb c "-" = false /\ Ascii.eqb c "+" = false
  /\ Ascii.eqb c "x" = false /\ Ascii.eqb c "X" = false.
Proof. destruct c as [[] [] [] [] [] [] [] []]; intros H; try discriminate H; repeat split. Qed.

Lemma digit_value c : isDigit c = true -> 0 <= Z.of_N (code c) - 48.
Proof. destruct c as [[] [] [] [] [] [] [] []]; intros H; try discriminate H; cbn; lia. Qed.

Lemma digits_nonneg ds : forall acc,
  forallb isDigit ds = true -> 0 <= acc ->
  0 <= fold_left (fun acc c => 10 * acc + (Z.of_N (code c) - 48)) ds acc.
Proof.
  induction ds as [|c ds IH]; intros acc H A; [exact A|].
  cbn [forallb] in H. apply andb_prop in H. destruct H as (Hc & H).
  cbn [fold_left]. apply IH; [exact H|]. pose proof (digit_value c Hc). lia.
Qed.

Lemma decimalValue_nonneg ds : forallb isDigit ds = true -> 0 <= decimalValue ds.
Proof. intros H. apply digits_nonneg; [exact H | lia]. Qed.

Lemma parseInt_digits ds :
  ds <> [] -> forallb isDigit ds = true -> parseInt ds = fl (inject_Z (decimalValue ds)).
Proof.
  intros N H. destruct ds as [|c ds]; [contradiction|].
  pose proof H as H0. cbn [forallb] in H0. apply andb_prop in H0. destruct H0 as (Hc & Hds).
  destruct (digit_plain c Hc) as (Sc & Mc & Pc & _).
  unfold parseInt. cbn [dropWhile]. rewrite Sc, Mc, Pc.
  assert (V : forall r, forallb isDigit (c :: r) = true ->
            (let '(v, n) := digitsIn 10 (c :: r) 0 0 in
             if (n =? 0)%nat then NaN else fl (inject_Z (1 * v)))
            = fl (inject_Z (decimalValue (c :: r)))).
  { intros r Hr. rewrite (digitsIn_digits (c :: r) 0 0%nat Hr).
    cbn [Nat.add List.length Nat.eqb]. unfold decimalValue. rewrite Z.mul_1_l. reflexivity. }
  destruct ds as [|x ds'].
  - exact (V [] H).
  - cbn [forallb] in Hds. apply andb_prop in Hds. destruct Hds as (Hx & _).
    destruct (digit_plain x Hx) as (_ & _ & _ & X1 & X2). rewrite X1, X2.
    rewrite andb_false_r. exact (V (x :: ds') H).
Qed.

Lemma parseInt_notNumeric s : notNumeric s = true -> parseInt s = NaN.
Proof.
  unfold notNumeric, parseInt. destruct (dropWhile isSpace s) as [|c r]; [reflexivity|].
  intros H. apply negb_true_iff in H. apply orb_false_iff in H. destruct H as (H & M).
  apply orb_false_iff in H. destruct H as (D & P).
  unfold chr in M, P. rewrite M, P.
  assert (Z0 : Ascii.eqb c "0" = false).
  { destruct (Ascii.eqb c "0") eqn:E; [|reflexivity].
    apply Ascii.eqb_eq in E. subst c. discriminate D. }
  destruct r as [|x r'].
  - cbn [digitsIn]. rewrite digitIn_decimal, D. reflexivity.
  - rewrite Z0. cbn [andb digitsIn]. rewrite digitIn_decimal, D. reflexivity.
Qed.

(** What [parseInt] returns has no fractional part. *)
Lemma parseInt_integral s :
  parseInt s = NaN \/ parseInt s = PosInfinity \/ parseInt s = NegInfinity
  \/ exists k, parseInt s = integer k.
Proof.
  unfold parseInt.
  destruct (match dropWhile isSpace s with
            | [] => (1, dropWhile isSpace s)
            | c :: s' => if Ascii.eqb c "-" then (-1, s')
                         else if Ascii.eqb c "+" then (1, s') else (1, dropWhile isSpace s)
            end) as (sign, s1).
  destruct (match s1 with
            | c :: x :: s' =>
                if Ascii.eqb c "0" && (Ascii.eqb x "x" || Ascii.eqb x "X")
                then (16, s') else (10, s1)
            | _ => (10, s1)
            end) as (radix, s2).
  destruct (digitsIn radix s2 0 0) as (v, n).
  destruct (n =? 0)%nat; [left; reflexivity|].
  destruct (fl_integral (sign * v)) as [(E & _)|[(E & _)|(k & E & _)]]; rewrite E; eauto.
Qed.

Lemma integer_inj a b : integer a = integer b -> a = b.
Proof. intros H. inversion H. reflexivity. Qed.

Lemma max_one k : Math_max (integer 1) (integer k) = integer (Z.max 1 k).
Proof.
  unfold Math_max. change (integer 1) with (Finite (inject_Z 1)) at 1.
  change (integer k) with (Finite (inject_Z k)) at 1. cbv iota.
  change (Finite (inject_Z 1)) with (integer 1). change (Finite (inject_Z k)) with (integer k).
  rewrite lt_integer. destruct (Z.ltb_spec 1 k); f_equal; lia.
Qed.

Lemma min_hundred k : Math_min (integer 100) (integer k) = integer (Z.min 100 k).
Proof.
  unfold Math_min. change (integer 100) with (Finite (inject_Z 100)) at 1.
  change (integer k) with (Finite (inject_Z k)) at 1. cbv iota.
  change (Finite (inject_Z 100)) with (integer 100). change (Finite (inject_Z k)) with (integer k).
  rewrite lt_integer. destruct (Z.ltb_spec k 100); f_equal; lia.
Qed.

Lemma calculatePagination_fields pageArg limitArg :
  page (calculatePagination pageArg limitArg)
  = Math_max (integer 1) (parseInt (match pageArg with Some s => s | None => L "1" end))
  /\ limit (calculatePagination pageArg limitArg)
     = Math_min (integer 100)
         (Math_max (integer 1) (parseInt (match limitArg with Some s => s | None => L "20" end)))
  /\ skip (calculatePagination pageArg limitArg)
     = mul (sub (page (calculatePagination pageArg limitArg)) (integer 1))
           (limit (calculatePagination pageArg limitArg)).
Proof. repeat split. Qed.

(** The page is NaN, infinite or an integer from 1 on. *)
Lemma page_cases pageArg limitArg :
  page (calculatePagination pageArg limitArg) = NaN
  \/ page (calculatePagination pageArg limitArg) = PosInfinity
  \/ exists p, page (calculatePagination pageArg limitArg) = integer p /\ 1 <= p.
Proof.
  destruct (calculatePagination_fields pageArg limitArg) as (P & _). rewrite P.
  destruct (parseInt_integral (match pageArg with Some s => s | None => L "1" end))
    as [E|[E|[E|(k & E)]]]; rewrite E.
  - left. reflexivity.
  - right. left. reflexivity.
  - right. right. exists 1. split; [reflexivity | lia].
  - right. right. exists (Z.max 1 k). split; [apply max_one | lia].
Qed.

(** The limit is NaN or an integer from 1 to 100. *)
Lemma limit_cases pageArg limitArg :
  limit (calculatePagination pageArg limitArg) = NaN
  \/ exists l, limit (calculatePagination pageArg limitArg) = integer l /\ 1 <= l <= 100.
Proof.
  destruct (calculatePagination_fields pageArg limitArg) as (_ & Lm & _). rewrite Lm.
  destruct (parseInt_integral (match limitArg with Some s => s | None => L "20" end))
    as [E|[E|[E|(k & E)]]]; rewrite E.
  - left. reflexivity.
  - right. exists 100. split; [reflexivity | lia].
  - right. exists 1. split; [reflexivity | lia].
  - right. exists (Z.min 100 (Z.max 1 k)). split; [rewrite max_one; apply min_hundred | lia].
Qed.

(** The product of integers that are not negative is rounded to such an
    integer, or to infinity. *)
Lemma fl_natural z :
  0 <= z ->
  fl (inject_Z z) = PosInfinity \/ exists k, fl (inject_Z z) = integer k /\ 0 <= k.
Proof.
  intros H. assert (P : 0 < 2 ^ 53) by reflexivity.
  destruct (fl_integral z) as [(E & _)|[(E & B)|(k & E & In & Up & _)]].
  - left. exact E.
  - lia.
  - right. exists k. split; [exact E|].
    destruct (Z_le_gt_dec z (2 ^ 53)) as [A|A]; [rewrite In; lia | specialize (Up ltac:(lia)); lia].
Qed.

(** The number of items to skip is not negative. *)
Lemma skip_cases pageArg limitArg :
  skip (calculatePagination pageArg limitArg) = NaN
  \/ skip (calculatePagination pageArg limitArg) = PosInfinity
  \/ exists s, skip (calculatePagination pageArg limitArg) = integer s /\ 0 <= s.
Proof.
  destruct (calculatePagination_fields pageArg limitArg) as (_ & _ & Sk). rewrite Sk.
  destruct (limit_cases pageArg limitArg) as [El|(l & El & Bl)]; rewrite El.
  - left. destruct (page_cases pageArg limitArg) as [Ep|[Ep|(p & Ep & _)]]; rewrite Ep.
    + reflexivity.
    + reflexivity.
    + rewrite sub_integer. destruct (fl (inject_Z (p - 1))); reflexivity.
  - destruct (page_cases pageArg limitArg) as [Ep|[Ep|(p & Ep & Bp)]]; rewrite Ep.
    + left. reflexivity.
    + right. left. destruct l as [|q|q]; try lia. reflexivity.
    + rewrite sub_integer.
      destruct (fl_natural (p - 1) ltac:(lia)) as [E|(k & E & Bk)]; rewrite E.
      * right. left. destruct l as [|q|q]; try lia. reflexivity.
      * rewrite mul_integer.
        destruct (fl_natural (k * l) ltac:(nia)) as [E'|(k' & E' & Bk')]; rewrite E'.
        -- right. left. reflexivity.
        -- right. right. exists k'. split; [reflexivity | exact Bk'].
Qed.

(** Within 53 bits the number of items to skip is exact. *)
Lemma skip_exact pageArg limitArg p l :
  page (calculatePagination pageArg limitArg) = integer p ->
  limit (calculatePagination pageArg limitArg) = integer l ->
  (p - 1) * l <= 2 ^ 53 ->
  1 <= p /\ 1 <= l <= 100
  /\ skip (calculatePagination pageArg limitArg) = integer ((p - 1) * l).
Proof.
  intros Ep El B.
  assert (Bp : 1 <= p).
  { destruct (page_cases pageArg limitArg) as [E|[E|(p' & E & Bp)]];
      rewrite Ep in E; try discriminate E. apply integer_inj in E. lia. }
  assert (Bl : 1 <= l <= 100).
  { destruct (limit_cases pageArg limitArg) as [E|(l' & E & Bl)];
      rewrite El in E; try discriminate E. apply integer_inj in E. lia. }
  split; [exact Bp|]. split; [exact Bl|].
  destruct (calculatePagination_fields pageArg limitArg) as (_ & _ & Sk).
  rewrite Sk, Ep, El, sub_integer.
  assert (P : 0 < 2 ^ 53) by reflexivity.
  rewrite (fl_integer (p - 1)) by nia. rewrite mul_integer. apply fl_integer. nia.
Qed.

End PaginationFacts.

Module PaginationTheorems.
Import Chars JsString Double ApiResponse StringFacts DoubleFacts PaginationFacts.

Local Open Scope Z_scope.

(** [calculatePagination] clamps what it reads, in the doubles of the
    runtime.  The page is NaN, infinite or an integer from 1 on; the
    limit is NaN or an integer from 1 to 100; the number of items to
    skip is NaN, infinite or an integer that is not negative, and it is
    [(page - 1) * limit] exactly when this product is at most [2 ^ 53].
    An argument left out counts as page 1 and limit 20.  An argument
    made of digits is read as the double nearest to the number written,
    which is that number up to [2 ^ 53], and clamped; for the limit the
    result is the clamped number written whatever its size.  An argument
    that is given but does not start with a number, as the empty text,
    makes the value NaN instead of the default, and with it the number
    of items to skip. *)
Theorem calculatePagination_bounds (pageArg limitArg : option text) :
  (page (calculatePagination pageArg limitArg) = NaN
   \/ page (calculatePagination pageArg limitArg) = PosInfinity
   \/ exists p, page (calculatePagination pageArg limitArg) = integer p /\ 1 <= p)
  /\ (limit (calculatePagination pageArg limitArg) = NaN
      \/ exists l, limit (calculatePagination pageArg limitArg) = integer l /\ 1 <= l <= 100)
  /\ (skip (calculatePagination pageArg limitArg) = NaN
      \/ skip (calculatePagination pageArg limitArg) = PosInfinity
      \/ exists s, skip (calculatePagination pageArg limitArg) = integer s /\ 0 <= s)
  /\ (forall p l,
        page (calculatePagination pageArg limitArg) = integer p ->
        limit (calculatePagination pageArg limitArg) = integer l ->
        (p - 1) * l <= 2 ^ 53 ->
        skip (calculatePagination pageArg limitArg) = integer ((p - 1) * l))
  /\ (pageArg = None -> page (calculatePagination pageArg limitArg) = integer 1)
  /\ (limitArg = None -> limit (calculatePagination pageArg limitArg) = integer 20)
  /\ (forall ds, pageArg = Some ds -> ds <> [] -> forallb isDigit ds = true ->
        page (calculatePagination pageArg limitArg)
        = Math_max (integer 1) (fl (inject_Z (decimalValue ds)))
        /\ (decimalValue ds <= 2 ^ 53 ->
            page (calculatePagination pageArg limitArg) = integer (Z.max 1 (decimalValue ds))))
  /\ (forall ds, limitArg = Some ds -> ds <> [] -> forallb isDigit ds = true ->
        limit (calculatePagination pageArg limitArg)
        = integer (Z.min 100 (Z.max 1 (decimalValue ds))))
  /\ (forall s, pageArg = Some s -> notNumeric s = true ->
        page (calculatePagination pageArg limitArg) = NaN
        /\ skip (calculatePagination pageArg limitArg) = NaN)
  /\ (forall s, limitArg = Some s -> notNumeric s = true ->
        limit (calculatePagination pageArg limitArg) = NaN
        /\ skip (calculatePagination pageArg limitArg) = NaN).
Proof.
  destruct (calculatePagination_fields pageArg limitArg) as (P & Lm & Sk).
  assert (P53 : 0 < 2 ^ 53) by reflexivity.
  split; [apply page_cases|]. split; [apply limit_cases|]. split; [apply skip_cases|].
  split; [intros p l Ep El B; apply (skip_exact pageArg limitArg p l Ep El B)|].
  split; [intros ->; rewrite P; reflexivity|].
  split; [intros ->; rewrite Lm; reflexivity|].
  split.
  { intros ds -> N D. rewrite P, (parseInt_digits ds N D). split; [reflexivity|].
    intros B. pose proof (decimalValue_nonneg ds D).
    rewrite (fl_integer (decimalValue ds)) by lia. apply max_one. }
  split.
  { intros ds -> N D. rewrite Lm, (parseInt_digits ds N D).
    pose proof (decimalValue_nonneg ds D) as V.
    destruct (fl_integral (decimalValue ds)) as [(E & B)|[(E & B)|(k & E & In & Up & _)]];
      rewrite E.
    - change (Math_min (integer 100) (Math_max (integer 1) PosInfinity)) with (integer 100).
      f_equal. lia.
    - lia.
    - rewrite max_one, min_hundred. f_equal.
      destruct (Z_le_gt_dec (decimalValue ds) (2 ^ 53)) as [A|A].
      + rewrite In by lia. reflexivity.
      + specialize (Up ltac:(lia)).
        assert (100 < 2 ^ 53) by reflexivity. lia. }
  split.
  - intros s -> N. rewrite Sk, P, (parseInt_notNumeric s N). split; reflexivity.
  - intros s -> N. rewrite Sk, Lm, (parseInt_notNumeric s N).
    split; [reflexivity|].
    change (Math_min (integer 100) (Math_max (integer 1) NaN)) with NaN.
    destruct (sub (page (calculatePagination pageArg (Some s))) (integer 1)); reflexivity.
Qed.

(** The cases of the statement on the query [?page=3&limit=500], on a
    query without either, on [?limit=] and on a page of 54 bits, which
    is read as the even number below it. *)
Lemma calculatePagination_bounds_witness :
  calculatePagination (Some (L "3")) (Some (L "500"))
  = {| page := integer 3; limit := integer 100; skip := integer 200 |}
  /\ page (calculatePagination None None) = integer 1
  /\ limit (calculatePagination None None) = integer 20
  /\ skip (calculatePagination None (Some [])) = NaN
  /\ page (calculatePagination (Some (L "9007199254740993")) None) = integer 9007199254740992
  /\ skip (calculatePagination (Some (L "9007199254740992")) (Some (L "3")))
     = integer 27021597764222972.
Proof.
  split; [reflexivity|].
  destruct (calculatePagination_bounds None None) as (_ & _ & _ & _ & P & Lm & _).
  split; [exact (P eq_refl)|].
  split; [exact (Lm eq_refl)|].
  destruct (calculatePagination_bounds None (Some []))
    as (_ & _ & _ & _ & _ & _ & _ & _ & _ & N).
  split; [exact (proj2 (N [] eq_refl eq_refl))|].
  destruct (calculatePagination_bounds (Some (L "9007199254740993")) None)
    as (_ & _ & _ & _ & _ & _ & D & _).
  split; [|vm_compute; reflexivity].
  rewrite (proj1 (D (L "9007199254740993") eq_refl ltac:(discriminate) eq_refl)).
  vm_compute. reflexivity.
Defined.

(** [getReceipts] gives [sendPaginated] the page and the limit of
    [calculatePagination] and the count of the matching documents.  When
    the page and the limit are numbers with [page * limit] below
    [2 ^ 53] and the count is below [2 ^ 53], every number of the
    answer is exact: the items skipped are [(page - 1) * limit], the
    number of pages is the least that holds all items, there is a next
    page exactly when items remain after those skipped and those of this
    page, and a previous page exactly when items were skipped; the
    numbers of these pages are reported in these cases only. *)
Theorem sendPaginated_after_calculatePagination (pageArg limitArg : option text)
    (p l total : Z) :
  page (calculatePagination pageArg limitArg) = integer p ->
  limit (calculatePagination pageArg limitArg) = integer l ->
  p * l < 2 ^ 53 ->
  0 <= total < 2 ^ 53 ->
  exists t,
    skip (calculatePagination pageArg limitArg) = integer ((p - 1) * l)
    /\ totalPages (sendPaginated (integer p) (integer l) (integer total)) = integer t
    /\ (t - 1) * l < total <= t * l
    /\ (hasNext (sendPaginated (integer p) (integer l) (integer total)) = true
        <-> (p - 1) * l + l < total)
    /\ (hasPrev (sendPaginated (integer p) (integer l) (integer total)) = true
        <-> 0 < (p - 1) * l)
    /\ nextPage (sendPaginated (integer p) (integer l) (integer total))
       = (if (p - 1) * l + l <? total then Some (integer (p + 1)) else None)
    /\ prevPage (sendPaginated (integer p) (integer l) (integer total))
       = (if 0 <? (p - 1) * l then Some (integer (p - 1)) else None).
Proof.
  intros Ep El B T. assert (P53 : 0 < 2 ^ 53) by reflexivity.
  assert (B' : (p - 1) * l <= 2 ^ 53).
  { destruct (limit_cases pageArg limitArg) as [E|(l' & E & Bl)];
      rewrite El in E; try discriminate E. apply integer_inj in E. nia. }
  destruct (skip_exact pageArg limitArg p l Ep El B') as (Hp & Hl & Hs).
  assert (L53 : l < 2 ^ 53) by (assert (100 < 2 ^ 53) by reflexivity; lia).
  unfold sendPaginated. cbv zeta.
  cbn [totalPages hasNext hasPrev nextPage prevPage].
  rewrite (ceil_div total l T ltac:(lia)).
  set (t := - (- total / l)).
  assert (Ht : (t - 1) * l < total <= t * l).
  { unfold t. pose proof (Z.div_mod (- total) l ltac:(lia)) as DM.
    pose proof (Z.mod_pos_bound (- total) l ltac:(lia)) as MB. nia. }
  rewrite !lt_integer, add_integer, sub_integer.
  rewrite (fl_integer (p + 1)) by nia. rewrite (fl_integer (p - 1)) by nia.
  assert (N : (p <? t) = ((p - 1) * l + l <? total)).
  { destruct (Z.ltb_spec p t) as [A|A]; destruct (Z.ltb_spec ((p - 1) * l + l) total) as [C|C];
      try reflexivity; exfalso; nia. }
  assert (V : (1 <? p) = (0 <? (p - 1) * l)).
  { destruct (Z.ltb_spec 1 p) as [A|A]; destruct (Z.ltb_spec 0 ((p - 1) * l)) as [C|C];
      try reflexivity; exfalso; nia. }
  exists t. rewrite N, V.
  split; [exact Hs|]. split; [reflexivity|]. split; [exact Ht|].
  split; [apply Z.ltb_lt|]. split; [apply Z.ltb_lt|]. split; reflexivity.
Qed.

Lemma sendPaginated_after_calculatePagination_witness :
  totalPages (sendPaginated (integer 2) (integer 10) (integer 35)) = integer 4
  /\ hasNext (sendPaginated (integer 2) (integer 10) (integer 35)) = true
  /\ nextPage (sendPaginated (integer 2) (integer 10) (integer 35)) = Some (integer 3)
  /\ exists t, totalPages (sendPaginated (integer 2) (integer 10) (integer 35)) = integer t
               /\ (t - 1) * 10 < 35 <= t * 10.
Proof.
  destruct (sendPaginated_after_calculatePagination (Some (L "2")) (Some (L "10")) 2 10 35
              eq_refl eq_refl ltac:(reflexivity) ltac:(split; [lia | reflexivity]))
    as (t & _ & Tp & Tb & _).
  split; [vm_compute; reflexivity|]. split; [vm_compute; reflexivity|].
  split; [vm_compute; reflexivity|].
  exists t. split; [exact Tp | exact Tb].
Defined.

End PaginationTheorems.

Module RerunFacts.
Import Chars JsString Json Data Eff EffFacts OCRService OrchestratorFacts TraceFacts RunFacts2
  RecognizerTheorems.

(** Two worlds whose converters, image pipeline and OCR engine answer
    alike; their clocks are free. *)
Definition sameEngine (w1 w2 : World) : Prop :=
  (forall p, pdf2pic_bulk w1 p = pdf2pic_bulk w2 p)
  /\ (forall p q, sharp_toFile w1 p q = sharp_toFile w2 p q)
  /\ tesseract_createWorker w1 = tesseract_createWorker w2
  /\ (forall p, tesseract_recognize w1 p = tesseract_recognize w2 p).

(** Two states with the OCR worker in the same condition. *)
Definition sameWorker (st1 st2 : St) : Prop :=
  tesseractInitialized st1 = tesseractInitialized st2.

(** Two computations that, from states with the worker in the same
    condition, give the same result and leave the worker in the same
    condition, without reading the clock. *)
Definition alike {A} (c1 c2 : M St A) : Prop :=
  forall st1 st2, sameWorker st1 st2 ->
    fst (c1 st1) = fst (c2 st2)
    /\ sameWorker (snd (c1 st1)) (snd (c2 st2))
    /\ clockReads (snd (c1 st1)) = clockReads st1
    /\ clockReads (snd (c2 st2)) = clockReads st2.

Lemma alike_ret {A} (a : A) : alike (ret a) (ret a).
Proof. intros st1 st2 H. cbn. auto. Qed.

Lemma alike_throw {A} e : alike (@throw St A e) (throw e).
Proof. intros st1 st2 H. cbn. auto. Qed.

Lemma alike_lift {A} (r1 r2 : Exn A) : r1 = r2 -> alike (lift r1) (lift r2).
Proof. intros -> st1 st2 H. cbn. auto. Qed.

Lemma alike_bind {A B} (c1 c2 : M St A) (k1 k2 : A -> M St B) :
  alike c1 c2 -> (forall a, alike (k1 a) (k2 a)) -> alike (bind c1 k1) (bind c2 k2).
Proof.
  intros Hc Hk st1 st2 H. destruct (Hc st1 st2 H) as (R & W & C1 & C2).
  unfold bind. destruct (c1 st1) as [[a1|e1] s1], (c2 st2) as [[a2|e2] s2];
    cbn in R, W, C1, C2; inversion R; subst.
  - destruct (Hk a2 s1 s2 W) as (R' & W' & C1' & C2').
    rewrite C1', C2'. auto.
  - cbn. auto.
Qed.

Lemma alike_tryCatch {A} (c1 c2 : M St A) (h1 h2 : text -> M St A) :
  alike c1 c2 -> (forall e, alike (h1 e) (h2 e)) -> alike (tryCatch c1 h1) (tryCatch c2 h2).
Proof.
  intros Hc Hh st1 st2 H. destruct (Hc st1 st2 H) as (R & W & C1 & C2).
  unfold tryCatch. destruct (c1 st1) as [[a1|e1] s1], (c2 st2) as [[a2|e2] s2];
    cbn in R, W, C1, C2; inversion R; subst.
  - cbn. auto.
  - destruct (Hh e2 s1 s2 W) as (R' & W' & C1' & C2').
    rewrite C1', C2'. auto.
Qed.

Lemma alike_worker : alike (gets tesseractInitialized) (gets tesseractInitialized).
Proof. intros st1 st2 H. cbn. unfold sameWorker in H. rewrite H. auto. Qed.

Lemma alike_setTesseract b : alike (setTesseract b) (setTesseract b).
Proof. intros st1 st2 H. cbn. unfold sameWorker. cbn. auto. Qed.

Section Engines.

Context {platform : Platform}.
Variables w1 w2 : World.
Hypothesis same : sameEngine w1 w2.

Lemma alike_prepareImageFiles path :
  alike (prepareImageFiles w1 path) (prepareImageFiles w2 path).
Proof.
  destruct same as (Pb & Sh & _ & _).
  unfold prepareImageFiles. cbv zeta.
  destruct (text_eqb (toLowerCase (extname path)) (L ".pdf")).
  - unfold convertPdfToImages. apply alike_tryCatch.
    + apply alike_lift. apply Pb.
    + intros e. apply alike_throw.
  - destruct (existsb _ imageExtensions); [|apply alike_throw].
    apply alike_bind; [|intros a; apply alike_ret].
    unfold preprocessImage. cbv zeta. apply alike_tryCatch.
    + apply alike_bind; [apply alike_lift; apply Sh | intros _; apply alike_ret].
    + intros _. apply alike_ret.
Qed.

Lemma alike_initializeTesseract : alike (initializeTesseract w1) (initializeTesseract w2).
Proof.
  destruct same as (_ & _ & Cw & _).
  unfold initializeTesseract. apply alike_bind; [apply alike_worker | intros b].
  destruct b; [apply alike_ret|].
  apply alike_tryCatch; [|intros e; apply alike_throw].
  apply alike_bind; [apply alike_lift; exact Cw | intros _; apply alike_setTesseract].
Qed.

Lemma alike_recognizeAll paths : forall acc scores,
  alike (recognizeAll w1 paths acc scores) (recognizeAll w2 paths acc scores).
Proof.
  destruct same as (_ & _ & _ & Rc).
  induction paths as [|p paths IH]; intros acc scores; cbn [recognizeAll].
  - apply alike_ret.
  - apply alike_bind; [|intros r; apply IH].
    unfold extractTextFromImage. apply alike_tryCatch; [|intros e; apply alike_throw].
    apply alike_bind; [apply alike_lift; apply Rc | intros r; apply alike_ret].
Qed.

End Engines.

Section Tier.

Context {platform : Platform}.
Variable w : World.

(** The tier up to the parse: the images, the worker, the recognition. *)
Definition recognition (path : text) : M St (list text * (text * list Q)) :=
  bind (prepareImageFiles w path) (fun imagePaths =>
  bind (initializeTesseract w) (fun _ =>
  bind (recognizeAll w imagePaths [] []) (fun r =>
  ret (imagePaths, r)))).

(** The state in which the recognition starts. *)
Definition entered (path : text) (st : St) : St :=
  started w (snd (log (HeuristicTier path) st)).

(** The result of the tier from the outcome of the recognition: the
    parse and the empty parse are made at the next reading of the clock. *)
Lemma tier_of_recognition path st out s :
  recognition path (entered path st) = (out, s) ->
  exists r st',
    processWithTesseract w path st = (Ok r, st')
    /\ match out with
       | Ok (_, (txt, scores)) =>
           success r = true /\ error r = None
           /\ extractedText r = JStr (trim txt)
           /\ parsedData r = Heuristic (parseReceiptData (clock w (clockReads s)) txt)
           /\ ocr_confidence r = JNum (average scores / 100)
       | Throw e =>
           success r = false /\ error r = Some e
           /\ extractedText r = JStr []
           /\ parsedData r = Heuristic (getEmptyParsedData (clock w (clockReads s)))
           /\ ocr_confidence r = JNum 0
       end
    /\ method r = L "tesseract".
Proof.
  intros E. unfold processWithTesseract.
  unfold bind at 1. cbn [log modify].
  unfold bind at 1. rewrite readClock_started.
  change (started w _) with (entered path st).
  unfold recognition in E.
  unfold tryCatch. unfold bind at 1. unfold bind at 1 in E.
  destruct (prepareImageFiles w path (entered path st)) as [[paths|e] s1].
  - unfold bind at 1. unfold bind at 1 in E.
    destruct (initializeTesseract w s1) as [[[]|e] s2].
    + unfold bind at 1. unfold bind at 1 in E.
      destruct (recognizeAll w paths [] [] s2) as [[[txt scores]|e] s3].
      * cbn [ret] in E. inversion E; subst out s. clear E.
        unfold bind at 1. rewrite readClock_started. cbv zeta.
        unfold bind at 1. rewrite cleanupTempFiles_run.
        unfold bind at 1. rewrite readClock_started. cbn [ret fst snd].
        eexists _, _. split; [reflexivity|]. cbn. repeat split.
      * inversion E; subst out s. clear E.
        unfold bind at 1. rewrite readClock_started.
        unfold bind at 1. rewrite readClock_started. cbn [ret].
        eexists _, _. split; [reflexivity|]. cbn. repeat split.
    + inversion E; subst out s. clear E.
      unfold bind at 1. rewrite readClock_started.
      unfold bind at 1. rewrite readClock_started. cbn [ret].
      eexists _, _. split; [reflexivity|]. cbn. repeat split.
  - inversion E; subst out s. clear E.
    unfold bind at 1. rewrite readClock_started.
    unfold bind at 1. rewrite readClock_started. cbn [ret].
    eexists _, _. split; [reflexivity|]. cbn. repeat split.
Qed.

End Tier.

Section Window.

Context {platform : Platform}.

(** Two instants of the same local calendar day. *)
Definition sameLocalDay (t1 t2 : Z) : Prop :=
  JsDate.Day (JsDate.LocalTime LocalTZA t1) = JsDate.Day (JsDate.LocalTime LocalTZA t2).

(** The window is that of the local day. *)
Lemma window_of_day now1 now2 d :
  sameLocalDay now1 now2 -> isReasonableDate now1 d = isReasonableDate now2 d.
Proof.
  unfold sameLocalDay. intros H. unfold isReasonableDate.
  unfold JsDate.getFullYear, JsDate.getMonth, JsDate.getDate.
  unfold JsDate.DateFromTime, JsDate.MonthFromTime, JsDate.DayWithinYear, JsDate.InLeapYear,
    JsDate.YearFromTime.
  rewrite H. reflexivity.
Qed.

(** The parse at two instants. *)
Lemma parse_at_two_instants now1 now2 t :
  merchantName (parseReceiptData now1 t) = merchantName (parseReceiptData now2 t)
  /\ totalAmount (parseReceiptData now1 t) = totalAmount (parseReceiptData now2 t)
  /\ items (parseReceiptData now1 t) = items (parseReceiptData now2 t)
  /\ taxAmount (parseReceiptData now1 t) = taxAmount (parseReceiptData now2 t)
  /\ category (parseReceiptData now1 t) = category (parseReceiptData now2 t)
  /\ paymentMethod (parseReceiptData now1 t) = paymentMethod (parseReceiptData now2 t)
  /\ (sameLocalDay now1 now2 ->
      confidence (date (parseReceiptData now1 t)) = confidence (date (parseReceiptData now2 t))
      /\ (value (date (parseReceiptData now1 t)) = value (date (parseReceiptData now2 t))
          \/ (date (parseReceiptData now1 t) = {| value := now1; confidence := 0%Q |}
              /\ date (parseReceiptData now2 t) = {| value := now2; confidence := 0%Q |}))).
Proof.
  unfold parseReceiptData.
  destruct (List.length (trim t) =? 0).
  - repeat split; auto.
  - cbn [merchantName totalAmount items taxAmount category paymentMethod date].
    repeat split; try reflexivity.
    + unfold extractDate.
      rewrite (dateCandidates_agree now1 now2 t (fun d => window_of_day now1 now2 d H)).
      destruct (sortByConfidence (dateCandidates now2 t)); reflexivity.
    + unfold extractDate.
      rewrite (dateCandidates_agree now1 now2 t (fun d => window_of_day now1 now2 d H)).
      destruct (sortByConfidence (dateCandidates now2 t)); [right | left]; auto.
Qed.

End Window.

End RerunFacts.

Module RerunTheorems.
Import Chars JsString Json Data Eff EffFacts OCRService OrchestratorFacts TraceFacts RunFacts2
  RecognizerTheorems RerunFacts.


(** The engine of the sample world two years later. *)
Definition twoYearsLater : World :=
  {| env_OCR_METHOD := env_OCR_METHOD Samples.offline;
     env_GEMINI_API_KEY := env_GEMINI_API_KEY Samples.offline;
     clock := fun k => (feb2026 + Z.of_nat k)%Z;
     pdf2pic_bulk := pdf2pic_bulk Samples.offline;
     pdf2pic_first := pdf2pic_first Samples.offline;
     sharp_toFile := sharp_toFile Samples.offline;
     tesseract_createWorker := tesseract_createWorker Samples.offline;
     tesseract_recognize := tesseract_recognize Samples.offline;
     fs_readFile := fs_readFile Samples.offline;
     fs_unlink := fs_unlink Samples.offline;
     gemini_generateContent := gemini_generateContent Samples.offline |}.


End RerunTheorems.

